(** * neolum-automata-lab: the automata library ([@/lib/automata])

    A shallow embedding of the regex -> NFA-lambda -> NFA -> DFA pipeline,
    of the string matcher and of the edge-list ingestor, followed by the
    properties the specification states about them.

    Conventions of the embedding.
    - A JavaScript string is the list of its UTF-16 code units ([jstring]).
    - A JavaScript [Set] or [Map] is a duplicate-free list in insertion
      order, which is also its iteration order.
    - [State] objects are mutable and shared by reference in the source
      (fragments and state arrays point to the same objects), so they live
      in a heap; arrays of states are lists of references.
    - Loops whose termination is not structural take fuel; running out of
      fuel, like following a reference that was never allocated, yields
      [None].  Totality is proved separately.
    - The recursion of [parse] takes its depth from the call stack;
      [regexToNFALambdaWithin] makes the room on the stack explicit, and
      [regexToNFALambda] gives [parse] the room that its input needs. *)

From Stdlib Require Import Ascii String.
From Stdlib Require Import List NArith Arith Bool Lia.
From Stdlib Require Decimal DecimalNat.
Import ListNotations.
Local Open Scope list_scope.
Local Open Scope nat_scope.

(* ================================================================== *)
(** ** JavaScript strings *)

Definition jstring := list N.

Fixpoint str_eqb (a b : jstring) : bool :=
  match a, b with
  | [], [] => true
  | x :: a', y :: b' => N.eqb x y && str_eqb a' b'
  | _, _ => false
  end.

(** An ASCII literal as a JavaScript string. *)
Definition lit (s : String.string) : jstring :=
  map N_of_ascii (list_ascii_of_string s).

(** The epsilon marker ['λ'] (U+03BB), the glyph ['ε'] (U+03B5) and the
    empty-subset sentinel ['∅'] (U+2205): one code unit each. *)
Definition LAMBDA : jstring := [955%N].
Definition EPSILON : jstring := [949%N].
Definition EMPTYSET : jstring := [8709%N].

(** [a || b] on strings: the empty string is falsy. *)
Definition orElse (a b : jstring) : jstring :=
  match a with [] => b | _ => a end.

(** [expr[i]] (for [i] in range) and [expr.slice(a, b)] for
    non-negative indices. *)
Definition charAt (expr : jstring) (i : nat) : jstring := firstn 1 (skipn i expr).
Definition slice (expr : jstring) (a b : nat) : jstring := firstn (b - a) (skipn a expr).

(** Decimal rendering of a number, as template literals do. *)
Fixpoint digits (u : Decimal.uint) : jstring :=
  match u with
  | Decimal.Nil => []
  | Decimal.D0 u => 48%N :: digits u
  | Decimal.D1 u => 49%N :: digits u
  | Decimal.D2 u => 50%N :: digits u
  | Decimal.D3 u => 51%N :: digits u
  | Decimal.D4 u => 52%N :: digits u
  | Decimal.D5 u => 53%N :: digits u
  | Decimal.D6 u => 54%N :: digits u
  | Decimal.D7 u => 55%N :: digits u
  | Decimal.D8 u => 56%N :: digits u
  | Decimal.D9 u => 57%N :: digits u
  end.

Definition toString (n : nat) : jstring := digits (Nat.to_uint n).

(** [`q${n}`] *)
Definition q_ (n : nat) : jstring := lit "q"%string ++ toString n.

(** Lexicographic comparison by code units, the order of [Array.sort()]
    without a comparator. *)
Fixpoint str_leb (a b : jstring) : bool :=
  match a, b with
  | [], _ => true
  | _ :: _, [] => false
  | x :: a', y :: b' => if N.ltb x y then true else if N.eqb x y then str_leb a' b' else false
  end.

Fixpoint insert_sorted (x : jstring) (l : list jstring) : list jstring :=
  match l with
  | [] => [x]
  | y :: l' => if str_leb x y then x :: l else y :: insert_sorted x l'
  end.

Definition sort (l : list jstring) : list jstring := fold_right insert_sorted [] l.

Fixpoint join (sep : jstring) (l : list jstring) : jstring :=
  match l with
  | [] => []
  | [x] => x
  | x :: l' => x ++ sep ++ join sep l'
  end.

(** [array.pop()]: the last element and the array without it. *)
Definition pop {A : Type} (l : list A) : option (A * list A) :=
  match rev l with
  | [] => None
  | x :: r => Some (x, rev r)
  end.

(* ================================================================== *)
(** ** Sets and maps in insertion order *)

Definition JSSet := list jstring.

Definition Set_has (s : JSSet) (x : jstring) : bool := existsb (str_eqb x) s.
Definition Set_add (s : JSSet) (x : jstring) : JSSet :=
  if Set_has s x then s else s ++ [x].
Definition new_Set (l : list jstring) : JSSet := fold_left Set_add l [].

Definition JSMap (V : Type) := list (jstring * V).

Definition Map_get {V} (m : JSMap V) (k : jstring) : option V :=
  option_map snd (find (fun kv => str_eqb (fst kv) k) m).
Definition Map_has {V} (m : JSMap V) (k : jstring) : bool :=
  existsb (fun kv => str_eqb (fst kv) k) m.
Fixpoint Map_set {V} (m : JSMap V) (k : jstring) (v : V) : JSMap V :=
  match m with
  | [] => [(k, v)]
  | (k', v') :: m' => if str_eqb k' k then (k, v) :: m' else (k', v') :: Map_set m' k v
  end.

(* ================================================================== *)
(** ** Types for automata *)

Record State := { id : jstring; isStart : bool; isAccept : bool }.

Record Transition := { from : jstring; to : jstring; symbol : jstring }.

(** A reference to a [State] object. *)
Definition ref := nat.

Record Automaton := {
  states : list ref;
  transitions : list Transition;
  alphabet : list jstring
}.

(* ================================================================== *)
(** ** The heap of [State] objects and the monad of the builders *)

Definition Heap := list State.

Definition ST (S A : Type) := S -> option (A * S).

Definition ret {S A} (a : A) : ST S A := fun s => Some (a, s).
Definition bind {S A B} (m : ST S A) (k : A -> ST S B) : ST S B :=
  fun s => match m s with Some (a, s') => k a s' | None => None end.
Definition fail {S A} : ST S A := fun _ => None.
Definition liftO {S A} (o : option A) : ST S A :=
  fun s => match o with Some a => Some (a, s) | None => None end.

Declare Scope st_scope.
Delimit Scope st_scope with st.
Notation "x <- m ;; k" := (bind m (fun x => k))
  (at level 61, m at next level, right associativity) : st_scope.
Notation "m ;;; k" := (bind m (fun _ => k))
  (at level 61, right associativity) : st_scope.
Local Open Scope st_scope.

Fixpoint mapM {S A B} (f : A -> ST S B) (l : list A) : ST S (list B) :=
  match l with
  | [] => ret []
  | a :: l' => b <- f a ;; bs <- mapM f l' ;; ret (b :: bs)
  end.

Fixpoint foldM {S A B} (f : B -> A -> ST S B) (l : list A) (b : B) : ST S B :=
  match l with
  | [] => ret b
  | a :: l' => b' <- f b a ;; foldM f l' b'
  end.

Definition M := ST Heap.

Definition alloc (s : State) : M ref := fun h => Some (length h, h ++ [s]).

Definition deref (r : ref) : M State :=
  fun h => match nth_error h r with Some s => Some (s, h) | None => None end.

Fixpoint replace_nth {A} (n : nat) (x : A) (l : list A) : list A :=
  match l, n with
  | [], _ => []
  | _ :: l', 0 => x :: l'
  | y :: l', S n' => y :: replace_nth n' x l'
  end.

Definition modify (r : ref) (f : State -> State) : M unit :=
  fun h => match nth_error h r with
           | Some s => Some (tt, replace_nth r (f s) h)
           | None => None
           end.

Definition set_isStart (b : bool) (s : State) : State :=
  {| id := id s; isStart := b; isAccept := isAccept s |}.
Definition set_isAccept (b : bool) (s : State) : State :=
  {| id := id s; isStart := isStart s; isAccept := b |}.

(* ================================================================== *)
(** ** Parse regex to NFA-lambda using Thompson's construction *)

(** The state of one [regexToNFALambda] call: its [stateCounter] and the
    heap. *)
Record Builder := { stateCounter : nat; heap : Heap }.

Definition B := ST Builder.

(** A heap operation run inside the builder. *)
Definition onHeap {A} (m : M A) : B A :=
  fun s => match m (heap s) with
           | Some (a, h) => Some (a, {| stateCounter := stateCounter s; heap := h |})
           | None => None
           end.

Definition newState (isStart isAccept : bool) : B ref :=
  fun s =>
    let n := stateCounter s in
    match alloc {| id := q_ n; isStart := isStart; isAccept := isAccept |} (heap s) with
    | Some (r, h) => Some (r, {| stateCounter := S n; heap := h |})
    | None => None
    end.

Module NFAFragment.
Record t := {
  start : ref;
  accept : ref;
  states : list ref;
  transitions : list Transition
}.
End NFAFragment.
Abbreviation NFAFragment := NFAFragment.t.

Definition createBasicNFA (symbol : jstring) : B NFAFragment :=
  start <- newState true false ;;
  accept <- newState false true ;;
  s <- onHeap (deref start) ;;
  a <- onHeap (deref accept) ;;
  ret {| NFAFragment.start := start;
         NFAFragment.accept := accept;
         NFAFragment.states := [start; accept];
         NFAFragment.transitions := [{| from := id s; to := id a; symbol := symbol |}] |}.

Definition concatenate (nfa1 nfa2 : NFAFragment) : B NFAFragment :=
  onHeap (modify (NFAFragment.accept nfa1) (set_isAccept false)) ;;;
  onHeap (modify (NFAFragment.start nfa2) (set_isStart false)) ;;;
  a1 <- onHeap (deref (NFAFragment.accept nfa1)) ;;
  s2 <- onHeap (deref (NFAFragment.start nfa2)) ;;
  ret {| NFAFragment.start := NFAFragment.start nfa1;
         NFAFragment.accept := NFAFragment.accept nfa2;
         NFAFragment.states := NFAFragment.states nfa1 ++ NFAFragment.states nfa2;
         NFAFragment.transitions :=
           NFAFragment.transitions nfa1 ++ NFAFragment.transitions nfa2 ++
           [{| from := id a1; to := id s2; symbol := LAMBDA |}] |}.

Definition union (nfa1 nfa2 : NFAFragment) : B NFAFragment :=
  start <- newState true false ;;
  accept <- newState false true ;;
  onHeap (modify (NFAFragment.start nfa1) (set_isStart false)) ;;;
  onHeap (modify (NFAFragment.start nfa2) (set_isStart false)) ;;;
  onHeap (modify (NFAFragment.accept nfa1) (set_isAccept false)) ;;;
  onHeap (modify (NFAFragment.accept nfa2) (set_isAccept false)) ;;;
  s <- onHeap (deref start) ;;
  a <- onHeap (deref accept) ;;
  s1 <- onHeap (deref (NFAFragment.start nfa1)) ;;
  s2 <- onHeap (deref (NFAFragment.start nfa2)) ;;
  a1 <- onHeap (deref (NFAFragment.accept nfa1)) ;;
  a2 <- onHeap (deref (NFAFragment.accept nfa2)) ;;
  ret {| NFAFragment.start := start;
         NFAFragment.accept := accept;
         NFAFragment.states :=
           [start] ++ NFAFragment.states nfa1 ++ NFAFragment.states nfa2 ++ [accept];
         NFAFragment.transitions :=
           NFAFragment.transitions nfa1 ++ NFAFragment.transitions nfa2 ++
           [{| from := id s; to := id s1; symbol := LAMBDA |};
            {| from := id s; to := id s2; symbol := LAMBDA |};
            {| from := id a1; to := id a; symbol := LAMBDA |};
            {| from := id a2; to := id a; symbol := LAMBDA |}] |}.

(** [kleeneStar], [kleenePlus] and [optional] allocate and strip flags
    alike and differ in the epsilon edges they add. *)
Definition wrap (nfa : NFAFragment)
    (edges : State -> State -> State -> State -> list Transition) : B NFAFragment :=
  start <- newState true false ;;
  accept <- newState false true ;;
  onHeap (modify (NFAFragment.start nfa) (set_isStart false)) ;;;
  onHeap (modify (NFAFragment.accept nfa) (set_isAccept false)) ;;;
  s <- onHeap (deref start) ;;
  a <- onHeap (deref accept) ;;
  ns <- onHeap (deref (NFAFragment.start nfa)) ;;
  na <- onHeap (deref (NFAFragment.accept nfa)) ;;
  ret {| NFAFragment.start := start;
         NFAFragment.accept := accept;
         NFAFragment.states := [start] ++ NFAFragment.states nfa ++ [accept];
         NFAFragment.transitions := NFAFragment.transitions nfa ++ edges s a ns na |}.

Definition kleeneStar (nfa : NFAFragment) : B NFAFragment :=
  wrap nfa (fun s a ns na =>
    [{| from := id s; to := id ns; symbol := LAMBDA |};
     {| from := id s; to := id a; symbol := LAMBDA |};
     {| from := id na; to := id ns; symbol := LAMBDA |};
     {| from := id na; to := id a; symbol := LAMBDA |}]).

Definition kleenePlus (nfa : NFAFragment) : B NFAFragment :=
  wrap nfa (fun s a ns na =>
    [{| from := id s; to := id ns; symbol := LAMBDA |};
     {| from := id na; to := id ns; symbol := LAMBDA |};
     {| from := id na; to := id a; symbol := LAMBDA |}]).

Definition optional (nfa : NFAFragment) : B NFAFragment :=
  wrap nfa (fun s a ns na =>
    [{| from := id s; to := id ns; symbol := LAMBDA |};
     {| from := id s; to := id a; symbol := LAMBDA |};
     {| from := id na; to := id a; symbol := LAMBDA |}]).

(** An element of [tokens]: a bare literal character or a built fragment. *)
Inductive token :=
| TString (c : jstring)
| TFragment (f : NFAFragment).

(** [typeof t === 'string' ? createBasicNFA(t) : t] *)
Definition fragmentOf (t : token) : B NFAFragment :=
  match t with
  | TString c => createBasicNFA c
  | TFragment f => ret f
  end.

(** [tokens.reduce((acc, t) => ..., null)]: concatenate all tokens. *)
Definition concatAll (tokens : list token) : B (option NFAFragment) :=
  foldM (fun acc t =>
           frag <- fragmentOf t ;;
           match acc with
           | Some a => r <- concatenate a frag ;; ret (Some r)
           | None => ret (Some frag)
           end) tokens None.

(** The inner [while (j < expr.length && depth > 0)] loop; [rest] is the
    part of [expr] from index [j] on. *)
Fixpoint matchParen (rest : jstring) (depth j : nat) : nat :=
  match rest with
  | [] => j
  | c :: rest' =>
    if 0 <? depth then
      let depth1 := if str_eqb [c] (lit "(") then depth + 1 else depth in
      let depth2 := if str_eqb [c] (lit ")") then depth1 - 1 else depth1 in
      matchParen rest' depth2 (j + 1)
    else j
  end.

(** A postfix operator applied to the popped last token. *)
Definition postfix (op : NFAFragment -> B NFAFragment) (tokens : list token)
  : B (list token) :=
  match pop tokens with
  | Some (last, tokens') =>
    f <- fragmentOf last ;;
    r <- op f ;;
    ret (tokens' ++ [TFragment r])
  | None => fail
  end.

Section Parse.
(** [parse] on the strictly shorter sub-expressions. *)
Variable parse : jstring -> B NFAFragment.
Variable expr : jstring.

(** The [while (i < expr.length)] loop of [parse] and what follows it. *)
Fixpoint parseLoop (fuel : nat) (tokens : list token) (i : nat) : B NFAFragment :=
  if i <? length expr then
    match fuel with
    | 0 => fail
    | S fuel' =>
      let char := charAt expr i in
      if str_eqb char (lit "(") then
        let j := matchParen (skipn (i + 1) expr) 1 (i + 1) in
        let subExpr := slice expr (i + 1) (j - 1) in
        f <- parse subExpr ;;
        parseLoop fuel' (tokens ++ [TFragment f]) j
      else if str_eqb char (lit "*") && (0 <? length tokens) then
        tokens' <- postfix kleeneStar tokens ;;
        parseLoop fuel' tokens' (i + 1)
      else if str_eqb char (lit "+") && (0 <? length tokens) then
        tokens' <- postfix kleenePlus tokens ;;
        parseLoop fuel' tokens' (i + 1)
      else if str_eqb char (lit "?") && (0 <? length tokens) then
        tokens' <- postfix optional tokens ;;
        parseLoop fuel' tokens' (i + 1)
      else if str_eqb char (lit "|") then
        left <- concatAll tokens ;;
        right <- parse (slice expr (i + 1) (length expr)) ;;
        match left with
        | Some l => union l right
        | None => ret right
        end
      else if negb (str_eqb char (lit " ")) then
        parseLoop fuel' (tokens ++ [TString char]) (i + 1)
      else
        parseLoop fuel' tokens (i + 1)
    end
  else
    r <- concatAll tokens ;;
    match r with
    | Some f => ret f
    | None => createBasicNFA LAMBDA
    end.
End Parse.

(** Simple regex parser. *)
Fixpoint parse (fuel : nat) (expr : jstring) : B NFAFragment :=
  match fuel with
  | 0 => fail
  | S fuel' =>
    if length expr =? 0 then createBasicNFA LAMBDA
    else parseLoop (parse fuel') expr (length expr) [] 0
  end.

Definition regexToNFALambda (regex : jstring) : M Automaton :=
  fun h =>
    match parse (S (length regex)) regex {| stateCounter := 0; heap := h |} with
    | Some (result, s) =>
      let alphabet :=
        new_Set (filter (fun s => negb (str_eqb s LAMBDA))
                        (map symbol (NFAFragment.transitions result))) in
      Some ({| states := NFAFragment.states result;
               transitions := NFAFragment.transitions result;
               alphabet := alphabet |}, heap s)
    | None => None
    end.

(** [regexToNFALambda] on an engine whose call stack has room for [stack]
    nested activations of [parse].  [parse] calls itself once for each group
    and once for each [|]; an activation that finds no room raises
    RangeError, the failure [None].  [regexToNFALambda] is the case of a
    stack that suffices for the input. *)
Definition regexToNFALambdaWithin (stack : nat) (regex : jstring) : M Automaton :=
  fun h =>
    match parse stack regex {| stateCounter := 0; heap := h |} with
    | Some (result, s) =>
      let alphabet :=
        new_Set (filter (fun s => negb (str_eqb s LAMBDA))
                        (map symbol (NFAFragment.transitions result))) in
      Some ({| states := NFAFragment.states result;
               transitions := NFAFragment.transitions result;
               alphabet := alphabet |}, heap s)
    | None => None
    end.

(** The automaton as a caller sees it: the state objects its array holds. *)
Definition view (h : Heap) (a : Automaton) : option (list State) :=
  match mapM deref (states a) h with
  | Some (l, _) => Some l
  | None => None
  end.

(* ================================================================== *)
(** ** Epsilon closure computation *)

(** Partial pure computations. *)
Definition obind {A B} (o : option A) (k : A -> option B) : option B :=
  match o with Some a => k a | None => None end.

Notation "x <-- o ;; k" := (obind o (fun x => k))
  (at level 61, o at next level, right associativity) : st_scope.

Fixpoint ofold {A B} (f : B -> A -> option B) (l : list A) (b : B) : option B :=
  match l with
  | [] => Some b
  | a :: l' => b' <-- f b a ;; ofold f l' b'
  end.

(** [t.from === s && t.symbol === a] *)
Definition isEdge (s a : jstring) (t : Transition) : bool :=
  str_eqb (from t) s && str_eqb (symbol t) a.

(** One [forEach] body of the closure loop: add [t.to] when it is new. *)
Definition visit (cs : JSSet * list jstring) (t : Transition) : JSSet * list jstring :=
  let '(closure, stack) := cs in
  if negb (Set_has closure (to t)) then (Set_add closure (to t), stack ++ [to t])
  else (closure, stack).

(** The [while (stack.length > 0)] loop. *)
Fixpoint closureLoop (transitions : list Transition) (fuel : nat)
    (closure : JSSet) (stack : list jstring) : option JSSet :=
  match pop stack with
  | None => Some closure
  | Some (state, stack') =>
    match fuel with
    | 0 => None
    | S fuel' =>
      let '(closure', stack'') :=
        fold_left visit (filter (isEdge state LAMBDA) transitions) (closure, stack') in
      closureLoop transitions fuel' closure' stack''
    end
  end.

Definition epsilonClosure (states : JSSet) (transitions : list Transition) : option JSSet :=
  closureLoop transitions (length states + length transitions) (new_Set states) states.

(* ================================================================== *)
(** ** Convert NFA-lambda to NFA (remove epsilon transitions) *)

(** The set [reachable] for one closure and one symbol. *)
Definition reachableVia (transitions : list Transition) (closure : JSSet)
    (a : jstring) : option JSSet :=
  ofold (fun reachable s =>
           ofold (fun reachable t =>
                    c <-- epsilonClosure [to t] transitions ;;
                    Some (fold_left Set_add c reachable))
                 (filter (isEdge s a) transitions) reachable)
        closure [].

(** [reachable.forEach(r => { if (!newTransitions.some(...)) newTransitions.push(...) })] *)
Definition pushNew (stateId a : jstring) (newTransitions : list Transition)
    (reachable : JSSet) : list Transition :=
  fold_left (fun nt r =>
               if existsb (fun t => str_eqb (from t) stateId && str_eqb (to t) r
                                    && str_eqb (symbol t) a) nt
               then nt
               else nt ++ [{| from := stateId; to := r; symbol := a |}])
            reachable newTransitions.

(** The outer [states.forEach] that fills [newTransitions]. *)
Definition buildTransitions (objs : list State) (transitions : list Transition)
    (alphabet : list jstring) : option (list Transition) :=
  ofold (fun newTransitions state =>
           closure <-- epsilonClosure [id state] transitions ;;
           ofold (fun newTransitions a =>
                    reachable <-- reachableVia transitions closure a ;;
                    Some (pushNew (id state) a newTransitions reachable))
                 alphabet newTransitions)
        objs [].

(** [[...closure].some(id => states.find(st => st.id === id)?.isAccept)] *)
Definition hasAcceptIn (objs : list State) (closure : JSSet) : bool :=
  existsb (fun i => match find (fun st => str_eqb (id st) i) objs with
                    | Some st => isAccept st
                    | None => false
                    end) closure.

(** The function reads its input objects and writes none, so the reads are
    taken once, in [objs]; every output state is a freshly allocated copy. *)
Definition nfaLambdaToNFA (nfaLambda : Automaton) : M Automaton :=
  let transitions := transitions nfaLambda in
  let alphabet := alphabet nfaLambda in
  objs <- mapM deref (states nfaLambda) ;;
  newTransitions <- liftO (buildTransitions objs transitions alphabet) ;;
  newStates <- mapM (fun s =>
                       closure <- liftO (epsilonClosure [id s] transitions) ;;
                       alloc {| id := id s;
                                isStart := isStart s;
                                isAccept := isAccept s || hasAcceptIn objs closure |})
                    objs ;;
  ret {| states := newStates; transitions := newTransitions; alphabet := alphabet |}.

(* ================================================================== *)
(** ** Convert NFA to DFA using subset construction *)

(** [[...set].sort().join(',')] *)
Definition keyOf (s : JSSet) : jstring := join (lit ",") (sort s).

Record Subsets := {
  dfaStates : JSMap ref;
  dfaTransitions : list Transition;
  queue : list JSSet
}.

(** [nextSet] for one dequeued subset and one symbol. *)
Definition nextSetOf (transitions : list Transition) (currentSet : JSSet)
    (a : jstring) : JSSet :=
  fold_left (fun nextSet stateId =>
               fold_left (fun nextSet t => Set_add nextSet (to t))
                         (filter (isEdge stateId a) transitions) nextSet)
            currentSet [].

(** [states.some(s => set.has(s.id) && s.isAccept)] *)
Definition someAccept (objs : list State) (set : JSSet) : bool :=
  existsb (fun s => Set_has set (id s) && isAccept s) objs.

(** The body of [alphabet.forEach] inside the worklist loop. *)
Definition onSymbol (objs : list State) (transitions : list Transition)
    (currentSet : JSSet) (currentKey : jstring) (st : Subsets) (a : jstring) : M Subsets :=
  let nextSet := nextSetOf transitions currentSet a in
  let nextKey := orElse (keyOf nextSet) EMPTYSET in
  st1 <- (if negb (Map_has (dfaStates st) nextKey) && (0 <? length nextSet) then
            r <- alloc {| id := nextKey; isStart := false;
                          isAccept := someAccept objs nextSet |} ;;
            ret {| dfaStates := Map_set (dfaStates st) nextKey r;
                   dfaTransitions := dfaTransitions st;
                   queue := queue st ++ [nextSet] |}
          else ret st) ;;
  ret (if 0 <? length nextSet then
         {| dfaStates := dfaStates st1;
            dfaTransitions :=
              dfaTransitions st1 ++ [{| from := currentKey; to := nextKey; symbol := a |}];
            queue := queue st1 |}
       else st1).

(** The [while (queue.length > 0)] loop. *)
Fixpoint subsetLoop (objs : list State) (transitions : list Transition)
    (alphabet : list jstring) (fuel : nat) (st : Subsets) : M Subsets :=
  match queue st with
  | [] => ret st
  | currentSet :: rest =>
    match fuel with
    | 0 => fail
    | S fuel' =>
      let currentKey := orElse (keyOf currentSet) EMPTYSET in
      st' <- foldM (onSymbol objs transitions currentSet currentKey) alphabet
                   {| dfaStates := dfaStates st;
                      dfaTransitions := dfaTransitions st;
                      queue := rest |} ;;
      subsetLoop objs transitions alphabet fuel' st'
    end
  end.

(** [stateMapping]: every key of [dfaStates], in insertion order, gets the
    next [q] name. *)
Fixpoint renaming (keys : list jstring) (counter : nat) (stateMapping : JSMap jstring)
  : JSMap jstring :=
  match keys with
  | [] => stateMapping
  | key :: keys' => renaming keys' (S counter) (Map_set stateMapping key (q_ counter))
  end.

(** [stateMapping.get(k) || k] *)
Definition renamed (stateMapping : JSMap jstring) (k : jstring) : jstring :=
  match Map_get stateMapping k with
  | Some n => orElse n k
  | None => k
  end.

(** As in [nfaLambdaToNFA], the input objects are read once, in [objs].
    [fuel] bounds the number of subsets taken from the worklist. *)
Definition nfaToDFA (fuel : nat) (nfa : Automaton) : M Automaton :=
  let transitions := transitions nfa in
  let alphabet := alphabet nfa in
  objs <- mapM deref (states nfa) ;;
  match find isStart objs with
  | None => ret {| states := []; transitions := []; alphabet := alphabet |}
  | Some startState =>
    let startSet := new_Set [id startState] in
    let startSetKey := keyOf startSet in
    r <- alloc {| id := orElse startSetKey EMPTYSET; isStart := true;
                  isAccept := someAccept objs startSet |} ;;
    st <- subsetLoop objs transitions alphabet fuel
            {| dfaStates := Map_set [] startSetKey r;
               dfaTransitions := [];
               queue := [startSet] |} ;;
    let stateMapping := renaming (map fst (dfaStates st)) 0 [] in
    renamedStates <- mapM (fun kv =>
                             s <- deref (snd kv) ;;
                             alloc {| id := renamed stateMapping (id s);
                                      isStart := isStart s;
                                      isAccept := isAccept s |})
                          (dfaStates st) ;;
    let renamedTransitions :=
      map (fun t => {| from := renamed stateMapping (from t);
                       to := renamed stateMapping (to t);
                       symbol := symbol t |}) (dfaTransitions st) in
    ret {| states := renamedStates; transitions := renamedTransitions;
           alphabet := alphabet |}
  end.

(* ================================================================== *)
(** ** Validate if a string is accepted by a DFA *)

(** [for (const symbol of input)] iterates by code point: a surrogate pair
    is one two-unit symbol. *)
Definition isHigh (c : N) : bool := N.leb 55296 c && N.leb c 56319.
Definition isLow (c : N) : bool := N.leb 56320 c && N.leb c 57343.

Fixpoint codePoints (input : jstring) : list jstring :=
  match input with
  | [] => []
  | c :: rest =>
    match rest with
    | d :: rest' =>
      if isHigh c && isLow d then [c; d] :: codePoints rest'
      else [c] :: codePoints rest
    | [] => [[c]]
    end
  end.

(** The [for] loop: [None] is the early [return false]. *)
Fixpoint walk (transitions : list Transition) (currentState : jstring)
    (symbols : list jstring) : option jstring :=
  match symbols with
  | [] => Some currentState
  | a :: symbols' =>
    match find (isEdge currentState a) transitions with
    | None => None
    | Some transition => walk transitions (to transition) symbols'
    end
  end.

Definition validateString (dfa : Automaton) (input : jstring) : M bool :=
  objs <- mapM deref (states dfa) ;;
  match find isStart objs with
  | None => ret false
  | Some startState =>
    match walk (transitions dfa) (id startState) (codePoints input) with
    | None => ret false
    | Some currentState =>
      match find (fun s => str_eqb (id s) currentState) objs with
      | Some finalState => ret (isAccept finalState)
      | None => ret false
      end
    end
  end.

(* ================================================================== *)
(** ** Parse edge list to NFA-lambda *)

(** [\s], which is also what [trim()] strips: WhiteSpace and
    LineTerminator code units. *)
Definition isSpace (c : N) : bool :=
  (N.leb 9 c && N.leb c 13) || N.eqb c 32 || N.eqb c 160 || N.eqb c 5760
  || (N.leb 8192 c && N.leb c 8202) || N.eqb c 8232 || N.eqb c 8233
  || N.eqb c 8239 || N.eqb c 8287 || N.eqb c 12288 || N.eqb c 65279.

(** [.] without the [s] flag: anything but a line terminator. *)
Definition isDot (c : N) : bool :=
  negb (N.eqb c 10 || N.eqb c 13 || N.eqb c 8232 || N.eqb c 8233).

Fixpoint dropWhile (p : N -> bool) (s : jstring) : jstring :=
  match s with
  | [] => []
  | c :: s' => if p c then dropWhile p s' else s
  end.

Fixpoint takeWhile (p : N -> bool) (s : jstring) : jstring :=
  match s with
  | [] => []
  | c :: s' => if p c then c :: takeWhile p s' else []
  end.

Definition trim (s : jstring) : jstring :=
  rev (dropWhile isSpace (rev (dropWhile isSpace s))).

(** [s.split('\n')] *)
Fixpoint splitLines (s : jstring) (cur : jstring) : list jstring :=
  match s with
  | [] => [cur]
  | c :: s' => if N.eqb c 10 then cur :: splitLines s' [] else splitLines s' (cur ++ [c])
  end.

(** A sticky match of [/\s*,\s*/] at the head of [s]: the length matched.
    The greedy first [\s*] cannot give anything back to reach the comma. *)
Definition matchComma (s : jstring) : option nat :=
  let w := length (takeWhile isSpace s) in
  match skipn w s with
  | c :: s' => if N.eqb c 44 then Some (w + 1 + length (takeWhile isSpace s')) else None
  | [] => None
  end.

(** A sticky match of [/\s*,\s*|\s+/] at the head of [s]. *)
Definition matchSeparator (s : jstring) : option nat :=
  match matchComma s with
  | Some n => Some n
  | None =>
    let w := length (takeWhile isSpace s) in
    if 0 <? w then Some w else None
  end.

(** The loop of [String.prototype.split] with a regular expression that
    has no capture group: [p] is the start of the pending field, [q] the
    position where a separator is tried next. *)
Fixpoint splitLoop (matchAt : jstring -> option nat) (str : jstring)
    (fuel p q : nat) : option (list jstring) :=
  if q <? length str then
    match fuel with
    | 0 => None
    | S fuel' =>
      match matchAt (skipn q str) with
      | None => splitLoop matchAt str fuel' p (q + 1)
      | Some n =>
        let e := Nat.min (q + n) (length str) in
        if e =? p then splitLoop matchAt str fuel' p (q + 1)
        else
          rest <-- splitLoop matchAt str fuel' e e ;;
          Some (slice str p q :: rest)
      end
    end
  else Some [slice str p (length str)].

Definition split (matchAt : jstring -> option nat) (str : jstring) : option (list jstring) :=
  if length str =? 0 then
    match matchAt [] with Some _ => Some [] | None => Some [str] end
  else splitLoop matchAt str (length str) 0 0.

(** Case-insensitive comparison of a code unit with an ASCII pattern
    character (the [i] flag without [u]). *)
Definition upper (c : N) : N :=
  if N.leb 97 c && N.leb c 122 then (c - 32)%N else c.

Fixpoint startsWithI (kw s : jstring) : option jstring :=
  match kw, s with
  | [], _ => Some s
  | k :: kw', c :: s' => if N.eqb (upper k) (upper c) then startsWithI kw' s' else None
  | _ :: _, [] => None
  end.

(** [\s*(.+)] at the head of [rest] with [n] code units given to [\s*],
    tried from the longest run down: the capture. *)
Fixpoint capture (rest : jstring) (n : nat) : option jstring :=
  match takeWhile isDot (skipn n rest) with
  | c :: cs => Some (c :: cs)
  | [] => match n with
          | 0 => None
          | S n' => capture rest n'
          end
  end.

(** [line.match(/kw\s*(.+)/i)]: the group [match[1]] of the leftmost match. *)
Fixpoint matchDirective (kw : jstring) (line : jstring) : option jstring :=
  let here :=
    match startsWithI kw line with
    | Some rest => capture rest (length (takeWhile isSpace rest))
    | None => None
    end in
  match here with
  | Some c => Some c
  | None => match line with
            | [] => None
            | _ :: line' => matchDirective kw line'
            end
  end.

Record Edges := {
  seen : JSMap ref;
  edges : list Transition;
  symbols : JSSet
}.

(** [if (!states.has(k)) states.set(k, { id: k, isStart, isAccept: false })] *)
Definition register (k : jstring) (isStart : bool) (st : Edges) : M Edges :=
  if negb (Map_has (seen st) k) then
    r <- alloc {| id := k; isStart := isStart; isAccept := false |} ;;
    ret {| seen := Map_set (seen st) k r; edges := edges st; symbols := symbols st |}
  else ret st.

(** The body of the first [lines.forEach((line, index) => ...)]. *)
Definition onLine (st : Edges) (indexed : nat * jstring) : M Edges :=
  let '(index, line) := indexed in
  parts <- liftO (split matchSeparator (trim line)) ;;
  match parts with
  | from :: symbol :: to :: _ =>
    st1 <- register from ((index =? 0) && negb (Map_has (seen st) from)) st ;;
    st2 <- register to false st1 ;;
    let isEps := str_eqb symbol (lit "e") || str_eqb symbol EPSILON in
    ret {| seen := seen st2;
           edges := edges st2 ++
                    [{| from := from; to := to;
                        symbol := if isEps then LAMBDA else symbol |}];
           symbols := if negb (str_eqb symbol LAMBDA) && negb isEps
                      then Set_add (symbols st2) symbol
                      else symbols st2 |}
  | _ => ret st
  end.

(** The body of the second [lines.forEach]: accept directives. *)
Definition onDirective (seen : JSMap ref) (line : jstring) : M unit :=
  let found :=
    match matchDirective (lit "accept:") line with
    | Some c => Some c
    | None => matchDirective (lit "final:") line
    end in
  match found with
  | Some listed =>
    names <- liftO (split matchComma listed) ;;
    foldM (fun _ s =>
             match Map_get seen (trim s) with
             | Some state => modify state (set_isAccept true)
             | None => ret tt
             end) names tt
  | None => ret tt
  end.

Definition parseEdgeList (input : jstring) : M Automaton :=
  let lines :=
    filter (fun l => 0 <? length (trim l)) (splitLines (trim input) []) in
  st <- foldM onLine (combine (seq 0 (length lines)) lines)
          {| seen := []; edges := []; symbols := [] |} ;;
  let stateArray := map snd (seen st) in
  match stateArray with
  | first :: _ => modify first (set_isStart true)
  | [] => ret tt
  end ;;;
  foldM (fun _ line => onDirective (seen st) line) lines tt ;;;
  objs <- mapM deref stateArray ;;
  match pop stateArray with
  | Some (last, _) =>
    if negb (existsb isAccept objs) then modify last (set_isAccept true) else ret tt
  | None => ret tt
  end ;;;
  ret {| states := stateArray; transitions := edges st; alphabet := symbols st |}.

(* ================================================================== *)
(** ** The pipeline of the page ([handleRegexSubmit]) and the matcher on
    its result *)

Definition pipeline (fuel : nat) (regex : jstring) : M Automaton :=
  nfaL <- regexToNFALambda regex ;;
  nfaResult <- nfaLambdaToNFA nfaL ;;
  nfaToDFA fuel nfaResult.

(** The whole run from an empty heap: is [input] accepted by the DFA of
    [regex]? *)
Definition accepts (fuel : nat) (regex input : jstring) : option bool :=
  match (dfa <- pipeline fuel regex ;; validateString dfa input) [] with
  | Some (b, _) => Some b
  | None => None
  end.

(* ================================================================== *)
(** ** Vocabulary of the properties *)

(** Every state an automaton lists is an object of the heap. *)
Definition allocated (h : Heap) (a : Automaton) : Prop :=
  Forall (fun r => r < length h) (states a).

(** No state is marked start. *)
Definition noStart (objs : list State) : Prop :=
  forall s, In s objs -> isStart s = false.

(** At most one transition for every state and symbol. *)
Definition deterministic (ts : list Transition) : Prop :=
  forall s a, length (filter (isEdge s a) ts) <= 1.

(** [h'] is [h] with new objects after it: no object of [h] was written. *)
Definition extends (h h' : Heap) : Prop := exists l, h' = h ++ l.

(** References to objects that [h] does not hold yet. *)
Definition fresh (h : Heap) (rs : list ref) : Prop :=
  Forall (fun r => length h <= r) rs.

(** Malformed regex, in the words of the specification: unbalanced
    parentheses, or a quantifier at the very start of the input. *)
Fixpoint balancedFrom (depth : nat) (s : jstring) : bool :=
  match s with
  | [] => depth =? 0
  | c :: s' =>
    if N.eqb c 40 then balancedFrom (S depth) s'
    else if N.eqb c 41 then
      match depth with
      | 0 => false
      | S d => balancedFrom d s'
      end
    else balancedFrom depth s'
  end.

Definition leadingQuantifier (s : jstring) : bool :=
  match s with
  | c :: _ => N.eqb c 42 || N.eqb c 43 || N.eqb c 63
  | [] => false
  end.

Definition malformed (s : jstring) : bool :=
  negb (balancedFrom 0 s) || leadingQuantifier s.

(** *** Invariants of the regex builder *)

(** Both ends of a fragment are objects of the builder's heap. *)
Definition okFrag (s : Builder) (f : NFAFragment) : Prop :=
  NFAFragment.start f < length (heap s) /\ NFAFragment.accept f < length (heap s).

Definition okToken (s : Builder) (t : token) : Prop :=
  match t with
  | TString _ => True
  | TFragment f => okFrag s f
  end.

(** The builder's heap never shrinks. *)
Definition grows (s s' : Builder) : Prop := length (heap s) <= length (heap s').

(** A builder step that returns a well-formed fragment. *)
Definition builds (m : B NFAFragment) (s : Builder) : Prop :=
  exists f s', m s = Some (f, s') /\ okFrag s' f /\ grows s s'.

(** Some transition of the fragment carries the symbol [c]. *)
Definition labels (c : jstring) (f : NFAFragment) : Prop :=
  exists t, In t (NFAFragment.transitions f) /\ symbol t = c.

Definition mentions (c : jstring) (t : token) : Prop :=
  match t with
  | TString c' => c' = c
  | TFragment f => labels c f
  end.

(** *** Invariants of the closure loop *)

(** Every epsilon edge that leaves [x] ends in [c]. *)
Definition successorsIn (ts : list Transition) (c : JSSet) (x : jstring) : Prop :=
  forall t, In t ts -> isEdge x LAMBDA t = true -> In (to t) c.

(** [c] is closed under the epsilon edges of [ts]. *)
Definition closedUnder (ts : list Transition) (c : JSSet) : Prop :=
  forall x, In x c -> successorsIn ts c x.

(** What holds of [closure] and [stack] at the head of the loop: stacked
    states are in the closure, and a state of the closure that is not
    stacked has its successors in the closure. *)
Definition pending (ts : list Transition) (closure : JSSet) (stack : list jstring) : Prop :=
  incl stack closure /\
  forall x, In x closure -> In x stack \/ successorsIn ts closure x.

(** *** Invariants of the subset construction *)

(** [currentKey] of a dequeued subset. *)
Definition currentKeyOf (s : JSSet) : jstring := orElse (keyOf s) EMPTYSET.

(** What a DFA may have only once: a source and a symbol. *)
Definition edgeKey (t : Transition) : jstring * jstring := (from t, symbol t).

(** What holds at the head of the worklist loop, [done] being the keys of
    the subsets already dequeued: dequeued and queued keys are pairwise
    different and registered in [dfaStates], and the transitions emitted so
    far leave dequeued keys, one at most for a key and a symbol. *)
Definition explored (done : list jstring) (st : Subsets) : Prop :=
  NoDup (done ++ map currentKeyOf (queue st)) /\
  incl (done ++ map currentKeyOf (queue st)) (map fst (dfaStates st)) /\
  NoDup (map fst (dfaStates st)) /\
  (forall t, In t (dfaTransitions st) -> In (from t) done) /\
  NoDup (map edgeKey (dfaTransitions st)).

(** *** A bound on the subset construction *)

(** All lists of length [n] over [d], and all of length [n] at most. *)
Fixpoint words (d : list jstring) (n : nat) : list (list jstring) :=
  match n with
  | 0 => [[]]
  | S n' => flat_map (fun x => map (cons x) (words d n')) d
  end.

Definition wordsUpTo (d : list jstring) (n : nat) : list (list jstring) :=
  flat_map (words d) (seq 0 (S n)).

(** Every key that the subset construction can register for [ts]: the
    sorted subsets are among the words over the targets of [ts]. *)
Definition keyUniverse (ts : list Transition) : list jstring :=
  map (fun l => orElse (join (lit ",") l) EMPTYSET)
      (wordsUpTo (map to ts) (length ts)).

(** What the fuel argument needs of the loop state: the keys of
    [dfaStates] are pairwise different and among [univ], and its values are
    objects of the heap. *)
Definition registered (univ : list jstring) (st : Subsets) (h : Heap) : Prop :=
  NoDup (map fst (dfaStates st)) /\
  incl (map fst (dfaStates st)) univ /\
  Forall (fun kv => snd kv < length h) (dfaStates st).

(* ================================================================== *)
(** ** Vocabulary of the further properties *)

(** The pipeline of the page for an edge list ([handleEdgeListSubmit]). *)
Definition edgePipeline (fuel : nat) (edges : jstring) : M Automaton :=
  nfaL <- parseEdgeList edges ;;
  nfaResult <- nfaLambdaToNFA nfaL ;;
  nfaToDFA fuel nfaResult.

(** [y] is reached from [x] along epsilon edges of [ts], none included. *)
Inductive epsReach (ts : list Transition) (x : jstring) : jstring -> Prop :=
| epsReach_here : epsReach ts x x
| epsReach_edge (t : Transition) :
    epsReach ts x (from t) -> In t ts -> symbol t = LAMBDA -> epsReach ts x (to t).

(** The strings [for ... of] can yield: one code unit, or a surrogate
    pair. *)
Definition isCodePoint (a : jstring) : bool :=
  match a with
  | [_] => true
  | [c; d] => isHigh c && isLow d
  | _ => false
  end.

(** *** Well-formed fragments of the regex builder *)

(** The object a reference points to in the builder's heap. *)
Definition get (s : Builder) (r : ref) : option State := nth_error (heap s) r.

(** The objects allocated since the builder started on a heap of [base]
    objects are named by the counter, in order. *)
Definition named (base : nat) (s : Builder) : Prop :=
  length (heap s) = base + stateCounter s /\
  forall r st, get s r = Some st -> base <= r -> id st = q_ (r - base).

(** [s'] is [s] with new objects after it and flags rewritten at the
    references [xs] at most. *)
Definition touches (xs : list ref) (s s' : Builder) : Prop :=
  length (heap s) <= length (heap s') /\
  forall r st, get s r = Some st ->
               exists st', get s' r = Some st' /\ id st' = id st /\
                           (~ In r xs -> st' = st).

(** A fragment as Thompson's construction wants it: its states are
    pairwise different objects of the heap, its start and accept are two of
    them and the only ones flagged so, and its transitions join ids of its
    states. *)
Record wfFragment (s : Builder) (f : NFAFragment) : Prop := {
  wf_nodup : NoDup (NFAFragment.states f);
  wf_alloc : forall r, In r (NFAFragment.states f) -> r < length (heap s);
  wf_start : In (NFAFragment.start f) (NFAFragment.states f);
  wf_accept : In (NFAFragment.accept f) (NFAFragment.states f);
  wf_distinct : NFAFragment.start f <> NFAFragment.accept f;
  wf_flags : forall r st,
      In r (NFAFragment.states f) -> get s r = Some st ->
      isStart st = (r =? NFAFragment.start f) /\
      isAccept st = (r =? NFAFragment.accept f);
  wf_ends : forall t,
      In t (NFAFragment.transitions f) ->
      (exists r st, In r (NFAFragment.states f) /\ get s r = Some st /\ id st = from t) /\
      (exists r st, In r (NFAFragment.states f) /\ get s r = Some st /\ id st = to t)
}.

(** The states the fragments of a token list own. *)
Definition statesOf (t : token) : list ref :=
  match t with
  | TString _ => []
  | TFragment f => NFAFragment.states f
  end.

Definition owned (tokens : list token) : list ref := flat_map statesOf tokens.

(** The states of the accumulator of [tokens.reduce]. *)
Definition accStates (acc : option NFAFragment) : list ref :=
  match acc with
  | Some a => NFAFragment.states a
  | None => []
  end.

(** Tokens whose fragments are well formed and own different states. *)
Definition wfTokens (s : Builder) (tokens : list token) : Prop :=
  NoDup (owned tokens) /\
  forall f, In (TFragment f) tokens -> wfFragment s f.

(** A builder step that, from a named heap, returns a well-formed fragment
    made of the states [xs] it was given and of new ones, and writes to
    [xs] at most. *)
Definition assembles (base : nat) (xs : list ref) (m : B NFAFragment) (s : Builder) : Prop :=
  exists f s',
    m s = Some (f, s') /\ named base s' /\ touches xs s s' /\ wfFragment s' f /\
    forall r, In r (NFAFragment.states f) -> In r xs \/ length (heap s) <= r.

(** *** What the subset construction computes *)

(** A run of the NFA: from state [s], reading [syms] along transitions
    whose symbols are in the alphabet, to state [r]. *)
Inductive nfaPath (ts : list Transition) (al : list jstring)
  : jstring -> list jstring -> jstring -> Prop :=
| nfaPath_nil (s : jstring) : nfaPath ts al s [] s
| nfaPath_cons (s a : jstring) (syms : list jstring) (t : Transition) (r : jstring) :
    In a al -> In t ts -> from t = s -> symbol t = a ->
    nfaPath ts al (to t) syms r ->
    nfaPath ts al s (a :: syms) r.

(** The NFA accepts [syms] from [s]: some run ends in the id of an accept
    state. *)
Definition nfaAccepts (objs : list State) (ts : list Transition) (al : list jstring)
    (s : jstring) (syms : list jstring) : Prop :=
  exists r o, nfaPath ts al s syms r /\ In o objs /\ id o = r /\ isAccept o = true.

(** An id that the comma-joined keys keep apart: not empty, no comma. *)
Definition clean (x : jstring) : Prop := x <> [] /\ ~ In 44%N x.

(** The worklist loop with the subsets [reps] behind the keys of
    [dfaStates], in registration order: the queue is what is left of [reps]
    from [qfrom] on, every registered object carries its key and the accept
    flag of its subset, a subset is not empty and holds members of the start
    set and targets of transitions, and the transitions are those of the pairs of a
    subset and a symbol that are [handled]. *)
Record subsetInv (objs : list State) (ts : list Transition) (startSet : JSSet)
    (reps : list JSSet) (qfrom : nat) (handled : nat -> jstring -> Prop)
    (st : Subsets) (h : Heap) : Prop := {
  si_start : nth_error reps 0 = Some startSet;
  si_keys : map fst (dfaStates st) = map currentKeyOf reps;
  si_nodup : NoDup (map currentKeyOf reps);
  si_queue : queue st = skipn qfrom reps;
  si_objs : forall i kv S,
      nth_error (dfaStates st) i = Some kv -> nth_error reps i = Some S ->
      nth_error h (snd kv) =
      Some {| id := fst kv; isStart := (i =? 0); isAccept := someAccept objs S |};
  si_members : forall S,
      In S reps -> S <> [] /\ forall x, In x S -> In x startSet \/ In x (map to ts);
  si_trans : forall t,
      In t (dfaTransitions st) <->
      exists i S,
        nth_error reps i = Some S /\ handled i (symbol t) /\
        from t = currentKeyOf S /\
        nextSetOf ts S (symbol t) <> [] /\
        to t = currentKeyOf (nextSetOf ts S (symbol t));
  si_to : forall i S a,
      nth_error reps i = Some S -> handled i a -> nextSetOf ts S a <> [] ->
      exists S', In S' reps /\ currentKeyOf S' = currentKeyOf (nextSetOf ts S a)
}.

(** The pairs handled when the subsets before [k] are done and the
    symbols [seen] of subset [k] are. *)
Definition handledUpTo (al : list jstring) (k : nat) (seen : list jstring)
    (i : nat) (a : jstring) : Prop :=
  (i < k /\ In a al) \/ (i = k /\ In a seen).

(** The state that [nfaToDFA] returns for the [i]-th registered subset. *)
Definition subsetState (objs : list State) (reps : list JSSet) (i : nat) : State :=
  {| id := q_ i; isStart := (i =? 0); isAccept := someAccept objs (nth i reps []) |}.

(** A run of the NFA with epsilon edges: epsilon edges, then for every
    symbol one edge labelled with it, the symbol being in the alphabet, and
    epsilon edges again. *)
Inductive lambdaPath (ts : list Transition) (al : list jstring)
  : jstring -> list jstring -> jstring -> Prop :=
| lambdaPath_nil (s r : jstring) : epsReach ts s r -> lambdaPath ts al s [] r
| lambdaPath_cons (s a : jstring) (syms : list jstring) (e : Transition) (r : jstring) :
    In a al -> In e ts -> symbol e = a ->
    epsReach ts s (from e) ->
    lambdaPath ts al (to e) syms r ->
    lambdaPath ts al s (a :: syms) r.

Definition lambdaAccepts (objs : list State) (ts : list Transition) (al : list jstring)
    (s : jstring) (syms : list jstring) : Prop :=
  exists r o, lambdaPath ts al s syms r /\ In o objs /\ id o = r /\ isAccept o = true.

(** *** What the edge list parser relies on *)

(** A field between separators: no comma and no white space in it. *)
Definition isField (f : jstring) : Prop :=
  forall c, In c f -> c <> 44%N /\ isSpace c = false.

(** The piece of [str] from [a] to [b], no separator starting inside. *)
Definition pieceOf (matchAt : jstring -> option nat) (str f : jstring) : Prop :=
  exists a b, f = slice str a b /\ a <= b <= length str /\
              forall i, a <= i < b -> matchAt (skipn i str) = None.

(** The states registered so far are the objects [news] allocated after
    [h0], in order, under pairwise different keys that are their ids. *)
Definition seenInv (h0 : Heap) (seen : JSMap ref) (news : list State) : Prop :=
  map snd seen = seq (length h0) (length news) /\
  map id news = map fst seen /\
  NoDup (map fst seen) /\
  Forall isField (map fst seen).

(** What holds while the transition lines are read. *)
Definition edgesInv (h0 : Heap) (st : Edges) (h : Heap) : Prop :=
  exists news,
    h = h0 ++ news /\
    seenInv h0 (seen st) news /\
    (forall i o, nth_error news i = Some o ->
                 isAccept o = false /\ (isStart o = true -> i = 0)) /\
    (forall t, In t (edges st) ->
               In (from t) (map fst (seen st)) /\ In (to t) (map fst (seen st)) /\
               isField (symbol t) /\ symbol t <> lit "e" /\ symbol t <> EPSILON) /\
    NoDup (symbols st) /\
    (forall x, In x (symbols st) <->
               x <> LAMBDA /\ exists t, In t (edges st) /\ symbol t = x).

(** What the accept directives keep: the ids, and the first state as the
    only start state. *)
Definition marked (keys : list jstring) (news : list State) : Prop :=
  map id news = keys /\
  forall i o, nth_error news i = Some o -> isStart o = (i =? 0).

(** *** The language of a regex and of a fragment *)

(** The expressions that [parse] reads. *)
Inductive regex :=
| Eps
| Sym (c : jstring)
| Cat (r1 r2 : regex)
| Alt (r1 r2 : regex)
| Star (r : regex)
| Plus (r : regex)
| Opt (r : regex).

(** The words of an expression, a word being a list of symbols. *)
Fixpoint matches (r : regex) (w : list jstring) : Prop :=
  match r with
  | Eps => w = []
  | Sym c => w = [c]
  | Cat r1 r2 => exists w1 w2, w = w1 ++ w2 /\ matches r1 w1 /\ matches r2 w2
  | Alt r1 r2 => matches r1 w \/ matches r2 w
  | Star r => exists ws, w = concat ws /\ Forall (matches r) ws
  | Plus r => exists w0 ws, w = w0 ++ concat ws /\ matches r w0 /\ Forall (matches r) ws
  | Opt r => w = [] \/ matches r w
  end.

(** A run through transitions: an edge labelled with the epsilon marker
    reads nothing, any other edge reads its label. *)
Inductive runs (ts : list Transition) : jstring -> list jstring -> jstring -> Prop :=
| runs_nil (x : jstring) : runs ts x [] x
| runs_eps (x : jstring) (t : Transition) (w : list jstring) (y : jstring) :
    In t ts -> from t = x -> symbol t = LAMBDA -> runs ts (to t) w y -> runs ts x w y
| runs_sym (x : jstring) (t : Transition) (w : list jstring) (y : jstring) :
    In t ts -> from t = x -> symbol t <> LAMBDA -> runs ts (to t) w y ->
    runs ts x (symbol t :: w) y.

(** The id of the object at [r], allocated by a builder that started on a
    heap of [base] objects. *)
Definition idOf (base : nat) (r : ref) : jstring := q_ (r - base).

(** The ids of the states of a fragment. *)
Definition inside (base : nat) (states : list ref) (x : jstring) : Prop :=
  exists r, In r states /\ x = idOf base r.

(** A fragment whose runs from start to accept read the language [L]: its
    states are pairwise different and were allocated by the builder, its
    start and accept are among them, and its transitions stay among them. *)
Record recognises (base : nat) (f : NFAFragment) (L : list jstring -> Prop) : Prop := {
  rc_nodup : NoDup (NFAFragment.states f);
  rc_low : forall r, In r (NFAFragment.states f) -> base <= r;
  rc_start : In (NFAFragment.start f) (NFAFragment.states f);
  rc_accept : In (NFAFragment.accept f) (NFAFragment.states f);
  rc_ends : forall t,
      In t (NFAFragment.transitions f) ->
      inside base (NFAFragment.states f) (from t) /\
      inside base (NFAFragment.states f) (to t);
  rc_lang : forall w,
      runs (NFAFragment.transitions f)
          (idOf base (NFAFragment.start f)) w (idOf base (NFAFragment.accept f)) <-> L w
}.

(** The expression of a literal character: the epsilon marker itself
    stands for the empty word. *)
Definition symbolOf (c : jstring) : regex :=
  if str_eqb c LAMBDA then Eps else Sym c.

(** [parse] with every fragment replaced by the expression it was built
    for: the same loop on the same characters, [tokens] holding
    expressions. *)
Definition concatAllR (tokens : list regex) : option regex :=
  fold_left (fun acc t => match acc with
                          | Some a => Some (Cat a t)
                          | None => Some t
                          end) tokens None.

Definition postfixR (op : regex -> regex) (tokens : list regex) : option (list regex) :=
  match pop tokens with
  | Some (last, tokens') => Some (tokens' ++ [op last])
  | None => None
  end.

Section ParseR.
Variable parseR : jstring -> option regex.
Variable expr : jstring.

Fixpoint parseLoopR (fuel : nat) (tokens : list regex) (i : nat) : option regex :=
  if i <? length expr then
    match fuel with
    | 0 => None
    | S fuel' =>
      let char := charAt expr i in
      if str_eqb char (lit "(") then
        let j := matchParen (skipn (i + 1) expr) 1 (i + 1) in
        let subExpr := slice expr (i + 1) (j - 1) in
        r <-- parseR subExpr ;;
        parseLoopR fuel' (tokens ++ [r]) j
      else if str_eqb char (lit "*") && (0 <? length tokens) then
        tokens' <-- postfixR Star tokens ;;
        parseLoopR fuel' tokens' (i + 1)
      else if str_eqb char (lit "+") && (0 <? length tokens) then
        tokens' <-- postfixR Plus tokens ;;
        parseLoopR fuel' tokens' (i + 1)
      else if str_eqb char (lit "?") && (0 <? length tokens) then
        tokens' <-- postfixR Opt tokens ;;
        parseLoopR fuel' tokens' (i + 1)
      else if str_eqb char (lit "|") then
        right <-- parseR (slice expr (i + 1) (length expr)) ;;
        match concatAllR tokens with
        | Some l => Some (Alt l right)
        | None => Some right
        end
      else if negb (str_eqb char (lit " ")) then
        parseLoopR fuel' (tokens ++ [symbolOf char]) (i + 1)
      else
        parseLoopR fuel' tokens (i + 1)
    end
  else
    match concatAllR tokens with
    | Some r => Some r
    | None => Some Eps
    end.
End ParseR.

Fixpoint parseR (fuel : nat) (expr : jstring) : option regex :=
  match fuel with
  | 0 => None
  | S fuel' =>
    if length expr =? 0 then Some Eps
    else parseLoopR (parseR fuel') expr (length expr) [] 0
  end.

(** The expression that [regexToNFALambda] reads in its input. *)
Definition regexOf (input : jstring) : option regex :=
  parseR (S (length input)) input.

(** A token and the expression it stands for. *)
Definition tokenDenotes (base : nat) (t : token) (r : regex) : Prop :=
  match t with
  | TString c => r = symbolOf c
  | TFragment f => recognises base f (matches r)
  end.

(** Tokens that stand for the expressions [rs], with fragments that own
    different, allocated states. *)
Definition denotes (base : nat) (s : Builder) (tokens : list token) (rs : list regex)
  : Prop :=
  Forall2 (tokenDenotes base) tokens rs /\
  NoDup (owned tokens) /\
  forall x, In x (owned tokens) -> x < length (heap s).

(** A builder step that returns a fragment for the expression [r], made
    of the states [xs] it was given and of new ones. *)
Definition built (base : nat) (xs : list ref) (s : Builder) (m : B NFAFragment)
    (r : regex) : Prop :=
  exists f s',
    m s = Some (f, s') /\ named base s' /\
    length (heap s) <= length (heap s') /\
    recognises base f (matches r) /\
    (forall x, In x (NFAFragment.states f) -> x < length (heap s')) /\
    (forall x, In x (NFAFragment.states f) -> In x xs \/ length (heap s) <= x).

(** The accumulator of [tokens.reduce] and the expression it stands for. *)
Definition accDenotes (base : nat) (s : Builder) (acc : option NFAFragment)
    (racc : option regex) : Prop :=
  match acc, racc with
  | Some a, Some ra =>
    recognises base a (matches ra) /\
    forall x, In x (NFAFragment.states a) -> x < length (heap s)
  | None, None => True
  | _, _ => False
  end.

(** *** Writing an expression for the parser *)

(** The characters [parse] gives a meaning to: parentheses, the postfix
    operators, the bar, the space it skips, and the epsilon marker. *)
Definition special (u : N) : bool :=
  N.eqb u 40 || N.eqb u 41 || N.eqb u 42 || N.eqb u 43 || N.eqb u 63
  || N.eqb u 124 || N.eqb u 32 || N.eqb u 955.

(** Expressions whose symbols are single code units without a meaning of
    their own. *)
Fixpoint printable (e : regex) : Prop :=
  match e with
  | Eps => True
  | Sym c => exists u, c = [u] /\ special u = false
  | Cat a b | Alt a b => printable a /\ printable b
  | Star a | Plus a | Opt a => printable a
  end.

Definition group (p : jstring) : jstring := lit "(" ++ p ++ lit ")".

(** An expression written with every operand in parentheses. *)
Fixpoint print (e : regex) : jstring :=
  match e with
  | Eps => group []
  | Sym c => c
  | Cat a b => group (print a) ++ group (print b)
  | Alt a b => group (print a) ++ lit "|" ++ group (print b)
  | Star a => group (print a) ++ lit "*"
  | Plus a => group (print a) ++ lit "+"
  | Opt a => group (print a) ++ lit "?"
  end.

(** A text through which the parenthesis scan of [parse] passes at the
    depth it entered with. *)
Definition balanced (p : jstring) : Prop :=
  forall d rest j,
    0 < d -> matchParen (p ++ rest) d j = matchParen rest d (j + length p).

(** A balanced text that [parse] reads as the expression [e]. *)
Definition reads (p : jstring) (e : regex) : Prop :=
  balanced p /\ forall fuel, length p < fuel -> parseR fuel p = Some e.

(** Expressions whose symbols are single code units. *)
Fixpoint units (e : regex) : Prop :=
  match e with
  | Eps => True
  | Sym c => length c = 1
  | Cat a b | Alt a b => units a /\ units b
  | Star a | Plus a | Opt a => units a
  end.

(* ================================================================== *)
(** * Properties *)

(** ** Strings, sets and the monad *)

Lemma str_eqb_eq (a b : jstring) : str_eqb a b = true <-> a = b.
Proof.
  revert b; induction a as [|x a IH]; intros [|y b]; simpl; split; intro H;
    try reflexivity; try discriminate.
  - apply andb_true_iff in H as [Hx Hab].
    apply N.eqb_eq in Hx. apply IH in Hab. now subst.
  - injection H as -> ->. now rewrite N.eqb_refl, (proj2 (IH b)).
Qed.

Lemma str_eqb_refl (a : jstring) : str_eqb a a = true.
Proof. now apply str_eqb_eq. Qed.

Lemma bind_Some {S A B} (m : ST S A) (k : A -> ST S B) s b s' :
  bind m k s = Some (b, s') <->
  exists a s1, m s = Some (a, s1) /\ k a s1 = Some (b, s').
Proof.
  unfold bind. split.
  - destruct (m s) as [[a s1]|]; [|discriminate]. intro H. now exists a, s1.
  - intros (a & s1 & -> & H). exact H.
Qed.

(** Reading objects leaves the heap as it is. *)
Lemma mapM_deref_heap (l : list ref) h objs h' :
  mapM deref l h = Some (objs, h') -> h' = h /\ length objs = length l.
Proof.
  revert objs h'; induction l as [|r l IH]; simpl; intros objs h' H.
  - inversion H. auto.
  - apply bind_Some in H as (s & h1 & H1 & H).
    unfold deref in H1. destruct (nth_error h r); [|discriminate].
    inversion H1; subst. clear H1.
    apply bind_Some in H as (bs & h2 & H2 & H).
    apply IH in H2 as [-> Hlen]. inversion H; subst. simpl. auto.
Qed.

Lemma view_mapM h a objs :
  view h a = Some objs <-> mapM deref (states a) h = Some (objs, h).
Proof.
  unfold view. split.
  - destruct (mapM deref (states a) h) as [[l h']|] eqn:E; [|discriminate].
    intro H. inversion H; subst. now apply mapM_deref_heap in E as E'; destruct E' as [-> _].
  - now intros ->.
Qed.

Lemma find_noStart (objs : list State) : noStart objs -> find isStart objs = None.
Proof.
  intro H. destruct (find isStart objs) eqn:E; [|reflexivity].
  apply find_some in E as [Hin Hs]. rewrite (H _ Hin) in Hs. discriminate.
Qed.

(** ** Degenerate automata *)

(** C6. For every automaton whose states are all allocated and none of
    which is marked start, [nfaToDFA] returns, whatever the fuel and without
    touching the heap, the empty automaton: no states, no transitions and
    the alphabet of its input. *)
Theorem nfaToDFA_without_start (fuel : nat) (h : Heap) (nfa : Automaton) (objs : list State) :
  view h nfa = Some objs ->
  noStart objs ->
  nfaToDFA fuel nfa h =
  Some ({| states := []; transitions := []; alphabet := alphabet nfa |}, h).
Proof.
  intros Hv Hn. apply view_mapM in Hv. unfold nfaToDFA, bind.
  rewrite Hv, (find_noStart _ Hn). reflexivity.
Qed.

Lemma nfaToDFA_without_start_witness :
  let h := [{| id := lit "p"; isStart := false; isAccept := true |}] in
  let nfa := {| states := [0];
                transitions := [{| from := lit "p"; to := lit "p"; symbol := lit "a" |}];
                alphabet := [lit "a"] |} in
  nfaToDFA 7 nfa h =
  Some ({| states := []; transitions := []; alphabet := [lit "a"] |}, h).
Proof.
  intros h nfa.
  apply (nfaToDFA_without_start 7 h nfa
           [{| id := lit "p"; isStart := false; isAccept := true |}]).
  - reflexivity.
  - intros s [<-|[]]. reflexivity.
Defined.

(** C10. For every automaton whose states are all allocated and none of
    which is marked start, and for every input string, the empty one
    included, [validateString] returns [false]. *)
Theorem validateString_without_start (h : Heap) (dfa : Automaton) (objs : list State)
    (input : jstring) :
  view h dfa = Some objs ->
  noStart objs ->
  validateString dfa input h = Some (false, h).
Proof.
  intros Hv Hn. apply view_mapM in Hv. unfold validateString, bind.
  rewrite Hv, (find_noStart _ Hn). reflexivity.
Qed.

Lemma validateString_without_start_witness :
  let h := [{| id := lit "p"; isStart := false; isAccept := true |}] in
  let dfa := {| states := [0]; transitions := []; alphabet := [] |} in
  validateString dfa [] h = Some (false, h).
Proof.
  intros h dfa.
  apply (validateString_without_start h dfa
           [{| id := lit "p"; isStart := false; isAccept := true |}] []).
  - reflexivity.
  - intros s [<-|[]]. reflexivity.
Defined.

(** ** Fuel *)

(** More fuel never changes a result of the subset construction. *)
Lemma subsetLoop_more_fuel objs ts al (fuel k : nat) st h r :
  subsetLoop objs ts al fuel st h = Some r ->
  subsetLoop objs ts al (fuel + k) st h = Some r.
Proof.
  revert st h; induction fuel as [|fuel IH]; intros st h H.
  - simpl in H. destruct (queue st) eqn:Q; [|discriminate].
    destruct k; simpl; rewrite Q; exact H.
  - simpl in *. destruct (queue st) as [|cur rest]; [exact H|].
    unfold bind in *.
    destruct (foldM _ al _ h) as [[st' h']|]; [|discriminate].
    now apply IH.
Qed.

Lemma nfaToDFA_more_fuel (fuel k : nat) nfa h r :
  nfaToDFA fuel nfa h = Some r -> nfaToDFA (fuel + k) nfa h = Some r.
Proof.
  unfold nfaToDFA, bind.
  destruct (mapM deref (states nfa) h) as [[objs h1]|]; [|discriminate].
  destruct (find isStart objs) as [s0|]; [|auto].
  destruct (alloc _ h1) as [[r0 h2]|]; [|discriminate].
  destruct (subsetLoop _ _ _ fuel _ h2) as [[st h3]|] eqn:E; [|discriminate].
  now rewrite (subsetLoop_more_fuel _ _ _ _ k _ _ _ E).
Qed.

Lemma pipeline_more_fuel (fuel k : nat) regex h r :
  pipeline fuel regex h = Some r -> pipeline (fuel + k) regex h = Some r.
Proof.
  unfold pipeline, bind.
  destruct (regexToNFALambda regex h) as [[a h1]|]; [|discriminate].
  destruct (nfaLambdaToNFA a h1) as [[b h2]|]; [|discriminate].
  apply nfaToDFA_more_fuel.
Qed.

Lemma accepts_more_fuel (fuel k : nat) regex input b :
  accepts fuel regex input = Some b -> accepts (fuel + k) regex input = Some b.
Proof.
  unfold accepts, bind.
  destruct (pipeline fuel regex []) as [[d h]|] eqn:E; [|discriminate].
  now rewrite (pipeline_more_fuel _ k _ _ _ E).
Qed.

Lemma accepts_at_least (n fuel : nat) regex input b :
  accepts n regex input = Some b -> n <= fuel -> accepts fuel regex input = Some b.
Proof.
  intros H Hle. replace fuel with (n + (fuel - n)) by lia.
  now apply accepts_more_fuel.
Qed.

(** ** Concrete regex scenarios *)

(** C2. For the regex (a|b)*abb the pipeline [regexToNFALambda],
    [nfaLambdaToNFA], [nfaToDFA] (with fuel for five subsets or more) yields
    a DFA on which [validateString] returns true for abb, aabb and babb and
    false for ab, abba and the empty string. *)
Theorem pipeline_a_or_b_star_abb (fuel : nat) :
  5 <= fuel ->
  map (accepts fuel (lit "(a|b)*abb"))
      [lit "abb"; lit "aabb"; lit "babb"; lit "ab"; lit "abba"; lit ""] =
  [Some true; Some true; Some true; Some false; Some false; Some false].
Proof.
  intro H. cbv [map].
  repeat f_equal;
    (apply (accepts_at_least 5); [vm_compute; reflexivity | exact H]).
Qed.

Lemma pipeline_a_or_b_star_abb_witness :
  map (accepts 8 (lit "(a|b)*abb"))
      [lit "abb"; lit "aabb"; lit "babb"; lit "ab"; lit "abba"; lit ""] =
  [Some true; Some true; Some true; Some false; Some false; Some false].
Proof. apply (pipeline_a_or_b_star_abb 8). lia. Defined.

(** ** The regex builder never fails *)

Lemma okFrag_grows s s' f : okFrag s f -> grows s s' -> okFrag s' f.
Proof. unfold okFrag, grows. lia. Qed.

Lemma okToken_grows s s' t : okToken s t -> grows s s' -> okToken s' t.
Proof. destruct t; simpl; [auto|apply okFrag_grows]. Qed.

Lemma grows_trans s1 s2 s3 : grows s1 s2 -> grows s2 s3 -> grows s1 s3.
Proof. unfold grows. lia. Qed.

Lemma replace_nth_length {A} n (x : A) l : length (replace_nth n x l) = length l.
Proof.
  revert n; induction l as [|y l IH]; intros [|n]; simpl; auto.
Qed.

Lemma newState_Some (isS isA : bool) (s : Builder) :
  exists s', newState isS isA s = Some (length (heap s), s') /\
             length (heap s') = S (length (heap s)).
Proof.
  unfold newState, alloc. eexists. split; [reflexivity|].
  simpl. rewrite length_app. simpl. lia.
Qed.

Lemma deref_Some (r : ref) (s : Builder) :
  r < length (heap s) -> exists x, onHeap (deref r) s = Some (x, s).
Proof.
  intro H. unfold onHeap, deref.
  destruct (nth_error (heap s) r) as [x|] eqn:E.
  - exists x. now destruct s.
  - apply nth_error_None in E. lia.
Qed.

Lemma modify_Some (r : ref) (f : State -> State) (s : Builder) :
  r < length (heap s) ->
  exists s', onHeap (modify r f) s = Some (tt, s') /\
             length (heap s') = length (heap s).
Proof.
  intro H. unfold onHeap, modify.
  destruct (nth_error (heap s) r) as [x|] eqn:E.
  - eexists. split; [reflexivity|]. simpl. apply replace_nth_length.
  - apply nth_error_None in E. lia.
Qed.

(** Runs the next step of a builder whose outcome the lemmas above give. *)
Ltac step :=
  match goal with
  | |- context [bind (newState ?a ?b) _ ?s] =>
    let s' := fresh "s" in let E := fresh "E" in let L := fresh "L" in
    destruct (newState_Some a b s) as (s' & E & L);
    unfold bind at 1; rewrite E; clear E
  | |- context [bind (onHeap (deref ?r)) _ ?s] =>
    let x := fresh "x" in let E := fresh "E" in
    destruct (deref_Some r s ltac:(lia)) as (x & E);
    unfold bind at 1; rewrite E; clear E
  | |- context [bind (onHeap (modify ?r ?f)) _ ?s] =>
    let s' := fresh "s" in let E := fresh "E" in let L := fresh "L" in
    destruct (modify_Some r f s ltac:(lia)) as (s' & E & L);
    unfold bind at 1; rewrite E; clear E
  end.

Lemma createBasicNFA_builds (a : jstring) (s : Builder) : builds (createBasicNFA a) s.
Proof.
  unfold builds, createBasicNFA, okFrag, grows.
  repeat step. eexists _, _. split; [reflexivity|]. simpl. lia.
Qed.

Lemma concatenate_builds (f1 f2 : NFAFragment) (s : Builder) :
  okFrag s f1 -> okFrag s f2 -> builds (concatenate f1 f2) s.
Proof.
  unfold builds, concatenate, okFrag, grows. intros [] [].
  repeat step. eexists _, _. split; [reflexivity|]. simpl. lia.
Qed.

Lemma union_builds (f1 f2 : NFAFragment) (s : Builder) :
  okFrag s f1 -> okFrag s f2 -> builds (union f1 f2) s.
Proof.
  unfold builds, union, okFrag, grows. intros [] [].
  repeat step. eexists _, _. split; [reflexivity|]. simpl. lia.
Qed.

Lemma wrap_builds (f : NFAFragment) edges (s : Builder) :
  okFrag s f -> builds (wrap f edges) s.
Proof.
  unfold builds, wrap, okFrag, grows. intros [].
  repeat step. eexists _, _. split; [reflexivity|]. simpl. lia.
Qed.

Lemma fragmentOf_builds (t : token) (s : Builder) :
  okToken s t -> builds (fragmentOf t) s.
Proof.
  destruct t as [c|f]; simpl; intro H.
  - apply createBasicNFA_builds.
  - exists f, s. unfold grows. auto.
Qed.

Lemma concatAll_from (tokens : list token) (acc : option NFAFragment) (s : Builder) :
  Forall (okToken s) tokens ->
  (forall a, acc = Some a -> okFrag s a) ->
  exists r s',
    foldM (fun acc t =>
             frag <- fragmentOf t ;;
             match acc with
             | Some a => r <- concatenate a frag ;; ret (Some r)
             | None => ret (Some frag)
             end) tokens acc s = Some (r, s')
    /\ (forall f, r = Some f -> okFrag s' f) /\ grows s s'.
Proof.
  revert acc s; induction tokens as [|t tokens IH]; intros acc s Ht Hacc; simpl.
  - exists acc, s. unfold ret, grows. auto.
  - inversion Ht as [|? ? Hok Hrest]; subst.
    destruct (fragmentOf_builds t s Hok) as (frag & s1 & E1 & Hf & G1).
    assert (Hrest1 : Forall (okToken s1) tokens).
    { eapply Forall_impl; [|exact Hrest]. intros; eapply okToken_grows; eauto. }
    destruct acc as [a|].
    + destruct (concatenate_builds a frag s1) as (r & s2 & E2 & Hr & G2);
        [eapply okFrag_grows; eauto|exact Hf|].
      destruct (IH (Some r) s2) as (r' & s3 & E3 & Hr' & G3).
      * eapply Forall_impl; [|exact Hrest1]. intros; eapply okToken_grows; eauto.
      * intros ? [= <-]. exact Hr.
      * exists r', s3. split; [|split]; [|exact Hr'|].
        -- unfold bind. rewrite E1, E2. exact E3.
        -- eapply grows_trans; [exact G1|]. eapply grows_trans; eauto.
    + destruct (IH (Some frag) s1) as (r' & s3 & E3 & Hr' & G3); auto.
      * intros ? [= <-]. exact Hf.
      * exists r', s3. split; [|split]; [|exact Hr'|].
        -- unfold bind. rewrite E1. exact E3.
        -- eapply grows_trans; eauto.
Qed.

Lemma concatAll_Some (tokens : list token) (s : Builder) :
  Forall (okToken s) tokens ->
  exists r s', concatAll tokens s = Some (r, s')
               /\ (forall f, r = Some f -> okFrag s' f) /\ grows s s'.
Proof.
  intro H. apply concatAll_from; [exact H|discriminate].
Qed.

Lemma pop_app {A} (l : list A) (x : A) : pop (l ++ [x]) = Some (x, l).
Proof. unfold pop. rewrite rev_app_distr. simpl. now rewrite rev_involutive. Qed.

Lemma pop_Some {A} (l : list A) :
  0 < length l -> exists x l', pop l = Some (x, l') /\ l = l' ++ [x].
Proof.
  intro H. destruct (exists_last (l := l)) as (l' & x & ->).
  - intros ->. simpl in H. lia.
  - exists x, l'. split; [apply pop_app|reflexivity].
Qed.

Lemma pop_None {A} (l : list A) : pop l = None -> l = [].
Proof.
  destruct l as [|a l]; [reflexivity|].
  destruct (pop_Some (a :: l)) as (x & l' & E & _); [simpl; lia|].
  rewrite E. discriminate.
Qed.

Lemma postfix_Some (op : NFAFragment -> B NFAFragment) (tokens : list token) (s : Builder) :
  (forall f s, okFrag s f -> builds (op f) s) ->
  0 < length tokens ->
  Forall (okToken s) tokens ->
  exists tokens' s', postfix op tokens s = Some (tokens', s')
                     /\ Forall (okToken s') tokens' /\ grows s s'.
Proof.
  intros Hop Hlen Ht. destruct (pop_Some tokens Hlen) as (last & rest & E & ->).
  unfold postfix. rewrite E.
  apply Forall_app in Ht as [Hrest Hlast]. inversion Hlast; subst.
  destruct (fragmentOf_builds last s) as (f & s1 & E1 & Hf & G1); [assumption|].
  unfold bind at 1. rewrite E1.
  destruct (Hop f s1 Hf) as (r & s2 & E2 & Hr & G2).
  unfold bind at 1. rewrite E2. unfold ret.
  exists (rest ++ [TFragment r]), s2. split; [reflexivity|split].
  - apply Forall_app. split.
    + eapply Forall_impl; [|exact Hrest]. intros; eapply okToken_grows; eauto.
      eapply grows_trans; eauto.
    + constructor; [exact Hr|constructor].
  - eapply grows_trans; eauto.
Qed.

Lemma matchParen_ge (rest : jstring) (depth j : nat) : j <= matchParen rest depth j.
Proof.
  revert depth j; induction rest as [|c rest IH]; intros depth j; simpl; [lia|].
  destruct (0 <? depth); [|lia].
  etransitivity; [|apply IH]. lia.
Qed.

Lemma slice_length (expr : jstring) (a b : nat) : length (slice expr a b) <= length expr - a.
Proof.
  unfold slice. rewrite length_firstn, length_skipn. lia.
Qed.

Lemma parseLoop_builds (parse : jstring -> B NFAFragment) (expr : jstring) :
  (forall sub s, length sub < length expr -> builds (parse sub) s) ->
  forall fuel tokens i s,
    length expr - i <= fuel ->
    Forall (okToken s) tokens ->
    builds (parseLoop parse expr fuel tokens i) s.
Proof.
  intros Hparse. induction fuel as [|fuel IH]; intros tokens i s Hfuel Ht.
  - assert (E : (i <? length expr) = false) by (apply Nat.ltb_ge; lia).
    unfold builds. cbn [parseLoop]. rewrite E.
    destruct (concatAll_Some tokens s Ht) as (r & s1 & E1 & Hr & G1).
    unfold bind at 1. rewrite E1. destruct r as [f|].
    + exists f, s1. unfold ret. auto.
    + destruct (createBasicNFA_builds LAMBDA s1) as (f & s2 & E2 & Hf & G2).
      exists f, s2. split; [exact E2|split]; [exact Hf|]. eapply grows_trans; eauto.
  - unfold builds. cbn [parseLoop]. destruct (i <? length expr) eqn:Hi.
    2:{ destruct (concatAll_Some tokens s Ht) as (r & s1 & E1 & Hr & G1).
        unfold bind at 1. rewrite E1. destruct r as [f|].
        + exists f, s1. unfold ret. auto.
        + destruct (createBasicNFA_builds LAMBDA s1) as (f & s2 & E2 & Hf & G2).
          exists f, s2. split; [exact E2|split]; [exact Hf|]. eapply grows_trans; eauto. }
    apply Nat.ltb_lt in Hi.
    assert (Hpost : forall op,
               (forall f s, okFrag s f -> builds (op f) s) ->
               0 < length tokens ->
               builds (tokens' <- postfix op tokens ;;
                       parseLoop parse expr fuel tokens' (i + 1)) s).
    { intros op Hop Hlen.
      destruct (postfix_Some op tokens s Hop Hlen Ht) as (tokens' & s1 & E1 & Ht' & G1).
      destruct (IH tokens' (i + 1) s1) as (f & s2 & E2 & Hf & G2); [lia|exact Ht'|].
      exists f, s2. unfold bind. rewrite E1. split; [exact E2|split]; [exact Hf|].
      eapply grows_trans; eauto. }
    destruct (str_eqb (charAt expr i) (lit "(")).
    { set (j := matchParen (skipn (i + 1) expr) 1 (i + 1)).
      assert (Hj : i + 1 <= j) by apply matchParen_ge.
      destruct (Hparse (slice expr (i + 1) (j - 1)) s) as (f & s1 & E1 & Hf & G1).
      { pose proof (slice_length expr (i + 1) (j - 1)). lia. }
      destruct (IH (tokens ++ [TFragment f]) j s1) as (f' & s2 & E2 & Hf' & G2).
      - lia.
      - apply Forall_app. split.
        + eapply Forall_impl; [|exact Ht]. intros; eapply okToken_grows; eauto.
        + constructor; [exact Hf|constructor].
      - exists f', s2. unfold bind. rewrite E1. split; [exact E2|split]; [exact Hf'|].
        eapply grows_trans; eauto. }
    destruct (str_eqb (charAt expr i) (lit "*") && (0 <? length tokens)) eqn:Estar.
    { apply andb_true_iff in Estar as [_ Hlen]. apply Nat.ltb_lt in Hlen.
      apply Hpost; [|exact Hlen]. intros; now apply wrap_builds. }
    destruct (str_eqb (charAt expr i) (lit "+") && (0 <? length tokens)) eqn:Eplus.
    { apply andb_true_iff in Eplus as [_ Hlen]. apply Nat.ltb_lt in Hlen.
      apply Hpost; [|exact Hlen]. intros; now apply wrap_builds. }
    destruct (str_eqb (charAt expr i) (lit "?") && (0 <? length tokens)) eqn:Eopt.
    { apply andb_true_iff in Eopt as [_ Hlen]. apply Nat.ltb_lt in Hlen.
      apply Hpost; [|exact Hlen]. intros; now apply wrap_builds. }
    destruct (str_eqb (charAt expr i) (lit "|")).
    { destruct (concatAll_Some tokens s Ht) as (l & s1 & E1 & Hl & G1).
      destruct (Hparse (slice expr (i + 1) (length expr)) s1) as (r & s2 & E2 & Hr & G2).
      { pose proof (slice_length expr (i + 1) (length expr)). lia. }
      unfold bind. rewrite E1, E2. destruct l as [l|].
      - destruct (union_builds l r s2) as (f & s3 & E3 & Hf & G3).
        + eapply okFrag_grows; [apply Hl; reflexivity|exact G2].
        + exact Hr.
        + exists f, s3. split; [exact E3|split]; [exact Hf|].
          eapply grows_trans; [exact G1|]. eapply grows_trans; eauto.
      - exists r, s2. unfold ret. split; [reflexivity|split]; [exact Hr|].
        eapply grows_trans; eauto. }
    destruct (negb (str_eqb (charAt expr i) (lit " "))).
    + apply IH; [lia|]. apply Forall_app. split; [exact Ht|].
      constructor; [exact I|constructor].
    + apply IH; [lia|exact Ht].
Qed.

Lemma parse_builds (fuel : nat) :
  forall expr s, length expr < fuel -> builds (parse fuel expr) s.
Proof.
  induction fuel as [|fuel IH]; intros expr s H; [lia|].
  simpl. destruct (length expr =? 0).
  - apply createBasicNFA_builds.
  - apply parseLoop_builds; [|lia|constructor].
    intros sub s1 Hsub. apply IH. lia.
Qed.

(** With room for one activation of [parse] per character and one more,
    the parser has no failure path: for every input string, malformed ones
    included, and every heap, [regexToNFALambda] returns an automaton. *)
Theorem regexToNFALambda_total (regex : jstring) (h : Heap) :
  exists nfaL h', regexToNFALambda regex h = Some (nfaL, h').
Proof.
  unfold regexToNFALambda.
  destruct (parse_builds (S (length regex)) regex {| stateCounter := 0; heap := h |})
    as (f & s & E & _); [lia|].
  rewrite E. eexists _, _. reflexivity.
Qed.

(** C1, as stated, fails: the lone quantifier [*] is malformed in the
    specification's sense, and [regexToNFALambda] returns for it the
    two-state automaton of the literal symbol [*]. *)
Lemma regexToNFALambda_leading_star :
  malformed (lit "*") = true /\
  regexToNFALambda (lit "*") [] =
  Some ({| states := [0; 1];
           transitions := [{| from := q_ 0; to := q_ 1; symbol := lit "*" |}];
           alphabet := [lit "*"] |},
        [{| id := q_ 0; isStart := true; isAccept := false |};
         {| id := q_ 1; isStart := false; isAccept := true |}]).
Proof. split; reflexivity. Qed.

(** An unclosed group does not fail either: [(a] is malformed and comes
    back as the automaton of the empty expression. *)
Lemma regexToNFALambda_unclosed_group :
  malformed (lit "(a") = true /\
  regexToNFALambda (lit "(a") [] =
  Some ({| states := [0; 1];
           transitions := [{| from := q_ 0; to := q_ 1; symbol := LAMBDA |}];
           alphabet := [] |},
        [{| id := q_ 0; isStart := true; isAccept := false |};
         {| id := q_ 1; isStart := false; isAccept := true |}]).
Proof. split; reflexivity. Qed.

(** ** The empty regex *)

Lemma codePoints_cons (c : N) (rest : jstring) :
  exists a l, codePoints (c :: rest) = a :: l.
Proof.
  destruct rest as [|d rest]; simpl; [now eexists _, _|].
  destruct (isHigh c && isLow d); now eexists _, _.
Qed.

Lemma pipeline_at_least (n fuel : nat) regex h r :
  pipeline n regex h = Some r -> n <= fuel -> pipeline fuel regex h = Some r.
Proof.
  intros H Hle. replace fuel with (n + (fuel - n)) by lia.
  now apply pipeline_more_fuel.
Qed.

(** C4, as stated, fails in its first half: the automaton built for the
    empty regex does not have a single state. *)
Lemma empty_regex_not_single_state :
  ~ exists nfaL h s,
      regexToNFALambda [] [] = Some (nfaL, h) /\ view h nfaL = Some [s].
Proof.
  intros (nfaL & h & s & H & Hv).
  vm_compute in H. injection H as <- <-. vm_compute in Hv. discriminate.
Qed.

(** C4, as the code has it. For the empty regex [regexToNFALambda] builds
    the epsilon fragment: two states, [q0] start and [q1] accept, joined by
    one epsilon edge.  The DFA the pipeline derives from it (with fuel for
    one subset or more) has a single state, both start and accept, and
    [validateString] accepts on it the empty string and nothing else. *)
Theorem empty_regex_automata (fuel : nat) :
  1 <= fuel ->
  (exists nfaL h,
      regexToNFALambda [] [] = Some (nfaL, h) /\
      view h nfaL = Some [{| id := q_ 0; isStart := true; isAccept := false |};
                          {| id := q_ 1; isStart := false; isAccept := true |}] /\
      transitions nfaL = [{| from := q_ 0; to := q_ 1; symbol := LAMBDA |}]) /\
  (exists dfa h,
      pipeline fuel [] [] = Some (dfa, h) /\
      view h dfa = Some [{| id := q_ 0; isStart := true; isAccept := true |}] /\
      forall input,
        validateString dfa input h =
        Some (match input with [] => true | _ :: _ => false end, h)).
Proof.
  intro Hfuel. split.
  - eexists _, _. split; [vm_compute; reflexivity|]. split; reflexivity.
  - eexists _, _. split; [|split].
    + apply (pipeline_at_least 1); [vm_compute; reflexivity|exact Hfuel].
    + reflexivity.
    + intros [|c rest]; [reflexivity|].
      destruct (codePoints_cons c rest) as (a & l & E).
      unfold validateString, bind. cbn [states transitions].
      change (mapM deref [5] _) with
        (Some ([{| id := q_ 0; isStart := true; isAccept := true |}],
               [{| id := q_ 0; isStart := true; isAccept := false |};
                {| id := q_ 1; isStart := false; isAccept := true |};
                {| id := q_ 0; isStart := true; isAccept := true |};
                {| id := q_ 1; isStart := false; isAccept := true |};
                {| id := q_ 0; isStart := true; isAccept := true |};
                {| id := q_ 0; isStart := true; isAccept := true |}])).
      cbn [find isStart id]. rewrite E. reflexivity.
Qed.

Lemma empty_regex_automata_witness :
  exists dfa h,
    pipeline 1 [] [] = Some (dfa, h) /\
    validateString dfa [] h = Some (true, h) /\
    validateString dfa (lit "a") h = Some (false, h).
Proof.
  destruct (empty_regex_automata 1) as [_ (dfa & h & Hp & _ & Hv)]; [lia|].
  exists dfa, h. split; [exact Hp|]. split; [exact (Hv [])|exact (Hv (lit "a"))].
Defined.

(** ** Epsilon closure *)

Lemma Set_has_In (s : JSSet) (x : jstring) : Set_has s x = true <-> In x s.
Proof.
  unfold Set_has. rewrite existsb_exists. split.
  - intros (y & Hy & E). apply str_eqb_eq in E. now subst.
  - intro H. exists x. split; [exact H|apply str_eqb_refl].
Qed.

Lemma Set_has_not_In (s : JSSet) (x : jstring) : Set_has s x = false <-> ~ In x s.
Proof.
  rewrite <- Set_has_In. destruct (Set_has s x); split; congruence.
Qed.

Lemma Set_add_In (s : JSSet) (x y : jstring) : In y (Set_add s x) <-> In y s \/ y = x.
Proof.
  unfold Set_add. destruct (Set_has s x) eqn:E.
  - apply Set_has_In in E. split; [auto|]. intros [H| ->]; auto.
  - rewrite in_app_iff. simpl. intuition.
Qed.

Lemma Set_add_NoDup (s : JSSet) (x : jstring) : NoDup s -> NoDup (Set_add s x).
Proof.
  intro H. unfold Set_add. destruct (Set_has s x) eqn:E; [exact H|].
  apply Set_has_not_In in E.
  apply NoDup_app; [exact H|repeat constructor; auto|].
  intros y Hy [<-|[]]. contradiction.
Qed.

Lemma fold_Set_add_In (l : list jstring) (acc : JSSet) (y : jstring) :
  In y (fold_left Set_add l acc) <-> In y acc \/ In y l.
Proof.
  revert acc; induction l as [|x l IH]; intro acc; simpl; [intuition|].
  rewrite IH, Set_add_In. intuition.
Qed.

Lemma fold_Set_add_NoDup (l : list jstring) (acc : JSSet) :
  NoDup acc -> NoDup (fold_left Set_add l acc).
Proof.
  revert acc; induction l as [|x l IH]; intros acc H; simpl; [exact H|].
  apply IH, Set_add_NoDup, H.
Qed.

(** [new Set(s)] of a duplicate-free list is that list. *)
Lemma fold_Set_add_fresh (l : list jstring) (acc : JSSet) :
  NoDup (acc ++ l) -> fold_left Set_add l acc = acc ++ l.
Proof.
  revert acc; induction l as [|x l IH]; intros acc H; simpl.
  - now rewrite app_nil_r.
  - assert (Hx : ~ In x acc).
    { intro Hin. apply NoDup_remove_2 in H. apply H.
      apply in_or_app. now left. }
    apply Set_has_not_In in Hx. unfold Set_add. rewrite Hx.
    rewrite IH; rewrite <- app_assoc; [reflexivity|exact H].
Qed.

Lemma new_Set_NoDup (l : list jstring) : NoDup l -> new_Set l = l.
Proof. intro H. unfold new_Set. now rewrite fold_Set_add_fresh. Qed.

(** One pass over the epsilon edges of a popped state: the new targets
    are appended to the closure and to the stack alike. *)
Lemma fold_visit (es : list Transition) (closure : JSSet) (stack : list jstring) :
  NoDup closure ->
  exists added,
    fold_left visit es (closure, stack) = (closure ++ added, stack ++ added) /\
    NoDup (closure ++ added) /\
    (forall t, In t es -> In (to t) (closure ++ added)) /\
    (forall x, In x added -> exists t, In t es /\ to t = x).
Proof.
  revert closure stack; induction es as [|t es IH]; intros closure stack Hnd; simpl.
  - exists []. rewrite !app_nil_r. repeat split; auto; intros ? [].
  - destruct (Set_has closure (to t)) eqn:E; simpl.
    + destruct (IH closure stack Hnd) as (added & Ef & Hn & Hin & Hfrom).
      exists added. repeat split; auto.
      * intros t' [<-|H]; [|auto]. apply in_or_app. left. now apply Set_has_In.
      * intros x Hx. destruct (Hfrom x Hx) as (t' & ? & ?). exists t'. auto.
    + assert (Ea : Set_add closure (to t) = closure ++ [to t])
        by (unfold Set_add; now rewrite E).
      rewrite Ea.
      destruct (IH (closure ++ [to t]) (stack ++ [to t])) as (added & Ef & Hn & Hin & Hfrom).
      { rewrite <- Ea. now apply Set_add_NoDup. }
      exists (to t :: added). rewrite <- !app_assoc in *. simpl in *.
      repeat split; auto.
      * intros t' [<-|H]; [|auto]. apply in_or_app. right. now left.
      * intros x [<-|Hx]; [exists t; auto|].
        destruct (Hfrom x Hx) as (t' & ? & ?). exists t'. auto.
Qed.

Lemma successorsIn_mono ts (c c' : JSSet) x :
  incl c c' -> successorsIn ts c x -> successorsIn ts c' x.
Proof. intros Hi H t Ht He. apply Hi, (H t Ht He). Qed.

(** The loop ends, with the closure extended to a closed set. *)
Lemma closureLoop_closes (ts : list Transition) (univ : list jstring) :
  (forall t, In t ts -> In (to t) univ) ->
  forall fuel closure stack,
    NoDup closure ->
    incl closure univ ->
    pending ts closure stack ->
    length stack + (length univ - length closure) <= fuel ->
    exists added,
      closureLoop ts fuel closure stack = Some (closure ++ added) /\
      NoDup (closure ++ added) /\ closedUnder ts (closure ++ added).
Proof.
  intros Huniv. induction fuel as [|fuel IH]; intros closure stack Hnd Hincl [Hst Hpend] Hfuel.
  - assert (stack = []) as -> by (destruct stack; [reflexivity|simpl in Hfuel; lia]).
    exists []. rewrite app_nil_r. repeat split; auto.
    intros x Hx. destruct (Hpend x Hx) as [[]|H]. exact H.
  - simpl. destruct (pop stack) as [[state stack']|] eqn:Ep.
    2:{ apply pop_None in Ep. subst. exists []. rewrite app_nil_r. repeat split; auto.
        intros x Hx. destruct (Hpend x Hx) as [[]|H]. exact H. }
    assert (Es : stack = stack' ++ [state]).
    { destruct (pop_Some stack) as (x & l' & E & El).
      - destruct stack; [discriminate|simpl; lia].
      - rewrite E in Ep. now injection Ep as <- <-. }
    subst stack.
    destruct (fold_visit (filter (isEdge state LAMBDA) ts) closure stack' Hnd)
      as (added & Ef & Hn & Hin & Hfrom).
    rewrite Ef.
    assert (Hincl' : incl (closure ++ added) univ).
    { intros x Hx. apply in_app_or in Hx as [Hx|Hx]; [auto|].
      destruct (Hfrom x Hx) as (t & Ht & <-). apply filter_In in Ht as [Ht _]. auto. }
    destruct (IH (closure ++ added) (stack' ++ added) Hn Hincl') as (more & El & Hn' & Hc).
    + split.
      * intros x Hx. apply in_or_app. apply in_app_or in Hx as [Hx|Hx]; [left|now right].
        apply Hst. apply in_or_app. now left.
      * intros x Hx. apply in_app_or in Hx as [Hx|Hx].
        -- destruct (Hpend x Hx) as [Hs|Hs].
           ++ apply in_app_or in Hs as [Hs|[<-|[]]].
              ** left. apply in_or_app. now left.
              ** right. intros t Ht He. apply Hin. apply filter_In. auto.
           ++ right. eapply successorsIn_mono; [|exact Hs]. apply incl_appl, incl_refl.
        -- left. apply in_or_app. now right.
    + pose proof (NoDup_incl_length Hn Hincl') as Hlen.
      rewrite !length_app in *. simpl in *. lia.
    + exists (added ++ more). rewrite app_assoc. auto.
Qed.

Lemma epsilonClosure_closes (states : JSSet) (ts : list Transition) :
  exists added,
    epsilonClosure states ts = Some (new_Set states ++ added) /\
    NoDup (new_Set states ++ added) /\ closedUnder ts (new_Set states ++ added).
Proof.
  unfold epsilonClosure.
  apply (closureLoop_closes ts (new_Set states ++ map to ts)).
  - intros t Ht. apply in_or_app. right. now apply in_map.
  - apply fold_Set_add_NoDup. constructor.
  - apply incl_appl, incl_refl.
  - split.
    + intros x Hx. apply fold_Set_add_In. now right.
    + intros x Hx. left. apply fold_Set_add_In in Hx as [[]|Hx]. exact Hx.
  - rewrite length_app, length_map. lia.
Qed.

(** On a closed set the loop pops the whole stack and adds nothing. *)
Lemma closureLoop_closed (ts : list Transition) (closure : JSSet) :
  closedUnder ts closure ->
  forall fuel stack,
    incl stack closure -> length stack <= fuel ->
    closureLoop ts fuel closure stack = Some closure.
Proof.
  intros Hc. induction fuel as [|fuel IH]; intros stack Hst Hfuel.
  - destruct stack; [reflexivity|simpl in Hfuel; lia].
  - simpl. destruct (pop stack) as [[state stack']|] eqn:Ep; [|reflexivity].
    assert (Es : stack = stack' ++ [state]).
    { destruct (pop_Some stack) as (x & l' & E & El).
      - destruct stack; [discriminate|simpl; lia].
      - rewrite E in Ep. now injection Ep as <- <-. }
    subst stack.
    assert (Ef : forall es c, (forall t, In t es -> In (to t) closure) ->
                              fold_left visit es (closure, c) = (closure, c)).
    { induction es as [|t es IHes]; intros c Hes; [reflexivity|]. simpl.
      rewrite (proj2 (Set_has_In closure (to t))) by (apply Hes; now left).
      simpl. apply IHes. intros; apply Hes; now right. }
    rewrite Ef.
    + apply IH.
      * intros x Hx. apply Hst, in_or_app. now left.
      * rewrite length_app in Hfuel. simpl in Hfuel. lia.
    + intros t Ht. apply filter_In in Ht as [Ht He].
      apply (Hc state); [|exact Ht|exact He]. apply Hst, in_or_app. right. now left.
Qed.

(** C8. [epsilonClosure] is idempotent: for every set of state ids and
    every transition list it returns a set, and applied to that set, with
    the same transitions, it returns the very same set. *)
Theorem epsilonClosure_idempotent (states : JSSet) (ts : list Transition) :
  exists closure,
    epsilonClosure states ts = Some closure /\
    epsilonClosure closure ts = Some closure.
Proof.
  destruct (epsilonClosure_closes states ts) as (added & E & Hnd & Hc).
  exists (new_Set states ++ added). split; [exact E|].
  unfold epsilonClosure. rewrite (new_Set_NoDup _ Hnd).
  apply closureLoop_closed; [exact Hc|apply incl_refl|lia].
Qed.

(** ** Reading and allocating *)

Lemma ofold_inv {A B} (P : B -> Prop) (f : B -> A -> option B) (l : list A) (b : B) :
  P b ->
  (forall b a, In a l -> P b -> exists b', f b a = Some b' /\ P b') ->
  exists b', ofold f l b = Some b' /\ P b'.
Proof.
  revert b; induction l as [|a l IH]; intros b Hb Hf; simpl.
  - now exists b.
  - destruct (Hf b a (or_introl eq_refl) Hb) as (b1 & E & Hb1).
    rewrite E. simpl. apply IH; [exact Hb1|].
    intros b2 a2 Hin. apply Hf. now right.
Qed.

Lemma epsilonClosure_Some (states : JSSet) (ts : list Transition) :
  exists closure, epsilonClosure states ts = Some closure.
Proof.
  destruct (epsilonClosure_closes states ts) as (added & E & _). eauto.
Qed.

Lemma reachableVia_Some (ts : list Transition) (closure : JSSet) (a : jstring) :
  exists reachable, reachableVia ts closure a = Some reachable.
Proof.
  unfold reachableVia.
  destruct (ofold_inv (fun _ => True)
              (fun reachable s =>
                 ofold (fun reachable t =>
                          c <-- epsilonClosure [to t] ts ;;
                          Some (fold_left Set_add c reachable))
                       (filter (isEdge s a) ts) reachable)
              closure []) as (r & E & _); [exact I| |eauto].
  intros b s _ _.
  apply ofold_inv; [exact I|].
  intros b' t _ _. destruct (epsilonClosure_Some [to t] ts) as (c & E).
  rewrite E. simpl. eauto.
Qed.

Lemma pushNew_symbols (stateId a : jstring) (nt : list Transition) (reachable : JSSet)
    (P : Transition -> Prop) :
  (forall t, In t nt -> P t) ->
  (forall r, P {| from := stateId; to := r; symbol := a |}) ->
  forall t, In t (pushNew stateId a nt reachable) -> P t.
Proof.
  unfold pushNew. revert nt; induction reachable as [|r reachable IH]; intros nt Hnt Ha; simpl.
  - exact Hnt.
  - apply IH; [|exact Ha].
    destruct (existsb _ nt); [exact Hnt|].
    intros t Ht. apply in_app_or in Ht as [Ht|[<-|[]]]; auto.
Qed.

(** [newTransitions] is always built, and out of alphabet symbols only. *)
Lemma buildTransitions_Some (objs : list State) (ts : list Transition)
    (al : list jstring) :
  exists nt, buildTransitions objs ts al = Some nt /\
             forall t, In t nt -> In (symbol t) al.
Proof.
  unfold buildTransitions.
  apply (ofold_inv (fun nt => forall t, In t nt -> In (symbol t) al)); [intros ? []|].
  intros nt state _ Hnt.
  destruct (epsilonClosure_Some [id state] ts) as (closure & E). rewrite E. simpl.
  apply (ofold_inv (fun nt => forall t, In t nt -> In (symbol t) al)); [exact Hnt|].
  intros nt' a Ha Hnt'.
  destruct (reachableVia_Some ts closure a) as (reachable & Er). rewrite Er. simpl.
  eexists. split; [reflexivity|].
  apply pushNew_symbols; [exact Hnt'|]. intro r. exact Ha.
Qed.

Lemma nth_error_extends (h l : Heap) (r : ref) (s : State) :
  nth_error h r = Some s -> nth_error (h ++ l) r = Some s.
Proof.
  intro H. rewrite nth_error_app1; [exact H|].
  apply nth_error_Some. congruence.
Qed.

(** A loop that allocates one object per element. *)
Lemma mapM_alloc {A} (k : A -> M ref) (g : A -> State) (l : list A) (h : Heap) :
  (forall a h, In a l -> k a h = Some (length h, h ++ [g a])) ->
  mapM k l h = Some (seq (length h) (length l), h ++ map g l).
Proof.
  revert h; induction l as [|a l IH]; intros h Hk; simpl.
  - unfold ret. now rewrite app_nil_r.
  - unfold bind. rewrite (Hk a h (or_introl eq_refl)).
    rewrite IH by (intros; apply Hk; now right).
    unfold ret. rewrite length_app, <- app_assoc. simpl.
    now rewrite Nat.add_1_r.
Qed.

(** What [mapM deref] returns: the objects the references point to. *)
Lemma mapM_deref_Forall2 (rs : list ref) (h : Heap) (objs : list State) :
  mapM deref rs h = Some (objs, h) <->
  Forall2 (fun r s => nth_error h r = Some s) rs objs.
Proof.
  revert objs; induction rs as [|r rs IH]; intros objs; simpl.
  - unfold ret. split.
    + intros [= <-]. constructor.
    + intro H. inversion H. reflexivity.
  - split.
    + intro H. apply bind_Some in H as (s & h1 & H1 & H).
      unfold deref in H1. destruct (nth_error h r) eqn:E; [|discriminate].
      injection H1 as -> <-.
      apply bind_Some in H as (bs & h2 & H2 & H).
      pose proof (mapM_deref_heap _ _ _ _ H2) as [-> _].
      unfold ret in H. injection H as <-.
      constructor; [exact E|]. now apply IH.
    + intro H. inversion H as [|? s ? bs Hs Hrest]; subst.
      apply bind_Some. exists s, h. split; [unfold deref; now rewrite Hs|].
      apply bind_Some. exists bs, h. split; [now apply IH|reflexivity].
Qed.

(** Reading back the objects a loop has just allocated. *)
Lemma mapM_deref_new (h l : Heap) :
  mapM deref (seq (length h) (length l)) (h ++ l) = Some (l, h ++ l).
Proof.
  apply mapM_deref_Forall2.
  assert (G : forall l2 l1 : Heap,
             Forall2 (fun r s => nth_error (h ++ l1 ++ l2) r = Some s)
                     (seq (length h + length l1) (length l2)) l2).
  { induction l2 as [|s l2 IH]; intros l1; simpl; constructor.
    - rewrite app_assoc, nth_error_app2 by (rewrite length_app; lia).
      rewrite length_app, Nat.sub_diag. reflexivity.
    - specialize (IH (l1 ++ [s])).
      rewrite length_app in IH. simpl in IH.
      rewrite <- app_assoc in IH. simpl in IH.
      now replace (S (length h + length l1)) with (length h + (length l1 + 1)) by lia. }
  specialize (G l []). simpl in G. now rewrite Nat.add_0_r in G.
Qed.

Lemma mapM_deref_extends (rs : list ref) (h l : Heap) (objs : list State) :
  mapM deref rs h = Some (objs, h) -> mapM deref rs (h ++ l) = Some (objs, h ++ l).
Proof.
  rewrite !mapM_deref_Forall2. intro H.
  eapply Forall2_impl; [|exact H]. intros r s. apply nth_error_extends.
Qed.

(** [hasAcceptIn] only reports accept states whose id is in the closure. *)
Lemma hasAcceptIn_sound (objs : list State) (closure : JSSet) :
  hasAcceptIn objs closure = true ->
  exists st, In st objs /\ isAccept st = true /\ In (id st) closure.
Proof.
  unfold hasAcceptIn. intro H. apply existsb_exists in H as (i & Hi & H).
  destruct (find (fun st => str_eqb (id st) i) objs) as [st|] eqn:E; [|discriminate].
  apply find_some in E as [Hin Hid]. apply str_eqb_eq in Hid. subst i.
  now exists st.
Qed.

(** The object a state of the NFA-lambda becomes in the NFA. *)
Lemma nfaLambdaToNFA_run (h : Heap) (a : Automaton) (objs : list State) :
  view h a = Some objs ->
  exists nt g,
    buildTransitions objs (transitions a) (alphabet a) = Some nt /\
    (forall s, exists closure,
        epsilonClosure [id s] (transitions a) = Some closure /\
        g s = {| id := id s; isStart := isStart s;
                 isAccept := isAccept s || hasAcceptIn objs closure |}) /\
    nfaLambdaToNFA a h =
    Some ({| states := seq (length h) (length objs);
             transitions := nt;
             alphabet := alphabet a |}, h ++ map g objs).
Proof.
  intro Hv. apply view_mapM in Hv.
  destruct (buildTransitions_Some objs (transitions a) (alphabet a)) as (nt & En & _).
  set (g := fun s =>
              match epsilonClosure [id s] (transitions a) with
              | Some closure =>
                {| id := id s; isStart := isStart s;
                   isAccept := isAccept s || hasAcceptIn objs closure |}
              | None => s
              end).
  exists nt, g. split; [exact En|]. split.
  - intro s. destruct (epsilonClosure_Some [id s] (transitions a)) as (c & E).
    exists c. split; [exact E|]. unfold g. now rewrite E.
  - unfold nfaLambdaToNFA. unfold bind at 1. rewrite Hv.
    unfold bind at 1. rewrite En. simpl.
    unfold bind at 1.
    rewrite (mapM_alloc _ g).
    + reflexivity.
    + intros s h0 _. unfold bind, g.
      destruct (epsilonClosure_Some [id s] (transitions a)) as (c & E).
      rewrite E. reflexivity.
Qed.

(** ** The NFA after epsilon elimination *)



(** ** Inputs are left as they were *)

Lemma extends_refl (h : Heap) : extends h h.
Proof. exists []. now rewrite app_nil_r. Qed.

Lemma extends_trans (h1 h2 h3 : Heap) : extends h1 h2 -> extends h2 h3 -> extends h1 h3.
Proof. intros [l1 ->] [l2 ->]. exists (l1 ++ l2). now rewrite app_assoc. Qed.

Lemma extends_length (h h' : Heap) : extends h h' -> length h <= length h'.
Proof. intros [l ->]. rewrite length_app. lia. Qed.

Lemma extends_view (h h' : Heap) (a : Automaton) (objs : list State) :
  extends h h' -> view h a = Some objs -> view h' a = Some objs.
Proof.
  intros [l ->] H. apply view_mapM. apply view_mapM in H.
  now apply mapM_deref_extends.
Qed.

Lemma foldM_extends {A B} (f : B -> A -> M B) (l : list A) :
  (forall b a h b' h', f b a h = Some (b', h') -> extends h h') ->
  forall b h b' h', foldM f l b h = Some (b', h') -> extends h h'.
Proof.
  intro Hf. induction l as [|a l IH]; simpl; intros b h b' h' H.
  - injection H as <- <-. apply extends_refl.
  - apply bind_Some in H as (b1 & h1 & H1 & H).
    eapply extends_trans; [eapply Hf; eauto|eapply IH; eauto].
Qed.

(** A loop whose body allocates exactly one object: the references it
    returns are the next free ones. *)
Lemma mapM_allocating {A} (k : A -> M ref) (l : list A) :
  (forall a h r h', k a h = Some (r, h') -> r = length h /\ exists s, h' = h ++ [s]) ->
  forall h rs h',
    mapM k l h = Some (rs, h') ->
    rs = seq (length h) (length l) /\ extends h h'.
Proof.
  intro Hk. induction l as [|a l IH]; simpl; intros h rs h' H.
  - injection H as <- <-. split; [reflexivity|apply extends_refl].
  - apply bind_Some in H as (r & h1 & H1 & H).
    apply bind_Some in H as (rs1 & h2 & H2 & H). injection H as <- <-.
    apply Hk in H1 as [-> [s ->]]. apply IH in H2 as [-> Hext].
    rewrite length_app. simpl. rewrite Nat.add_1_r. split; [reflexivity|].
    eapply extends_trans; [|exact Hext]. now exists [s].
Qed.

Lemma onSymbol_extends objs ts cur ck st a h st' h' :
  onSymbol objs ts cur ck st a h = Some (st', h') -> extends h h'.
Proof.
  unfold onSymbol. intro H. apply bind_Some in H as (st1 & h1 & H1 & H).
  injection H as _ <-.
  destruct (negb _ && _).
  - apply bind_Some in H1 as (r & h2 & H2 & H1). injection H1 as _ <-.
    unfold alloc in H2. injection H2 as _ <-. now eexists.
  - injection H1 as _ <-. apply extends_refl.
Qed.

Lemma subsetLoop_extends objs ts al fuel :
  forall st h st' h', subsetLoop objs ts al fuel st h = Some (st', h') -> extends h h'.
Proof.
  induction fuel as [|fuel IH]; intros st h st' h' H; simpl in H;
    destruct (queue st) as [|cur rest].
  - injection H as _ <-. apply extends_refl.
  - discriminate.
  - injection H as _ <-. apply extends_refl.
  - apply bind_Some in H as (st1 & h1 & H1 & H).
    eapply extends_trans; [|eapply IH; eauto].
    eapply foldM_extends; [|exact H1]. intros. eapply onSymbol_extends; eauto.
Qed.

Lemma fresh_seq (h h1 : Heap) (n : nat) : extends h h1 -> fresh h (seq (length h1) n).
Proof.
  intro H. apply extends_length in H. apply Forall_forall.
  intros r Hr. apply in_seq in Hr. lia.
Qed.

Lemma nfaLambdaToNFA_frame (h : Heap) (a a' : Automaton) (h' : Heap) :
  nfaLambdaToNFA a h = Some (a', h') ->
  extends h h' /\ view h' a = view h a /\ fresh h (states a').
Proof.
  intro H. unfold nfaLambdaToNFA in H.
  apply bind_Some in H as (objs & h1 & H1 & H).
  pose proof (mapM_deref_heap _ _ _ _ H1) as [-> _].
  apply bind_Some in H as (nt & h2 & H2 & H).
  unfold liftO in H2. destruct (buildTransitions _ _ _); [|discriminate].
  injection H2 as -> <-.
  apply bind_Some in H as (rs & h3 & H3 & H). injection H as <- <-.
  apply mapM_allocating in H3 as [-> Hext].
  - split; [exact Hext|]. split.
    + apply view_mapM in H1. rewrite H1. eapply extends_view; eauto.
    + simpl. apply fresh_seq, extends_refl.
  - intros s h0 r h4 Hk. apply bind_Some in Hk as (c & h5 & Hc & Hk).
    unfold liftO in Hc. destruct (epsilonClosure _ _); [|discriminate].
    injection Hc as _ <-. unfold alloc in Hk. injection Hk as <- <-. eauto.
Qed.

Lemma nfaToDFA_frame (fuel : nat) (h : Heap) (a a' : Automaton) (h' : Heap) :
  nfaToDFA fuel a h = Some (a', h') ->
  extends h h' /\ view h' a = view h a /\ fresh h (states a').
Proof.
  intro H. unfold nfaToDFA in H.
  apply bind_Some in H as (objs & h1 & H1 & H).
  pose proof (mapM_deref_heap _ _ _ _ H1) as [-> _].
  apply view_mapM in H1.
  assert (G : extends h h' /\ fresh h (states a')).
  { destruct (find isStart objs) as [s0|].
    - apply bind_Some in H as (r & h2 & H2 & H).
      unfold alloc in H2. injection H2 as _ <-.
      apply bind_Some in H as (st & h3 & H3 & H).
      apply subsetLoop_extends in H3.
      apply bind_Some in H as (rs & h4 & H4 & H). injection H as <- <-.
      assert (E03 : extends h h3) by (eapply extends_trans; [|exact H3]; now eexists).
      apply mapM_allocating in H4 as [-> Hext].
      + split; [eapply extends_trans; eauto|]. simpl. now apply fresh_seq.
      + intros kv h0 r0 h5 Hk. apply bind_Some in Hk as (s & h6 & Hs & Hk).
        unfold deref in Hs. destruct (nth_error h0 (snd kv)); [|discriminate].
        injection Hs as _ <-. unfold alloc in Hk. injection Hk as <- <-. eauto.
    - injection H as <- <-. split; [apply extends_refl|constructor]. }
  destruct G as [Hext Hfresh]. split; [exact Hext|]. split; [|exact Hfresh].
  rewrite H1. eapply extends_view; eauto.
Qed.

(** ** The subset construction is deterministic *)

Lemma Map_has_In {V} (m : JSMap V) (k : jstring) : Map_has m k = true <-> In k (map fst m).
Proof.
  unfold Map_has. rewrite existsb_exists, in_map_iff. split.
  - intros (kv & Hin & E). apply str_eqb_eq in E. eauto.
  - intros (kv & E & Hin). exists kv. split; [exact Hin|]. now apply str_eqb_eq.
Qed.

Lemma Map_set_new {V} (m : JSMap V) (k : jstring) (v : V) :
  ~ In k (map fst m) -> Map_set m k v = m ++ [(k, v)].
Proof.
  induction m as [|[k' v'] m IH]; simpl; intro H; [reflexivity|].
  destruct (str_eqb k' k) eqn:E.
  - apply str_eqb_eq in E. tauto.
  - rewrite IH; tauto.
Qed.

Lemma NoDup_snoc {A} (l : list A) (x : A) : NoDup l -> ~ In x l -> NoDup (l ++ [x]).
Proof.
  intros Hl Hx. apply NoDup_app; [exact Hl|repeat constructor; auto|].
  intros a Ha [<-|[]]. contradiction.
Qed.

Lemma NoDup_map_on {A B} (f : A -> B) (l : list A) :
  (forall x y, In x l -> In y l -> f x = f y -> x = y) ->
  NoDup l -> NoDup (map f l).
Proof.
  induction l as [|a l IH]; simpl; intros Hinj Hnd; [constructor|].
  inversion Hnd as [|? ? Ha Hl]; subst. constructor.
  - intro Hin. apply in_map_iff in Hin as (y & E & Hy).
    assert (y = a) by (apply Hinj; auto). subst. contradiction.
  - apply IH; auto.
Qed.

(** One symbol of one dequeued subset keeps the invariant; [seen] are the
    symbols already handled for that subset. *)
Lemma onSymbol_explored objs ts cur ck (done seen : list jstring) st a h st' h' :
  explored done st ->
  In ck done ->
  (forall t, In t (dfaTransitions st) -> from t = ck -> In (symbol t) seen) ->
  ~ In a seen ->
  onSymbol objs ts cur ck st a h = Some (st', h') ->
  explored done st' /\
  (forall t, In t (dfaTransitions st') -> from t = ck -> In (symbol t) (a :: seen)).
Proof.
  intros (Hnd & Hincl & Hkeys & Hfrom & Hedges) Hck Hseen Ha H.
  unfold onSymbol in H.
  set (nextSet := nextSetOf ts cur a) in *.
  set (nextKey := orElse (keyOf nextSet) EMPTYSET) in *.
  assert (Hnew : forall l : list Transition,
             (forall t, In t l -> In (from t) done) ->
             (forall t, In t l -> from t = ck -> In (symbol t) seen) ->
             NoDup (map edgeKey l) ->
             let l' := l ++ [{| from := ck; to := nextKey; symbol := a |}] in
             (forall t, In t l' -> In (from t) done) /\
             NoDup (map edgeKey l') /\
             (forall t, In t l' -> from t = ck -> In (symbol t) (a :: seen))).
  { intros l H1 H2 H3 l'. unfold l'. split; [|split].
    - intros t Ht. apply in_app_or in Ht as [Ht|[<-|[]]]; auto.
    - rewrite map_app. simpl. apply NoDup_snoc; [exact H3|].
      intro Hin. apply in_map_iff in Hin as (t & E & Ht).
      unfold edgeKey in E. injection E as E1 E2.
      apply Ha. rewrite <- E2. now apply H2.
    - intros t Ht E. apply in_app_or in Ht as [Ht|[<-|[]]].
      + right. now apply H2.
      + now left. }
  apply bind_Some in H as (st1 & h1 & H1 & H).
  destruct (0 <? length nextSet) eqn:Esize.
  - destruct (negb (Map_has (dfaStates st) nextKey)) eqn:Ehas; simpl in H1.
    + apply bind_Some in H1 as (r & h2 & _ & H1).
      injection H1 as <- _. injection H as <- _. simpl.
      apply negb_true_iff in Ehas.
      assert (Hnk : ~ In nextKey (map fst (dfaStates st))).
      { intro Hin. apply Map_has_In in Hin. congruence. }
      destruct (Hnew (dfaTransitions st) Hfrom Hseen Hedges) as (N1 & N2 & N3).
      unfold explored. simpl.
      rewrite (Map_set_new _ _ _ Hnk), !map_app. simpl.
      split; [|exact N3].
      split; [|split; [|split; [|split; [exact N1|rewrite map_app in N2; exact N2]]]].
      * rewrite app_assoc. apply NoDup_snoc; [exact Hnd|]. intro Hin. auto.
      * rewrite app_assoc. apply incl_app; [apply incl_appl, Hincl|].
        apply incl_appr, incl_refl.
      * apply NoDup_snoc; assumption.
    + injection H1 as <- _. injection H as <- _. simpl.
      destruct (Hnew (dfaTransitions st) Hfrom Hseen Hedges) as (N1 & N2 & N3).
      split; [|exact N3]. unfold explored. simpl. repeat split; auto.
  - rewrite andb_false_r in H1. injection H1 as <- _. injection H as <- _.
    split; [unfold explored; repeat split; auto|].
    intros t Ht E. right. now apply Hseen.
Qed.

Lemma foldM_onSymbol_explored objs ts cur ck (done : list jstring) (al : list jstring) :
  In ck done ->
  NoDup al ->
  forall seen st h st' h',
    explored done st ->
    (forall t, In t (dfaTransitions st) -> from t = ck -> In (symbol t) seen) ->
    (forall a, In a al -> ~ In a seen) ->
    foldM (onSymbol objs ts cur ck) al st h = Some (st', h') ->
    explored done st'.
Proof.
  intros Hck. induction al as [|a al IH]; intros Hal seen st h st' h' Hex Hseen Hdis H;
    simpl in H.
  - now injection H as <- _.
  - apply bind_Some in H as (st1 & h1 & H1 & H).
    inversion Hal as [|? ? Ha Hal']; subst.
    destruct (onSymbol_explored _ _ _ _ _ seen _ _ _ _ _ Hex Hck Hseen
                (Hdis a (or_introl eq_refl)) H1) as [Hex1 Hseen1].
    apply (IH Hal' (a :: seen) st1 h1 st' h' Hex1 Hseen1); [|exact H].
    intros b Hb [<-|Hin]; [contradiction|]. apply (Hdis b); [now right|exact Hin].
Qed.

(** The loop keeps the invariant and ends with an empty worklist. *)
Lemma subsetLoop_explored objs ts (al : list jstring) (fuel : nat) :
  NoDup al ->
  forall done st h st' h',
    explored done st ->
    subsetLoop objs ts al fuel st h = Some (st', h') ->
    exists done', explored done' st' /\ queue st' = [].
Proof.
  intro Hal. induction fuel as [|fuel IH]; intros done st h st' h' Hex H; simpl in H;
    destruct (queue st) as [|cur rest] eqn:Eq; try discriminate.
  - injection H as <- _. eauto.
  - injection H as <- _. eauto.
  - apply bind_Some in H as (st1 & h1 & H1 & H).
    destruct Hex as (Hnd & Hincl & Hkeys & Hfrom & Hedges).
    rewrite Eq in Hnd, Hincl. simpl in Hnd, Hincl.
    fold (currentKeyOf cur) in *.
    apply (IH (done ++ [currentKeyOf cur]) st1 h1 st' h'); [|exact H].
    assert (Hex0 : explored (done ++ [currentKeyOf cur])
                     {| dfaStates := dfaStates st;
                        dfaTransitions := dfaTransitions st;
                        queue := rest |}).
    { unfold explored. simpl. rewrite <- app_assoc. simpl.
      split; [exact Hnd|]. split; [exact Hincl|]. split; [exact Hkeys|].
      split; [|exact Hedges].
      intros t Ht. apply in_or_app. left. auto. }
    refine (foldM_onSymbol_explored objs ts cur (currentKeyOf cur)
              (done ++ [currentKeyOf cur]) al _ Hal [] _ h st1 h1 Hex0 _ _ H1).
    + apply in_or_app. right. now left.
    + simpl. intros t Ht E. exfalso.
      apply NoDup_remove_2 in Hnd. apply Hnd. apply in_or_app. left.
      rewrite <- E. auto.
    + intros a _ [].
Qed.

Lemma digits_inj (u v : Decimal.uint) : digits u = digits v -> u = v.
Proof.
  revert v; induction u; intros v H; destruct v; simpl in H;
    try discriminate; try reflexivity;
    injection H as H; f_equal; now apply IHu.
Qed.

Lemma q_inj (i j : nat) : q_ i = q_ j -> i = j.
Proof.
  unfold q_, toString. simpl. intros [= H].
  now apply DecimalNat.Unsigned.to_uint_inj, digits_inj.
Qed.

Lemma Map_get_combine {V} (keys : list jstring) (vals : list V) (k : jstring) (v : V) :
  Map_get (combine keys vals) k = Some v ->
  exists i, nth_error keys i = Some k /\ nth_error vals i = Some v.
Proof.
  unfold Map_get. revert vals; induction keys as [|k' keys IH]; intros [|v' vals] H;
    simpl in H; try discriminate.
  destruct (str_eqb k' k) eqn:E.
  - apply str_eqb_eq in E. subst. injection H as <-. now exists 0.
  - destruct (IH vals H) as (i & ? & ?). now exists (S i).
Qed.

Lemma Map_get_In {V} (keys : list jstring) (vals : list V) (k : jstring) :
  length vals = length keys -> In k keys ->
  exists v, Map_get (combine keys vals) k = Some v.
Proof.
  unfold Map_get. revert vals; induction keys as [|k' keys IH]; intros [|v' vals] Hlen Hin;
    simpl in *; try discriminate; try tauto.
  destruct (str_eqb k' k) eqn:E; [simpl; eauto|].
  apply IH; [lia|]. destruct Hin as [->|Hin]; [|exact Hin].
  rewrite str_eqb_refl in E. discriminate.
Qed.

(** [stateMapping] pairs the keys, in order, with [q0], [q1], ... *)
Lemma renaming_combine (keys : list jstring) (c : nat) (sm : JSMap jstring) :
  NoDup (map fst sm ++ keys) ->
  renaming keys c sm = sm ++ combine keys (map q_ (seq c (length keys))).
Proof.
  revert c sm; induction keys as [|k keys IH]; intros c sm H; simpl.
  - now rewrite app_nil_r.
  - assert (Hk : ~ In k (map fst sm)).
    { intro Hin. apply NoDup_remove_2 in H. apply H, in_or_app. now left. }
    rewrite IH, (Map_set_new _ _ _ Hk); rewrite ?(Map_set_new _ _ _ Hk).
    + now rewrite <- app_assoc.
    + rewrite map_app. simpl. rewrite <- app_assoc. exact H.
Qed.

(** On the keys of [dfaStates] the renaming is one to one. *)
Lemma renamed_inj (keys : list jstring) (k1 k2 : jstring) :
  NoDup keys -> In k1 keys -> In k2 keys ->
  renamed (renaming keys 0 []) k1 = renamed (renaming keys 0 []) k2 -> k1 = k2.
Proof.
  intros Hnd H1 H2. rewrite renaming_combine by exact Hnd. simpl. unfold renamed.
  destruct (Map_get_In keys (map q_ (seq 0 (length keys))) k1) as (v1 & E1);
    [now rewrite length_map, length_seq|exact H1|].
  destruct (Map_get_In keys (map q_ (seq 0 (length keys))) k2) as (v2 & E2);
    [now rewrite length_map, length_seq|exact H2|].
  rewrite E1, E2.
  apply Map_get_combine in E1 as (i1 & N1 & V1).
  apply Map_get_combine in E2 as (i2 & N2 & V2).
  assert (Hq : forall i v, nth_error (map q_ (seq 0 (length keys))) i = Some v -> v = q_ i).
  { intros i v Hv. rewrite nth_error_map in Hv.
    destruct (nth_error (seq 0 (length keys)) i) as [n|] eqn:En; [|discriminate].
    injection Hv as <-. f_equal.
    apply nth_error_In in En as Hin. apply in_seq in Hin.
    assert (Hs : nth_error (seq 0 (length keys)) i = Some (0 + i)).
    { rewrite nth_error_seq. destruct (Nat.ltb_spec i (length keys)).
      - reflexivity.
      - assert (nth_error (seq 0 (length keys)) i = None)
          by (apply nth_error_None; rewrite length_seq; lia).
        congruence. }
    rewrite Hs in En. now injection En as <-. }
  apply Hq in V1, V2. subst v1 v2.
  intro E. change (q_ i1 = q_ i2) in E. apply q_inj in E. subst i2. congruence.
Qed.

Lemma NoDup_edges_deterministic (ts : list Transition) :
  NoDup (map edgeKey ts) -> deterministic ts.
Proof.
  intros Hnd s a. induction ts as [|t ts IH]; simpl; [lia|].
  inversion Hnd as [|? ? Ht Hts]; subst.
  destruct (isEdge s a t) eqn:E; [|now apply IH].
  simpl. enough (filter (isEdge s a) ts = []) as -> by (simpl; lia).
  destruct (filter (isEdge s a) ts) as [|t' l] eqn:Ef; [reflexivity|].
  exfalso. apply Ht.
  assert (Hin : In t' (filter (isEdge s a) ts)) by (rewrite Ef; now left).
  apply filter_In in Hin as [Hin E'].
  unfold isEdge in E, E'.
  apply andb_true_iff in E as [E1 E2]. apply andb_true_iff in E' as [E1' E2'].
  apply str_eqb_eq in E1, E2, E1', E2'.
  apply in_map_iff. exists t'. split; [|exact Hin].
  unfold edgeKey. congruence.
Qed.

Lemma keyOf_singleton (x : jstring) : keyOf (new_Set [x]) = x.
Proof. reflexivity. Qed.

(** Whatever [nfaToDFA] returns on such an input is deterministic. *)
Lemma nfaToDFA_result_deterministic (fuel : nat) (h : Heap) (nfa : Automaton)
    (objs : list State) (dfa : Automaton) (h' : Heap) :
  view h nfa = Some objs ->
  NoDup (alphabet nfa) ->
  (forall s, find isStart objs = Some s -> id s <> []) ->
  nfaToDFA fuel nfa h = Some (dfa, h') ->
  deterministic (transitions dfa).
Proof.
  intros Hv Hal Hid H. apply view_mapM in Hv. unfold nfaToDFA in H.
  apply bind_Some in H as (objs1 & h1 & H1 & H).
  rewrite Hv in H1. injection H1 as <- <-.
  destruct (find isStart objs) as [s0|].
  2:{ injection H as <- _. intros s a. simpl. lia. }
  specialize (Hid s0 eq_refl).
  apply bind_Some in H as (r & h2 & _ & H).
  apply bind_Some in H as (st & h3 & H3 & H).
  apply bind_Some in H as (rs & h4 & _ & H). injection H as <- _. simpl.
  rewrite keyOf_singleton in H3. simpl in H3.
  assert (Hex0 : explored [] {| dfaStates := [(id s0, r)];
                                dfaTransitions := [];
                                queue := [new_Set [id s0]] |}).
  { unfold explored. simpl. unfold currentKeyOf. rewrite keyOf_singleton.
    destruct (id s0) as [|c l] eqn:E; [contradiction|]. simpl.
    split; [|split; [|split; [|split]]].
    - constructor; [intros []|constructor].
    - apply incl_refl.
    - constructor; [intros []|constructor].
    - intros t [].
    - constructor. }
  destruct (subsetLoop_explored _ _ _ _ Hal [] _ _ _ _ Hex0 H3)
    as (done & (Hnd & Hincl & Hkeys & Hfrom & Hedges) & Hq).
  rewrite Hq, app_nil_r in Hincl.
  apply NoDup_edges_deterministic. rewrite map_map.
  change (fun x : Transition => edgeKey _)
    with (fun x : Transition =>
            (fun p : jstring * jstring =>
               (renamed (renaming (map fst (dfaStates st)) 0 []) (fst p), snd p))
              (edgeKey x)).
  rewrite <- map_map. apply NoDup_map_on; [|exact Hedges].
  intros [k1 a1] [k2 a2] Hin1 Hin2 E. simpl in E. injection E as E ->.
  f_equal. apply (renamed_inj _ _ _ Hkeys); [| |exact E].
  - apply in_map_iff in Hin1 as (t & [= <- _] & Ht). auto.
  - apply in_map_iff in Hin2 as (t & [= <- _] & Ht). auto.
Qed.

(** C3, as stated, fails: for an alphabet that lists [a] twice, [nfaToDFA]
    emits the transition on [a] of the start subset twice. *)
Lemma nfaToDFA_repeated_symbol :
  exists dfa h',
    nfaToDFA 2
      {| states := [0];
         transitions := [{| from := lit "p"; to := lit "p"; symbol := lit "a" |}];
         alphabet := [lit "a"; lit "a"] |}
      [{| id := lit "p"; isStart := true; isAccept := false |}]
    = Some (dfa, h') /\
    transitions dfa = [{| from := q_ 0; to := q_ 0; symbol := lit "a" |};
                       {| from := q_ 0; to := q_ 0; symbol := lit "a" |}] /\
    ~ deterministic (transitions dfa).
Proof.
  eexists _, _. split; [vm_compute; reflexivity|]. split; [reflexivity|].
  intro H. specialize (H (q_ 0) (lit "a")). vm_compute in H. lia.
Qed.

(** So it does for a start state whose id is the empty string: its subset
    is registered under the empty key and dequeued under the sentinel key,
    under which it is then registered and dequeued once more. *)
Lemma nfaToDFA_empty_start_id :
  exists dfa h',
    nfaToDFA 3
      {| states := [0];
         transitions := [{| from := []; to := []; symbol := lit "a" |}];
         alphabet := [lit "a"] |}
      [{| id := []; isStart := true; isAccept := false |}]
    = Some (dfa, h') /\
    transitions dfa = [{| from := q_ 1; to := q_ 1; symbol := lit "a" |};
                       {| from := q_ 1; to := q_ 1; symbol := lit "a" |}] /\
    ~ deterministic (transitions dfa).
Proof.
  eexists _, _. split; [vm_compute; reflexivity|]. split; [reflexivity|].
  intro H. specialize (H (q_ 1) (lit "a")). vm_compute in H. lia.
Qed.

(** ** The subset construction ends *)

Lemma in_words (d l : list jstring) : incl l d -> In l (words d (length l)).
Proof.
  induction l as [|x l IH]; intro H; simpl; [now left|].
  apply in_flat_map. exists x. split; [apply H; now left|].
  apply in_map, IH. intros y Hy. apply H. now right.
Qed.

Lemma in_wordsUpTo (d l : list jstring) (n : nat) :
  incl l d -> length l <= n -> In l (wordsUpTo d n).
Proof.
  intros H Hn. unfold wordsUpTo. apply in_flat_map. exists (length l). split.
  - apply in_seq. lia.
  - now apply in_words.
Qed.

Lemma insert_sorted_In (x y : jstring) (l : list jstring) :
  In y (insert_sorted x l) <-> y = x \/ In y l.
Proof.
  induction l as [|z l IH]; simpl; [intuition|].
  destruct (str_leb x z); simpl; [intuition|]. rewrite IH. intuition.
Qed.

Lemma insert_sorted_length (x : jstring) (l : list jstring) :
  length (insert_sorted x l) = S (length l).
Proof.
  induction l as [|z l IH]; simpl; [reflexivity|].
  destruct (str_leb x z); simpl; [reflexivity|]. now rewrite IH.
Qed.

Lemma sort_In (y : jstring) (l : list jstring) : In y (sort l) <-> In y l.
Proof.
  induction l as [|x l IH]; simpl; [tauto|].
  rewrite insert_sorted_In, IH. intuition.
Qed.

Lemma sort_length (l : list jstring) : length (sort l) = length l.
Proof.
  induction l as [|x l IH]; simpl; [reflexivity|].
  now rewrite insert_sorted_length, IH.
Qed.

Lemma nextSetOf_targets (ts : list Transition) (cur : JSSet) (a : jstring) :
  NoDup (nextSetOf ts cur a) /\ incl (nextSetOf ts cur a) (map to ts).
Proof.
  unfold nextSetOf.
  assert (G : forall l acc,
             NoDup acc /\ incl acc (map to ts) ->
             let r := fold_left
                        (fun nextSet stateId =>
                           fold_left (fun nextSet t => Set_add nextSet (to t))
                                     (filter (isEdge stateId a) ts) nextSet) l acc in
             NoDup r /\ incl r (map to ts)).
  { induction l as [|s l IH]; intros acc Hacc; simpl; [exact Hacc|].
    apply IH. clear IH.
    assert (F : forall es acc,
               incl es ts -> NoDup acc /\ incl acc (map to ts) ->
               let r := fold_left (fun nextSet t => Set_add nextSet (to t)) es acc in
               NoDup r /\ incl r (map to ts)).
    { induction es as [|t es IHes]; intros acc0 Hes Hacc0; simpl; [exact Hacc0|].
      apply IHes; [intros x Hx; apply Hes; now right|].
      destruct Hacc0 as [Hn Hi]. split; [now apply Set_add_NoDup|].
      intros x Hx. apply Set_add_In in Hx as [Hx| ->]; [auto|].
      apply in_map, Hes. now left. }
    apply F; [|exact Hacc]. intros x Hx. now apply filter_In in Hx as [Hx _]. }
  apply G. split; [constructor|intros ? []].
Qed.

(** Every key of a successor subset is in the universe. *)
Lemma nextKey_in_universe (ts : list Transition) (cur : JSSet) (a : jstring) :
  In (orElse (keyOf (nextSetOf ts cur a)) EMPTYSET) (keyUniverse ts).
Proof.
  destruct (nextSetOf_targets ts cur a) as [Hn Hi].
  unfold keyUniverse, keyOf.
  apply (in_map (fun l => orElse (join (lit ",") l) EMPTYSET)).
  apply in_wordsUpTo.
  - intros x Hx. apply Hi. now apply sort_In.
  - rewrite sort_length. rewrite <- (length_map to ts).
    now apply NoDup_incl_length.
Qed.

(** One symbol: the step returns, and the worklist grows by as much as
    [dfaStates] does. *)
Lemma onSymbol_registered objs ts cur ck univ st a h :
  incl (keyUniverse ts) univ ->
  registered univ st h ->
  exists st' h',
    onSymbol objs ts cur ck st a h = Some (st', h') /\
    registered univ st' h' /\
    length (queue st') + length (dfaStates st) =
    length (queue st) + length (dfaStates st').
Proof.
  intros Hu (Hnd & Hincl & Hrefs). unfold onSymbol.
  set (nextSet := nextSetOf ts cur a).
  set (nextKey := orElse (keyOf nextSet) EMPTYSET).
  assert (Hin : In nextKey univ) by apply Hu, nextKey_in_universe.
  destruct (negb (Map_has (dfaStates st) nextKey) && (0 <? length nextSet)) eqn:E.
  - apply andb_true_iff in E as [Ehas Esize]. apply negb_true_iff in Ehas.
    assert (Hnk : ~ In nextKey (map fst (dfaStates st))).
    { intro H. apply Map_has_In in H. congruence. }
    unfold bind, alloc, ret. rewrite Esize. eexists _, _. split; [reflexivity|].
    simpl. rewrite (Map_set_new _ _ _ Hnk). split.
    + unfold registered. simpl. rewrite map_app. simpl. split; [|split].
      * now apply NoDup_snoc.
      * apply incl_app; [exact Hincl|]. intros x [<-|[]]. exact Hin.
      * apply Forall_app. split.
        -- eapply Forall_impl; [|exact Hrefs]. simpl. intros.
           rewrite length_app. simpl. lia.
        -- constructor; [|constructor]. simpl. rewrite length_app. simpl. lia.
    + rewrite !length_app. simpl. lia.
  - unfold bind, ret. eexists _, _. split; [reflexivity|].
    destruct (0 <? length nextSet); simpl; (split; [now repeat split|lia]).
Qed.

Lemma foldM_onSymbol_registered objs ts cur ck univ (al : list jstring) :
  incl (keyUniverse ts) univ ->
  forall st h,
    registered univ st h ->
    exists st' h',
      foldM (onSymbol objs ts cur ck) al st h = Some (st', h') /\
      registered univ st' h' /\
      length (queue st') + length (dfaStates st) =
      length (queue st) + length (dfaStates st').
Proof.
  intro Hu. induction al as [|a al IH]; intros st h Hreg; simpl.
  - exists st, h. unfold ret. auto.
  - destruct (onSymbol_registered objs ts cur ck univ st a h Hu Hreg)
      as (st1 & h1 & E1 & Hreg1 & L1).
    destruct (IH st1 h1 Hreg1) as (st2 & h2 & E2 & Hreg2 & L2).
    exists st2, h2. unfold bind. rewrite E1. split; [exact E2|]. split; [exact Hreg2|lia].
Qed.

Lemma subsetLoop_Some objs ts (al : list jstring) univ :
  incl (keyUniverse ts) univ ->
  forall fuel st h,
    registered univ st h ->
    length (queue st) + (length univ - length (dfaStates st)) <= fuel ->
    exists st' h',
      subsetLoop objs ts al fuel st h = Some (st', h') /\ registered univ st' h'.
Proof.
  intro Hu. induction fuel as [|fuel IH]; intros st h Hreg Hfuel; simpl;
    destruct (queue st) as [|cur rest] eqn:Eq; simpl in Hfuel; try lia.
  - exists st, h. unfold ret. auto.
  - exists st, h. unfold ret. auto.
  - destruct (foldM_onSymbol_registered objs ts cur
                (orElse (keyOf cur) EMPTYSET) univ al Hu
                {| dfaStates := dfaStates st; dfaTransitions := dfaTransitions st;
                   queue := rest |} h Hreg)
      as (st1 & h1 & E1 & Hreg1 & L1).
    simpl in L1.
    destruct (IH st1 h1 Hreg1) as (st2 & h2 & E2 & Hreg2).
    + destruct Hreg1 as (Hn & Hi & _).
      pose proof (NoDup_incl_length Hn Hi) as Hlen. rewrite length_map in Hlen.
      lia.
    + exists st2, h2. unfold bind. rewrite E1. auto.
Qed.

(** [nfaToDFA] returns, given enough fuel, on every automaton whose
    states are allocated. *)
Lemma nfaToDFA_Some (h : Heap) (nfa : Automaton) (objs : list State) :
  view h nfa = Some objs ->
  exists fuel dfa h', nfaToDFA fuel nfa h = Some (dfa, h').
Proof.
  intro Hv. apply view_mapM in Hv. unfold nfaToDFA.
  destruct (find isStart objs) as [s0|] eqn:Es.
  2:{ exists 0. unfold bind. rewrite Hv, Es. unfold ret. eauto. }
  set (univ := keyOf (new_Set [id s0]) :: keyUniverse (transitions nfa)).
  set (st0 := {| dfaStates := Map_set [] (keyOf (new_Set [id s0])) (length h);
                 dfaTransitions := [];
                 queue := [new_Set [id s0]] |}).
  set (s1 := {| id := orElse (keyOf (new_Set [id s0])) EMPTYSET; isStart := true;
                isAccept := someAccept objs (new_Set [id s0]) |}).
  destruct (subsetLoop_Some objs (transitions nfa) (alphabet nfa) univ
              ltac:(apply incl_tl, incl_refl) (S (length univ)) st0 (h ++ [s1]))
    as (st & h3 & E3 & (_ & _ & Hrefs)).
  { unfold registered, st0. simpl. split; [|split].
    - constructor; [intros []|constructor].
    - intros x [<-|[]]. now left.
    - constructor; [|constructor]. simpl. rewrite length_app. simpl. lia. }
  { simpl. lia. }
  assert (G : forall (sm : JSMap jstring) (l : JSMap ref) (h0 : Heap),
             Forall (fun kv => snd kv < length h0) l ->
             exists rs h',
               mapM (fun kv =>
                       s <- deref (snd kv) ;;
                       alloc {| id := renamed sm (id s);
                                isStart := isStart s;
                                isAccept := isAccept s |}) l h0 = Some (rs, h')).
  { intros sm. induction l as [|kv l IH]; intros h0 Hl; simpl.
    - unfold ret. eauto.
    - inversion Hl as [|? ? Hkv Hl']; subst.
      destruct (nth_error h0 (snd kv)) as [s|] eqn:En.
      2:{ apply nth_error_None in En. exfalso.
          exact (Nat.lt_irrefl _ (Nat.lt_le_trans _ _ _ Hkv En)). }
      set (s' := {| id := renamed sm (id s); isStart := isStart s;
                    isAccept := isAccept s |}).
      destruct (IH (h0 ++ [s'])) as (rs & h' & E).
      { eapply Forall_impl; [|exact Hl']. simpl. intros.
        rewrite length_app. simpl. lia. }
      exists (length h0 :: rs), h'.
      apply bind_Some. exists (length h0), (h0 ++ [s']). split.
      + apply bind_Some. exists s, h0. split; [|reflexivity].
        unfold deref. now rewrite En.
      + apply bind_Some. exists rs, h'. split; [exact E|reflexivity]. }
  destruct (G (renaming (map fst (dfaStates st)) 0 []) (dfaStates st) h3 Hrefs)
    as (rs & h4 & E4).
  exists (S (length univ)). eexists _, h4.
  apply bind_Some. exists objs, h. split; [exact Hv|]. rewrite Es.
  apply bind_Some. exists (length h), (h ++ [s1]). split; [reflexivity|].
  apply bind_Some. exists st, h3. split; [exact E3|].
  apply bind_Some. exists rs, h4. split; [exact E4|reflexivity].
Qed.

(** ** Determinism of the DFA and the frame of both transformations *)

(** C3, as the code has it. For every automaton, all states allocated,
    whose alphabet lists no symbol twice and whose start state (the first
    one marked so, if any) has a non-empty id, [nfaToDFA] returns given
    enough fuel, and the automaton it returns is deterministic: for every
    state and symbol at most one of its transitions has that source and
    that symbol. *)
Theorem nfaToDFA_deterministic (h : Heap) (nfa : Automaton) (objs : list State) :
  view h nfa = Some objs ->
  NoDup (alphabet nfa) ->
  (forall s, find isStart objs = Some s -> id s <> []) ->
  (exists fuel dfa h', nfaToDFA fuel nfa h = Some (dfa, h')) /\
  (forall fuel dfa h',
      nfaToDFA fuel nfa h = Some (dfa, h') -> deterministic (transitions dfa)).
Proof.
  intros Hv Hal Hid. split.
  - eapply nfaToDFA_Some; eauto.
  - intros fuel dfa h' H. eapply nfaToDFA_result_deterministic; eauto.
Qed.

Lemma nfaToDFA_deterministic_witness :
  exists dfa h',
    nfaToDFA 3
      {| states := [0; 1];
         transitions := [{| from := lit "p"; to := lit "p"; symbol := lit "a" |};
                         {| from := lit "p"; to := lit "r"; symbol := lit "a" |}];
         alphabet := [lit "a"] |}
      [{| id := lit "p"; isStart := true; isAccept := false |};
       {| id := lit "r"; isStart := false; isAccept := true |}]
    = Some (dfa, h') /\
    deterministic (transitions dfa).
Proof.
  eexists _, _. split; [vm_compute; reflexivity|].
  eapply (proj2 (nfaToDFA_deterministic
           [{| id := lit "p"; isStart := true; isAccept := false |};
            {| id := lit "r"; isStart := false; isAccept := true |}]
           {| states := [0; 1];
              transitions := [{| from := lit "p"; to := lit "p"; symbol := lit "a" |};
                              {| from := lit "p"; to := lit "r"; symbol := lit "a" |}];
              alphabet := [lit "a"] |}
           [{| id := lit "p"; isStart := true; isAccept := false |};
            {| id := lit "r"; isStart := false; isAccept := true |}]
           eq_refl
           ltac:(repeat constructor; intros [])
           ltac:(intros s [= <-]; discriminate)) 3).
  vm_compute. reflexivity.
Defined.

(** C9. Neither [nfaLambdaToNFA] nor [nfaToDFA] writes to its input. On
    every automaton whose states are allocated both return (the second
    given enough fuel), and whenever either returns, the heap is the heap of
    before the call with new objects after it, so the states of the input
    read as they did (its transitions and alphabet are values), and the
    states of the returned automaton are all new objects. *)
Theorem transformations_preserve_input (h : Heap) (a : Automaton) (objs : list State) :
  view h a = Some objs ->
  (exists a' h', nfaLambdaToNFA a h = Some (a', h')) /\
  (exists fuel a' h', nfaToDFA fuel a h = Some (a', h')) /\
  (forall fuel a' h',
      nfaLambdaToNFA a h = Some (a', h') \/ nfaToDFA fuel a h = Some (a', h') ->
      extends h h' /\ view h' a = Some objs /\ fresh h (states a')).
Proof.
  intro Hv. split; [|split].
  - destruct (nfaLambdaToNFA_run h a objs Hv) as (nt & g & _ & _ & E). eauto.
  - eapply nfaToDFA_Some; eauto.
  - intros fuel a' h' [H|H]; rewrite <- Hv;
      [eapply nfaLambdaToNFA_frame|eapply nfaToDFA_frame]; eauto.
Qed.

Lemma transformations_preserve_input_witness :
  let h := [{| id := lit "p"; isStart := true; isAccept := false |};
            {| id := lit "r"; isStart := false; isAccept := true |}] in
  let a := {| states := [0; 1];
              transitions := [{| from := lit "p"; to := lit "r"; symbol := LAMBDA |};
                              {| from := lit "p"; to := lit "p"; symbol := lit "a" |}];
              alphabet := [lit "a"] |} in
  exists a' h',
    nfaToDFA 2 a h = Some (a', h') /\
    extends h h' /\ view h' a = Some h /\ fresh h (states a').
Proof.
  intros h a. eexists _, _. split; [vm_compute; reflexivity|].
  eapply (proj2 (proj2 (transformations_preserve_input h a h eq_refl)) 2).
  right. vm_compute. reflexivity.
Defined.

(** ** Accept directives of the edge list *)

(** The round trip of the specification: a directive that lists one state
    has two fields, is skipped as a transition and marks [q2] accept. *)
Lemma parseEdgeList_round_trip :
  parseEdgeList (lit "q0, a, q1" ++ [10%N] ++ lit "q1, b, q2" ++ [10%N]
                 ++ lit "accept: q2") [] =
  Some ({| states := [0; 1; 2];
           transitions := [{| from := lit "q0"; to := lit "q1"; symbol := lit "a" |};
                           {| from := lit "q1"; to := lit "q2"; symbol := lit "b" |}];
           alphabet := [lit "a"; lit "b"] |},
        [{| id := lit "q0"; isStart := true; isAccept := false |};
         {| id := lit "q1"; isStart := false; isAccept := false |};
         {| id := lit "q2"; isStart := false; isAccept := true |}]).
Proof. vm_compute. reflexivity. Qed.

(** C7 does not hold of the code. A directive that lists two states, the
    form the input panel documents, splits into three fields: besides
    marking [q1] and [q2] accept it is read as a transition from a state
    [accept:] to [q2] on the symbol [q1], which registers the state
    [accept:] and adds [q1] to the alphabet. *)
Theorem parseEdgeList_directive_as_transition :
  parseEdgeList (lit "q0, a, q1" ++ [10%N] ++ lit "q1, b, q2" ++ [10%N]
                 ++ lit "accept: q1, q2") [] =
  Some ({| states := [0; 1; 2; 3];
           transitions := [{| from := lit "q0"; to := lit "q1"; symbol := lit "a" |};
                           {| from := lit "q1"; to := lit "q2"; symbol := lit "b" |};
                           {| from := lit "accept:"; to := lit "q2";
                              symbol := lit "q1" |}];
           alphabet := [lit "a"; lit "b"; lit "q1"] |},
        [{| id := lit "q0"; isStart := true; isAccept := false |};
         {| id := lit "q1"; isStart := false; isAccept := true |};
         {| id := lit "q2"; isStart := false; isAccept := true |};
         {| id := lit "accept:"; isStart := false; isAccept := false |}]).
Proof. vm_compute. reflexivity. Qed.

(* ================================================================== *)
(** * Further properties *)

(** ** What the epsilon closure holds *)

Lemma isEdge_true (s a : jstring) (t : Transition) :
  isEdge s a t = true <-> from t = s /\ symbol t = a.
Proof.
  unfold isEdge. rewrite andb_true_iff, !str_eqb_eq. tauto.
Qed.

Lemma epsReach_trans (ts : list Transition) (x y z : jstring) :
  epsReach ts x y -> epsReach ts y z -> epsReach ts x z.
Proof.
  intros Hxy Hyz. induction Hyz as [|t _ IH Hin Hs]; [exact Hxy|].
  now apply epsReach_edge.
Qed.

(** Whatever the loop adds is reached from what it started with. *)
Lemma closureLoop_sound (ts : list Transition) (R : jstring -> Prop) :
  (forall t, In t ts -> symbol t = LAMBDA -> R (from t) -> R (to t)) ->
  forall fuel closure stack result,
    (forall y, In y closure -> R y) ->
    incl stack closure ->
    NoDup closure ->
    closureLoop ts fuel closure stack = Some result ->
    forall y, In y result -> R y.
Proof.
  intros HR. induction fuel as [|fuel IH]; intros closure stack result Hc Hst Hnd H;
    simpl in H; destruct (pop stack) as [[state stack']|] eqn:Ep; try discriminate;
    try (injection H as <-; exact Hc).
  assert (Es : stack = stack' ++ [state]).
  { destruct (pop_Some stack) as (x & l' & E & El).
    - destruct stack; [discriminate|simpl; lia].
    - rewrite E in Ep. now injection Ep as <- <-. }
  subst stack.
  destruct (fold_visit (filter (isEdge state LAMBDA) ts) closure stack' Hnd)
    as (added & Ef & Hn & Hin & Hfrom).
  rewrite Ef in H.
  apply (IH (closure ++ added) (stack' ++ added) result); [| |exact Hn|exact H].
  - intros y Hy. apply in_app_or in Hy as [Hy|Hy]; [auto|].
    destruct (Hfrom y Hy) as (t & Ht & <-).
    apply filter_In in Ht as [Ht He]. apply isEdge_true in He as [Hf Hs].
    apply HR; [exact Ht|exact Hs|]. rewrite Hf. apply Hc, Hst, in_or_app. right. now left.
  - intros y Hy. apply in_or_app. apply in_app_or in Hy as [Hy|Hy]; [left|now right].
    apply Hst, in_or_app. now left.
Qed.

(** What [epsilonClosure] returns holds the states reached from a seed
    along epsilon edges, and nothing else. *)
Lemma epsilonClosure_reaches (states : JSSet) (ts : list Transition) :
  exists closure,
    epsilonClosure states ts = Some closure /\
    forall y, In y closure <-> exists x, In x states /\ epsReach ts x y.
Proof.
  destruct (epsilonClosure_closes states ts) as (added & E & Hnd & Hc).
  exists (new_Set states ++ added). split; [exact E|].
  intro y. split.
  - revert y. unfold epsilonClosure in E.
    apply (closureLoop_sound ts (fun y => exists x, In x states /\ epsReach ts x y))
      with (5 := E).
    + intros t Ht Hs (x & Hx & Hr). exists x. split; [exact Hx|].
      now apply epsReach_edge.
    + intros y Hy. apply fold_Set_add_In in Hy as [[]|Hy].
      exists y. split; [exact Hy|constructor].
    + intros y Hy. apply fold_Set_add_In. now right.
    + apply fold_Set_add_NoDup. constructor.
  - intros (x & Hx & Hr). induction Hr as [|t _ IH Hin Hs].
    + apply in_or_app. left. apply fold_Set_add_In. now right.
    + apply (Hc (from t) IH t Hin). now apply isEdge_true.
Qed.

(** X1. [epsilonClosure] computes the reflexive-transitive closure: for
    every seed set and transition list it returns a duplicate-free set that
    holds exactly the states reached from a seed along epsilon edges. *)
Theorem epsilonClosure_reachable (states : JSSet) (ts : list Transition) :
  exists closure,
    epsilonClosure states ts = Some closure /\
    NoDup closure /\
    forall y, In y closure <-> exists x, In x states /\ epsReach ts x y.
Proof.
  destruct (epsilonClosure_reaches states ts) as (closure & E & H).
  destruct (epsilonClosure_closes states ts) as (added & E' & Hnd & _).
  exists closure. split; [exact E|]. split; [|exact H].
  rewrite E in E'. injection E' as ->. exact Hnd.
Qed.

(** ** The transitions of the NFA *)

Lemma epsilonClosure_single (x : jstring) (ts : list Transition) :
  exists closure,
    epsilonClosure [x] ts = Some closure /\
    forall y, In y closure <-> epsReach ts x y.
Proof.
  destruct (epsilonClosure_reaches [x] ts) as (c & E & H).
  exists c. split; [exact E|]. intro y. rewrite H. split.
  - intros (x' & [<-|[]] & Hr). exact Hr.
  - intro Hr. exists x. split; [now left|exact Hr].
Qed.

(** A partial fold that only ever adds: what it returns holds what it
    started with and what each element contributes. *)
Lemma ofold_collect {A X} (P : list X -> Prop) (Q : A -> X -> Prop)
    (f : list X -> A -> option (list X)) (l : list A) (b : list X) :
  P b ->
  (forall b a, In a l -> P b ->
               exists b', f b a = Some b' /\ P b' /\
                          forall x, In x b' <-> In x b \/ Q a x) ->
  exists b', ofold f l b = Some b' /\ P b' /\
             forall x, In x b' <-> In x b \/ exists a, In a l /\ Q a x.
Proof.
  revert b; induction l as [|a l IH]; intros b Hb Hf; simpl.
  - exists b. split; [reflexivity|]. split; [exact Hb|].
    intro x. split; [auto|]. intros [H|(a & [] & _)]. exact H.
  - destruct (Hf b a (or_introl eq_refl) Hb) as (b1 & E & Hb1 & H1).
    rewrite E. simpl.
    destruct (IH b1 Hb1) as (b2 & E2 & Hb2 & H2).
    { intros b' a' Hin. apply Hf. now right. }
    exists b2. split; [exact E2|]. split; [exact Hb2|].
    intro x. rewrite H2, H1. split.
    + intros [[H|H]|(a' & Hin & H)]; eauto.
    + intros [H|(a' & [<-|Hin] & H)]; eauto.
Qed.

Lemma reachableVia_reaches (ts : list Transition) (closure : JSSet) (a : jstring) :
  exists reachable,
    reachableVia ts closure a = Some reachable /\
    forall r, In r reachable <->
              exists s e, In s closure /\ In e ts /\ isEdge s a e = true /\
                          epsReach ts (to e) r.
Proof.
  unfold reachableVia.
  destruct (ofold_collect (fun _ => True)
              (fun s r => exists e, In e ts /\ isEdge s a e = true /\ epsReach ts (to e) r)
              (fun reachable s =>
                 ofold (fun reachable t =>
                          c <-- epsilonClosure [to t] ts ;;
                          Some (fold_left Set_add c reachable))
                       (filter (isEdge s a) ts) reachable)
              closure [] I) as (r & E & _ & H).
  - intros b s _ _.
    destruct (ofold_collect (fun _ => True)
                (fun e r => epsReach ts (to e) r)
                (fun reachable t =>
                   c <-- epsilonClosure [to t] ts ;;
                   Some (fold_left Set_add c reachable))
                (filter (isEdge s a) ts) b I) as (r & E & _ & H).
    + intros b' t _ _. destruct (epsilonClosure_single (to t) ts) as (c & Ec & Hc).
      rewrite Ec. simpl. eexists. split; [reflexivity|]. split; [exact I|].
      intro x. now rewrite fold_Set_add_In, Hc.
    + exists r. split; [exact E|]. split; [exact I|].
      intro x. rewrite H. split.
      * intros [Hx|(e & He & Hr)]; [now left|]. right.
        apply filter_In in He as [He1 He2]. eauto.
      * intros [Hx|(e & He1 & He2 & Hr)]; [now left|]. right.
        exists e. split; [|exact Hr]. now apply filter_In.
  - exists r. split; [exact E|]. intro x. rewrite H. split.
    + intros [[]|(s & Hs & e & He & Hedge & Hr)]. eauto 8.
    + intros (s & e & Hs & He & Hedge & Hr). right. eauto 8.
Qed.

Lemma pushNew_In (stateId a : jstring) (nt : list Transition) (reachable : JSSet)
    (t : Transition) :
  In t (pushNew stateId a nt reachable) <->
  In t nt \/ exists r, In r reachable /\ t = {| from := stateId; to := r; symbol := a |}.
Proof.
  unfold pushNew. revert nt; induction reachable as [|r reachable IH]; intro nt; simpl.
  - split; [auto|]. intros [H|(r & [] & _)]. exact H.
  - rewrite IH. clear IH.
    destruct (existsb _ nt) eqn:E.
    + apply existsb_exists in E as (t' & Hin & E).
      apply andb_true_iff in E as [E E3]. apply andb_true_iff in E as [E1 E2].
      apply str_eqb_eq in E1, E2, E3.
      assert (t' = {| from := stateId; to := r; symbol := a |})
        by (destruct t'; simpl in *; congruence).
      subst t'. split.
      * intros [H|(r' & Hr & ->)]; eauto.
      * intros [H|(r' & [<-|Hr] & ->)]; eauto.
    + rewrite in_app_iff. simpl. split.
      * intros [[H|[<-|[]]]|(r' & Hr & ->)]; eauto.
      * intros [H|(r' & [<-|Hr] & ->)]; eauto.
Qed.

Lemma pushNew_NoDup (stateId a : jstring) (nt : list Transition) (reachable : JSSet) :
  NoDup nt -> NoDup (pushNew stateId a nt reachable).
Proof.
  unfold pushNew. revert nt; induction reachable as [|r reachable IH]; intros nt H; simpl.
  - exact H.
  - apply IH. destruct (existsb _ nt) eqn:E; [exact H|].
    apply NoDup_snoc; [exact H|]. intro Hin.
    assert (existsb (fun t => str_eqb (from t) stateId && str_eqb (to t) r
                              && str_eqb (symbol t) a) nt = true); [|congruence].
    apply existsb_exists. eexists. split; [exact Hin|]. simpl.
    now rewrite !str_eqb_refl.
Qed.

Lemma buildTransitions_spec (objs : list State) (ts : list Transition)
    (al : list jstring) :
  exists nt,
    buildTransitions objs ts al = Some nt /\
    NoDup nt /\
    forall t, In t nt <->
              exists state e,
                In state objs /\ In e ts /\
                from t = id state /\ In (symbol t) al /\ symbol e = symbol t /\
                epsReach ts (id state) (from e) /\ epsReach ts (to e) (to t).
Proof.
  unfold buildTransitions.
  destruct (ofold_collect (fun nt => NoDup nt)
              (fun state t =>
                 exists e, In e ts /\
                   from t = id state /\ In (symbol t) al /\ symbol e = symbol t /\
                   epsReach ts (id state) (from e) /\ epsReach ts (to e) (to t))
              (fun newTransitions state =>
                 closure <-- epsilonClosure [id state] ts ;;
                 ofold (fun newTransitions a =>
                          reachable <-- reachableVia ts closure a ;;
                          Some (pushNew (id state) a newTransitions reachable))
                       al newTransitions)
              objs [] (NoDup_nil _)) as (nt & E & Hnd & H).
  - intros b state _ Hb.
    destruct (epsilonClosure_single (id state) ts) as (closure & Ec & Hc).
    rewrite Ec. simpl.
    destruct (ofold_collect (fun nt => NoDup nt)
                (fun a t =>
                   exists e, In e ts /\
                     from t = id state /\ symbol t = a /\ symbol e = a /\
                     epsReach ts (id state) (from e) /\ epsReach ts (to e) (to t))
                (fun newTransitions a =>
                   reachable <-- reachableVia ts closure a ;;
                   Some (pushNew (id state) a newTransitions reachable))
                al b Hb) as (nt & E & Hnd & H).
    + intros b' a _ Hb'.
      destruct (reachableVia_reaches ts closure a) as (reachable & Er & Hr).
      rewrite Er. simpl. eexists. split; [reflexivity|].
      split; [now apply pushNew_NoDup|].
      intro t. rewrite pushNew_In. split.
      * intros [Ht|(r & Hin & ->)]; [now left|]. right. simpl.
        apply Hr in Hin as (s & e & Hs & He & Hedge & Hreach).
        apply isEdge_true in Hedge as [<- Hsym]. apply Hc in Hs.
        exists e. auto 8.
      * intros [Ht|(e & He & Hf & Hs & Hse & Hr1 & Hr2)]; [now left|]. right.
        exists (to t). split; [|destruct t; simpl in *; congruence].
        apply Hr. exists (from e), e. split; [now apply Hc|]. split; [exact He|].
        split; [now apply isEdge_true|exact Hr2].
    + exists nt. split; [exact E|]. split; [exact Hnd|].
      intro t. rewrite H. split.
      * intros [Ht|(a & Ha & e & He & Hf & Hs & Hse & Hr)]; [now left|]. right.
        exists e. subst a. auto 8.
      * intros [Ht|(e & He & Hf & Hs & Hse & Hr)]; [now left|]. right.
        exists (symbol t). split; [exact Hs|]. exists e. auto 8.
  - exists nt. split; [exact E|]. split; [exact Hnd|].
    intro t. rewrite H. split.
    + intros [[]|(state & Hs & e & He & Hrest)]. exists state, e. auto.
    + intros (state & e & Hs & He & Hrest). right. exists state. split; [exact Hs|].
      exists e. auto.
Qed.

(** X2. The transitions of the automaton [nfaLambdaToNFA] returns are
    pairwise different, and they are exactly the triples (s, a, r) with s
    the id of an input state, a in the alphabet, and r reached from s by
    epsilon edges, one edge labelled a, and epsilon edges again. *)
Theorem nfaLambdaToNFA_transitions (h : Heap) (nfaLambda : Automaton)
    (objs : list State) :
  view h nfaLambda = Some objs ->
  exists nfa h',
    nfaLambdaToNFA nfaLambda h = Some (nfa, h') /\
    NoDup (transitions nfa) /\
    forall t, In t (transitions nfa) <->
              exists state e,
                In state objs /\ In e (transitions nfaLambda) /\
                from t = id state /\ In (symbol t) (alphabet nfaLambda) /\
                symbol e = symbol t /\
                epsReach (transitions nfaLambda) (id state) (from e) /\
                epsReach (transitions nfaLambda) (to e) (to t).
Proof.
  intro Hv.
  destruct (nfaLambdaToNFA_run h nfaLambda objs Hv) as (nt & g & En & _ & E).
  destruct (buildTransitions_spec objs (transitions nfaLambda) (alphabet nfaLambda))
    as (nt' & En' & Hnd & H).
  assert (nt' = nt) as -> by congruence.
  eexists _, _. split; [exact E|]. simpl. split; [exact Hnd|exact H].
Qed.

Lemma nfaLambdaToNFA_transitions_witness :
  exists nfa h',
    nfaLambdaToNFA
      {| states := [0; 1];
         transitions := [{| from := lit "p"; to := lit "r"; symbol := LAMBDA |};
                         {| from := lit "r"; to := lit "r"; symbol := lit "a" |}];
         alphabet := [lit "a"] |}
      [{| id := lit "p"; isStart := true; isAccept := false |};
       {| id := lit "r"; isStart := false; isAccept := true |}]
    = Some (nfa, h') /\
    In {| from := lit "p"; to := lit "r"; symbol := lit "a" |} (transitions nfa).
Proof.
  destruct (nfaLambdaToNFA_transitions
              [{| id := lit "p"; isStart := true; isAccept := false |};
               {| id := lit "r"; isStart := false; isAccept := true |}]
              {| states := [0; 1];
                 transitions := [{| from := lit "p"; to := lit "r"; symbol := LAMBDA |};
                                 {| from := lit "r"; to := lit "r"; symbol := lit "a" |}];
                 alphabet := [lit "a"] |}
              [{| id := lit "p"; isStart := true; isAccept := false |};
               {| id := lit "r"; isStart := false; isAccept := true |}]
              eq_refl) as (nfa & h' & E & _ & H).
  exists nfa, h'. split; [exact E|]. apply H.
  exists {| id := lit "p"; isStart := true; isAccept := false |},
         {| from := lit "r"; to := lit "r"; symbol := lit "a" |}.
  simpl. split; [now left|]. split; [right; now left|]. split; [reflexivity|].
  split; [now left|]. split; [reflexivity|]. split.
  - apply (epsReach_edge _ _ {| from := lit "p"; to := lit "r"; symbol := LAMBDA |});
      [constructor|now left|reflexivity].
  - constructor.
Defined.

(** ** Accept states of the NFA *)

Lemma find_unique_id (objs : list State) (st : State) :
  NoDup (map id objs) -> In st objs ->
  find (fun x => str_eqb (id x) (id st)) objs = Some st.
Proof.
  induction objs as [|x objs IH]; simpl; intros Hnd Hin; [contradiction|].
  inversion Hnd as [|? ? Hx Hrest]; subst.
  destruct Hin as [->|Hin]; [now rewrite str_eqb_refl|].
  destruct (str_eqb (id x) (id st)) eqn:E; [|now apply IH].
  apply str_eqb_eq in E. exfalso. apply Hx. rewrite E. now apply in_map.
Qed.

Lemma hasAcceptIn_complete (objs : list State) (closure : JSSet) (st : State) :
  NoDup (map id objs) -> In st objs -> isAccept st = true -> In (id st) closure ->
  hasAcceptIn objs closure = true.
Proof.
  intros Hnd Hin Ha Hc. unfold hasAcceptIn. apply existsb_exists.
  exists (id st). split; [exact Hc|]. now rewrite (find_unique_id objs st Hnd Hin).
Qed.

(** X3. When the ids of the input states are pairwise different, a state
    of the automaton [nfaLambdaToNFA] returns is accept exactly when an
    accept state of the input, itself included, is reached from it along
    epsilon edges. *)
Theorem nfaLambdaToNFA_accept (h : Heap) (nfaLambda : Automaton) (objs : list State) :
  view h nfaLambda = Some objs ->
  NoDup (map id objs) ->
  exists nfa h' objs',
    nfaLambdaToNFA nfaLambda h = Some (nfa, h') /\
    view h' nfa = Some objs' /\
    Forall2 (fun s s' =>
               isAccept s' = true <->
               exists st, In st objs /\ isAccept st = true /\
                          epsReach (transitions nfaLambda) (id s) (id st))
            objs objs'.
Proof.
  intros Hv Hnd.
  destruct (nfaLambdaToNFA_run h nfaLambda objs Hv) as (nt & g & _ & Hg & E).
  eexists _, _, (map g objs). split; [exact E|]. split.
  - apply view_mapM. simpl. rewrite <- (length_map g objs). apply mapM_deref_new.
  - assert (G : forall l, incl l objs ->
               Forall2 (fun s s' =>
                          isAccept s' = true <->
                          exists st, In st objs /\ isAccept st = true /\
                                     epsReach (transitions nfaLambda) (id s) (id st))
                       l (map g l)).
    { induction l as [|s l IH]; intro Hl; simpl; constructor.
      2:{ apply IH. intros x Hx. apply Hl. now right. }
      destruct (Hg s) as (c & Ec & ->). simpl.
      destruct (epsilonClosure_single (id s) (transitions nfaLambda)) as (c' & Ec' & Hc).
      assert (c' = c) as -> by congruence.
      rewrite orb_true_iff. split.
      - intros [Ha|Ha].
        + exists s. split; [apply Hl; now left|]. split; [exact Ha|constructor].
        + apply hasAcceptIn_sound in Ha as (st & Hin & Hacc & Hcl).
          exists st. split; [exact Hin|]. split; [exact Hacc|now apply Hc].
      - intros (st & Hin & Hacc & Hr). right.
        apply (hasAcceptIn_complete objs c st Hnd Hin Hacc). now apply Hc. }
    apply G, incl_refl.
Qed.

Lemma nfaLambdaToNFA_accept_witness :
  exists nfa h',
    nfaLambdaToNFA
      {| states := [0; 1];
         transitions := [{| from := lit "p"; to := lit "r"; symbol := LAMBDA |}];
         alphabet := [lit "a"] |}
      [{| id := lit "p"; isStart := true; isAccept := false |};
       {| id := lit "r"; isStart := false; isAccept := true |}]
    = Some (nfa, h') /\
    view h' nfa = Some [{| id := lit "p"; isStart := true; isAccept := true |};
                        {| id := lit "r"; isStart := false; isAccept := true |}].
Proof.
  destruct (nfaLambdaToNFA_accept
              [{| id := lit "p"; isStart := true; isAccept := false |};
               {| id := lit "r"; isStart := false; isAccept := true |}]
              {| states := [0; 1];
                 transitions := [{| from := lit "p"; to := lit "r"; symbol := LAMBDA |}];
                 alphabet := [lit "a"] |}
              [{| id := lit "p"; isStart := true; isAccept := false |};
               {| id := lit "r"; isStart := false; isAccept := true |}]
              eq_refl) as (nfa & h' & objs' & E & _).
  - simpl. repeat constructor; simpl; intuition discriminate.
  - exists nfa, h'. split; [exact E|].
    vm_compute in E. injection E as <- <-. reflexivity.
Defined.

(** ** What the matcher never follows *)

Lemma walk_dead_symbol (ts : list Transition) (a : jstring) :
  (forall t, In t ts -> symbol t <> a) ->
  forall syms s, In a syms -> walk ts s syms = None.
Proof.
  intro Hdead. induction syms as [|b syms IH]; intros s Hin; [contradiction|].
  simpl. destruct (find (isEdge s b) ts) as [t|] eqn:E; [|reflexivity].
  apply find_some in E as [Ht He]. apply isEdge_true in He as [_ Hs].
  destruct Hin as [->|Hin]; [|now apply IH].
  exfalso. now apply (Hdead t).
Qed.

(** X4. A string with a symbol that labels no transition of the DFA is
    rejected, whatever the rest of the string and the states are. *)
Theorem validateString_dead_symbol (h : Heap) (dfa : Automaton) (objs : list State)
    (input a : jstring) :
  view h dfa = Some objs ->
  In a (codePoints input) ->
  (forall t, In t (transitions dfa) -> symbol t <> a) ->
  validateString dfa input h = Some (false, h).
Proof.
  intros Hv Hin Hdead. apply view_mapM in Hv. unfold validateString, bind.
  rewrite Hv. destruct (find isStart objs) as [s0|]; [|reflexivity].
  now rewrite (walk_dead_symbol _ a Hdead).
Qed.

Lemma validateString_dead_symbol_witness :
  let h := [{| id := lit "p"; isStart := true; isAccept := true |}] in
  let dfa := {| states := [0];
                transitions := [{| from := lit "p"; to := lit "p"; symbol := lit "a" |}];
                alphabet := [lit "a"] |} in
  validateString dfa (lit "aab") h = Some (false, h).
Proof.
  intros h dfa.
  apply (validateString_dead_symbol h dfa h (lit "aab") (lit "b")).
  - reflexivity.
  - simpl. right. right. now left.
  - intros t [<-|[]]. discriminate.
Defined.

Lemma codePoints_isCodePoint (input : jstring) :
  Forall (fun a => isCodePoint a = true) (codePoints input).
Proof.
  assert (G : forall n input, length input <= n ->
                              Forall (fun a => isCodePoint a = true) (codePoints input)).
  { induction n as [|n IH]; intros [|c [|d rest]] Hlen; simpl in *;
      try constructor; try reflexivity; try constructor; try lia.
    - destruct (isHigh c && isLow d) eqn:E; constructor.
      + simpl. exact E.
      + apply IH. lia.
      + reflexivity.
      + apply (IH (d :: rest)). simpl. lia. }
  apply (G (length input)). lia.
Qed.

Lemma walk_filter (ts : list Transition) (p : Transition -> bool) :
  forall syms s,
    Forall (fun a => forall t, symbol t = a -> p t = true) syms ->
    walk (filter p ts) s syms = walk ts s syms.
Proof.
  induction syms as [|a syms IH]; intros s H; [reflexivity|].
  inversion H as [|? ? Ha Hrest]; subst. simpl.
  assert (E : find (isEdge s a) (filter p ts) = find (isEdge s a) ts).
  { clear -Ha. induction ts as [|t ts IHt]; simpl; [reflexivity|].
    destruct (isEdge s a t) eqn:Et.
    - apply isEdge_true in Et as Et'. destruct Et' as [_ Hs].
      rewrite (Ha t Hs). simpl. now rewrite Et.
    - destruct (p t); simpl; [now rewrite Et|exact IHt]. }
  rewrite E. destruct (find (isEdge s a) ts); [now apply IH|reflexivity].
Qed.

(** X5. The matcher reads its input one code point at a time, so a
    transition whose symbol is not a single code point (a multi-character
    symbol of an edge list, say, or the empty symbol) is never followed:
    dropping all such transitions changes no verdict. *)
Theorem validateString_code_points_only (h : Heap) (dfa : Automaton) (input : jstring) :
  validateString dfa input h =
  validateString {| states := states dfa;
                    transitions := filter (fun t => isCodePoint (symbol t))
                                          (transitions dfa);
                    alphabet := alphabet dfa |} input h.
Proof.
  unfold validateString, bind. simpl.
  destruct (mapM deref (states dfa) h) as [[objs h1]|]; [|reflexivity].
  destruct (find isStart objs) as [s0|]; [|reflexivity].
  rewrite walk_filter; [reflexivity|].
  eapply Forall_impl; [|apply codePoints_isCodePoint].
  intros a Ha t <-. exact Ha.
Qed.

(** ** The regex builder returns well-formed automata *)

Lemma nth_error_replace_nth {A} (l : list A) (n m : nat) (x : A) :
  nth_error (replace_nth n x l) m =
  if (m =? n) && (n <? length l) then Some x else nth_error l m.
Proof.
  revert n m; induction l as [|y l IH]; intros n m.
  - destruct n, m; simpl; now rewrite ?andb_false_r.
  - destruct n, m; simpl; try reflexivity. apply IH.
Qed.

(** Reading after a write. *)
Lemma get_modify (r : ref) (f : State -> State) (s s' : Builder) :
  onHeap (modify r f) s = Some (tt, s') ->
  stateCounter s' = stateCounter s /\
  length (heap s') = length (heap s) /\
  forall r', get s' r' = if r' =? r then option_map f (get s r') else get s r'.
Proof.
  unfold onHeap, modify, get. destruct (nth_error (heap s) r) as [st|] eqn:E; [|discriminate].
  intros [= <-]. simpl. split; [reflexivity|]. split; [apply replace_nth_length|].
  intro r'. rewrite nth_error_replace_nth.
  assert (Hr : r < length (heap s)) by (apply nth_error_Some; congruence).
  apply Nat.ltb_lt in Hr. rewrite Hr, andb_true_r.
  destruct (r' =? r) eqn:Er; [|reflexivity].
  apply Nat.eqb_eq in Er. subst. now rewrite E.
Qed.

(** Reading after an allocation. *)
Lemma get_newState (isS isA : bool) (s : Builder) :
  exists s',
    newState isS isA s = Some (length (heap s), s') /\
    stateCounter s' = S (stateCounter s) /\
    length (heap s') = S (length (heap s)) /\
    forall r', get s' r' =
               if r' =? length (heap s)
               then Some {| id := q_ (stateCounter s); isStart := isS; isAccept := isA |}
               else get s r'.
Proof.
  unfold newState, alloc, get. eexists. split; [reflexivity|]. simpl.
  split; [reflexivity|]. split; [rewrite length_app; simpl; lia|].
  intro r'. destruct (r' =? length (heap s)) eqn:E.
  - apply Nat.eqb_eq in E. subst.
    rewrite nth_error_app2, Nat.sub_diag by lia. reflexivity.
  - apply Nat.eqb_neq in E. destruct (Nat.lt_ge_cases r' (length (heap s))).
    + now rewrite nth_error_app1.
    + rewrite nth_error_app2 by lia.
      destruct (r' - length (heap s)) as [|k] eqn:Ek; [lia|].
      simpl. destruct k; simpl; symmetry; apply nth_error_None; lia.
Qed.

Lemma get_deref (r : ref) (s : Builder) (st : State) :
  get s r = Some st -> onHeap (deref r) s = Some (st, s).
Proof.
  unfold get, onHeap, deref. intros ->. now destruct s.
Qed.

Lemma get_Some_lt (s : Builder) (r : ref) : r < length (heap s) -> exists st, get s r = Some st.
Proof.
  intro H. unfold get. destruct (nth_error (heap s) r) eqn:E; [eauto|].
  apply nth_error_None in E. lia.
Qed.

Lemma get_lt (s : Builder) (r : ref) (st : State) : get s r = Some st -> r < length (heap s).
Proof. unfold get. intro H. apply nth_error_Some. congruence. Qed.

Lemma modify_get (r : ref) (f : State -> State) (s : Builder) :
  r < length (heap s) ->
  exists s',
    onHeap (modify r f) s = Some (tt, s') /\
    stateCounter s' = stateCounter s /\
    length (heap s') = length (heap s) /\
    forall r', get s' r' = if r' =? r then option_map f (get s r') else get s r'.
Proof.
  intro H. destruct (modify_Some r f s H) as (s' & E & _).
  exists s'. split; [exact E|]. now apply get_modify.
Qed.

Lemma deref_get (r : ref) (s : Builder) :
  r < length (heap s) ->
  exists st, onHeap (deref r) s = Some (st, s) /\ get s r = Some st.
Proof.
  intro H. destruct (get_Some_lt s r H) as (st & E).
  exists st. split; [now apply get_deref|exact E].
Qed.

(** Runs a builder step by step, keeping what each step does to [get]. *)
Ltac run :=
  repeat match goal with
  | |- context [bind (newState ?a ?b) _ ?s] =>
    let s' := fresh "s" in let E := fresh "E" in
    let C := fresh "C" in let L := fresh "L" in let G := fresh "G" in
    destruct (get_newState a b s) as (s' & E & C & L & G);
    unfold bind at 1; rewrite E; clear E
  | |- context [bind (onHeap (deref ?r)) _ ?s] =>
    let x := fresh "x" in let E := fresh "E" in let G := fresh "D" in
    destruct (deref_get r s ltac:(lia)) as (x & E & G);
    unfold bind at 1; rewrite E; clear E
  | |- context [bind (onHeap (modify ?r ?f)) _ ?s] =>
    let s' := fresh "s" in let E := fresh "E" in
    let C := fresh "C" in let L := fresh "L" in let G := fresh "G" in
    destruct (modify_get r f s ltac:(lia)) as (s' & E & C & L & G);
    unfold bind at 1; rewrite E; clear E
  end.

Lemma touches_refl (xs : list ref) (s : Builder) : touches xs s s.
Proof. split; [lia|]. intros r st H. exists st. auto. Qed.

Lemma touches_trans (xs ys : list ref) (s1 s2 s3 : Builder) :
  touches xs s1 s2 -> touches ys s2 s3 -> touches (xs ++ ys) s1 s3.
Proof.
  intros [L1 H1] [L2 H2]. split; [lia|].
  intros r st Hg. destruct (H1 r st Hg) as (st1 & Hg1 & Hid1 & Hsame1).
  destruct (H2 r st1 Hg1) as (st2 & Hg2 & Hid2 & Hsame2).
  exists st2. split; [exact Hg2|]. split; [congruence|].
  intro Hn. rewrite Hsame2, Hsame1; auto; intro; apply Hn, in_or_app; auto.
Qed.

Lemma touches_incl (xs ys : list ref) (s s' : Builder) :
  incl xs ys -> touches xs s s' -> touches ys s s'.
Proof.
  intros Hi [L H]. split; [exact L|]. intros r st Hg.
  destruct (H r st Hg) as (st' & Hg' & Hid & Hsame). exists st'.
  split; [exact Hg'|]. split; [exact Hid|]. intro Hn. apply Hsame. intro Hx.
  now apply Hn, Hi.
Qed.

(** A fragment stays well formed while other states are written. *)
Lemma wfFragment_frame (xs : list ref) (s s' : Builder) (f : NFAFragment) :
  wfFragment s f -> touches xs s s' ->
  (forall r, In r (NFAFragment.states f) -> ~ In r xs) ->
  wfFragment s' f.
Proof.
  intros [Hn Ha Hs Hacc Hd Hf He] [L H] Hdis. constructor; auto.
  - intros r Hr. specialize (Ha r Hr). lia.
  - intros r st' Hr Hg'.
    destruct (get_Some_lt s r (Ha r Hr)) as (st & Hg).
    destruct (H r st Hg) as (st2 & Hg2 & _ & Hsame).
    rewrite Hsame in Hg2 by (now apply Hdis).
    assert (st' = st) as -> by congruence. now apply Hf.
  - intros t Ht. destruct (He t Ht) as [(r1 & st1 & Hr1 & Hg1 & Hi1) (r2 & st2 & Hr2 & Hg2 & Hi2)].
    destruct (H r1 st1 Hg1) as (st1' & Hg1' & Hid1 & _).
    destruct (H r2 st2 Hg2) as (st2' & Hg2' & Hid2 & _).
    split; [exists r1, st1'|exists r2, st2']; repeat split; auto; congruence.
Qed.

(** Settles the comparisons of references by arithmetic. *)
Ltac eqb_goal :=
  repeat match goal with
  | |- context [?x =? ?y] => destruct (Nat.eqb_spec x y); try lia
  end.

Ltac eqb_in H :=
  repeat match type of H with
  | context [?x =? ?y] => destruct (Nat.eqb_spec x y); try lia
  end.

Lemma createBasicNFA_assembles (base : nat) (a : jstring) (s : Builder) :
  named base s -> assembles base [] (createBasicNFA a) s.
Proof.
  intros [Hlen Hname]. unfold assembles, createBasicNFA. run.
  eexists _, _. split; [reflexivity|].
  rewrite G0, G in D. eqb_in D. injection D as <-.
  rewrite G0 in D0. eqb_in D0. injection D0 as <-.
  split; [|split; [|split]].
  - split; [lia|]. intros r st Hg Hb. rewrite G0, G in Hg. eqb_in Hg.
    + injection Hg as <-. cbn [id]. f_equal. lia.
    + injection Hg as <-. cbn [id]. f_equal. lia.
    + now apply Hname.
  - split; [lia|]. intros r st Hg. exists st. split; [|auto].
    pose proof (get_lt _ _ _ Hg). rewrite G0, G. eqb_goal. exact Hg.
  - constructor; cbn [NFAFragment.states NFAFragment.start NFAFragment.accept
                      NFAFragment.transitions].
    + constructor; [intros [H|[]]; lia|constructor; [intros []|constructor]].
    + intros r [<-|[<-|[]]]; lia.
    + now left.
    + right. now left.
    + lia.
    + intros r st [<-|[<-|[]]] Hg; rewrite G0, G in Hg; eqb_in Hg;
        injection Hg as <-; cbn [isStart isAccept]; split; eqb_goal; reflexivity.
    + intros t [<-|[]]. cbn [from to]. split.
      * eexists (length (heap s)), _. split; [now left|]. split; [|reflexivity].
        rewrite G0, G. eqb_goal. reflexivity.
      * eexists (length (heap s0)), _. split; [right; now left|]. split; [|reflexivity].
        rewrite G0. eqb_goal. reflexivity.
  - cbn [NFAFragment.states]. intros r [<-|[<-|[]]]; right; lia.
Qed.

Lemma option_map_Some {A B} (f : A -> B) (o : option A) (b : B) :
  option_map f o = Some b -> exists a, o = Some a /\ b = f a.
Proof. destruct o; simpl; [|discriminate]. intros [= <-]. eauto. Qed.

Lemma named_touches (base : nat) (xs : list ref) (s s' : Builder) :
  named base s -> touches xs s s' ->
  length (heap s') = length (heap s) -> stateCounter s' = stateCounter s ->
  named base s'.
Proof.
  intros [Hl Hn] [_ Ht] L C. split; [lia|].
  intros r st' Hg Hb. pose proof (get_lt _ _ _ Hg) as Hlt. rewrite L in Hlt.
  destruct (get_Some_lt s r Hlt) as (st & Hgs).
  destruct (Ht r st Hgs) as (st2 & Hg2 & Hid & _).
  assert (st2 = st') as -> by congruence. rewrite Hid. now apply Hn.
Qed.

(** An id of a state of [xs] is still one after writes to flags. *)
Lemma end_preserved (xs ys zs : list ref) (s s' : Builder) (x : jstring) :
  (exists r st, In r xs /\ get s r = Some st /\ id st = x) ->
  touches zs s s' -> incl xs ys ->
  exists r st, In r ys /\ get s' r = Some st /\ id st = x.
Proof.
  intros (r & st & Hr & Hg & Hid) [_ Ht] Hi.
  destruct (Ht r st Hg) as (st' & Hg' & Hid' & _).
  exists r, st'. split; [now apply Hi|]. split; [exact Hg'|congruence].
Qed.

(** Writing a flag of an allocated object. *)
Lemma modify_flag (r : ref) (f : State -> State) (s : Builder) :
  r < length (heap s) ->
  (forall st, id (f st) = id st) ->
  exists s',
    onHeap (modify r f) s = Some (tt, s') /\
    stateCounter s' = stateCounter s /\
    length (heap s') = length (heap s) /\
    touches [r] s s' /\
    forall r', get s' r' = if r' =? r then option_map f (get s r') else get s r'.
Proof.
  intros H Hid. destruct (modify_get r f s H) as (s' & E & C & L & G).
  exists s'. repeat split; auto; [lia|].
  intros r' st Hg. rewrite G. destruct (Nat.eqb_spec r' r) as [->|Hn].
  - rewrite Hg. simpl. eexists. split; [reflexivity|]. split; [apply Hid|].
    intro Hx. exfalso. apply Hx. now left.
  - exists st. auto.
Qed.

Lemma newState_touches (base : nat) (isS isA : bool) (s : Builder) :
  named base s ->
  exists s',
    newState isS isA s = Some (length (heap s), s') /\
    named base s' /\
    length (heap s') = S (length (heap s)) /\
    touches [] s s' /\
    forall r', get s' r' =
               if r' =? length (heap s)
               then Some {| id := q_ (stateCounter s); isStart := isS; isAccept := isA |}
               else get s r'.
Proof.
  intros [Hl Hn]. destruct (get_newState isS isA s) as (s' & E & C & L & G).
  exists s'. split; [exact E|]. split; [|split; [exact L|split; [|exact G]]].
  - split; [lia|]. intros r st Hg Hb. rewrite G in Hg.
    destruct (Nat.eqb_spec r (length (heap s))) as [->|].
    + injection Hg as <-. cbn [id]. f_equal. lia.
    + now apply Hn.
  - split; [lia|]. intros r st Hg. exists st. split; [|auto].
    pose proof (get_lt _ _ _ Hg). rewrite G.
    destruct (Nat.eqb_spec r (length (heap s))); [lia|exact Hg].
Qed.

(** Runs a builder step by step, with what each step keeps. *)
Ltac run2 base :=
  repeat match goal with
  | Hn : named base ?s |- context [bind (newState ?a ?b) _ ?s] =>
    let s' := fresh "s" in let E := fresh "E" in let N := fresh "N" in
    let L := fresh "L" in let T := fresh "T" in let G := fresh "G" in
    destruct (newState_touches base a b s Hn) as (s' & E & N & L & T & G);
    unfold bind at 1; rewrite E; clear E
  | Hn : named base ?s |- context [bind (onHeap (modify ?r ?f)) _ ?s] =>
    let s' := fresh "s" in let E := fresh "E" in let N := fresh "N" in
    let C := fresh "C" in let L := fresh "L" in let T := fresh "T" in
    let G := fresh "G" in
    destruct (modify_flag r f s ltac:(lia) ltac:(reflexivity))
      as (s' & E & C & L & T & G);
    pose proof (named_touches base _ s s' Hn T L C) as N;
    unfold bind at 1; rewrite E; clear E
  | |- context [bind (onHeap (deref ?r)) _ ?s] =>
    let x := fresh "x" in let E := fresh "E" in let G := fresh "D" in
    destruct (deref_get r s ltac:(lia)) as (x & E & G);
    unfold bind at 1; rewrite E; clear E
  end.

(** Reads a flag equation through the writes recorded for the heap. *)
Ltac unfold_get H :=
  repeat match type of H with
  | context [get ?s ?r] =>
    match goal with
    | G : forall r', get s r' = _ |- _ => rewrite (G r) in H
    end
  end;
  repeat match type of H with
  | context [?x =? ?y] => destruct (Nat.eqb_spec x y); try lia
  end.

Lemma concatenate_assembles (base : nat) (f1 f2 : NFAFragment) (s : Builder) :
  named base s -> wfFragment s f1 -> wfFragment s f2 ->
  NoDup (NFAFragment.states f1 ++ NFAFragment.states f2) ->
  assembles base (NFAFragment.states f1 ++ NFAFragment.states f2) (concatenate f1 f2) s.
Proof.
  intros Hn W1 W2 Hnd.
  pose proof (wf_alloc _ _ W1 _ (wf_start _ _ W1)) as As1.
  pose proof (wf_alloc _ _ W1 _ (wf_accept _ _ W1)) as Aa1.
  pose proof (wf_alloc _ _ W2 _ (wf_start _ _ W2)) as As2.
  pose proof (wf_alloc _ _ W2 _ (wf_accept _ _ W2)) as Aa2.
  assert (Hdis : forall r, In r (NFAFragment.states f1) ->
                           In r (NFAFragment.states f2) -> False).
  { intros r H1 H2. apply NoDup_app_remove_l in Hnd as Hnd2.
    revert r H1 H2. clear -Hnd.
    induction (NFAFragment.states f1) as [|x l IH]; intros r H1 H2; [contradiction|].
    simpl in Hnd. inversion Hnd as [|? ? Hx Hrest]; subst.
    destruct H1 as [->|H1]; [|eauto].
    apply Hx, in_or_app. now right. }
  unfold assembles, concatenate. run2 base.
  eexists _, _. split; [reflexivity|].
  assert (T01 : touches (NFAFragment.states f1 ++ NFAFragment.states f2) s s1).
  { eapply touches_incl; [|eapply touches_trans; [exact T|exact T0]].
    intros r [<-|[<-|[]]]; apply in_or_app;
      [left; apply (wf_accept _ _ W1)|right; apply (wf_start _ _ W2)]. }
  split; [exact N0|]. split; [exact T01|]. split.
  - constructor; cbn [NFAFragment.states NFAFragment.start NFAFragment.accept
                      NFAFragment.transitions].
    + exact Hnd.
    + intros r Hr. apply in_app_or in Hr as [Hr|Hr];
        [apply (wf_alloc _ _ W1) in Hr|apply (wf_alloc _ _ W2) in Hr]; lia.
    + apply in_or_app. left. apply (wf_start _ _ W1).
    + apply in_or_app. right. apply (wf_accept _ _ W2).
    + intro E. apply (Hdis (NFAFragment.start f1)); [apply (wf_start _ _ W1)|].
      rewrite E. apply (wf_accept _ _ W2).
    + intros r st Hr Hg.
      pose proof (wf_distinct _ _ W1). pose proof (wf_distinct _ _ W2).
      apply in_app_or in Hr as [Hr|Hr].
      * assert (r <> NFAFragment.start f2)
          by (intros ->; apply (Hdis _ Hr), (wf_start _ _ W2)).
        assert (r <> NFAFragment.accept f2)
          by (intros ->; apply (Hdis _ Hr), (wf_accept _ _ W2)).
        unfold_get Hg.
        -- apply option_map_Some in Hg as (st0 & Hg0 & ->).
           destruct (wf_flags _ _ W1 _ _ Hr Hg0) as [F1 F2].
           cbn [set_isAccept isStart isAccept]. rewrite F1. split; eqb_goal; reflexivity.
        -- destruct (wf_flags _ _ W1 _ _ Hr Hg) as [F1 F2].
           rewrite F1, F2. split; eqb_goal; reflexivity.
      * assert (r <> NFAFragment.start f1)
          by (intros ->; apply (Hdis (NFAFragment.start f1)); [apply (wf_start _ _ W1)|exact Hr]).
        assert (r <> NFAFragment.accept f1)
          by (intros ->; apply (Hdis (NFAFragment.accept f1)); [apply (wf_accept _ _ W1)|exact Hr]).
        unfold_get Hg.
        -- apply option_map_Some in Hg as (st0 & Hg0 & ->).
           destruct (wf_flags _ _ W2 _ _ Hr Hg0) as [F1 F2].
           cbn [set_isStart isStart isAccept]. rewrite F2. split; eqb_goal; reflexivity.
        -- destruct (wf_flags _ _ W2 _ _ Hr Hg) as [F1 F2].
           rewrite F1, F2. split; eqb_goal; reflexivity.
    + intros t Ht. apply in_app_or in Ht as [Ht|Ht]; [|apply in_app_or in Ht as [Ht|[<-|[]]]].
      * destruct (wf_ends _ _ W1 t Ht) as [E1 E2].
        split; eapply end_preserved; eauto; apply incl_appl, incl_refl.
      * destruct (wf_ends _ _ W2 t Ht) as [E1 E2].
        split; eapply end_preserved; eauto; apply incl_appr, incl_refl.
      * cbn [from to]. split.
        -- exists (NFAFragment.accept f1), x. split; [|auto].
           apply in_or_app. left. apply (wf_accept _ _ W1).
        -- exists (NFAFragment.start f2), x0. split; [|auto].
           apply in_or_app. right. apply (wf_start _ _ W2).
  - intros r Hr. now left.
Qed.

Lemma NoDup_app_disjoint {A} (l1 l2 : list A) (x : A) :
  NoDup (l1 ++ l2) -> In x l1 -> In x l2 -> False.
Proof.
  induction l1 as [|y l1 IH]; simpl; intros Hnd H1 H2; [contradiction|].
  inversion Hnd as [|? ? Hy Hrest]; subst.
  destruct H1 as [->|H1]; [|eauto].
  apply Hy, in_or_app. now right.
Qed.

(** Settles the flags of a state of a well-formed fragment after the
    recorded writes. *)
Ltac flags W Hr Hg :=
  unfold_get Hg;
  repeat match goal with
  | H : option_map _ _ = Some _ |- _ =>
    let st0 := fresh "st" in apply option_map_Some in H as (st0 & H & ->)
  end;
  let F1 := fresh "F" in let F2 := fresh "F" in
  destruct (wf_flags _ _ W _ _ Hr Hg) as [F1 F2];
  cbn [set_isStart set_isAccept isStart isAccept];
  rewrite ?F1, ?F2; split; eqb_goal; reflexivity.

Ltac fresh_flags Hg :=
  unfold_get Hg; injection Hg as <-;
  cbn [isStart isAccept]; split; eqb_goal; reflexivity.

Lemma union_assembles (base : nat) (f1 f2 : NFAFragment) (s : Builder) :
  named base s -> wfFragment s f1 -> wfFragment s f2 ->
  NoDup (NFAFragment.states f1 ++ NFAFragment.states f2) ->
  assembles base (NFAFragment.states f1 ++ NFAFragment.states f2) (union f1 f2) s.
Proof.
  intros Hn W1 W2 Hnd.
  pose proof (wf_alloc _ _ W1 _ (wf_start _ _ W1)) as As1.
  pose proof (wf_alloc _ _ W1 _ (wf_accept _ _ W1)) as Aa1.
  pose proof (wf_alloc _ _ W2 _ (wf_start _ _ W2)) as As2.
  pose proof (wf_alloc _ _ W2 _ (wf_accept _ _ W2)) as Aa2.
  pose proof (wf_distinct _ _ W1) as D1. pose proof (wf_distinct _ _ W2) as D2.
  pose proof (NoDup_app_disjoint _ _ (NFAFragment.start f1) Hnd (wf_start _ _ W1)) as X1.
  pose proof (NoDup_app_disjoint _ _ (NFAFragment.accept f1) Hnd (wf_accept _ _ W1)) as X2.
  assert (Y1 : NFAFragment.start f1 <> NFAFragment.start f2)
    by (intro E; apply X1; rewrite E; apply (wf_start _ _ W2)).
  assert (Y2 : NFAFragment.start f1 <> NFAFragment.accept f2)
    by (intro E; apply X1; rewrite E; apply (wf_accept _ _ W2)).
  assert (Y3 : NFAFragment.accept f1 <> NFAFragment.start f2)
    by (intro E; apply X2; rewrite E; apply (wf_start _ _ W2)).
  assert (Y4 : NFAFragment.accept f1 <> NFAFragment.accept f2)
    by (intro E; apply X2; rewrite E; apply (wf_accept _ _ W2)).
  unfold assembles, union. run2 base.
  eexists _, _. split; [reflexivity|].
  assert (T05 : touches (NFAFragment.states f1 ++ NFAFragment.states f2) s s5).
  { eapply touches_incl;
      [|eapply touches_trans; [exact T|];
        eapply touches_trans; [exact T0|];
        eapply touches_trans; [exact T1|];
        eapply touches_trans; [exact T2|];
        eapply touches_trans; [exact T3|exact T4]].
    intros r Hr. simpl in Hr. apply in_or_app.
    destruct Hr as [<-|[<-|[<-|[<-|[]]]]];
      [left; apply (wf_start _ _ W1)|right; apply (wf_start _ _ W2)
      |left; apply (wf_accept _ _ W1)|right; apply (wf_accept _ _ W2)]. }
  split; [exact N4|]. split; [exact T05|]. split.
  - constructor; cbn [NFAFragment.states NFAFragment.start NFAFragment.accept
                      NFAFragment.transitions].
    + simpl. constructor.
      * intro Hin. rewrite app_assoc in Hin.
        apply in_app_or in Hin as [Hin|[Hin|[]]]; [|lia].
        apply in_app_or in Hin as [Hin|Hin];
          [apply (wf_alloc _ _ W1) in Hin|apply (wf_alloc _ _ W2) in Hin]; lia.
      * rewrite app_assoc. apply NoDup_snoc; [exact Hnd|].
        intro Hin. apply in_app_or in Hin as [Hin|Hin];
          [apply (wf_alloc _ _ W1) in Hin|apply (wf_alloc _ _ W2) in Hin]; lia.
    + intros r Hr. simpl in Hr. destruct Hr as [<-|Hr]; [lia|].
      apply in_app_or in Hr as [Hr|Hr]; [apply (wf_alloc _ _ W1) in Hr; lia|].
      apply in_app_or in Hr as [Hr|[<-|[]]]; [apply (wf_alloc _ _ W2) in Hr; lia|lia].
    + now left.
    + simpl. right. rewrite app_assoc. apply in_or_app. right. now left.
    + lia.
    + intros r st Hr Hg. simpl in Hr. destruct Hr as [<-|Hr]; [fresh_flags Hg|].
      apply in_app_or in Hr as [Hr|Hr].
      { pose proof (wf_alloc _ _ W1 _ Hr).
        assert (r <> NFAFragment.start f2)
          by (intros ->; apply (NoDup_app_disjoint _ _ _ Hnd Hr), (wf_start _ _ W2)).
        assert (r <> NFAFragment.accept f2)
          by (intros ->; apply (NoDup_app_disjoint _ _ _ Hnd Hr), (wf_accept _ _ W2)).
        flags W1 Hr Hg. }
      apply in_app_or in Hr as [Hr|[<-|[]]]; [|fresh_flags Hg].
      pose proof (wf_alloc _ _ W2 _ Hr).
      assert (r <> NFAFragment.start f1) by (intros ->; now apply X1).
      assert (r <> NFAFragment.accept f1) by (intros ->; now apply X2).
      flags W2 Hr Hg.
    + assert (I1 : incl (NFAFragment.states f1)
                        ([length (heap s)] ++ NFAFragment.states f1 ++
                         NFAFragment.states f2 ++ [length (heap s0)])).
      { intros r Hr. simpl. right. apply in_or_app. now left. }
      assert (I2 : incl (NFAFragment.states f2)
                        ([length (heap s)] ++ NFAFragment.states f1 ++
                         NFAFragment.states f2 ++ [length (heap s0)])).
      { intros r Hr. simpl. right. apply in_or_app. right. apply in_or_app. now left. }
      assert (In0 : In (length (heap s))
                       ([length (heap s)] ++ NFAFragment.states f1 ++
                        NFAFragment.states f2 ++ [length (heap s0)])) by now left.
      assert (In1 : In (length (heap s0))
                       ([length (heap s)] ++ NFAFragment.states f1 ++
                        NFAFragment.states f2 ++ [length (heap s0)])).
      { simpl. right. rewrite app_assoc. apply in_or_app. right. now left. }
      intros t Ht. apply in_app_or in Ht as [Ht|Ht]; [|apply in_app_or in Ht as [Ht|Ht]].
      * destruct (wf_ends _ _ W1 t Ht) as [E1 E2].
        split; eapply end_preserved; eauto.
      * destruct (wf_ends _ _ W2 t Ht) as [E1 E2].
        split; eapply end_preserved; eauto.
      * simpl in Ht. destruct Ht as [<-|[<-|[<-|[<-|[]]]]]; cbn [from to]; split;
          eauto 8 using wf_start, wf_accept.
  - intros r Hr. simpl in Hr. destruct Hr as [<-|Hr]; [right; lia|].
    rewrite app_assoc in Hr. apply in_app_or in Hr as [Hr|[<-|[]]]; [now left|right; lia].
Qed.

Lemma wrap_assembles (base : nat) (f : NFAFragment)
    (edges : State -> State -> State -> State -> list Transition) (s : Builder) :
  (forall x1 x2 x3 x4 t,
      In t (edges x1 x2 x3 x4) ->
      In (from t) [id x1; id x2; id x3; id x4] /\
      In (to t) [id x1; id x2; id x3; id x4]) ->
  named base s -> wfFragment s f ->
  assembles base (NFAFragment.states f) (wrap f edges) s.
Proof.
  intros Hedges Hn W.
  pose proof (wf_alloc _ _ W _ (wf_start _ _ W)) as As.
  pose proof (wf_alloc _ _ W _ (wf_accept _ _ W)) as Aa.
  pose proof (wf_distinct _ _ W) as D.
  unfold assembles, wrap. run2 base.
  eexists _, _. split; [reflexivity|].
  assert (T03 : touches (NFAFragment.states f) s s3).
  { eapply touches_incl;
      [|eapply touches_trans; [exact T|];
        eapply touches_trans; [exact T0|];
        eapply touches_trans; [exact T1|exact T2]].
    intros r Hr. simpl in Hr.
    destruct Hr as [<-|[<-|[]]]; [apply (wf_start _ _ W)|apply (wf_accept _ _ W)]. }
  split; [exact N2|]. split; [exact T03|]. split.
  - constructor; cbn [NFAFragment.states NFAFragment.start NFAFragment.accept
                      NFAFragment.transitions].
    + simpl. constructor.
      * intro Hin. apply in_app_or in Hin as [Hin|[Hin|[]]]; [|lia].
        apply (wf_alloc _ _ W) in Hin. lia.
      * apply NoDup_snoc; [apply (wf_nodup _ _ W)|].
        intro Hin. apply (wf_alloc _ _ W) in Hin. lia.
    + intros r Hr. simpl in Hr. destruct Hr as [<-|Hr]; [lia|].
      apply in_app_or in Hr as [Hr|[<-|[]]]; [apply (wf_alloc _ _ W) in Hr; lia|lia].
    + now left.
    + simpl. right. apply in_or_app. right. now left.
    + lia.
    + intros r st Hr Hg. simpl in Hr. destruct Hr as [<-|Hr]; [fresh_flags Hg|].
      apply in_app_or in Hr as [Hr|[<-|[]]]; [|fresh_flags Hg].
      pose proof (wf_alloc _ _ W _ Hr). flags W Hr Hg.
    + assert (I1 : incl (NFAFragment.states f)
                        ([length (heap s)] ++ NFAFragment.states f ++ [length (heap s0)])).
      { intros r Hr. simpl. right. apply in_or_app. now left. }
      intros t Ht. apply in_app_or in Ht as [Ht|Ht].
      * destruct (wf_ends _ _ W t Ht) as [E1 E2].
        split; eapply end_preserved; eauto.
      * assert (Hall : forall y, In y [id x; id x0; id x1; id x2] ->
                   exists r st,
                     In r ([length (heap s)] ++ NFAFragment.states f ++ [length (heap s0)])
                     /\ get s3 r = Some st /\ id st = y).
        { intros y Hy. simpl in Hy.
          destruct Hy as [<-|[<-|[<-|[<-|[]]]]].
          - exists (length (heap s)), x. split; [now left|auto].
          - exists (length (heap s0)), x0. split; [|auto].
            simpl. right. apply in_or_app. right. now left.
          - exists (NFAFragment.start f), x1. split; [|auto].
            apply I1, (wf_start _ _ W).
          - exists (NFAFragment.accept f), x2. split; [|auto].
            apply I1, (wf_accept _ _ W). }
        destruct (Hedges _ _ _ _ _ Ht) as [H1 H2]. split; now apply Hall.
  - intros r Hr. simpl in Hr. destruct Hr as [<-|Hr]; [right; lia|].
    apply in_app_or in Hr as [Hr|[<-|[]]]; [now left|right; lia].
Qed.

Lemma postfix_ops_assemble (base : nat) (f : NFAFragment) (s : Builder) :
  named base s -> wfFragment s f ->
  assembles base (NFAFragment.states f) (kleeneStar f) s /\
  assembles base (NFAFragment.states f) (kleenePlus f) s /\
  assembles base (NFAFragment.states f) (optional f) s.
Proof.
  intros Hn W. repeat split; apply wrap_assembles; auto;
    intros x1 x2 x3 x4 t Ht; simpl in Ht;
    repeat (destruct Ht as [<-|Ht]; [simpl; tauto|]); contradiction.
Qed.

Lemma touches_narrow (xs ys : list ref) (s s' : Builder) :
  touches xs s s' ->
  (forall r, In r xs -> r < length (heap s) -> In r ys) ->
  touches ys s s'.
Proof.
  intros [L H] Hi. split; [exact L|]. intros r st Hg.
  destruct (H r st Hg) as (st' & Hg' & Hid & Hsame). exists st'.
  split; [exact Hg'|]. split; [exact Hid|]. intro Hn. apply Hsame. intro Hx.
  apply Hn, Hi; [exact Hx|]. eapply get_lt; eauto.
Qed.

Lemma touches_length (xs : list ref) (s s' : Builder) :
  touches xs s s' -> length (heap s) <= length (heap s').
Proof. now intros [L _]. Qed.

Lemma owned_In (tokens : list token) (f : NFAFragment) (r : ref) :
  In (TFragment f) tokens -> In r (NFAFragment.states f) -> In r (owned tokens).
Proof.
  intros Hf Hr. unfold owned. apply in_flat_map. exists (TFragment f). auto.
Qed.

Lemma owned_allocated (s : Builder) (tokens : list token) (r : ref) :
  wfTokens s tokens -> In r (owned tokens) -> r < length (heap s).
Proof.
  intros [_ Hw] Hr. unfold owned in Hr. apply in_flat_map in Hr as (t & Ht & Hr).
  destruct t as [c|f]; [contradiction|]. apply (wf_alloc _ _ (Hw f Ht)), Hr.
Qed.

Lemma wfTokens_frame (xs : list ref) (s s' : Builder) (tokens : list token) :
  wfTokens s tokens -> touches xs s s' ->
  (forall r, In r (owned tokens) -> ~ In r xs) ->
  wfTokens s' tokens.
Proof.
  intros [Hnd Hw] Ht Hdis. split; [exact Hnd|].
  intros f Hf. apply (wfFragment_frame xs s s'); auto.
  intros r Hr. apply Hdis. eapply owned_In; eauto.
Qed.

Lemma fragmentOf_assembles (base : nat) (t : token) (s : Builder) :
  named base s ->
  (forall f, t = TFragment f -> wfFragment s f) ->
  assembles base (statesOf t) (fragmentOf t) s.
Proof.
  intros Hn Hw. destruct t as [c|f]; simpl.
  - now apply createBasicNFA_assembles.
  - exists f, s. split; [reflexivity|]. split; [exact Hn|].
    split; [apply touches_refl|]. split; [now apply Hw|]. intros r Hr. now left.
Qed.

Lemma NoDup_app_inv {A} (l1 l2 : list A) :
  NoDup (l1 ++ l2) ->
  NoDup l1 /\ NoDup l2 /\ forall x, In x l1 -> In x l2 -> False.
Proof.
  intro H. split; [eapply NoDup_app_remove_r; eauto|].
  split; [eapply NoDup_app_remove_l; eauto|].
  intros x. now apply NoDup_app_disjoint.
Qed.

Lemma NoDup_app_intro {A} (l1 l2 : list A) :
  NoDup l1 -> NoDup l2 -> (forall x, In x l1 -> In x l2 -> False) -> NoDup (l1 ++ l2).
Proof. intros H1 H2 H. apply NoDup_app; auto. Qed.

(** [tokens.reduce] from any accumulator: the fragment it returns is well
    formed and made of the states it was given and of new ones. *)
Lemma concatAll_from_assembles (base : nat) (tokens : list token) :
  forall (acc : option NFAFragment) (s : Builder),
    named base s -> wfTokens s tokens ->
    (forall a, acc = Some a -> wfFragment s a) ->
    NoDup (accStates acc ++ owned tokens) ->
    exists r s',
      foldM (fun acc t =>
               frag <- fragmentOf t ;;
               match acc with
               | Some a => r <- concatenate a frag ;; ret (Some r)
               | None => ret (Some frag)
               end) tokens acc s = Some (r, s')
      /\ named base s'
      /\ touches (accStates acc ++ owned tokens) s s'
      /\ forall f, r = Some f ->
                   wfFragment s' f /\
                   forall x, In x (NFAFragment.states f) ->
                             In x (accStates acc ++ owned tokens) \/ length (heap s) <= x.
Proof.
  induction tokens as [|t tokens IH]; intros acc s Hn Hw Hacc Hnd.
  - exists acc, s. split; [reflexivity|]. split; [exact Hn|]. split; [apply touches_refl|].
    intros f ->. split; [now apply Hacc|]. intros x Hx. left. simpl.
    now rewrite app_nil_r.
  - change (owned (t :: tokens)) with (statesOf t ++ owned tokens) in *.
    apply NoDup_app_inv in Hnd as (NdA & NdTO & DisA).
    apply NoDup_app_inv in NdTO as (NdT & NdO & DisT).
    assert (AllocO : forall r, In r (owned tokens) -> r < length (heap s)).
    { intros r Hr. apply (owned_allocated s (t :: tokens) r Hw).
      change (owned (t :: tokens)) with (statesOf t ++ owned tokens).
      apply in_or_app. now right. }
    assert (AllocT : forall r, In r (statesOf t) -> r < length (heap s)).
    { intros r Hr. apply (owned_allocated s (t :: tokens) r Hw).
      change (owned (t :: tokens)) with (statesOf t ++ owned tokens).
      apply in_or_app. now left. }
    assert (Hw' : wfTokens s tokens).
    { destruct Hw as [_ Hw]. split; [exact NdO|]. intros f Hf. apply Hw. now right. }
    destruct (fragmentOf_assembles base t s Hn) as (frag & s1 & E1 & N1 & T1 & W1 & Or1).
    { intros f ->. destruct Hw as [_ Hw]. apply Hw. now left. }
    pose proof (touches_length _ _ _ T1) as L1.
    destruct acc as [a|]; simpl accStates in *.
    + pose proof (Hacc a eq_refl) as Wa.
      assert (AllocA : forall r, In r (NFAFragment.states a) -> r < length (heap s))
        by apply (wf_alloc _ _ Wa).
      assert (Wa1 : wfFragment s1 a).
      { apply (wfFragment_frame (statesOf t) s s1); auto.
        intros r Hr Hx. apply (DisA r Hr). apply in_or_app. now left. }
      destruct (concatenate_assembles base a frag s1 N1 Wa1 W1)
        as (r1 & s2 & E2 & N2 & T2 & W2 & Or2).
      { apply NoDup_app_intro; [exact NdA|apply (wf_nodup _ _ W1)|].
        intros x Hx Hf. destruct (Or1 x Hf) as [Ht|Hl].
        - apply (DisA x Hx). apply in_or_app. now left.
        - specialize (AllocA x Hx). lia. }
      pose proof (touches_length _ _ _ T2) as L2.
      assert (Orig : forall x, In x (NFAFragment.states r1) ->
                               In x (NFAFragment.states a) \/ In x (statesOf t)
                               \/ length (heap s) <= x).
      { intros x Hx. destruct (Or2 x Hx) as [Hin|Hl]; [|right; right; lia].
        apply in_app_or in Hin as [Hin|Hin]; [now left|].
        destruct (Or1 x Hin); auto. }
      destruct (IH (Some r1) s2 N2) as (r & s3 & E3 & N3 & T3 & Hr).
      * apply (wfTokens_frame (statesOf t ++ NFAFragment.states a ++ NFAFragment.states frag)
                              s s2 tokens Hw').
        -- eapply touches_trans; eauto.
        -- intros x Hx Hin. apply in_app_or in Hin as [Hin|Hin]; [now apply (DisT x)|].
           apply in_app_or in Hin as [Hin|Hin].
           ++ apply (DisA x Hin). apply in_or_app. now right.
           ++ destruct (Or1 x Hin) as [Ht|Hl]; [now apply (DisT x)|].
              specialize (AllocO x Hx). lia.
      * intros f [= <-]. exact W2.
      * simpl. apply NoDup_app_intro; [apply (wf_nodup _ _ W2)|exact NdO|].
        intros x Hx Ho. specialize (AllocO x Ho).
        destruct (Orig x Hx) as [Hin|[Hin|Hl]]; [| |lia].
        -- apply (DisA x Hin). apply in_or_app. now right.
        -- now apply (DisT x).
      * exists r, s3. split; [|split; [exact N3|split]].
        -- simpl. unfold bind. rewrite E1, E2. exact E3.
        -- eapply touches_narrow;
             [eapply touches_trans; [exact T1|eapply touches_trans; [exact T2|exact T3]]|].
           intros x Hx Hlt.
           apply in_app_or in Hx as [Hx|Hx];
             [apply in_or_app; right; apply in_or_app; now left|].
           apply in_app_or in Hx as [Hx|Hx].
           ++ apply in_app_or in Hx as [Hx|Hx]; [apply in_or_app; now left|].
              destruct (Or1 x Hx) as [Ht|Hl]; [|lia].
              apply in_or_app. right. apply in_or_app. now left.
           ++ simpl in Hx. apply in_app_or in Hx as [Hx|Hx].
              ** destruct (Orig x Hx) as [Hin|[Hin|Hl]]; [| |lia].
                 --- apply in_or_app. now left.
                 --- apply in_or_app. right. apply in_or_app. now left.
              ** apply in_or_app. right. apply in_or_app. now right.
        -- intros f Hf. destruct (Hr f Hf) as [Wf Orf]. split; [exact Wf|].
           intros x Hx. destruct (Orf x Hx) as [Hin|Hl]; [|right; lia].
           simpl in Hin. apply in_app_or in Hin as [Hin|Hin].
           ++ destruct (Orig x Hin) as [Hi|[Hi|Hl]]; [| |now right].
              ** left. apply in_or_app. now left.
              ** left. apply in_or_app. right. apply in_or_app. now left.
           ++ left. apply in_or_app. right. apply in_or_app. now right.
    + destruct (IH (Some frag) s1 N1) as (r & s3 & E3 & N3 & T3 & Hr).
      * apply (wfTokens_frame (statesOf t) s s1 tokens Hw' T1).
        intros x Hx Hin. now apply (DisT x).
      * intros f [= <-]. exact W1.
      * simpl. apply NoDup_app_intro; [apply (wf_nodup _ _ W1)|exact NdO|].
        intros x Hx Ho. specialize (AllocO x Ho).
        destruct (Or1 x Hx) as [Hin|Hl]; [now apply (DisT x)|lia].
      * exists r, s3. split; [|split; [exact N3|split]].
        -- simpl. unfold bind. rewrite E1. exact E3.
        -- eapply touches_narrow; [eapply touches_trans; [exact T1|exact T3]|].
           intros x Hx Hlt. simpl.
           apply in_app_or in Hx as [Hx|Hx]; [apply in_or_app; now left|].
           simpl in Hx. apply in_app_or in Hx as [Hx|Hx]; [|apply in_or_app; now right].
           destruct (Or1 x Hx) as [Ht|Hl]; [apply in_or_app; now left|lia].
        -- intros f Hf. destruct (Hr f Hf) as [Wf Orf]. split; [exact Wf|].
           intros x Hx. simpl. destruct (Orf x Hx) as [Hin|Hl]; [|right; lia].
           simpl in Hin. apply in_app_or in Hin as [Hin|Hin].
           ++ destruct (Or1 x Hin) as [Ht|Hl]; [left; apply in_or_app; now left|now right].
           ++ left. apply in_or_app. now right.
Qed.

Lemma concatAll_assembles (base : nat) (tokens : list token) (s : Builder) :
  named base s -> wfTokens s tokens ->
  exists r s',
    concatAll tokens s = Some (r, s') /\ named base s' /\
    touches (owned tokens) s s' /\
    forall f, r = Some f ->
              wfFragment s' f /\
              forall x, In x (NFAFragment.states f) ->
                        In x (owned tokens) \/ length (heap s) <= x.
Proof.
  intros Hn Hw.
  apply (concatAll_from_assembles base tokens None s Hn Hw); [discriminate|].
  apply Hw.
Qed.

Lemma owned_app (l1 l2 : list token) : owned (l1 ++ l2) = owned l1 ++ owned l2.
Proof. unfold owned. apply flat_map_app. Qed.

Lemma owned_single (t : token) : owned [t] = statesOf t.
Proof. unfold owned. simpl. apply app_nil_r. Qed.

Lemma wfTokens_snoc (s : Builder) (tokens : list token) (f : NFAFragment) :
  wfTokens s tokens -> wfFragment s f ->
  (forall x, In x (owned tokens) -> In x (NFAFragment.states f) -> False) ->
  wfTokens s (tokens ++ [TFragment f]).
Proof.
  intros [Hnd Hw] Wf Hdis. split.
  - rewrite owned_app, owned_single. simpl.
    apply NoDup_app_intro; [exact Hnd|apply (wf_nodup _ _ Wf)|exact Hdis].
  - intros g Hg. apply in_app_or in Hg as [Hg|[[= <-]|[]]]; [now apply Hw|exact Wf].
Qed.

(** A postfix operator on the last token. *)
Lemma postfix_assembles (base : nat) (op : NFAFragment -> B NFAFragment)
    (tokens : list token) (s : Builder) :
  (forall f s, named base s -> wfFragment s f ->
               assembles base (NFAFragment.states f) (op f) s) ->
  0 < length tokens ->
  named base s -> wfTokens s tokens ->
  exists tokens' s',
    postfix op tokens s = Some (tokens', s') /\ named base s' /\
    touches (owned tokens) s s' /\ wfTokens s' tokens' /\
    forall x, In x (owned tokens') -> In x (owned tokens) \/ length (heap s) <= x.
Proof.
  intros Hop Hlen Hn Hw.
  destruct (pop_Some tokens Hlen) as (last & rest & Ep & ->).
  unfold postfix. rewrite Ep.
  pose proof Hw as [Hnd Hwf]. rewrite owned_app, owned_single in Hnd.
  apply NoDup_app_inv in Hnd as (NdR & NdL & Dis).
  assert (AllocR : forall r, In r (owned rest) -> r < length (heap s)).
  { intros r Hr. apply (owned_allocated s _ r Hw). rewrite owned_app.
    apply in_or_app. now left. }
  assert (Hwr : wfTokens s rest).
  { split; [exact NdR|]. intros g Hg. apply Hwf, in_or_app. now left. }
  destruct (fragmentOf_assembles base last s Hn) as (f & s1 & E1 & N1 & T1 & W1 & Or1).
  { intros g ->. apply Hwf, in_or_app. right. now left. }
  destruct (Hop f s1 N1 W1) as (r & s2 & E2 & N2 & T2 & W2 & Or2).
  pose proof (touches_length _ _ _ T1) as L1.
  pose proof (touches_length _ _ _ T2) as L2.
  assert (Orig : forall x, In x (NFAFragment.states r) ->
                           In x (statesOf last) \/ length (heap s) <= x).
  { intros x Hx. destruct (Or2 x Hx) as [Hin|Hl]; [|right; lia].
    destruct (Or1 x Hin); auto. }
  exists (rest ++ [TFragment r]), s2.
  split; [unfold bind; rewrite E1, E2; reflexivity|]. split; [exact N2|].
  split; [|split].
  - rewrite owned_app, owned_single.
    eapply touches_narrow; [eapply touches_trans; [exact T1|exact T2]|].
    intros x Hx Hlt. apply in_or_app. right.
    apply in_app_or in Hx as [Hx|Hx]; [exact Hx|].
    destruct (Or1 x Hx) as [Ht|Hl]; [exact Ht|lia].
  - apply wfTokens_snoc; [|exact W2|].
    + apply (wfTokens_frame (statesOf last ++ NFAFragment.states f) s s2 rest Hwr).
      * eapply touches_trans; eauto.
      * intros x Hx Hin. specialize (AllocR x Hx).
        apply in_app_or in Hin as [Hin|Hin]; [now apply (Dis x)|].
        destruct (Or1 x Hin) as [Ht|Hl]; [now apply (Dis x)|lia].
    + intros x Hx Hr. specialize (AllocR x Hx).
      destruct (Orig x Hr) as [Ht|Hl]; [now apply (Dis x)|lia].
  - intros x Hx. rewrite owned_app, owned_single in *. simpl in Hx.
    apply in_app_or in Hx as [Hx|Hx]; [left; apply in_or_app; now left|].
    destruct (Orig x Hx) as [Ht|Hl]; [left; apply in_or_app; now right|now right].
Qed.

(** The loop of [parse], given that [parse] on shorter expressions
    returns well-formed fragments made of new states. *)
Lemma parseLoop_assembles (base : nat) (parse : jstring -> B NFAFragment)
    (expr : jstring) :
  (forall sub s, length sub < length expr -> named base s ->
                 assembles base [] (parse sub) s) ->
  forall fuel tokens i s,
    length expr - i <= fuel ->
    named base s -> wfTokens s tokens ->
    assembles base (owned tokens) (parseLoop parse expr fuel tokens i) s.
Proof.
  intros Hparse.
  assert (Hend : forall tokens s,
             named base s -> wfTokens s tokens ->
             assembles base (owned tokens)
               (r <- concatAll tokens ;;
                match r with
                | Some f => ret f
                | None => createBasicNFA LAMBDA
                end) s).
  { intros tokens s Hn Hw.
    destruct (concatAll_assembles base tokens s Hn Hw) as (r & s1 & E1 & N1 & T1 & Hr).
    unfold assembles, bind. rewrite E1. destruct r as [f|].
    - destruct (Hr f eq_refl) as [Wf Orf]. exists f, s1. auto.
    - destruct (createBasicNFA_assembles base LAMBDA s1 N1)
        as (f & s2 & E2 & N2 & T2 & W2 & Or2).
      pose proof (touches_length _ _ _ T1).
      exists f, s2. split; [exact E2|]. split; [exact N2|]. split; [|split; [exact W2|]].
      + eapply touches_narrow; [eapply touches_trans; [exact T1|exact T2]|].
        intros x Hx _. apply in_app_or in Hx as [Hx|[]]. exact Hx.
      + intros x Hx. destruct (Or2 x Hx) as [[]|Hl]. right. lia. }
  induction fuel as [|fuel IH]; intros tokens i s Hfuel Hn Hw.
  - assert (E : (i <? length expr) = false) by (apply Nat.ltb_ge; lia).
    cbn [parseLoop]. rewrite E. now apply Hend.
  - cbn [parseLoop]. destruct (i <? length expr) eqn:Hi; [|now apply Hend].
    apply Nat.ltb_lt in Hi.
    assert (Hpost : forall op,
               (forall f s, named base s -> wfFragment s f ->
                            assembles base (NFAFragment.states f) (op f) s) ->
               0 < length tokens ->
               assembles base (owned tokens)
                 (tokens' <- postfix op tokens ;;
                  parseLoop parse expr fuel tokens' (i + 1)) s).
    { intros op Hop Hlen.
      destruct (postfix_assembles base op tokens s Hop Hlen Hn Hw)
        as (tokens' & s1 & E1 & N1 & T1 & W1 & Or1).
      destruct (IH tokens' (i + 1) s1 ltac:(lia) N1 W1)
        as (f & s2 & E2 & N2 & T2 & W2 & Or2).
      pose proof (touches_length _ _ _ T1).
      exists f, s2. split; [unfold bind; rewrite E1; exact E2|]. split; [exact N2|].
      split; [|split; [exact W2|]].
      - eapply touches_narrow; [eapply touches_trans; [exact T1|exact T2]|].
        intros x Hx Hlt. apply in_app_or in Hx as [Hx|Hx]; [exact Hx|].
        destruct (Or1 x Hx) as [Ho|Hl]; [exact Ho|lia].
      - intros x Hx. destruct (Or2 x Hx) as [Hin|Hl]; [|right; lia].
        apply Or1, Hin. }
    destruct (str_eqb (charAt expr i) (lit "(")).
    { set (j := matchParen (skipn (i + 1) expr) 1 (i + 1)).
      assert (Hj : i + 1 <= j) by apply matchParen_ge.
      destruct (Hparse (slice expr (i + 1) (j - 1)) s) as (f & s1 & E1 & N1 & T1 & W1 & Or1).
      { pose proof (slice_length expr (i + 1) (j - 1)). lia. }
      { exact Hn. }
      pose proof (touches_length _ _ _ T1).
      assert (Fresh : forall x, In x (NFAFragment.states f) -> length (heap s) <= x).
      { intros x Hx. destruct (Or1 x Hx) as [[]|Hl]. exact Hl. }
      assert (W' : wfTokens s1 (tokens ++ [TFragment f])).
      { apply wfTokens_snoc; [|exact W1|].
        - apply (wfTokens_frame [] s s1 tokens Hw T1). intros x _ [].
        - intros x Hx Hf. pose proof (owned_allocated s tokens x Hw Hx).
          specialize (Fresh x Hf). lia. }
      destruct (IH (tokens ++ [TFragment f]) j s1 ltac:(lia) N1 W')
        as (f' & s2 & E2 & N2 & T2 & W2 & Or2).
      exists f', s2. split; [unfold bind; rewrite E1; exact E2|]. split; [exact N2|].
      rewrite owned_app, owned_single in *. simpl in T2, Or2.
      split; [|split; [exact W2|]].
      - eapply touches_narrow; [eapply touches_trans; [exact T1|exact T2]|].
        intros x Hx Hlt. simpl in Hx. apply in_app_or in Hx as [Hx|Hx]; [exact Hx|].
        specialize (Fresh x Hx). lia.
      - intros x Hx. destruct (Or2 x Hx) as [Hin|Hl]; [|right; lia].
        apply in_app_or in Hin as [Hin|Hin]; [now left|right; now apply Fresh]. }
    destruct (str_eqb (charAt expr i) (lit "*") && (0 <? length tokens)) eqn:Estar.
    { apply andb_true_iff in Estar as [_ Hlen]. apply Nat.ltb_lt in Hlen.
      apply Hpost; [|exact Hlen]. intros. now apply postfix_ops_assemble. }
    destruct (str_eqb (charAt expr i) (lit "+") && (0 <? length tokens)) eqn:Eplus.
    { apply andb_true_iff in Eplus as [_ Hlen]. apply Nat.ltb_lt in Hlen.
      apply Hpost; [|exact Hlen]. intros. now apply postfix_ops_assemble. }
    destruct (str_eqb (charAt expr i) (lit "?") && (0 <? length tokens)) eqn:Eopt.
    { apply andb_true_iff in Eopt as [_ Hlen]. apply Nat.ltb_lt in Hlen.
      apply Hpost; [|exact Hlen]. intros. now apply postfix_ops_assemble. }
    destruct (str_eqb (charAt expr i) (lit "|")).
    { destruct (concatAll_assembles base tokens s Hn Hw) as (l & s1 & E1 & N1 & T1 & Hl).
      destruct (Hparse (slice expr (i + 1) (length expr)) s1)
        as (r & s2 & E2 & N2 & T2 & W2 & Or2).
      { pose proof (slice_length expr (i + 1) (length expr)). lia. }
      { exact N1. }
      pose proof (touches_length _ _ _ T1). pose proof (touches_length _ _ _ T2).
      assert (Fresh : forall x, In x (NFAFragment.states r) -> length (heap s1) <= x).
      { intros x Hx. destruct (Or2 x Hx) as [[]|Hx']. exact Hx'. }
      unfold assembles, bind. rewrite E1, E2. destruct l as [l|].
      - destruct (Hl l eq_refl) as [Wl Orl].
        assert (Wl2 : wfFragment s2 l).
        { apply (wfFragment_frame [] s1 s2 l Wl T2). intros x _ []. }
        destruct (union_assembles base l r s2 N2 Wl2 W2)
          as (f & s3 & E3 & N3 & T3 & W3 & Or3).
        { apply NoDup_app_intro; [apply (wf_nodup _ _ Wl)|apply (wf_nodup _ _ W2)|].
          intros x Hx Hr. pose proof (wf_alloc _ _ Wl x Hx). specialize (Fresh x Hr). lia. }
        pose proof (touches_length _ _ _ T3).
        exists f, s3. split; [exact E3|]. split; [exact N3|]. split; [|split; [exact W3|]].
        + eapply touches_narrow;
            [eapply touches_trans; [exact T1|eapply touches_trans; [exact T2|exact T3]]|].
          intros x Hx Hlt. apply in_app_or in Hx as [Hx|Hx]; [exact Hx|].
          simpl in Hx. apply in_app_or in Hx as [Hx|Hx].
          * destruct (Orl x Hx) as [Ho|Hlen]; [exact Ho|lia].
          * specialize (Fresh x Hx). lia.
        + intros x Hx. destruct (Or3 x Hx) as [Hin|Hlen]; [|right; lia].
          apply in_app_or in Hin as [Hin|Hin]; [now apply Orl|].
          right. specialize (Fresh x Hin). lia.
      - exists r, s2. unfold ret. split; [reflexivity|]. split; [exact N2|].
        split; [|split; [exact W2|]].
        + eapply touches_narrow; [eapply touches_trans; [exact T1|exact T2]|].
          intros x Hx _. apply in_app_or in Hx as [Hx|[]]. exact Hx.
        + intros x Hx. right. specialize (Fresh x Hx). lia. }
    destruct (negb (str_eqb (charAt expr i) (lit " "))).
    + destruct (IH (tokens ++ [TString (charAt expr i)]) (i + 1) s ltac:(lia) Hn)
        as (f & s2 & E2 & N2 & T2 & W2 & Or2).
      { destruct Hw as [Hnd Hwf]. split.
        - rewrite owned_app, owned_single. simpl. now rewrite app_nil_r.
        - intros g Hg. apply in_app_or in Hg as [Hg|[[=]|[]]]. now apply Hwf. }
      rewrite owned_app, owned_single in *. simpl in *. rewrite app_nil_r in *.
      exists f, s2. auto.
    + apply IH; [lia|exact Hn|exact Hw].
Qed.

Lemma parse_assembles (base : nat) (fuel : nat) :
  forall expr s, length expr < fuel -> named base s ->
                 assembles base [] (parse fuel expr) s.
Proof.
  induction fuel as [|fuel IH]; intros expr s H Hn; [lia|].
  simpl. destruct (length expr =? 0).
  - now apply createBasicNFA_assembles.
  - apply (parseLoop_assembles base (parse fuel) expr) with (tokens := []);
      [|lia|exact Hn|].
    + intros sub s1 Hsub Hn1. apply IH; [lia|exact Hn1].
    + split; [constructor|intros f []].
Qed.

Lemma extends_of_prefix (h h' : Heap) :
  (forall r st, nth_error h r = Some st -> nth_error h' r = Some st) -> extends h h'.
Proof.
  revert h'; induction h as [|x h IH]; intros h' H.
  - now exists h'.
  - destruct h' as [|y h'].
    + specialize (H 0 x eq_refl). discriminate.
    + pose proof (H 0 x eq_refl) as H0. injection H0 as ->.
      destruct (IH h') as (l & ->).
      * intros r st Hr. apply (H (S r) st Hr).
      * now exists l.
Qed.

Lemma objects_of_refs (h : Heap) (rs : list ref) :
  Forall (fun r => r < length h) rs ->
  exists objs, Forall2 (fun r s => nth_error h r = Some s) rs objs.
Proof.
  induction rs as [|r rs IH]; intro H; [exists []; constructor|].
  inversion H as [|? ? Hr Hrest]; subst.
  destruct (IH Hrest) as (objs & Hobjs).
  destruct (nth_error h r) as [s|] eqn:E.
  - exists (s :: objs). now constructor.
  - apply nth_error_None in E. lia.
Qed.

Lemma Forall2_In_l {A B} (R : A -> B -> Prop) (l : list A) (l' : list B) (a : A) :
  Forall2 R l l' -> In a l -> exists b, In b l' /\ R a b.
Proof.
  induction 1 as [|x y l l' Hxy _ IH]; intros Hin; [contradiction|].
  destruct Hin as [->|Hin]; [exists y; split; [now left|exact Hxy]|].
  destruct (IH Hin) as (b & Hb & Hr). exists b. split; [now right|exact Hr].
Qed.

Lemma Forall2_In_r {A B} (R : A -> B -> Prop) (l : list A) (l' : list B) (b : B) :
  Forall2 R l l' -> In b l' -> exists a, In a l /\ R a b.
Proof.
  induction 1 as [|x y l l' Hxy _ IH]; intros Hin; [contradiction|].
  destruct Hin as [->|Hin]; [exists x; split; [now left|exact Hxy]|].
  destruct (IH Hin) as (a & Ha & Hr). exists a. split; [now right|exact Hr].
Qed.

(** Objects read through pairwise different references whose ids tell the
    references apart have pairwise different ids. *)
Lemma NoDup_ids (h : Heap) (rs : list ref) (objs : list State) :
  Forall2 (fun r s => nth_error h r = Some s) rs objs ->
  (forall r r' s s', In r rs -> In r' rs ->
                     nth_error h r = Some s -> nth_error h r' = Some s' ->
                     id s = id s' -> r = r') ->
  NoDup rs -> NoDup (map id objs).
Proof.
  induction 1 as [|r s rs objs Hrs Hrest IH]; intros Hinj Hnd; simpl; [constructor|].
  inversion Hnd as [|? ? Hr Hnd']; subst. constructor.
  - intro Hin. apply in_map_iff in Hin as (s' & Hid & Hs').
    destruct (Forall2_In_r _ _ _ _ Hrest Hs') as (r' & Hr' & Hget).
    assert (r' = r).
    { apply (Hinj r' r s' s); auto; [now right|now left]. }
    subst. contradiction.
  - apply IH; [|exact Hnd']. intros. apply (Hinj r0 r' s0 s'); auto; now right.
Qed.

(** One object is flagged when the flag tells one reference. *)
Lemma one_flagged (h : Heap) (p : State -> bool) (x : ref) (rs : list ref)
    (objs : list State) :
  Forall2 (fun r s => nth_error h r = Some s) rs objs ->
  (forall r s, In r rs -> nth_error h r = Some s -> p s = (r =? x)) ->
  NoDup rs -> In x rs ->
  length (filter p objs) = 1.
Proof.
  intros HF Hp Hnd Hin.
  assert (G : forall rs objs,
             Forall2 (fun r s => nth_error h r = Some s) rs objs ->
             (forall r s, In r rs -> nth_error h r = Some s -> p s = (r =? x)) ->
             NoDup rs ->
             length (filter p objs) = if in_dec Nat.eq_dec x rs then 1 else 0).
  { clear. induction 1 as [|r s rs objs Hrs Hrest IH]; intros Hp Hnd; [reflexivity|].
    inversion Hnd as [|? ? Hr Hnd']; subst. simpl.
    rewrite (Hp r s (or_introl eq_refl) Hrs).
    specialize (IH (fun r' s' Hin => Hp r' s' (or_intror Hin)) Hnd').
    destruct (Nat.eqb_spec r x) as [->|Hne].
    - simpl. rewrite IH.
      destruct (Nat.eq_dec x x) as [_|]; [|contradiction].
      destruct (in_dec Nat.eq_dec x rs); [contradiction|reflexivity].
    - rewrite IH. destruct (Nat.eq_dec r x); [contradiction|].
      destruct (in_dec Nat.eq_dec x rs); reflexivity. }
  rewrite (G rs objs HF Hp Hnd).
  destruct (in_dec Nat.eq_dec x rs); [reflexivity|contradiction].
Qed.

Lemma new_Set_In (l : list jstring) (x : jstring) : In x (new_Set l) <-> In x l.
Proof. unfold new_Set. rewrite fold_Set_add_In. simpl. tauto. Qed.

(** All that the regex builder guarantees of the automaton it returns. *)
Lemma regexToNFALambda_run (regex : jstring) (h : Heap) :
  exists nfaL h' objs,
    regexToNFALambda regex h = Some (nfaL, h') /\
    extends h h' /\ fresh h (states nfaL) /\ NoDup (states nfaL) /\
    view h' nfaL = Some objs /\
    (forall s, In s objs -> exists n, id s = q_ n) /\
    NoDup (map id objs) /\
    length (filter isStart objs) = 1 /\
    length (filter isAccept objs) = 1 /\
    (forall s, In s objs -> isStart s && isAccept s = false) /\
    (forall t, In t (transitions nfaL) ->
               In (from t) (map id objs) /\ In (to t) (map id objs)) /\
    alphabet nfaL =
    new_Set (filter (fun a => negb (str_eqb a LAMBDA)) (map symbol (transitions nfaL))).
Proof.
  unfold regexToNFALambda.
  set (s0 := {| stateCounter := 0; heap := h |}).
  assert (N0 : named (length h) s0).
  { split; [simpl; lia|]. intros r st Hg Hb. apply get_lt in Hg. simpl in Hg. lia. }
  destruct (parse_assembles (length h) (S (length regex)) regex s0 ltac:(lia) N0)
    as (f & s' & E & [Nl Nn] & [Tl Tt] & W & Or).
  rewrite E.
  assert (Hfresh : forall r, In r (NFAFragment.states f) -> length h <= r).
  { intros r Hr. destruct (Or r Hr) as [[]|Hl]. exact Hl. }
  destruct (objects_of_refs (heap s') (NFAFragment.states f)) as (objs & Hobjs).
  { apply Forall_forall. apply (wf_alloc _ _ W). }
  eexists _, _, objs. split; [reflexivity|]. cbn [states transitions alphabet].
  split; [|split; [|split; [|split; [|split; [|split; [|split; [|split; [|split; [|split]]]]]]]]].
  - apply extends_of_prefix. intros r st Hr.
    destruct (Tt r st Hr) as (st' & Hg & _ & Hsame). unfold get in Hg.
    rewrite Hg. f_equal. apply Hsame. intros [].
  - apply Forall_forall. exact Hfresh.
  - apply (wf_nodup _ _ W).
  - apply view_mapM. now apply mapM_deref_Forall2.
  - intros s Hs. destruct (Forall2_In_r _ _ _ _ Hobjs Hs) as (r & Hr & Hg).
    exists (r - length h). apply (Nn r s Hg). now apply Hfresh.
  - apply (NoDup_ids (heap s') (NFAFragment.states f)); [exact Hobjs| |apply (wf_nodup _ _ W)].
    intros r r' s1 s2 Hr Hr' Hg Hg' Hid.
    rewrite (Nn r s1 Hg (Hfresh r Hr)), (Nn r' s2 Hg' (Hfresh r' Hr')) in Hid.
    apply q_inj in Hid. pose proof (Hfresh r Hr). pose proof (Hfresh r' Hr'). lia.
  - apply (one_flagged (heap s') isStart (NFAFragment.start f) (NFAFragment.states f));
      [exact Hobjs| |apply (wf_nodup _ _ W)|apply (wf_start _ _ W)].
    intros r s Hr Hg. apply (wf_flags _ _ W r s Hr Hg).
  - apply (one_flagged (heap s') isAccept (NFAFragment.accept f) (NFAFragment.states f));
      [exact Hobjs| |apply (wf_nodup _ _ W)|apply (wf_accept _ _ W)].
    intros r s Hr Hg. apply (wf_flags _ _ W r s Hr Hg).
  - intros s Hs. destruct (Forall2_In_r _ _ _ _ Hobjs Hs) as (r & Hr & Hg).
    destruct (wf_flags _ _ W r s Hr Hg) as [-> ->].
    pose proof (wf_distinct _ _ W).
    destruct (Nat.eqb_spec r (NFAFragment.start f)); [|reflexivity].
    destruct (Nat.eqb_spec r (NFAFragment.accept f)); [congruence|reflexivity].
  - intros t Ht.
    destruct (wf_ends _ _ W t Ht) as [(r1 & st1 & Hr1 & Hg1 & Hi1) (r2 & st2 & Hr2 & Hg2 & Hi2)].
    destruct (Forall2_In_l _ _ _ _ Hobjs Hr1) as (o1 & Ho1 & Hn1).
    destruct (Forall2_In_l _ _ _ _ Hobjs Hr2) as (o2 & Ho2 & Hn2).
    unfold get in Hg1, Hg2.
    assert (o1 = st1) as -> by congruence. assert (o2 = st2) as -> by congruence.
    split; [rewrite <- Hi1|rewrite <- Hi2]; now apply in_map.
  - reflexivity.
Qed.

Lemma str_eqb_false (a b : jstring) : str_eqb a b = false <-> a <> b.
Proof.
  split.
  - intros H E. apply str_eqb_eq in E. congruence.
  - intro H. destruct (str_eqb a b) eqn:E; [|reflexivity].
    apply str_eqb_eq in E. contradiction.
Qed.

(** X6. [regexToNFALambda] writes to no object that was there before the
    call, and the states of the automaton it returns are new objects, all
    different, whose ids are pairwise different names [q0], [q1], ... *)
Theorem regexToNFALambda_states (regex : jstring) (h : Heap) :
  exists nfaL h' objs,
    regexToNFALambda regex h = Some (nfaL, h') /\
    extends h h' /\ fresh h (states nfaL) /\ NoDup (states nfaL) /\
    view h' nfaL = Some objs /\
    NoDup (map id objs) /\
    forall s, In s objs -> exists n, id s = q_ n.
Proof.
  destruct (regexToNFALambda_run regex h)
    as (nfaL & h' & objs & E & Hext & Hfresh & Hnd & Hv & Hq & Hids & _).
  exists nfaL, h', objs. auto 8.
Qed.

(** X7. The automaton [regexToNFALambda] returns has exactly one state
    marked start and exactly one marked accept, and no state is both. *)
Theorem regexToNFALambda_one_start_one_accept (regex : jstring) (h : Heap) :
  exists nfaL h' objs,
    regexToNFALambda regex h = Some (nfaL, h') /\
    view h' nfaL = Some objs /\
    length (filter isStart objs) = 1 /\
    length (filter isAccept objs) = 1 /\
    forall s, In s objs -> isStart s && isAccept s = false.
Proof.
  destruct (regexToNFALambda_run regex h)
    as (nfaL & h' & objs & E & _ & _ & _ & Hv & _ & _ & Hs & Ha & Hboth & _).
  exists nfaL, h', objs. auto.
Qed.

(** X8. Every transition of the automaton [regexToNFALambda] returns joins
    ids of states of that automaton. *)
Theorem regexToNFALambda_endpoints (regex : jstring) (h : Heap) :
  exists nfaL h' objs,
    regexToNFALambda regex h = Some (nfaL, h') /\
    view h' nfaL = Some objs /\
    forall t, In t (transitions nfaL) ->
              In (from t) (map id objs) /\ In (to t) (map id objs).
Proof.
  destruct (regexToNFALambda_run regex h)
    as (nfaL & h' & objs & E & _ & _ & _ & Hv & _ & _ & _ & _ & _ & Hends & _).
  exists nfaL, h', objs. auto.
Qed.

(** X9. The alphabet of the automaton [regexToNFALambda] returns lists
    each symbol once, and its symbols are exactly the labels of the
    transitions other than the epsilon marker. *)
Theorem regexToNFALambda_alphabet (regex : jstring) (h : Heap) :
  exists nfaL h',
    regexToNFALambda regex h = Some (nfaL, h') /\
    NoDup (alphabet nfaL) /\
    forall a, In a (alphabet nfaL) <->
              a <> LAMBDA /\ exists t, In t (transitions nfaL) /\ symbol t = a.
Proof.
  destruct (regexToNFALambda_run regex h)
    as (nfaL & h' & objs & E & _ & _ & _ & _ & _ & _ & _ & _ & _ & _ & Hal).
  exists nfaL, h'. split; [exact E|]. rewrite Hal. split.
  - apply fold_Set_add_NoDup. constructor.
  - intro a. rewrite new_Set_In, filter_In, in_map_iff, negb_true_iff, str_eqb_false.
    split.
    + intros [(t & Hs & Ht) Hn]. eauto.
    + intros [Hn (t & Ht & Hs)]. eauto.
Qed.

(** ** The whole pipeline on a regex *)

(** X10. For every regex the pipeline of the page, [regexToNFALambda] then
    [nfaLambdaToNFA] then [nfaToDFA], returns a DFA given enough fuel, and
    whatever DFA it returns is deterministic. *)
Theorem pipeline_deterministic (regex : jstring) (h0 : Heap) :
  (exists fuel dfa h, pipeline fuel regex h0 = Some (dfa, h)) /\
  (forall fuel dfa h,
      pipeline fuel regex h0 = Some (dfa, h) -> deterministic (transitions dfa)).
Proof.
  destruct (regexToNFALambda_run regex h0)
    as (nfaL & h1 & objs & E1 & _ & _ & _ & Hv & Hq & _ & _ & _ & _ & _ & Hal).
  destruct (nfaLambdaToNFA_run h1 nfaL objs Hv) as (nt & g & _ & Hg & E2).
  set (nfa := {| states := seq (length h1) (length objs); transitions := nt;
                 alphabet := alphabet nfaL |}) in *.
  assert (Hv2 : view (h1 ++ map g objs) nfa = Some (map g objs)).
  { apply view_mapM. simpl. rewrite <- (length_map g objs). apply mapM_deref_new. }
  split.
  - destruct (nfaToDFA_Some _ _ _ Hv2) as (fuel & dfa & h & E3).
    exists fuel, dfa, h. unfold pipeline, bind. now rewrite E1, E2.
  - intros fuel dfa h H. unfold pipeline, bind in H. rewrite E1, E2 in H.
    apply (nfaToDFA_result_deterministic fuel _ nfa (map g objs) dfa h Hv2); [| |exact H].
    + simpl. rewrite Hal. apply fold_Set_add_NoDup. constructor.
    + intros s Hs Hid. apply find_some in Hs as [Hs _].
      apply in_map_iff in Hs as (o & <- & Ho).
      destruct (Hg o) as (c & _ & Eg). rewrite Eg in Hid. simpl in Hid.
      destruct (Hq o Ho) as (n & Hn). rewrite Hn in Hid. discriminate.
Qed.

(** ** The subset construction simulates the NFA *)

Lemma nth_error_app_l {A} (l more : list A) (i : nat) (x : A) :
  nth_error l i = Some x -> nth_error (l ++ more) i = Some x.
Proof.
  intro H. rewrite nth_error_app1; [exact H|]. apply nth_error_Some. congruence.
Qed.

Lemma nth_error_snoc_inv {A} (l : list A) (y : A) (i : nat) (x : A) :
  nth_error (l ++ [y]) i = Some x ->
  (i < length l /\ nth_error l i = Some x) \/ (i = length l /\ x = y).
Proof.
  intro H. destruct (Nat.lt_ge_cases i (length l)) as [Hlt|Hge].
  - left. split; [exact Hlt|]. now rewrite nth_error_app1 in H.
  - right. rewrite nth_error_app2 in H by exact Hge.
    destruct (i - length l) as [|n] eqn:E.
    + simpl in H. injection H as <-. split; [lia|reflexivity].
    + simpl in H. destruct n; discriminate.
Qed.

Lemma nextSetOf_In (ts : list Transition) (cur : JSSet) (a r : jstring) :
  In r (nextSetOf ts cur a) <->
  exists s t, In s cur /\ In t ts /\ from t = s /\ symbol t = a /\ to t = r.
Proof.
  unfold nextSetOf.
  assert (F : forall es acc,
             In r (fold_left (fun nextSet t => Set_add nextSet (to t)) es acc) <->
             In r acc \/ exists t, In t es /\ to t = r).
  { induction es as [|t es IH]; intro acc; simpl.
    - split; [auto|]. intros [H|(t & [] & _)]. exact H.
    - rewrite IH, Set_add_In. split.
      + intros [[H|H]|(t' & Ht & E)]; eauto.
      + intros [H|(t' & [<-|Ht] & E)]; eauto. }
  assert (G : forall l acc,
             In r (fold_left
                     (fun nextSet stateId =>
                        fold_left (fun nextSet t => Set_add nextSet (to t))
                                  (filter (isEdge stateId a) ts) nextSet) l acc) <->
             In r acc \/
             exists s t, In s l /\ In t ts /\ from t = s /\ symbol t = a /\ to t = r).
  { induction l as [|s l IH]; intro acc; simpl.
    - split; [auto|]. intros [H|(s & t & [] & _)]. exact H.
    - rewrite IH, F. split.
      + intros [[H|(t & Ht & E)]|(s' & t & Hs & Hrest)].
        * now left.
        * apply filter_In in Ht as [Ht He]. apply isEdge_true in He as [Hf Hs].
          right. exists s, t. auto 8.
        * right. exists s', t. tauto.
      + intros [H|(s' & t & [<-|Hs] & Ht & Hf & Hsym & E)].
        * left. now left.
        * left. right. exists t. split; [|exact E].
          apply filter_In. split; [exact Ht|]. now apply isEdge_true.
        * right. exists s', t. auto 8. }
  rewrite G. simpl. split.
  - intros [[]|H]. exact H.
  - intro H. now right.
Qed.

Lemma nextSetOf_clean (ts : list Transition) (cur : JSSet) (a : jstring) :
  (forall t, In t ts -> clean (to t)) ->
  forall x, In x (nextSetOf ts cur a) -> clean x.
Proof.
  intros Hc x Hx. apply nextSetOf_In in Hx as (s & t & _ & Ht & _ & _ & <-). auto.
Qed.

Lemma handledUpTo_snoc (al : list jstring) (k : nat) (seen : list jstring) (a : jstring)
    (i : nat) (b : jstring) :
  handledUpTo al k (seen ++ [a]) i b <-> handledUpTo al k seen i b \/ (i = k /\ b = a).
Proof.
  unfold handledUpTo. rewrite in_app_iff. simpl. intuition.
Qed.

Lemma handledUpTo_lt (al : list jstring) (k : nat) (seen : list jstring)
    (i : nat) (b : jstring) :
  handledUpTo al k seen i b -> i <= k.
Proof. unfold handledUpTo. intros [[H _]|[-> _]]; lia. Qed.

(** One symbol of one dequeued subset keeps the simulation invariant. *)
Lemma onSymbol_inv objs ts al startSet reps k seen cur st a h st' h' :
  subsetInv objs ts startSet reps (S k) (handledUpTo al k seen) st h ->
  nth_error reps k = Some cur ->
  onSymbol objs ts cur (currentKeyOf cur) st a h = Some (st', h') ->
  exists more,
    extends h h' /\
    subsetInv objs ts startSet (reps ++ more) (S k) (handledUpTo al k (seen ++ [a])) st' h'.
Proof.
  intros [Hstart Hkeys Hnd Hq Hobjs Hcl Htr Hto] Hcur H.
  unfold onSymbol in H.
  set (N := nextSetOf ts cur a) in *.
  set (nextKey := orElse (keyOf N) EMPTYSET) in *.
  assert (Hk : k < length reps) by (apply nth_error_Some; congruence).
  apply bind_Some in H as (st1 & h1 & H1 & H).
  destruct (0 <? length N) eqn:Esize.
  2:{ (* nothing to add *)
      rewrite andb_false_r in H1. injection H1 as <- <-. injection H as <- <-.
      assert (EN : N = []) by (destruct N; [reflexivity|discriminate]).
      exists []. rewrite app_nil_r. split; [apply extends_refl|].
      constructor; auto.
      - intro t. rewrite Htr. split.
        + intros (i & S & HS & Hh & Hrest). exists i, S. split; [exact HS|].
          split; [apply handledUpTo_snoc; now left|exact Hrest].
        + intros (i & S & HS & Hh & Hf & Hne & Ht).
          apply handledUpTo_snoc in Hh as [Hh|[-> Hsym]]; [exists i, S; auto|].
          exfalso. apply Hne. rewrite Hsym.
          assert (S = cur) as -> by congruence. exact EN.
      - intros i S b HS Hh Hne.
        apply handledUpTo_snoc in Hh as [Hh|[-> ->]]; [eauto|].
        exfalso. apply Hne. assert (S = cur) as -> by congruence. exact EN. }
  assert (HN : N <> []) by (intro E; rewrite E in Esize; discriminate).
  set (t0 := {| from := currentKeyOf cur; to := nextKey; symbol := a |}) in *.
  (* what the new transition does to the transition relation *)
  assert (Trans : forall (reps' : list JSSet) (old : list Transition),
             (forall i S, i <= k -> nth_error reps' i = Some S -> nth_error reps i = Some S) ->
             (forall i S, nth_error reps i = Some S -> nth_error reps' i = Some S) ->
             (forall t, In t old <->
                        exists i S,
                          nth_error reps i = Some S /\ handledUpTo al k seen i (symbol t) /\
                          from t = currentKeyOf S /\ nextSetOf ts S (symbol t) <> [] /\
                          to t = currentKeyOf (nextSetOf ts S (symbol t))) ->
             forall t, In t (old ++ [t0]) <->
                       exists i S,
                         nth_error reps' i = Some S /\
                         handledUpTo al k (seen ++ [a]) i (symbol t) /\
                         from t = currentKeyOf S /\ nextSetOf ts S (symbol t) <> [] /\
                         to t = currentKeyOf (nextSetOf ts S (symbol t))).
  { intros reps' old Hback Hfwd Hold t. rewrite in_app_iff, Hold. simpl. split.
    - intros [(i & S & HS & Hh & Hrest)|[<-|[]]].
      + exists i, S. split; [now apply Hfwd|].
        split; [apply handledUpTo_snoc; now left|exact Hrest].
      + exists k, cur. split; [now apply Hfwd|]. simpl.
        split; [apply handledUpTo_snoc; now right|]. auto.
    - intros (i & S & HS & Hh & Hf & Hne & Ht).
      pose proof (handledUpTo_lt _ _ _ _ _ Hh) as Hle.
      apply Hback in HS; [|exact Hle].
      apply handledUpTo_snoc in Hh as [Hh|[-> Hsym]].
      + left. exists i, S. auto.
      + right. left. assert (S = cur) as -> by congruence.
        destruct t as [f t s]. simpl in *. subst. reflexivity. }
  destruct (negb (Map_has (dfaStates st) nextKey)) eqn:Ehas; simpl in H1.
  - (* a new subset is registered *)
    apply negb_true_iff in Ehas.
    assert (Hnk : ~ In nextKey (map fst (dfaStates st))).
    { intro Hin. apply Map_has_In in Hin. congruence. }
    apply bind_Some in H1 as (r & h2 & Ha & H1). unfold alloc in Ha.
    injection Ha as <- <-. injection H1 as <- <-. injection H as <- <-.
    exists [N]. split; [now eexists|].
    assert (Hlen : length (dfaStates st) = length reps).
    { rewrite <- (length_map fst), Hkeys, length_map. reflexivity. }
    constructor; cbn [dfaStates dfaTransitions queue].
    + now apply nth_error_app_l.
    + rewrite (Map_set_new _ _ _ Hnk), !map_app, Hkeys. reflexivity.
    + rewrite map_app. simpl. apply NoDup_snoc; [exact Hnd|].
      now rewrite <- Hkeys.
    + rewrite Hq. rewrite skipn_app.
      replace (S k - length reps) with 0 by lia. reflexivity.
    + rewrite (Map_set_new _ _ _ Hnk). intros i kv S Hkv HS.
      apply nth_error_snoc_inv in Hkv as [[Hi Hkv]|[-> ->]];
        apply nth_error_snoc_inv in HS as [[Hi' HS]|[Ei ->]]; try lia.
      * apply nth_error_extends. eauto.
      * simpl. rewrite nth_error_app2, Nat.sub_diag by lia. simpl.
        destruct (length (dfaStates st)) eqn:E0; [lia|reflexivity].
    + intros S HS. apply in_app_or in HS as [HS|[<-|[]]]; [auto|].
      split; [exact HN|]. intros x Hx. right. now apply (nextSetOf_targets ts cur a).
    + apply Trans; [| |exact Htr].
      * intros i S Hi HS. rewrite nth_error_app1 in HS by lia. exact HS.
      * intros i S HS. now apply nth_error_app_l.
    + intros i S b HS Hh Hne.
      pose proof (handledUpTo_lt _ _ _ _ _ Hh) as Hle.
      rewrite nth_error_app1 in HS by lia.
      apply handledUpTo_snoc in Hh as [Hh|[-> ->]].
      * destruct (Hto i S b HS Hh Hne) as (S' & HS' & E).
        exists S'. split; [apply in_or_app; now left|exact E].
      * assert (S = cur) as -> by congruence.
        exists N. split; [apply in_or_app; right; now left|reflexivity].
  - (* the key is known *)
    apply negb_false_iff in Ehas. apply Map_has_In in Ehas. rewrite Hkeys in Ehas.
    injection H1 as <- <-. injection H as <- <-.
    exists []. rewrite app_nil_r. split; [apply extends_refl|].
    constructor; cbn [dfaStates dfaTransitions queue]; auto.
    intros i S b HS Hh Hne.
    apply handledUpTo_snoc in Hh as [Hh|[-> ->]]; [eauto|].
    assert (S = cur) as -> by congruence.
    apply in_map_iff in Ehas as (S' & E & HS'). exists S'. auto.
Qed.

Lemma subsetInv_ext objs ts startSet reps qfrom (H1 H2 : nat -> jstring -> Prop) st h :
  (forall i a, H1 i a <-> H2 i a) ->
  subsetInv objs ts startSet reps qfrom H1 st h ->
  subsetInv objs ts startSet reps qfrom H2 st h.
Proof.
  intros He [Hstart Hkeys Hnd Hq Hobjs Hcl Htr Hto]. constructor; auto.
  - intro t. rewrite Htr. split; intros (i & S & HS & Hh & Hrest);
      exists i, S; (split; [exact HS|split; [now apply He|exact Hrest]]).
  - intros i S a HS Hh. apply (Hto i S a HS). now apply He.
Qed.

Lemma foldM_onSymbol_inv objs ts al startSet k cur :
  forall al2 seen reps st h st' h',
    subsetInv objs ts startSet reps (S k) (handledUpTo al k seen) st h ->
    nth_error reps k = Some cur ->
    foldM (onSymbol objs ts cur (currentKeyOf cur)) al2 st h = Some (st', h') ->
    exists more,
      extends h h' /\
      subsetInv objs ts startSet (reps ++ more) (S k)
                (handledUpTo al k (seen ++ al2)) st' h'.
Proof.
  induction al2 as [|a al2 IH]; intros seen reps st h st' h' Hinv Hcur H;
    simpl in H.
  - injection H as <- <-. exists []. rewrite !app_nil_r. split; [apply extends_refl|exact Hinv].
  - apply bind_Some in H as (st1 & h1 & H1 & H).
    destruct (onSymbol_inv _ _ _ _ _ _ _ _ _ _ _ _ _ Hinv Hcur H1)
      as (more1 & Hext1 & Hinv1).
    destruct (IH (seen ++ [a]) (reps ++ more1) st1 h1 st' h' Hinv1
                 (nth_error_app_l _ _ _ _ Hcur) H) as (more2 & Hext2 & Hinv2).
    exists (more1 ++ more2). split; [eapply extends_trans; eauto|].
    rewrite app_assoc. rewrite <- (app_assoc seen [a] al2) in Hinv2. exact Hinv2.
Qed.

Lemma skipn_cons_nth {A} (l : list A) (k : nat) (x : A) (rest : list A) :
  skipn k l = x :: rest -> nth_error l k = Some x /\ skipn (S k) l = rest.
Proof.
  revert k; induction l as [|y l IH]; intros [|k] H; simpl in *; try discriminate.
  - injection H as -> ->. auto.
  - now apply IH.
Qed.

Lemma skipn_nil_length {A} (l : list A) (k : nat) : skipn k l = [] -> length l <= k.
Proof.
  revert k; induction l as [|y l IH]; intros [|k] H; simpl in *; try discriminate; try lia.
  apply IH in H. lia.
Qed.

(** The worklist loop ends with every registered subset handled on every
    symbol of the alphabet. *)
Lemma subsetLoop_inv objs ts al startSet :
  forall fuel reps k st h st' h',
    subsetInv objs ts startSet reps k (handledUpTo al k []) st h ->
    k <= length reps ->
    subsetLoop objs ts al fuel st h = Some (st', h') ->
    exists reps',
      extends h h' /\
      subsetInv objs ts startSet reps' (length reps')
                (fun i a => i < length reps' /\ In a al) st' h'.
Proof.
  assert (Hdone : forall reps k st h,
             subsetInv objs ts startSet reps k (handledUpTo al k []) st h ->
             k <= length reps -> queue st = [] ->
             subsetInv objs ts startSet reps (length reps)
                       (fun i a => i < length reps /\ In a al) st h).
  { intros reps k st h Hinv Hk Hq.
    assert (k = length reps) as ->.
    { rewrite (si_queue _ _ _ _ _ _ _ _ Hinv) in Hq. apply skipn_nil_length in Hq. lia. }
    eapply subsetInv_ext; [|exact Hinv].
    intros i a. unfold handledUpTo. simpl. tauto. }
  induction fuel as [|fuel IH]; intros reps k st h st' h' Hinv Hk H; simpl in H;
    destruct (queue st) as [|cur rest] eqn:Eq; try discriminate.
  - injection H as <- <-. exists reps. split; [apply extends_refl|]. eapply Hdone; eauto.
  - injection H as <- <-. exists reps. split; [apply extends_refl|]. eapply Hdone; eauto.
  - apply bind_Some in H as (st1 & h1 & H1 & H).
    pose proof Hinv as [Hstart Hkeys Hnd Hq Hobjs Hcl Htr Hto].
    rewrite Eq in Hq. symmetry in Hq. apply skipn_cons_nth in Hq as [Hcur Hrest].
    assert (Hinv0 : subsetInv objs ts startSet reps (S k) (handledUpTo al k [])
                      {| dfaStates := dfaStates st;
                         dfaTransitions := dfaTransitions st;
                         queue := rest |} h).
    { constructor; auto. }
    fold (currentKeyOf cur) in H1.
    destruct (foldM_onSymbol_inv objs ts al startSet k cur al [] reps _ h st1 h1
                Hinv0 Hcur H1) as (more & Hext1 & Hinv1).
    simpl in Hinv1.
    assert (Hk' : S k <= length (reps ++ more)).
    { rewrite length_app. assert (k < length reps) by (apply nth_error_Some; congruence). lia. }
    destruct (IH (reps ++ more) (S k) st1 h1 st' h') as (reps' & Hext2 & Hinv2);
      [|exact Hk'|exact H|].
    + eapply subsetInv_ext; [|exact Hinv1].
      intros i a. unfold handledUpTo. simpl. split.
      * intros [[Hi Ha]|[-> Ha]]; left; split; auto; lia.
      * intros [[Hi Ha]|[_ []]]. destruct (Nat.eq_dec i k) as [->|]; [now right|].
        left. split; [lia|exact Ha].
    + exists reps'. split; [eapply extends_trans; eauto|exact Hinv2].
Qed.

Lemma renamed_key (keys : list jstring) (i : nat) (key : jstring) :
  NoDup keys -> nth_error keys i = Some key ->
  renamed (renaming keys 0 []) key = q_ i.
Proof.
  intros Hnd Hi. rewrite renaming_combine by exact Hnd. simpl.
  assert (Hin : In key keys) by (eapply nth_error_In; eauto).
  destruct (Map_get_In keys (map q_ (seq 0 (length keys))) key) as (v & Hv);
    [now rewrite length_map, length_seq|exact Hin|].
  unfold renamed. rewrite Hv.
  apply Map_get_combine in Hv as (j & Hj & Hvj).
  assert (j = i) as ->.
  { apply (proj1 (NoDup_nth_error keys) Hnd); [apply nth_error_Some; congruence|congruence]. }
  rewrite nth_error_map in Hvj.
  assert (Hlt : i < length keys) by (apply nth_error_Some; congruence).
  rewrite nth_error_seq in Hvj.
  destruct (i <? length keys) eqn:E; [|apply Nat.ltb_ge in E; lia].
  simpl in Hvj. injection Hvj as <-. reflexivity.
Qed.

Lemma mapM_rename (f : State -> State) (g : nat -> State) :
  forall (l : list (jstring * ref)) (h : Heap) (c : nat),
    (forall i kv, nth_error l i = Some kv ->
                  exists o, nth_error h (snd kv) = Some o /\ f o = g (c + i)) ->
    mapM (fun kv => s <- deref (snd kv) ;; alloc (f s)) l h
    = Some (seq (length h) (length l), h ++ map g (seq c (length l))).
Proof.
  induction l as [|kv l IH]; intros h c Hl; simpl.
  - now rewrite app_nil_r.
  - destruct (Hl 0 kv eq_refl) as (o & Ho & Hf). rewrite Nat.add_0_r in Hf.
    unfold bind at 1. unfold bind at 1. unfold deref at 1. rewrite Ho.
    unfold alloc at 1. rewrite Hf.
    unfold bind at 1. rewrite (IH (h ++ [g c]) (S c)).
    + unfold ret. rewrite length_app. simpl. rewrite Nat.add_1_r, <- app_assoc.
      reflexivity.
    + intros i kv' Hi. destruct (Hl (S i) kv' Hi) as (o' & Ho' & Hf').
      exists o'. split; [now apply nth_error_extends|].
      rewrite Hf'. f_equal. lia.
Qed.

(** What [nfaToDFA] returns, in terms of the subsets it registered. *)
Lemma nfaToDFA_subsets (fuel : nat) (h : Heap) (nfa : Automaton) (objs : list State)
    (s0 : State) (dfa : Automaton) (h' : Heap) :
  view h nfa = Some objs ->
  find isStart objs = Some s0 ->
  id s0 <> [] ->
  nfaToDFA fuel nfa h = Some (dfa, h') ->
  exists reps,
    nth_error reps 0 = Some [id s0] /\
    (forall S, In S reps ->
               S <> [] /\
               forall x, In x S -> In x [id s0] \/ In x (map to (transitions nfa))) /\
    NoDup (map currentKeyOf reps) /\
    view h' dfa = Some (map (subsetState objs reps) (seq 0 (length reps))) /\
    alphabet dfa = alphabet nfa /\
    (forall i S a,
        nth_error reps i = Some S -> In a (alphabet nfa) ->
        nextSetOf (transitions nfa) S a <> [] ->
        exists j S',
          nth_error reps j = Some S' /\
          currentKeyOf S' = currentKeyOf (nextSetOf (transitions nfa) S a)) /\
    (forall tr,
        In tr (transitions dfa) <->
        exists i S j S',
          nth_error reps i = Some S /\ nth_error reps j = Some S' /\
          In (symbol tr) (alphabet nfa) /\
          from tr = q_ i /\ to tr = q_ j /\
          nextSetOf (transitions nfa) S (symbol tr) <> [] /\
          currentKeyOf S' = currentKeyOf (nextSetOf (transitions nfa) S (symbol tr))).
Proof.
  intros Hv Hs0 Hid H. apply view_mapM in Hv. unfold nfaToDFA in H.
  apply bind_Some in H as (objs1 & h1 & H1 & H).
  rewrite Hv in H1. injection H1 as <- <-. rewrite Hs0 in H.
  apply bind_Some in H as (r & h2 & Hr & H).
  apply bind_Some in H as (st & h3 & H3 & H).
  apply bind_Some in H as (rs & h4 & H4 & H). injection H as <- <-. simpl.
  unfold alloc in Hr. injection Hr as <- <-.
  rewrite keyOf_singleton in H3. simpl in H3.
  assert (Hck : currentKeyOf [id s0] = id s0).
  { unfold currentKeyOf. change [id s0] with (new_Set [id s0]).
    rewrite keyOf_singleton. destruct (id s0); [contradiction|reflexivity]. }
  assert (Hinv0 : subsetInv objs (transitions nfa) [id s0] [[id s0]] 0
                    (handledUpTo (alphabet nfa) 0 [])
                    {| dfaStates := [(id s0, length h)];
                       dfaTransitions := [];
                       queue := [new_Set [id s0]] |}
                    (h ++ [{| id := orElse (id s0) EMPTYSET; isStart := true;
                              isAccept := someAccept objs (new_Set [id s0]) |}])).
  { constructor; simpl.
    - reflexivity.
    - now rewrite Hck.
    - constructor; [intros []|constructor].
    - reflexivity.
    - intros [|i] kv S Hkv HS; simpl in *;
        [|destruct i; discriminate].
      injection Hkv as <-. injection HS as <-. simpl.
      rewrite nth_error_app2, Nat.sub_diag by lia. simpl.
      destruct (id s0); [contradiction|reflexivity].
    - intros S [<-|[]]. split; [discriminate|]. intros x Hx. now left.
    - intro t. split; [intros []|].
      intros (i & S & _ & [[Hi _]|[_ []]] & _). lia.
    - intros i S a _ [[Hi _]|[_ []]]. lia. }
  destruct (subsetLoop_inv _ _ _ _ fuel _ 0 _ _ _ _ Hinv0 (Nat.le_0_l _) H3)
    as (reps & Hext & [Hstart Hkeys Hnd Hq Hobjs Hmem Htr Hto]).
  assert (Hlen : length (dfaStates st) = length reps).
  { rewrite <- (length_map fst), Hkeys, length_map. reflexivity. }
  set (sm := renaming (map fst (dfaStates st)) 0 []) in *.
  assert (Hsm : forall i S, nth_error reps i = Some S -> renamed sm (currentKeyOf S) = q_ i).
  { intros i S HS. unfold sm. rewrite Hkeys. apply renamed_key; [exact Hnd|].
    rewrite nth_error_map, HS. reflexivity. }
  rewrite (mapM_rename _ (subsetState objs reps) (dfaStates st) h3 0) in H4.
  2:{ intros i kv Hkv.
      destruct (nth_error reps i) as [S|] eqn:HS.
      2:{ apply nth_error_None in HS.
          assert (i < length (dfaStates st)) by (apply nth_error_Some; congruence). lia. }
      eexists. split; [exact (Hobjs i kv S Hkv HS)|]. simpl.
      unfold subsetState. rewrite (nth_error_nth _ _ _ HS). f_equal.
      assert (Ek : fst kv = currentKeyOf S).
      { assert (E : nth_error (map fst (dfaStates st)) i = Some (fst kv))
          by (rewrite nth_error_map, Hkv; reflexivity).
        rewrite Hkeys, nth_error_map, HS in E. simpl in E. congruence. }
      rewrite Ek. now apply Hsm. }
  injection H4 as <- <-.
  exists reps. split; [exact Hstart|]. split; [exact Hmem|]. split; [exact Hnd|].
  split.
  { apply view_mapM. simpl. rewrite Hlen.
    pose proof (mapM_deref_new h3 (map (subsetState objs reps) (seq 0 (length reps)))) as E.
    rewrite length_map, length_seq in E. exact E. }
  split; [reflexivity|].
  split.
  { intros i S a HS Ha Hne.
    destruct (Hto i S a HS) as (S' & HS' & E); [|exact Hne|].
    - split; [apply (proj1 (nth_error_Some reps i)); unfold JSSet in *; congruence|exact Ha].
    - apply In_nth_error in HS' as (j & HS'). eauto. }
  intro tr. rewrite in_map_iff. split.
  - intros (t0 & <- & Ht0). simpl.
    apply Htr in Ht0 as (i & S & HS & [Hi Ha] & Hf & Hne & Ht).
    destruct (Hto i S (symbol t0) HS (conj Hi Ha) Hne) as (S' & HS' & E).
    apply In_nth_error in HS' as (j & HS').
    exists i, S, j, S'. split; [exact HS|]. split; [exact HS'|]. split; [exact Ha|].
    split; [rewrite Hf; now apply Hsm|].
    split; [rewrite Ht, <- E; now apply Hsm|].
    split; [exact Hne|exact E].
  - intros (i & S & j & S' & HS & HS' & Ha & Hf & Ht & Hne & E).
    exists {| from := currentKeyOf S;
              to := currentKeyOf (nextSetOf (transitions nfa) S (symbol tr));
              symbol := symbol tr |}.
    split.
    + simpl. rewrite (Hsm i S HS), <- E, (Hsm j S' HS').
      destruct tr as [f t s]. simpl in *. now subst.
    + apply Htr. exists i, S. simpl. split; [exact HS|].
      split; [split; [apply (proj1 (nth_error_Some reps i)); unfold JSSet in *; congruence|exact Ha]|].
      auto.
Qed.

(** *** Keys tell subsets of clean ids apart *)

Lemma app_comma_inj (x x' r r' : jstring) :
  ~ In 44%N x -> ~ In 44%N x' ->
  (r = [] \/ exists r0, r = 44%N :: r0) ->
  (r' = [] \/ exists r0, r' = 44%N :: r0) ->
  x ++ r = x' ++ r' -> x = x' /\ r = r'.
Proof.
  revert x'. induction x as [|c x IH]; intros [|c' x'] Hx Hx' Hr Hr' E; simpl in *.
  - auto.
  - exfalso. destruct Hr as [->|(r0 & ->)]; [discriminate|].
    injection E as <- _. tauto.
  - exfalso. destruct Hr' as [->|(r0 & ->)]; [discriminate|].
    injection E as -> _. tauto.
  - injection E as -> E.
    destruct (IH x') as [-> ->]; auto.
Qed.

Lemma join_cons (x : jstring) (l : list jstring) :
  join (lit ",") (x :: l) = x ++ match l with [] => [] | _ => 44%N :: join (lit ",") l end.
Proof. destruct l; simpl; [now rewrite app_nil_r|reflexivity]. Qed.

Lemma join_inj (l1 l2 : list jstring) :
  Forall clean l1 -> Forall clean l2 ->
  join (lit ",") l1 = join (lit ",") l2 -> l1 = l2.
Proof.
  revert l2. induction l1 as [|x l1 IH]; intros [|x' l2] H1 H2 E.
  - reflexivity.
  - exfalso. rewrite join_cons in E. inversion H2 as [|? ? [Hne _] _]; subst.
    destruct x'; [contradiction|discriminate].
  - exfalso. rewrite join_cons in E. inversion H1 as [|? ? [Hne _] _]; subst.
    destruct x; [contradiction|discriminate].
  - rewrite !join_cons in E.
    inversion H1 as [|? ? [_ Hx] H1']; subst.
    inversion H2 as [|? ? [_ Hx'] H2']; subst.
    apply app_comma_inj in E as [-> E]; auto.
    + f_equal. destruct l1 as [|y l1], l2 as [|y' l2]; try discriminate; [reflexivity|].
      injection E as E. apply IH; auto.
    + destruct l1; [now left|right; eauto].
    + destruct l2; [now left|right; eauto].
Qed.

Lemma currentKeyOf_inj (S S' : JSSet) :
  S <> [] -> S' <> [] ->
  (forall x, In x S -> clean x) -> (forall x, In x S' -> clean x) ->
  currentKeyOf S = currentKeyOf S' ->
  forall x, In x S <-> In x S'.
Proof.
  assert (K : forall T : JSSet, T <> [] -> (forall x, In x T -> clean x) ->
                                Forall clean (sort T) /\ currentKeyOf T = keyOf T).
  { intros T Hne Hc.
    assert (F : Forall clean (sort T)).
    { apply Forall_forall. intros x Hx. apply Hc. now apply sort_In. }
    split; [exact F|]. unfold currentKeyOf, keyOf.
    pose proof (sort_length T) as Hl.
    destruct (sort T) as [|y l]; [destruct T; [contradiction|discriminate]|].
    rewrite join_cons. inversion F as [|? ? [Hy _] _]; subst.
    destruct y; [contradiction|reflexivity]. }
  intros Hne Hne' Hc Hc' E x.
  destruct (K S Hne Hc) as [F E1]. destruct (K S' Hne' Hc') as [F' E2].
  rewrite E1, E2 in E. apply join_inj in E; auto.
  rewrite <- (sort_In x S), <- (sort_In x S'), E. reflexivity.
Qed.

(** *** The returned DFA follows the subsets of the NFA *)

Section Simulation.

Variable ts : list Transition.
Variable al : list jstring.
Variable reps : list JSSet.
Variable dts : list Transition.

Hypothesis reps_clean : forall S, In S reps -> S <> [] /\ forall x, In x S -> clean x.
Hypothesis ts_clean : forall t, In t ts -> clean (to t).
Hypothesis reps_closed : forall i S a,
    nth_error reps i = Some S -> In a al -> nextSetOf ts S a <> [] ->
    exists j S',
      nth_error reps j = Some S' /\ currentKeyOf S' = currentKeyOf (nextSetOf ts S a).
Hypothesis dts_spec : forall tr,
    In tr dts <->
    exists i S j S',
      nth_error reps i = Some S /\ nth_error reps j = Some S' /\
      In (symbol tr) al /\ from tr = q_ i /\ to tr = q_ j /\
      nextSetOf ts S (symbol tr) <> [] /\
      currentKeyOf S' = currentKeyOf (nextSetOf ts S (symbol tr)).

Lemma walk_subsets (syms : list jstring) :
  forall i S,
    nth_error reps i = Some S ->
    match walk dts (q_ i) syms with
    | Some c =>
      exists j S',
        nth_error reps j = Some S' /\ c = q_ j /\
        forall r, In r S' <-> exists s, In s S /\ nfaPath ts al s syms r
    | None => forall s r, In s S -> ~ nfaPath ts al s syms r
    end.
Proof.
  induction syms as [|a syms IH]; intros i S HS; simpl.
  - exists i, S. split; [exact HS|]. split; [reflexivity|].
    intro r. split.
    + intro Hr. exists r. split; [exact Hr|constructor].
    + intros (s & Hs & Hp). inversion Hp; subst. exact Hs.
  - destruct (find (isEdge (q_ i) a) dts) as [tr|] eqn:Ef.
    + apply find_some in Ef as [Hin He]. apply isEdge_true in He as [Hfrom Hsym].
      apply dts_spec in Hin as (i' & S0 & j & S' & HS0 & HS' & Ha & Hf & Ht & Hne & E).
      rewrite Hfrom in Hf. apply q_inj in Hf. subst i'.
      assert (S0 = S) as -> by (unfold JSSet in *; congruence).
      rewrite Hsym in *. rewrite Ht.
      specialize (IH j S' HS').
      assert (Hmem : forall x, In x S' <-> In x (nextSetOf ts S a)).
      { destruct (reps_clean S') as [HneS' HcS']; [eapply nth_error_In; eauto|].
        apply currentKeyOf_inj; auto.
        intros x Hx. eapply nextSetOf_clean; eauto. }
      assert (Hstep : forall r,
                 (exists s', In s' S' /\ nfaPath ts al s' syms r) <->
                 (exists s, In s S /\ nfaPath ts al s (a :: syms) r)).
      { intro r. split.
        - intros (s' & Hs' & Hp). apply Hmem, nextSetOf_In in Hs'
            as (s & t & Hs & Hint & Hft & Hst & Htt).
          exists s. split; [exact Hs|].
          apply (nfaPath_cons ts al s a syms t r); auto. now rewrite Htt.
        - intros (s & Hs & Hp). inversion Hp as [|? ? ? t ? _ Hint Hft Hst Hp']; subst.
          exists (to t). split; [|exact Hp'].
          apply Hmem, nextSetOf_In. exists (from t), t. auto. }
      destruct (walk dts (q_ j) syms) as [c|].
      * destruct IH as (j' & S'' & HS'' & -> & Hr).
        exists j', S''. split; [exact HS''|]. split; [reflexivity|].
        intro r. rewrite Hr. apply Hstep.
      * intros s r Hs Hp.
        assert (Hex : exists s, In s S /\ nfaPath ts al s (a :: syms) r) by eauto.
        apply Hstep in Hex as (s' & Hs' & Hp'). exact (IH s' r Hs' Hp').
    + intros s r Hs Hp.
      inversion Hp as [|? ? ? t ? Ha Hint Hft Hst Hp']; subst.
      set (N := nextSetOf ts S (symbol t)).
      assert (HN : In (to t) N).
      { apply nextSetOf_In. exists (from t), t. auto. }
      assert (Hne : N <> []) by (intro E; rewrite E in HN; exact HN).
      (* the subset construction has registered N *)
      assert (Hdt : exists tr, In tr dts /\ from tr = q_ i /\ symbol tr = symbol t).
      { destruct (reps_closed i S (symbol t) HS Ha Hne) as (j & S' & HS' & E).
        exists {| from := q_ i; to := q_ j; symbol := symbol t |}.
        split; [|auto]. apply dts_spec. exists i, S, j, S'. simpl. auto 10. }
      destruct Hdt as (tr & Hin & Hf & Hsy).
      apply (find_none _ _ Ef) in Hin.
      assert (isEdge (q_ i) (symbol t) tr = true) by (apply isEdge_true; auto).
      congruence.
Qed.

End Simulation.

Lemma find_subsetState (objs : list State) (reps : list JSSet) (j : nat) :
  forall m c,
    c <= j < c + m ->
    find (fun s => str_eqb (id s) (q_ j)) (map (subsetState objs reps) (seq c m))
    = Some (subsetState objs reps j).
Proof.
  induction m as [|m IH]; intros c Hc; [lia|].
  cbn [seq map find subsetState id].
  destruct (Nat.eq_dec c j) as [->|Hne].
  - now rewrite str_eqb_refl.
  - assert (E : str_eqb (q_ c) (q_ j) = false).
    { apply str_eqb_false. intro E. apply q_inj in E. contradiction. }
    rewrite E. apply IH. lia.
Qed.

Lemma someAccept_true (objs : list State) (S : JSSet) :
  someAccept objs S = true <->
  exists o, In o objs /\ In (id o) S /\ isAccept o = true.
Proof.
  unfold someAccept. rewrite existsb_exists. split.
  - intros (o & Ho & E). apply andb_true_iff in E as [E1 E2].
    apply Set_has_In in E1. eauto.
  - intros (o & Ho & Hin & Ha). exists o. split; [exact Ho|].
    apply andb_true_iff. split; [now apply Set_has_In|exact Ha].
Qed.

(** X11: for an input, all states allocated, whose start state has a
    non-empty id, [nfaToDFA] returns given enough fuel, and the states it
    returns are named [q0], [q1], ... in order, without gaps, there is at
    least one, and the first one, and no other, is marked start. *)
Theorem nfaToDFA_states (h : Heap) (nfa : Automaton) (objs : list State) (s0 : State) :
  view h nfa = Some objs ->
  find isStart objs = Some s0 ->
  id s0 <> [] ->
  (exists fuel dfa h', nfaToDFA fuel nfa h = Some (dfa, h')) /\
  (forall fuel dfa h',
      nfaToDFA fuel nfa h = Some (dfa, h') ->
      exists objs' n,
        view h' dfa = Some objs' /\
        map id objs' = map q_ (seq 0 (S n)) /\
        map isStart objs' = true :: repeat false n).
Proof.
  intros Hv Hs0 Hid. split; [eapply nfaToDFA_Some; eauto|].
  intros fuel dfa h' H.
  destruct (nfaToDFA_subsets fuel h nfa objs s0 dfa h' Hv Hs0 Hid H)
    as (reps & Hstart & _ & _ & Hview & _).
  destruct reps as [|S0 reps]; [discriminate|].
  exists (map (subsetState objs (S0 :: reps)) (seq 0 (length (S0 :: reps)))), (length reps).
  split; [exact Hview|]. rewrite !map_map. split; [reflexivity|].
  cbn [length seq map subsetState isStart Nat.eqb]. f_equal.
  assert (G : forall n c, map (fun x => x =? 0) (seq (S c) n) = repeat false n).
  { induction n as [|n IH]; intro c; [reflexivity|].
    cbn [seq map repeat Nat.eqb]. f_equal. apply IH. }
  apply G.
Qed.

Lemma nfaToDFA_states_witness :
  exists dfa h' objs' n,
    nfaToDFA 3
      {| states := [0; 1];
         transitions := [{| from := lit "p"; to := lit "p"; symbol := lit "a" |};
                         {| from := lit "p"; to := lit "r"; symbol := lit "a" |}];
         alphabet := [lit "a"] |}
      [{| id := lit "p"; isStart := true; isAccept := false |};
       {| id := lit "r"; isStart := false; isAccept := true |}]
    = Some (dfa, h') /\
    view h' dfa = Some objs' /\
    map id objs' = map q_ (seq 0 (S n)) /\
    map isStart objs' = true :: repeat false n.
Proof.
  assert (E : exists dfa h',
             nfaToDFA 3
               {| states := [0; 1];
                  transitions := [{| from := lit "p"; to := lit "p"; symbol := lit "a" |};
                                  {| from := lit "p"; to := lit "r"; symbol := lit "a" |}];
                  alphabet := [lit "a"] |}
               [{| id := lit "p"; isStart := true; isAccept := false |};
                {| id := lit "r"; isStart := false; isAccept := true |}]
             = Some (dfa, h'))
    by (eexists _, _; vm_compute; reflexivity).
  destruct E as (dfa & h' & E).
  destruct (proj2 (nfaToDFA_states
                     [{| id := lit "p"; isStart := true; isAccept := false |};
                      {| id := lit "r"; isStart := false; isAccept := true |}]
                     {| states := [0; 1];
                        transitions :=
                          [{| from := lit "p"; to := lit "p"; symbol := lit "a" |};
                           {| from := lit "p"; to := lit "r"; symbol := lit "a" |}];
                        alphabet := [lit "a"] |}
                     [{| id := lit "p"; isStart := true; isAccept := false |};
                      {| id := lit "r"; isStart := false; isAccept := true |}]
                     {| id := lit "p"; isStart := true; isAccept := false |}
                     eq_refl eq_refl ltac:(discriminate)) 3 dfa h' E)
    as (objs' & n & Hview & Hids & Hstart).
  exists dfa, h', objs', n. auto.
Defined.

(** X12: for an input whose start state has a non-empty id, every
    transition that [nfaToDFA] returns leaves a state of the result, enters a
    state of the result and is labelled with a symbol of the alphabet. *)
Theorem nfaToDFA_transitions_between_states (fuel : nat) (h : Heap) (nfa : Automaton)
    (objs : list State) (s0 : State) (dfa : Automaton) (h' : Heap) :
  view h nfa = Some objs ->
  find isStart objs = Some s0 ->
  id s0 <> [] ->
  nfaToDFA fuel nfa h = Some (dfa, h') ->
  exists objs',
    view h' dfa = Some objs' /\
    forall tr, In tr (transitions dfa) ->
               In (from tr) (map id objs') /\
               In (to tr) (map id objs') /\
               In (symbol tr) (alphabet nfa).
Proof.
  intros Hv Hs0 Hid H.
  destruct (nfaToDFA_subsets fuel h nfa objs s0 dfa h' Hv Hs0 Hid H)
    as (reps & _ & _ & _ & Hview & _ & _ & Htr).
  eexists. split; [exact Hview|].
  assert (Hq : forall i (S : JSSet),
             nth_error reps i = Some S ->
             In (q_ i) (map id (map (subsetState objs reps) (seq 0 (length reps))))).
  { intros i S HS. rewrite map_map. apply in_map_iff. exists i. split; [reflexivity|].
    apply in_seq. split; [lia|]. simpl.
    apply (proj1 (nth_error_Some reps i)). unfold JSSet in *. congruence. }
  intros tr Hin. apply Htr in Hin as (i & S & j & S' & HS & HS' & Ha & -> & -> & _).
  split; [eapply Hq; eauto|]. split; [eapply Hq; eauto|exact Ha].
Qed.

Lemma nfaToDFA_transitions_between_states_witness :
  exists dfa h' objs',
    nfaToDFA 3
      {| states := [0; 1];
         transitions := [{| from := lit "p"; to := lit "p"; symbol := lit "a" |};
                         {| from := lit "p"; to := lit "r"; symbol := lit "a" |}];
         alphabet := [lit "a"] |}
      [{| id := lit "p"; isStart := true; isAccept := false |};
       {| id := lit "r"; isStart := false; isAccept := true |}]
    = Some (dfa, h') /\
    view h' dfa = Some objs' /\
    forall tr, In tr (transitions dfa) ->
               In (from tr) (map id objs') /\
               In (to tr) (map id objs') /\
               In (symbol tr) [lit "a"].
Proof.
  assert (E : exists dfa h',
             nfaToDFA 3
               {| states := [0; 1];
                  transitions := [{| from := lit "p"; to := lit "p"; symbol := lit "a" |};
                                  {| from := lit "p"; to := lit "r"; symbol := lit "a" |}];
                  alphabet := [lit "a"] |}
               [{| id := lit "p"; isStart := true; isAccept := false |};
                {| id := lit "r"; isStart := false; isAccept := true |}]
             = Some (dfa, h'))
    by (eexists _, _; vm_compute; reflexivity).
  destruct E as (dfa & h' & E).
  pose proof E as E0.
  eapply nfaToDFA_transitions_between_states in E0 as (objs' & Hview & Htr);
    [|reflexivity|reflexivity|discriminate].
  exists dfa, h', objs'. auto.
Defined.

(** What [validateString] answers, from the path that [walk] follows. *)
Lemma validateString_walk (dfa : Automaton) (h : Heap) (objs : list State) (o0 : State)
    (input : jstring) :
  view h dfa = Some objs ->
  find isStart objs = Some o0 ->
  validateString dfa input h
  = Some (match walk (transitions dfa) (id o0) (codePoints input) with
          | Some c => match find (fun s => str_eqb (id s) c) objs with
                      | Some f => isAccept f
                      | None => false
                      end
          | None => false
          end, h).
Proof.
  intros Hv Hf. apply view_mapM in Hv. unfold validateString, bind. rewrite Hv, Hf.
  destruct (walk (transitions dfa) (id o0) (codePoints input)) as [c|]; [|reflexivity].
  destruct (find (fun s => str_eqb (id s) c) objs); reflexivity.
Qed.

(** The path that [walk] follows in the automaton returned by [nfaToDFA]
    ends in an accept state exactly for the words the NFA accepts. *)
Lemma nfaToDFA_walk (fuel : nat) (h : Heap) (nfa : Automaton)
    (objs : list State) (s0 : State) (dfa : Automaton) (h' : Heap) :
  view h nfa = Some objs ->
  find isStart objs = Some s0 ->
  clean (id s0) ->
  (forall t, In t (transitions nfa) -> clean (to t)) ->
  nfaToDFA fuel nfa h = Some (dfa, h') ->
  exists objs' o0,
    view h' dfa = Some objs' /\ find isStart objs' = Some o0 /\
    forall syms,
      match walk (transitions dfa) (id o0) syms with
      | Some c => match find (fun s => str_eqb (id s) c) objs' with
                  | Some f => isAccept f
                  | None => false
                  end
      | None => false
      end = true <->
      nfaAccepts objs (transitions nfa) (alphabet nfa) (id s0) syms.
Proof.
  intros Hv Hs0 Hid Hts H.
  destruct (nfaToDFA_subsets fuel h nfa objs s0 dfa h' Hv Hs0 (proj1 Hid) H)
    as (reps & Hstart & Hmem & _ & Hview & _ & Hclosed & Htr).
  assert (Hclean : forall S, In S reps -> S <> [] /\ forall x, In x S -> clean x).
  { intros S HS. destruct (Hmem S HS) as [Hne Hx]. split; [exact Hne|].
    intros x Hin. destruct (Hx x Hin) as [[<-|[]]|Hto]; [exact Hid|].
    apply in_map_iff in Hto as (t & <- & Ht). auto. }
  assert (Hlen : 0 < length reps).
  { apply (proj1 (nth_error_Some reps 0)). unfold JSSet in *. congruence. }
  exists (map (subsetState objs reps) (seq 0 (length reps))), (subsetState objs reps 0).
  split; [exact Hview|].
  split; [destruct (length reps); [lia|reflexivity]|].
  intro syms. cbn [subsetState id].
  pose proof (walk_subsets (transitions nfa) (alphabet nfa) reps (transitions dfa)
                Hclean Hts Hclosed Htr syms 0 [id s0] Hstart) as Hw.
  destruct (walk (transitions dfa) (q_ 0) syms) as [c|].
  - destruct Hw as (j & S' & HS' & -> & Hr).
    assert (Hj : j < length reps).
    { apply (proj1 (nth_error_Some reps j)). unfold JSSet in *. congruence. }
    rewrite find_subsetState by lia. cbn [subsetState isAccept].
    rewrite (nth_error_nth _ _ _ HS'), someAccept_true. split.
    + intros (o & Ho & Hin & Ha). apply Hr in Hin as (s & [<-|[]] & Hp).
      exists (id o), o. auto.
    + intros (r & o & Hp & Ho & <- & Ha). exists o. split; [exact Ho|].
      split; [|exact Ha]. apply Hr. exists (id s0). split; [now left|exact Hp].
  - split; [discriminate|].
    intros (r & o & Hp & _). exfalso. apply (Hw (id s0) r); [now left|exact Hp].
Qed.

(** X13: the subset construction keeps the language.  For an input, all
    states allocated, whose start state and transition targets have ids
    that are not empty and hold no comma, [nfaToDFA] returns given enough
    fuel, and [validateString] on the automaton it returns answers true
    exactly for the inputs that the NFA accepts: those whose code points
    label a path of transitions on alphabet symbols from the start state to
    the id of an accept state. *)
Theorem nfaToDFA_accepts_same (h : Heap) (nfa : Automaton) (objs : list State)
    (s0 : State) :
  view h nfa = Some objs ->
  find isStart objs = Some s0 ->
  clean (id s0) ->
  (forall t, In t (transitions nfa) -> clean (to t)) ->
  (exists fuel dfa h', nfaToDFA fuel nfa h = Some (dfa, h')) /\
  (forall fuel dfa h' input,
      nfaToDFA fuel nfa h = Some (dfa, h') ->
      exists b,
        validateString dfa input h' = Some (b, h') /\
        (b = true <->
         nfaAccepts objs (transitions nfa) (alphabet nfa) (id s0) (codePoints input))).
Proof.
  intros Hv Hs0 Hid Hts. split; [eapply nfaToDFA_Some; eauto|].
  intros fuel dfa h' input H.
  destruct (nfaToDFA_walk fuel h nfa objs s0 dfa h' Hv Hs0 Hid Hts H)
    as (objs' & o0 & Hview & Hf & Hw).
  eexists. split; [apply (validateString_walk dfa h' objs' o0 input Hview Hf)|].
  apply Hw.
Qed.

Lemma nfaToDFA_accepts_same_witness :
  exists dfa h' b,
    nfaToDFA 3
      {| states := [0; 1];
         transitions := [{| from := lit "p"; to := lit "p"; symbol := lit "a" |};
                         {| from := lit "p"; to := lit "r"; symbol := lit "a" |}];
         alphabet := [lit "a"] |}
      [{| id := lit "p"; isStart := true; isAccept := false |};
       {| id := lit "r"; isStart := false; isAccept := true |}]
    = Some (dfa, h') /\
    validateString dfa (lit "aa") h' = Some (b, h') /\
    (b = true <->
     nfaAccepts [{| id := lit "p"; isStart := true; isAccept := false |};
                 {| id := lit "r"; isStart := false; isAccept := true |}]
                [{| from := lit "p"; to := lit "p"; symbol := lit "a" |};
                 {| from := lit "p"; to := lit "r"; symbol := lit "a" |}]
                [lit "a"] (lit "p") [lit "a"; lit "a"]).
Proof.
  assert (E : exists dfa h',
             nfaToDFA 3
               {| states := [0; 1];
                  transitions := [{| from := lit "p"; to := lit "p"; symbol := lit "a" |};
                                  {| from := lit "p"; to := lit "r"; symbol := lit "a" |}];
                  alphabet := [lit "a"] |}
               [{| id := lit "p"; isStart := true; isAccept := false |};
                {| id := lit "r"; isStart := false; isAccept := true |}]
             = Some (dfa, h'))
    by (eexists _, _; vm_compute; reflexivity).
  destruct E as (dfa & h' & E).
  destruct (proj2 (nfaToDFA_accepts_same
                     [{| id := lit "p"; isStart := true; isAccept := false |};
                      {| id := lit "r"; isStart := false; isAccept := true |}]
                     {| states := [0; 1];
                        transitions :=
                          [{| from := lit "p"; to := lit "p"; symbol := lit "a" |};
                           {| from := lit "p"; to := lit "r"; symbol := lit "a" |}];
                        alphabet := [lit "a"] |}
                     [{| id := lit "p"; isStart := true; isAccept := false |};
                      {| id := lit "r"; isStart := false; isAccept := true |}]
                     {| id := lit "p"; isStart := true; isAccept := false |}
                     eq_refl eq_refl
                     ltac:(split; [discriminate|intros [F|[]]; discriminate])
                     ltac:(intros t [<-|[<-|[]]];
                           (split; [discriminate|intros [F|[]]; discriminate])))
                  3 dfa h' (lit "aa") E)
    as (b & Hb & Hiff).
  exists dfa, h', b. auto.
Defined.

(** *** Removing the epsilon edges keeps the language *)

Lemma lambdaPath_eps (ts : list Transition) (al : list jstring) (x y r : jstring)
    (syms : list jstring) :
  epsReach ts x y -> lambdaPath ts al y syms r -> lambdaPath ts al x syms r.
Proof.
  intros Hxy Hp. inversion Hp; subst.
  - constructor. eapply epsReach_trans; eauto.
  - eapply lambdaPath_cons; eauto. eapply epsReach_trans; eauto.
Qed.

(** The result of [nfaLambdaToNFA], state by state. *)
Lemma nfaLambdaToNFA_states (h : Heap) (a : Automaton) (objs : list State) :
  view h a = Some objs ->
  NoDup (map id objs) ->
  exists nfa h' g,
    nfaLambdaToNFA a h = Some (nfa, h') /\
    view h' nfa = Some (map g objs) /\
    alphabet nfa = alphabet a /\
    (forall s, In s objs ->
               id (g s) = id s /\ isStart (g s) = isStart s /\
               (isAccept (g s) = true <->
                exists st, In st objs /\ isAccept st = true /\
                           epsReach (transitions a) (id s) (id st))) /\
    (forall t, In t (transitions nfa) <->
               exists state e,
                 In state objs /\ In e (transitions a) /\
                 from t = id state /\ In (symbol t) (alphabet a) /\
                 symbol e = symbol t /\
                 epsReach (transitions a) (id state) (from e) /\
                 epsReach (transitions a) (to e) (to t)).
Proof.
  intros Hv Hnd.
  destruct (nfaLambdaToNFA_run h a objs Hv) as (nt & g & En & Hg & E).
  destruct (buildTransitions_spec objs (transitions a) (alphabet a)) as (nt' & En' & _ & H).
  assert (nt' = nt) as -> by congruence.
  eexists _, _, g. split; [exact E|]. cbn [transitions alphabet].
  split; [|split; [reflexivity|split; [|exact H]]].
  - apply view_mapM. simpl. rewrite <- (length_map g objs). apply mapM_deref_new.
  - intros s Hs. destruct (Hg s) as (c & Ec & ->). simpl.
    split; [reflexivity|]. split; [reflexivity|].
    destruct (epsilonClosure_single (id s) (transitions a)) as (c' & Ec' & Hc).
    assert (c' = c) as -> by congruence.
    rewrite orb_true_iff. split.
    + intros [Ha|Ha].
      * exists s. split; [exact Hs|]. split; [exact Ha|constructor].
      * apply hasAcceptIn_sound in Ha as (st & Hin & Hacc & Hcl).
        exists st. split; [exact Hin|]. split; [exact Hacc|now apply Hc].
    + intros (st & Hin & Hacc & Hr). right.
      apply (hasAcceptIn_complete objs c st Hnd Hin Hacc). now apply Hc.
Qed.

Lemma epsReach_inside (ts : list Transition) (ids : list jstring) (x y : jstring) :
  (forall e, In e ts -> In (to e) ids) ->
  In x ids -> epsReach ts x y -> In y ids.
Proof.
  intros Hto Hx Hr. induction Hr; auto.
Qed.

(** The automaton returned by [nfaLambdaToNFA] and its input accept the
    same words from every state. *)
Lemma nfaLambdaToNFA_language (h : Heap) (a : Automaton) (objs : list State) :
  view h a = Some objs ->
  NoDup (map id objs) ->
  (forall e, In e (transitions a) -> In (to e) (map id objs)) ->
  exists nfa h' g,
    nfaLambdaToNFA a h = Some (nfa, h') /\
    view h' nfa = Some (map g objs) /\
    alphabet nfa = alphabet a /\
    (forall s, In s objs -> id (g s) = id s /\ isStart (g s) = isStart s) /\
    (forall t, In t (transitions nfa) -> In (to t) (map id objs)) /\
    forall s syms,
      In s (map id objs) ->
      (nfaAccepts (map g objs) (transitions nfa) (alphabet a) s syms <->
       lambdaAccepts objs (transitions a) (alphabet a) s syms).
Proof.
  intros Hv Hnd Hto.
  destruct (nfaLambdaToNFA_states h a objs Hv Hnd)
    as (nfa & h' & g & E & Hview & Hal & Hg & Htr).
  exists nfa, h', g. split; [exact E|]. split; [exact Hview|]. split; [exact Hal|].
  split; [intros s Hs; destruct (Hg s Hs) as (E1 & E2 & _); auto|].
  split.
  { intros t Ht. apply Htr in Ht as (state & e & _ & He & _ & _ & _ & _ & Hr).
    eapply epsReach_inside; eauto. }
  intros s syms Hs. split.
  - intros (r & o & Hp & Ho & Hid & Hacc). clear Hs.
    induction Hp as [s|s b syms t r Ha Ht Hf Hsym Hp IH].
    + apply in_map_iff in Ho as (s1 & <- & Hs1).
      destruct (Hg s1 Hs1) as (Eid & _ & Hiff).
      apply Hiff in Hacc as (st & Hst & Hacc & Hr).
      exists (id st), st. split; [|auto]. constructor. congruence.
    + destruct (IH Hid) as (r' & o' & Hp' & Ho' & Hid' & Hacc').
      apply Htr in Ht as (state & e & Hstate & He & Hfrom & _ & Hsy & Hr1 & Hr2).
      exists r', o'. split; [|auto].
      apply (lambdaPath_cons _ _ s b syms e r'); auto; try congruence.
      eapply lambdaPath_eps; eauto.
  - intros (r & o & Hp & Ho & Hid & Hacc).
    induction Hp as [s r Hr|s b syms e r Ha He Hsym Hr Hp IH].
    + apply in_map_iff in Hs as (s1 & <- & Hs1).
      destruct (Hg s1 Hs1) as (Eid & _ & Hiff).
      exists (id s1), (g s1). split; [constructor|].
      split; [now apply in_map|]. split; [exact Eid|].
      apply Hiff. exists o. rewrite Hid. auto.
    + destruct (IH (Hto e He) Hid) as (r' & o' & Hp' & Ho' & Hid' & Hacc').
      apply in_map_iff in Hs as (s1 & <- & Hs1).
      exists r', o'. split; [|auto].
      apply (nfaPath_cons _ _ (id s1) b syms
               {| from := id s1; to := to e; symbol := b |} r'); auto.
      apply Htr. exists s1, e. simpl. split; [exact Hs1|]. split; [exact He|].
      split; [reflexivity|]. split; [exact Ha|]. split; [exact Hsym|].
      split; [exact Hr|constructor].
Qed.

(** X14: removing the epsilon edges keeps the language.  When the ids of
    the input states are pairwise different and every transition enters a
    state of the input, the automaton returned by [nfaLambdaToNFA] accepts
    from a state, without epsilon moves, exactly the words that the input
    accepts from that state with epsilon moves. *)
Theorem nfaLambdaToNFA_accepts_same (h : Heap) (nfaLambda : Automaton)
    (objs : list State) :
  view h nfaLambda = Some objs ->
  NoDup (map id objs) ->
  (forall e, In e (transitions nfaLambda) -> In (to e) (map id objs)) ->
  exists nfa h' objs',
    nfaLambdaToNFA nfaLambda h = Some (nfa, h') /\
    view h' nfa = Some objs' /\
    forall s syms,
      In s (map id objs) ->
      (nfaAccepts objs' (transitions nfa) (alphabet nfa) s syms <->
       lambdaAccepts objs (transitions nfaLambda) (alphabet nfaLambda) s syms).
Proof.
  intros Hv Hnd Hto.
  destruct (nfaLambdaToNFA_language h nfaLambda objs Hv Hnd Hto)
    as (nfa & h' & g & E & Hview & Hal & _ & _ & Hlang).
  exists nfa, h', (map g objs). rewrite Hal. auto.
Qed.

Lemma nfaLambdaToNFA_accepts_same_witness :
  exists nfa h' objs',
    nfaLambdaToNFA
      {| states := [0; 1];
         transitions := [{| from := lit "p"; to := lit "r"; symbol := LAMBDA |}];
         alphabet := [lit "a"] |}
      [{| id := lit "p"; isStart := true; isAccept := false |};
       {| id := lit "r"; isStart := false; isAccept := true |}]
    = Some (nfa, h') /\
    view h' nfa = Some objs' /\
    forall s syms,
      In s [lit "p"; lit "r"] ->
      (nfaAccepts objs' (transitions nfa) (alphabet nfa) s syms <->
       lambdaAccepts [{| id := lit "p"; isStart := true; isAccept := false |};
                      {| id := lit "r"; isStart := false; isAccept := true |}]
                     [{| from := lit "p"; to := lit "r"; symbol := LAMBDA |}]
                     [lit "a"] s syms).
Proof.
  apply (nfaLambdaToNFA_accepts_same
           [{| id := lit "p"; isStart := true; isAccept := false |};
            {| id := lit "r"; isStart := false; isAccept := true |}]
           {| states := [0; 1];
              transitions := [{| from := lit "p"; to := lit "r"; symbol := LAMBDA |}];
              alphabet := [lit "a"] |}
           [{| id := lit "p"; isStart := true; isAccept := false |};
            {| id := lit "r"; isStart := false; isAccept := true |}]
           eq_refl).
  - repeat constructor; simpl; intuition discriminate.
  - intros e [<-|[]]. simpl. auto.
Defined.

(** *** The pipeline on a regex keeps the language *)

Lemma digits_no_comma (u : Decimal.uint) : ~ In 44%N (digits u).
Proof.
  induction u; simpl; [intros []|..]; (intros [H|H]; [discriminate|auto]).
Qed.

Lemma clean_q (n : nat) : clean (q_ n).
Proof.
  split; [discriminate|]. unfold q_, toString. simpl.
  intros [H|H]; [discriminate|]. exact (digits_no_comma _ H).
Qed.

Lemma filter_one_find {A} (f : A -> bool) (l : list A) :
  length (filter f l) = 1 -> exists x, find f l = Some x.
Proof.
  induction l as [|y l IH]; simpl; [discriminate|].
  destruct (f y); [eauto|exact IH].
Qed.

Lemma find_isStart_map (g : State -> State) (l : list State) (s0 : State) :
  (forall s, In s l -> isStart (g s) = isStart s) ->
  find isStart l = Some s0 ->
  find isStart (map g l) = Some (g s0).
Proof.
  induction l as [|y l IH]; simpl; intros Hg H; [discriminate|].
  rewrite (Hg y (or_introl eq_refl)).
  destruct (isStart y).
  - now injection H as ->.
  - apply IH; auto.
Qed.

(** The two conversions of the page, one after the other, keep the
    language of an automaton whose ids are pairwise different, are not empty
    and hold no comma, and whose transitions enter its states. *)
Lemma conversions_accept_same (h1 : Heap) (nfaL : Automaton) (objsL : list State)
    (s0 : State) :
  view h1 nfaL = Some objsL ->
  NoDup (map id objsL) ->
  (forall e, In e (transitions nfaL) -> In (to e) (map id objsL)) ->
  (forall x, In x (map id objsL) -> clean x) ->
  find isStart objsL = Some s0 ->
  (exists fuel dfa h',
      (nfaResult <- nfaLambdaToNFA nfaL ;; nfaToDFA fuel nfaResult) h1 = Some (dfa, h')) /\
  forall fuel dfa h' input,
    (nfaResult <- nfaLambdaToNFA nfaL ;; nfaToDFA fuel nfaResult) h1 = Some (dfa, h') ->
    exists b,
      validateString dfa input h' = Some (b, h') /\
      (b = true <->
       lambdaAccepts objsL (transitions nfaL) (alphabet nfaL) (id s0) (codePoints input)).
Proof.
  intros Hv Hnd Hends Hids Hs0.
  destruct (nfaLambdaToNFA_language h1 nfaL objsL Hv Hnd Hends)
    as (nfa & h2 & g & E2 & Hv2 & Hal & Hg & Hto & Hlang).
  assert (Hin0 : In s0 objsL) by (apply find_some in Hs0; tauto).
  split.
  - destruct (nfaToDFA_Some _ _ _ Hv2) as (fuel & dfa & h' & E3).
    exists fuel, dfa, h'. unfold bind. now rewrite E2.
  - intros fuel dfa h' input H. unfold bind in H. rewrite E2 in H.
    destruct (nfaToDFA_walk fuel h2 nfa (map g objsL) (g s0) dfa h' Hv2)
      as (objs' & o0 & Hview & Hf & Hw); [| | |exact H|].
    + apply find_isStart_map; [|exact Hs0]. intros s Hs. now apply Hg.
    + rewrite (proj1 (Hg s0 Hin0)). apply Hids. now apply in_map.
    + intros t Ht. apply Hids. now apply Hto.
    + eexists. split; [apply (validateString_walk dfa h' objs' o0 input Hview Hf)|].
      rewrite Hw, Hal, (proj1 (Hg s0 Hin0)). apply Hlang. now apply in_map.
Qed.

(** X15: the DFA of the page accepts what the Thompson automaton accepts.
    For every regex, [regexToNFALambda] returns an automaton with a start
    state, the pipeline [regexToNFALambda], [nfaLambdaToNFA], [nfaToDFA]
    returns a DFA given enough fuel, and [validateString] on that DFA
    answers true exactly for the inputs whose code points the automaton of
    [regexToNFALambda] accepts from its start state, epsilon moves
    included. *)
Theorem pipeline_accepts_same (regex : jstring) (h : Heap) :
  exists nfaL h1 objsL s0,
    regexToNFALambda regex h = Some (nfaL, h1) /\
    view h1 nfaL = Some objsL /\
    find isStart objsL = Some s0 /\
    (exists fuel dfa h', pipeline fuel regex h = Some (dfa, h')) /\
    forall fuel dfa h' input,
      pipeline fuel regex h = Some (dfa, h') ->
      exists b,
        validateString dfa input h' = Some (b, h') /\
        (b = true <->
         lambdaAccepts objsL (transitions nfaL) (alphabet nfaL) (id s0)
                       (codePoints input)).
Proof.
  destruct (regexToNFALambda_run regex h)
    as (nfaL & h1 & objsL & E1 & _ & _ & _ & Hv & Hq & Hnd & Hone & _ & _ & Hends & _).
  destruct (filter_one_find _ _ Hone) as (s0 & Hs0).
  assert (Hids : forall x, In x (map id objsL) -> clean x).
  { intros x Hx. apply in_map_iff in Hx as (s & <- & Hs).
    destruct (Hq s Hs) as (n & ->). apply clean_q. }
  destruct (conversions_accept_same h1 nfaL objsL s0 Hv Hnd
              (fun e He => proj2 (Hends e He)) Hids Hs0) as [(fuel & dfa & h' & E) Hall].
  exists nfaL, h1, objsL, s0. split; [exact E1|]. split; [exact Hv|]. split; [exact Hs0|].
  split.
  - exists fuel, dfa, h'. unfold pipeline. unfold bind at 1. rewrite E1. exact E.
  - intros fuel' dfa' h'' input H. unfold pipeline in H. unfold bind at 1 in H.
    rewrite E1 in H. exact (Hall fuel' dfa' h'' input H).
Qed.

(* ================================================================== *)
(** ** The edge list parser *)

(** *** Splitting a line *)

Lemma matchComma_pos (s : jstring) (n : nat) : matchComma s = Some n -> 1 <= n.
Proof.
  unfold matchComma. destruct (skipn _ s) as [|c s']; [discriminate|].
  destruct (N.eqb c 44); [|discriminate]. intros [= <-]. lia.
Qed.

Lemma matchSeparator_pos (s : jstring) (n : nat) : matchSeparator s = Some n -> 1 <= n.
Proof.
  unfold matchSeparator. destruct (matchComma s) as [m|] eqn:E.
  - intros [= <-]. eapply matchComma_pos; eauto.
  - destruct (0 <? _) eqn:Ew; [|discriminate]. intros [= <-].
    now apply Nat.ltb_lt in Ew.
Qed.

Lemma matchSeparator_None (c : N) (s : jstring) :
  matchSeparator (c :: s) = None -> c <> 44%N /\ isSpace c = false.
Proof.
  unfold matchSeparator, matchComma. simpl takeWhile.
  destruct (isSpace c) eqn:Es.
  - simpl length. destruct (skipn _ _) as [|d s'].
    + simpl. discriminate.
    + destruct (N.eqb d 44); simpl; discriminate.
  - simpl. destruct (N.eqb c 44) eqn:Ec; [discriminate|].
    intros _. split; [|reflexivity]. intros ->. discriminate.
Qed.

Section Split.

Variable matchAt : jstring -> option nat.
Hypothesis matchAt_pos : forall s n, matchAt s = Some n -> 1 <= n.

Lemma splitLoop_Some (str : jstring) :
  forall fuel p q,
    p <= q -> q <= length str -> length str - q <= fuel ->
    (forall i, p <= i < q -> matchAt (skipn i str) = None) ->
    exists l, splitLoop matchAt str fuel p q = Some l /\ Forall (pieceOf matchAt str) l.
Proof.
  induction fuel as [|fuel IH]; intros p q Hpq Hq Hfuel Hnone; simpl.
  - destruct (q <? length str) eqn:E; [apply Nat.ltb_lt in E; lia|].
    apply Nat.ltb_ge in E. eexists. split; [reflexivity|].
    constructor; [|constructor]. exists p, (length str). split; [reflexivity|].
    split; [lia|]. intros i Hi. apply Hnone. lia.
  - destruct (q <? length str) eqn:E.
    2:{ apply Nat.ltb_ge in E. eexists. split; [reflexivity|].
        constructor; [|constructor]. exists p, (length str). split; [reflexivity|].
        split; [lia|]. intros i Hi. apply Hnone. lia. }
    apply Nat.ltb_lt in E.
    destruct (matchAt (skipn q str)) as [n|] eqn:Em.
    + pose proof (matchAt_pos _ _ Em) as Hn.
      assert (Hne : (Nat.min (q + n) (length str) =? p) = false)
        by (apply Nat.eqb_neq; lia).
      rewrite Hne.
      destruct (IH (Nat.min (q + n) (length str)) (Nat.min (q + n) (length str)))
        as (rest & Er & Hrest); try lia.
      rewrite Er. simpl. eexists. split; [reflexivity|].
      constructor; [|exact Hrest]. exists p, q. split; [reflexivity|].
      split; [lia|exact Hnone].
    + apply IH; try lia. intros i Hi.
      destruct (Nat.eq_dec i q) as [->|]; [exact Em|apply Hnone; lia].
Qed.

Lemma split_Some (str : jstring) :
  exists l, split matchAt str = Some l /\ Forall (pieceOf matchAt str) l.
Proof.
  unfold split. destruct (length str =? 0) eqn:E.
  - apply Nat.eqb_eq in E. destruct str; [|discriminate].
    destruct (matchAt []) eqn:Em.
    + exists []. split; [reflexivity|constructor].
    + exists [[]]. split; [reflexivity|]. constructor; [|constructor].
      exists 0, 0. split; [reflexivity|]. split; [simpl; lia|]. intros i Hi. lia.
  - apply splitLoop_Some; try lia; intros i Hi; lia.
Qed.

End Split.

Lemma skipn_nth_error {A} (l : list A) (i : nat) (c : A) :
  nth_error l i = Some c -> skipn i l = c :: skipn (S i) l.
Proof.
  revert i; induction l as [|x l IH]; intros [|i] H; simpl in *; try discriminate.
  - now injection H as ->.
  - now apply IH.
Qed.

Lemma In_slice (str : jstring) (a b : nat) (c : N) :
  In c (slice str a b) -> exists i, a <= i < b /\ nth_error str i = Some c.
Proof.
  unfold slice. intro H. apply In_nth_error in H as (k & Hk).
  assert (Hlt : k < b - a).
  { assert (k < length (firstn (b - a) (skipn a str)))
      by (apply nth_error_Some; congruence).
    rewrite length_firstn in H. lia. }
  rewrite nth_error_firstn in Hk.
  destruct (k <? b - a) eqn:E; [|apply Nat.ltb_ge in E; lia].
  rewrite nth_error_skipn in Hk. exists (a + k). split; [lia|exact Hk].
Qed.

(** The fields of a line hold no comma and no white space. *)
Lemma split_fields (str : jstring) :
  exists l, split matchSeparator str = Some l /\ Forall isField l.
Proof.
  destruct (split_Some matchSeparator matchSeparator_pos str) as (l & E & Hl).
  exists l. split; [exact E|]. eapply Forall_impl; [|exact Hl].
  intros f (a & b & -> & _ & Hnone) c Hc.
  apply In_slice in Hc as (i & Hi & Hn).
  apply (matchSeparator_None c (skipn (S i) str)).
  rewrite <- (skipn_nth_error _ _ _ Hn). now apply Hnone.
Qed.

(** *** Reading the transition lines *)

Lemma register_inv (h0 : Heap) (k : jstring) (b : bool) (st : Edges) (h : Heap) :
  edgesInv h0 st h -> isField k -> (b = true -> seen st = []) ->
  exists st' h',
    register k b st h = Some (st', h') /\
    edgesInv h0 st' h' /\
    edges st' = edges st /\ symbols st' = symbols st /\
    incl (map fst (seen st)) (map fst (seen st')) /\
    In k (map fst (seen st')).
Proof.
  intros (news & -> & (Hrefs & Hids & Hnd & Hf) & Hflags & Hedges & Hsn & Hsyms) Hk Hb.
  unfold register. destruct (Map_has (seen st) k) eqn:Ehas.
  - exists st, (h0 ++ news). split; [reflexivity|]. split.
    + exists news. split; [reflexivity|]. split; [unfold seenInv; auto|]. auto.
    + repeat (split; [reflexivity|]). split; [apply incl_refl|now apply Map_has_In].
  - assert (Hnk : ~ In k (map fst (seen st))).
    { intro Hin. apply Map_has_In in Hin. congruence. }
    simpl. unfold bind, alloc, ret.
    eexists _, _. split; [reflexivity|]. unfold edgesInv, seenInv. cbn [seen edges symbols].
    rewrite (Map_set_new _ _ _ Hnk), !map_app. cbn [map fst snd].
    assert (Hlen : length news = length (seen st)).
    { rewrite <- (length_map id), Hids, length_map. reflexivity. }
    split; [|split; [reflexivity|split; [reflexivity|split]]].
    + exists (news ++ [{| id := k; isStart := b; isAccept := false |}]).
      split; [now rewrite app_assoc|]. split; [|split; [|split; [|split]]].
      * split; [|split; [|split]].
        -- rewrite Hrefs, !length_app, Nat.add_1_r, seq_S. reflexivity.
        -- rewrite map_app, Hids. reflexivity.
        -- now apply NoDup_snoc.
        -- apply Forall_app. split; [exact Hf|]. constructor; [exact Hk|constructor].
      * intros i o Ho. apply nth_error_snoc_inv in Ho as [[Hi Ho]|[-> ->]]; [eauto|].
        simpl. split; [reflexivity|]. intro E. rewrite Hlen, (Hb E). reflexivity.
      * intros t Ht. destruct (Hedges t Ht) as (H1 & H2 & H3).
        split; [apply in_or_app; now left|]. split; [apply in_or_app; now left|exact H3].
      * exact Hsn.
      * exact Hsyms.
    + intros x Hx. apply in_or_app. now left.
    + apply in_or_app. right. now left.
Qed.

Lemma onLine_inv (h0 : Heap) (st : Edges) (index : nat) (line : jstring) (h : Heap) :
  edgesInv h0 st h -> (index = 0 -> seen st = []) ->
  exists st' h', onLine st (index, line) h = Some (st', h') /\ edgesInv h0 st' h'.
Proof.
  intros Hinv H0. unfold onLine.
  destruct (split_fields (trim line)) as (parts & Ep & Hparts).
  unfold bind at 1. unfold liftO. rewrite Ep.
  destruct parts as [|src [|sym [|dst rest]]];
    try (exists st, h; split; [reflexivity|exact Hinv]).
  inversion Hparts as [|? ? Hsrc Hp1]; subst.
  inversion Hp1 as [|? ? Hsymbol Hp2]; subst.
  inversion Hp2 as [|? ? Hdst _]; subst.
  destruct (register_inv h0 src ((index =? 0) && negb (Map_has (seen st) src)) st h
              Hinv Hsrc) as (st1 & h1 & E1 & Hinv1 & Ee1 & Es1 & Hincl1 & Hin1).
  { intro E. apply andb_true_iff in E as [E _]. apply Nat.eqb_eq in E. auto. }
  destruct (register_inv h0 dst false st1 h1 Hinv1 Hdst)
    as (st2 & h2 & E2 & Hinv2 & Ee2 & Es2 & Hincl2 & Hin2); [discriminate|].
  unfold bind. rewrite E1, E2. unfold ret.
  eexists _, _. split; [reflexivity|].
  destruct Hinv2 as (news & -> & Hseen & Hflags & Hedges & Hsn & Hsyms).
  exists news. cbn [seen edges symbols].
  split; [reflexivity|]. split; [exact Hseen|]. split; [exact Hflags|].
  set (isEps := str_eqb sym (lit "e") || str_eqb sym EPSILON).
  assert (Hnew : isField (if isEps then LAMBDA else sym) /\
                 (if isEps then LAMBDA else sym) <> lit "e" /\
                 (if isEps then LAMBDA else sym) <> EPSILON).
  { destruct isEps eqn:E.
    - split; [|split; discriminate].
      intros c [<-|[]]. split; [discriminate|reflexivity].
    - apply orb_false_iff in E as [Ea Eb].
      apply str_eqb_false in Ea, Eb. auto. }
  split; [|split].
  - intros t Ht. apply in_app_or in Ht as [Ht|[<-|[]]]; [auto|].
    simpl. split; [now apply Hincl2|]. split; [exact Hin2|exact Hnew].
  - destruct (negb (str_eqb sym LAMBDA) && negb isEps); [|exact Hsn].
    now apply Set_add_NoDup.
  - intro x. destruct (negb (str_eqb sym LAMBDA) && negb isEps) eqn:E.
    + apply andb_true_iff in E as [Ea Eb].
      apply negb_true_iff in Ea, Eb. apply str_eqb_false in Ea.
      rewrite Eb. rewrite Set_add_In, Hsyms. split.
      * intros [(Hx & t & Ht & Hs)| ->].
        -- split; [exact Hx|]. exists t. split; [apply in_or_app; now left|exact Hs].
        -- split; [exact Ea|]. eexists. split; [apply in_or_app; right; now left|reflexivity].
      * intros (Hx & t & Ht & Hs). apply in_app_or in Ht as [Ht|[<-|[]]].
        -- left. eauto.
        -- right. now rewrite <- Hs.
    + rewrite Hsyms. split.
      * intros (Hx & t & Ht & Hs). split; [exact Hx|].
        exists t. split; [apply in_or_app; now left|exact Hs].
      * intros (Hx & t & Ht & Hs). split; [exact Hx|].
        apply in_app_or in Ht as [Ht|[<-|[]]]; [eauto|]. exfalso.
        cbn [symbol] in Hs.
        apply andb_false_iff in E as [E|E]; apply negb_false_iff in E.
        -- apply str_eqb_eq in E. apply Hx. rewrite <- Hs, E. now destruct isEps.
        -- apply Hx. rewrite <- Hs, E. reflexivity.
Qed.

Lemma foldM_onLine_inv (h0 : Heap) (lines : list jstring) :
  forall c st h,
    edgesInv h0 st h -> (c = 0 -> seen st = []) ->
    exists st' h',
      foldM onLine (combine (seq c (length lines)) lines) st h = Some (st', h') /\
      edgesInv h0 st' h'.
Proof.
  induction lines as [|line lines IH]; intros c st h Hinv H0.
  - exists st, h. split; [reflexivity|exact Hinv].
  - destruct (onLine_inv h0 st c line h Hinv H0) as (st1 & h1 & E1 & Hinv1).
    destruct (IH (S c) st1 h1 Hinv1) as (st' & h' & E & Hinv'); [discriminate|].
    exists st', h'. split; [|exact Hinv'].
    cbn [length seq combine foldM]. unfold bind. now rewrite E1.
Qed.

(** *** Marking the start state and the accept states *)

Lemma replace_nth_app_r {A} (l1 l2 : list A) (i : nat) (x : A) :
  replace_nth (length l1 + i) x (l1 ++ l2) = l1 ++ replace_nth i x l2.
Proof.
  induction l1 as [|y l1 IH]; simpl; [reflexivity|]. now rewrite IH.
Qed.

Lemma modify_new (h0 news : Heap) (i : nat) (o : State) (f : State -> State) :
  nth_error news i = Some o ->
  modify (length h0 + i) f (h0 ++ news) = Some (tt, h0 ++ replace_nth i (f o) news).
Proof.
  intro H. unfold modify.
  rewrite nth_error_app2, Nat.add_comm, Nat.add_sub, H by lia.
  now rewrite Nat.add_comm, replace_nth_app_r.
Qed.

Lemma map_replace_nth {A B} (g : A -> B) (l : list A) (i : nat) (o x : A) :
  nth_error l i = Some o -> g x = g o -> map g (replace_nth i x l) = map g l.
Proof.
  revert i; induction l as [|y l IH]; intros [|i] H E; simpl in *; try discriminate.
  - injection H as ->. now rewrite E.
  - f_equal. now apply IH.
Qed.

Lemma marked_replace (keys : list jstring) (news : list State) (i : nat) (o : State) :
  marked keys news -> nth_error news i = Some o ->
  marked keys (replace_nth i (set_isAccept true o) news).
Proof.
  intros [Hids Hstart] Ho. split.
  - rewrite (map_replace_nth id news i o); auto.
  - intros j o' Hj. rewrite nth_error_replace_nth in Hj.
    destruct ((j =? i) && (i <? length news)) eqn:E; [|auto].
    apply andb_true_iff in E as [E _]. apply Nat.eqb_eq in E. subst j.
    injection Hj as <-. simpl. auto.
Qed.

Lemma Map_get_seen (h0 : Heap) (seen : JSMap ref) (news : list State) (k : jstring)
    (r : ref) :
  seenInv h0 seen news -> Map_get seen k = Some r ->
  exists i, r = length h0 + i /\ i < length news.
Proof.
  intros (Hrefs & _) H. unfold Map_get in H.
  destruct (find _ seen) as [kv|] eqn:E; [|discriminate].
  injection H as <-. apply find_some in E as [Hin _].
  apply (in_map snd) in Hin. rewrite Hrefs in Hin. apply in_seq in Hin.
  exists (snd kv - length h0). lia.
Qed.

Lemma onDirective_marked (h0 : Heap) (seen : JSMap ref) (keys : list jstring)
    (line : jstring) :
  forall news,
    seenInv h0 seen news -> marked keys news ->
    exists news',
      onDirective seen line (h0 ++ news) = Some (tt, h0 ++ news') /\
      length news' = length news /\ marked keys news' /\
      (forall i o, nth_error news i = Some o -> isAccept o = true ->
                   exists o', nth_error news' i = Some o' /\ isAccept o' = true).
Proof.
  intros news Hseen Hm. unfold onDirective.
  destruct (match matchDirective (lit "accept:") line with
            | Some c => Some c
            | None => matchDirective (lit "final:") line
            end) as [listed|].
  2:{ exists news. split; [reflexivity|]. split; [reflexivity|]. split; [exact Hm|eauto]. }
  destruct (split_Some matchComma matchComma_pos listed) as (names & En & _).
  unfold bind, liftO. rewrite En. clear En.
  revert news Hseen Hm. induction names as [|s names IH]; intros news Hseen Hm.
  - exists news. split; [reflexivity|]. split; [reflexivity|]. split; [exact Hm|eauto].
  - cbn [foldM]. unfold bind.
    destruct (Map_get seen (trim s)) as [r|] eqn:Eg.
    + destruct (Map_get_seen h0 seen news _ r Hseen Eg) as (i & -> & Hi).
      destruct (nth_error news i) as [o|] eqn:Eo;
        [|apply nth_error_None in Eo; lia].
      rewrite (modify_new h0 news i o _ Eo).
      set (news1 := replace_nth i (set_isAccept true o) news).
      assert (Hl1 : length news1 = length news) by apply replace_nth_length.
      destruct (IH news1) as (news' & E & Hl & Hm' & Hacc).
      * destruct Hseen as (H1 & H2 & H3). split; [now rewrite Hl1|]. split; [|exact H3].
        unfold news1. rewrite (map_replace_nth id news i o); auto.
      * now apply marked_replace.
      * exists news'. split; [exact E|]. split; [lia|]. split; [exact Hm'|].
        intros j oj Hj Ha. destruct (Nat.eq_dec j i) as [->|Hne].
        -- apply (Hacc i (set_isAccept true o)); [|reflexivity].
           unfold news1. rewrite nth_error_replace_nth, Nat.eqb_refl.
           destruct (i <? length news) eqn:El; [reflexivity|].
           apply Nat.ltb_ge in El. lia.
        -- apply (Hacc j oj); [|exact Ha].
           unfold news1. rewrite nth_error_replace_nth.
           destruct (j =? i) eqn:Ej; [apply Nat.eqb_eq in Ej; contradiction|exact Hj].
    + unfold ret. apply IH; assumption.
Qed.

Lemma foldM_onDirective_marked (h0 : Heap) (seen : JSMap ref) (keys : list jstring)
    (lines : list jstring) :
  forall news,
    seenInv h0 seen news -> marked keys news ->
    exists news',
      foldM (fun _ line => onDirective seen line) lines tt (h0 ++ news)
      = Some (tt, h0 ++ news') /\
      length news' = length news /\ marked keys news'.
Proof.
  induction lines as [|line lines IH]; intros news Hseen Hm.
  - exists news. split; [reflexivity|]. split; [reflexivity|exact Hm].
  - destruct (onDirective_marked h0 seen keys line news Hseen Hm)
      as (news1 & E1 & Hl1 & Hm1 & _).
    destruct (IH news1) as (news' & E & Hl & Hm').
    + destruct Hseen as (H1 & H2 & H3). destruct Hm1 as [Hid1 _]. destruct Hm as [Hid _].
      split; [now rewrite Hl1|]. split; [congruence|exact H3].
    + exact Hm1.
    + exists news'. split; [|split; [lia|exact Hm']].
      cbn [foldM]. unfold bind. now rewrite E1.
Qed.

(** All that [parseEdgeList] guarantees of the automaton it returns. *)
Lemma parseEdgeList_run (input : jstring) (h0 : Heap) :
  exists a objs,
    parseEdgeList input h0 = Some (a, h0 ++ objs) /\
    states a = seq (length h0) (length objs) /\
    NoDup (map id objs) /\
    Forall isField (map id objs) /\
    (forall i o, nth_error objs i = Some o -> isStart o = (i =? 0)) /\
    (objs <> [] -> existsb isAccept objs = true) /\
    (forall t, In t (transitions a) ->
               In (from t) (map id objs) /\ In (to t) (map id objs) /\
               isField (symbol t) /\ symbol t <> lit "e" /\ symbol t <> EPSILON) /\
    NoDup (alphabet a) /\
    (forall x, In x (alphabet a) <->
               x <> LAMBDA /\ exists t, In t (transitions a) /\ symbol t = x).
Proof.
  unfold parseEdgeList.
  set (lines := filter (fun l => 0 <? length (trim l)) (splitLines (trim input) [])).
  destruct (foldM_onLine_inv h0 lines 0 {| seen := []; edges := []; symbols := [] |} h0)
    as (st & h1 & Efold & (news & -> & Hseen & Hflags & Hedges & Hsn & Hsyms)).
  { exists []. rewrite app_nil_r. split; [reflexivity|].
    split; [repeat split; constructor|]. split; [intros [|i] o H; discriminate|].
    split; [intros t []|]. split; [constructor|].
    intro x. split; [intros []|intros (_ & t & [] & _)]. }
  { reflexivity. }
  unfold bind at 1. rewrite Efold.
  pose proof Hseen as (Hrefs & Hids & Hnd & Hf).
  (* the first state becomes the start state *)
  set (news1 := match news with
                | [] => []
                | o :: rest => set_isStart true o :: rest
                end).
  assert (E1 : (match map snd (seen st) with
                | first :: _ => modify first (set_isStart true)
                | [] => ret tt
                end) (h0 ++ news) = Some (tt, h0 ++ news1)).
  { rewrite Hrefs. destruct news as [|o rest]; [reflexivity|]. cbn [length seq].
    rewrite <- (Nat.add_0_r (length h0)) at 1.
    now rewrite (modify_new h0 (o :: rest) 0 o). }
  assert (Hl1 : length news1 = length news) by (destruct news; reflexivity).
  assert (Hid1 : map id news1 = map id news) by (destruct news; reflexivity).
  assert (Hm1 : marked (map fst (seen st)) news1).
  { split; [congruence|]. intros i o Ho. destruct news as [|o0 rest]; [now destruct i|].
    destruct i as [|i]; simpl in Ho.
    - now injection Ho as <-.
    - destruct (Hflags (S i) o Ho) as [_ Hs]. simpl.
      destruct (isStart o); [discriminate (Hs eq_refl)|reflexivity]. }
  assert (Hseen1 : seenInv h0 (seen st) news1).
  { split; [now rewrite Hl1|]. split; [congruence|]. split; assumption. }
  unfold bind at 1. rewrite E1.
  (* the accept directives *)
  destruct (foldM_onDirective_marked h0 (seen st) (map fst (seen st)) lines news1 Hseen1 Hm1)
    as (news2 & E2 & Hl2 & Hm2).
  unfold bind at 1. rewrite E2.
  assert (Hrefs2 : map snd (seen st) = seq (length h0) (length news2))
    by (rewrite Hrefs; congruence).
  unfold bind at 1. rewrite Hrefs2, mapM_deref_new.
  (* the default accept state *)
  set (news3 := if negb (existsb isAccept news2)
                then match pop news2 with
                     | Some (o, rest) => replace_nth (length rest) (set_isAccept true o) news2
                     | None => news2
                     end
                else news2).
  assert (E3 : (match pop (seq (length h0) (length news2)) with
                | Some (last, _) =>
                  if negb (existsb isAccept news2)
                  then modify last (set_isAccept true) else ret tt
                | None => ret tt
                end) (h0 ++ news2) = Some (tt, h0 ++ news3) /\
               marked (map fst (seen st)) news3 /\
               (news3 <> [] -> existsb isAccept news3 = true)).
  { unfold news3. clear news3. destruct (Nat.eq_dec (length news2) 0) as [E0|E0].
    { apply length_zero_iff_nil in E0. rewrite E0 in *. cbn.
      split; [reflexivity|]. split; [exact Hm2|]. intro H. now contradiction H. }
    destruct (pop_Some news2) as (o & rest & Ep & Erest); [lia|].
    rewrite Ep.
    assert (Ho : nth_error news2 (length rest) = Some o).
    { rewrite Erest, nth_error_app2, Nat.sub_diag by lia. reflexivity. }
    assert (Hlen : length news2 = S (length rest)).
    { rewrite Erest at 1. rewrite length_app. simpl. lia. }
    rewrite Hlen, seq_S, pop_app.
    destruct (existsb isAccept news2) eqn:Eacc; simpl negb; cbv iota.
    - split; [reflexivity|]. split; [exact Hm2|]. intros _. exact Eacc.
    - split; [now apply modify_new|]. split; [now apply marked_replace|].
      intros _. apply existsb_exists. exists (set_isAccept true o).
      split; [|reflexivity]. apply (nth_error_In _ (length rest)).
      rewrite nth_error_replace_nth, Nat.eqb_refl.
      destruct (length rest <? length news2) eqn:El; [reflexivity|].
      apply Nat.ltb_ge in El. lia. }
  destruct E3 as (E3 & Hm3 & Hacc3).
  assert (Hl3 : length news3 = length news2).
  { destruct Hm3 as [H3 _]. destruct Hm2 as [H2 _].
    rewrite <- (length_map id news3), H3, <- H2, length_map. reflexivity. }
  destruct Hm3 as [Hid3 Hstart3].
  exists {| states := seq (length h0) (length news2);
            transitions := edges st; alphabet := symbols st |}, news3.
  split.
  { unfold bind at 1.
    match goal with
    | |- match ?m with _ => _ end = _ =>
      replace m with (Some (tt, h0 ++ news3)) by (symmetry; exact E3)
    end.
    reflexivity. }
  cbn [states transitions alphabet].
  split; [now rewrite Hl3|]. split; [now rewrite Hid3|]. split; [now rewrite Hid3|].
  split; [exact Hstart3|]. split; [exact Hacc3|]. rewrite Hid3.
  split; [exact Hedges|]. split; [exact Hsn|exact Hsyms].
Qed.

(** X16: [parseEdgeList] returns for every input.  It writes to no object
    that was there before the call; the states of its result are new
    objects whose ids are pairwise different; the first state, and no
    other, is marked start; and when there is a state, some state is marked
    accept. *)
Theorem parseEdgeList_states (input : jstring) (h : Heap) :
  exists a h' objs,
    parseEdgeList input h = Some (a, h') /\
    extends h h' /\ fresh h (states a) /\
    view h' a = Some objs /\
    NoDup (map id objs) /\
    (forall i o, nth_error objs i = Some o -> isStart o = (i =? 0)) /\
    (objs <> [] -> exists o, In o objs /\ isAccept o = true).
Proof.
  destruct (parseEdgeList_run input h)
    as (a & objs & E & Hst & Hnd & _ & Hstart & Hacc & _).
  exists a, (h ++ objs), objs. split; [exact E|].
  split; [now exists objs|]. rewrite Hst.
  split; [apply fresh_seq, extends_refl|].
  split; [apply view_mapM; rewrite Hst; apply mapM_deref_new|].
  split; [exact Hnd|]. split; [exact Hstart|].
  intro Hne. apply Hacc, existsb_exists in Hne. exact Hne.
Qed.

(** X17: every transition that [parseEdgeList] returns joins ids of states
    of the result and is never labelled [e] or with the epsilon glyph, which
    are read as the epsilon marker; the alphabet lists each symbol once, and
    its symbols are exactly the labels of the transitions other than the
    epsilon marker. *)
Theorem parseEdgeList_transitions (input : jstring) (h : Heap) :
  exists a h' objs,
    parseEdgeList input h = Some (a, h') /\
    view h' a = Some objs /\
    (forall t, In t (transitions a) ->
               In (from t) (map id objs) /\ In (to t) (map id objs) /\
               symbol t <> lit "e" /\ symbol t <> EPSILON) /\
    NoDup (alphabet a) /\
    (forall x, In x (alphabet a) <->
               x <> LAMBDA /\ exists t, In t (transitions a) /\ symbol t = x).
Proof.
  destruct (parseEdgeList_run input h)
    as (a & objs & E & Hst & _ & _ & _ & _ & Hedges & Hsn & Hsyms).
  exists a, (h ++ objs), objs. split; [exact E|].
  split; [apply view_mapM; rewrite Hst; apply mapM_deref_new|].
  split; [|split; [exact Hsn|exact Hsyms]].
  intros t Ht. destruct (Hedges t Ht) as (H1 & H2 & _ & H3 & H4). auto.
Qed.

(** X18: the ids of the states and the labels of the transitions that
    [parseEdgeList] returns hold no comma and no white space. *)
Theorem parseEdgeList_fields (input : jstring) (h : Heap) :
  exists a h' objs,
    parseEdgeList input h = Some (a, h') /\
    view h' a = Some objs /\
    (forall o, In o objs -> isField (id o)) /\
    (forall t, In t (transitions a) -> isField (symbol t)).
Proof.
  destruct (parseEdgeList_run input h)
    as (a & objs & E & Hst & _ & Hf & _ & _ & Hedges & _).
  exists a, (h ++ objs), objs. split; [exact E|].
  split; [apply view_mapM; rewrite Hst; apply mapM_deref_new|]. split.
  - intros o Ho. rewrite Forall_forall in Hf. apply Hf. now apply in_map.
  - intros t Ht. destruct (Hedges t Ht) as (_ & _ & H & _). exact H.
Qed.

Lemma find_first_start (objs : list State) (s0 : State) :
  (forall i o, nth_error objs i = Some o -> isStart o = (i =? 0)) ->
  nth_error objs 0 = Some s0 ->
  find isStart objs = Some s0.
Proof.
  intros H H0. destruct objs as [|o objs]; [discriminate|].
  injection H0 as ->. simpl. now rewrite (H 0 s0 eq_refl).
Qed.

(** X19: the DFA that the page builds from an edge list accepts what the
    edge list describes.  [parseEdgeList] returns an automaton; when it has
    a state and no id is the empty string, the pipeline [parseEdgeList],
    [nfaLambdaToNFA], [nfaToDFA] returns a DFA given enough fuel, and
    [validateString] on that DFA answers true exactly for the inputs whose
    code points the parsed automaton accepts from its first state, epsilon
    moves included. *)
Theorem edgePipeline_accepts_same (edgeList : jstring) (h : Heap) :
  exists nfaL h1 objsL,
    parseEdgeList edgeList h = Some (nfaL, h1) /\
    view h1 nfaL = Some objsL /\
    forall s0,
      nth_error objsL 0 = Some s0 ->
      (forall o, In o objsL -> id o <> []) ->
      (exists fuel dfa h', edgePipeline fuel edgeList h = Some (dfa, h')) /\
      forall fuel dfa h' input,
        edgePipeline fuel edgeList h = Some (dfa, h') ->
        exists b,
          validateString dfa input h' = Some (b, h') /\
          (b = true <->
           lambdaAccepts objsL (transitions nfaL) (alphabet nfaL) (id s0)
                         (codePoints input)).
Proof.
  destruct (parseEdgeList_run edgeList h)
    as (nfaL & objsL & E1 & Hst & Hnd & Hf & Hstart & _ & Hedges & _).
  assert (Hv : view (h ++ objsL) nfaL = Some objsL).
  { apply view_mapM. rewrite Hst. apply mapM_deref_new. }
  exists nfaL, (h ++ objsL), objsL. split; [exact E1|]. split; [exact Hv|].
  intros s0 Hs0 Hne.
  assert (Hids : forall x, In x (map id objsL) -> clean x).
  { intros x Hx. split.
    - apply in_map_iff in Hx as (o & <- & Ho). now apply Hne.
    - rewrite Forall_forall in Hf. intro Hc. destruct (Hf x Hx _ Hc) as [Hc' _].
      now apply Hc'. }
  destruct (conversions_accept_same (h ++ objsL) nfaL objsL s0 Hv Hnd
              (fun e He => proj1 (proj2 (Hedges e He))) Hids
              (find_first_start objsL s0 Hstart Hs0)) as [(fuel & dfa & h' & E) Hall].
  split.
  - exists fuel, dfa, h'. unfold edgePipeline. unfold bind at 1. rewrite E1. exact E.
  - intros fuel' dfa' h'' input H. unfold edgePipeline in H. unfold bind at 1 in H.
    rewrite E1 in H. exact (Hall fuel' dfa' h'' input H).
Qed.

Lemma edgePipeline_accepts_same_witness :
  exists fuel dfa h' b,
    edgePipeline fuel (lit "q0, a, q1") [] = Some (dfa, h') /\
    validateString dfa (lit "a") h' = Some (b, h') /\
    (b = true <->
     lambdaAccepts [{| id := lit "q0"; isStart := true; isAccept := false |};
                    {| id := lit "q1"; isStart := false; isAccept := true |}]
                   [{| from := lit "q0"; to := lit "q1"; symbol := lit "a" |}]
                   [lit "a"] (lit "q0") [lit "a"]).
Proof.
  destruct (edgePipeline_accepts_same (lit "q0, a, q1") [])
    as (nfaL & h1 & objsL & E & Hv & H).
  vm_compute in E. injection E as <- <-.
  vm_compute in Hv. injection Hv as <-.
  destruct (H {| id := lit "q0"; isStart := true; isAccept := false |} eq_refl)
    as [(fuel & dfa & h' & Ep) Hall].
  { intros o [<-|[<-|[]]]; discriminate. }
  destruct (Hall fuel dfa h' (lit "a") Ep) as (b & Hb & Hiff).
  exists fuel, dfa, h', b. auto.
Defined.

(* ================================================================== *)
(** ** The language of the automaton of a regex *)

(** *** Runs *)

Lemma run_mono (ts ts' : list Transition) (x y : jstring) (w : list jstring) :
  incl ts ts' -> runs ts x w y -> runs ts' x w y.
Proof.
  intros Hi H. induction H.
  - constructor.
  - eapply runs_eps; eauto.
  - eapply runs_sym; eauto.
Qed.

Lemma run_app (ts : list Transition) (x y z : jstring) (w w' : list jstring) :
  runs ts x w y -> runs ts y w' z -> runs ts x (w ++ w') z.
Proof.
  intros H H'. induction H; simpl.
  - exact H'.
  - eapply runs_eps; eauto.
  - eapply runs_sym; eauto.
Qed.

Lemma run_one_eps (ts : list Transition) (x y : jstring) :
  In {| from := x; to := y; symbol := LAMBDA |} ts -> runs ts x [] y.
Proof.
  intro H. apply (runs_eps ts x _ [] y H); [reflexivity|reflexivity|constructor].
Qed.

Lemma run_inv (ts : list Transition) (x y : jstring) (w : list jstring) :
  runs ts x w y ->
  (w = [] /\ y = x) \/
  exists t, In t ts /\ from t = x /\
            ((symbol t = LAMBDA /\ runs ts (to t) w y) \/
             (symbol t <> LAMBDA /\
              exists w', w = symbol t :: w' /\ runs ts (to t) w' y)).
Proof.
  intro H. destruct H as [x|x t w y Ht Hf Hs H|x t w y Ht Hf Hs H].
  - now left.
  - right. exists t. auto.
  - right. exists t. split; [exact Ht|]. split; [exact Hf|]. right. eauto.
Qed.

(** From a state that no transition leaves, a run goes nowhere. *)
Lemma run_stuck (ts : list Transition) (x y : jstring) (w : list jstring) :
  (forall t, In t ts -> from t <> x) -> runs ts x w y -> w = [] /\ y = x.
Proof.
  intros Hx H. inversion H; subst; [auto| |]; exfalso; eapply Hx; eauto.
Qed.

Section Piece.

(** A piece of the transitions [ts]: the transitions [inner] stay among
    the states [Q], and a transition of [ts] that leaves a state of [Q] is
    one of [inner]. *)
Variable ts inner : list Transition.
Variable Q : jstring -> Prop.
Hypothesis inner_in : incl inner ts.
Hypothesis inner_closed : forall t, In t inner -> Q (to t).

(** A run from a piece that no transition leaves stays in the piece. *)
Lemma run_stays (x y : jstring) (w : list jstring) :
  (forall t, In t ts -> Q (from t) -> In t inner) ->
  Q x -> runs ts x w y -> runs inner x w y.
Proof.
  intros Hout Hx H. induction H as [x|x t w y Ht Hf Hs H IH|x t w y Ht Hf Hs H IH].
  - constructor.
  - subst x. pose proof (Hout t Ht Hx) as Hin.
    eapply runs_eps; eauto.
  - subst x. pose proof (Hout t Ht Hx) as Hin.
    eapply runs_sym; eauto.
Qed.

(** A run from a piece whose only way out is an epsilon edge from [a] to
    [e] goes to [a] inside the piece and on from [e]. *)
Lemma run_exit (a e x y : jstring) (w : list jstring) :
  (forall t, In t ts -> Q (from t) ->
             In t inner \/ (from t = a /\ symbol t = LAMBDA /\ to t = e)) ->
  Q x -> ~ Q y -> runs ts x w y ->
  exists w1 w2, w = w1 ++ w2 /\ runs inner x w1 a /\ runs ts e w2 y.
Proof.
  intros Hout Hx Hy H.
  induction H as [x|x t w y Ht Hf Hs H IH|x t w y Ht Hf Hs H IH].
  - contradiction.
  - subst x. destruct (Hout t Ht Hx) as [Hin|(Ha & _ & He)].
    + destruct (IH (inner_closed t Hin) Hy) as (w1 & w2 & -> & H1 & H2).
      exists w1, w2. split; [reflexivity|]. split; [|exact H2].
      eapply runs_eps; eauto.
    + exists [], w. split; [reflexivity|]. rewrite <- Ha, <- He.
      split; [constructor|exact H].
  - subst x. destruct (Hout t Ht Hx) as [Hin|(_ & Hl & _)]; [|contradiction].
    destruct (IH (inner_closed t Hin) Hy) as (w1 & w2 & -> & H1 & H2).
    exists (symbol t :: w1), w2. split; [reflexivity|]. split; [|exact H2].
    eapply runs_sym; eauto.
Qed.

End Piece.

(** Runs from [ns] to [na] with an epsilon edge back from [na] to [ns]: one
    run without the edge, then any number of them. *)
Lemma run_loop (ts : list Transition) (ns na : jstring) (w : list jstring) :
  runs (ts ++ [{| from := na; to := ns; symbol := LAMBDA |}]) ns w na <->
  exists w0 ws, w = w0 ++ concat ws /\ runs ts ns w0 na /\
                Forall (fun v => runs ts ns v na) ws.
Proof.
  set (back := {| from := na; to := ns; symbol := LAMBDA |}).
  split.
  - assert (G : forall x w y,
               runs (ts ++ [back]) x w y -> y = na ->
               exists w0 ws, w = w0 ++ concat ws /\ runs ts x w0 na /\
                             Forall (fun v => runs ts ns v na) ws).
    { clear w. intros x w y H.
      induction H as [x|x t w y Ht Hf Hs H IH|x t w y Ht Hf Hs H IH]; intros ->.
      - exists [], []. split; [reflexivity|]. split; constructor.
      - destruct (IH eq_refl) as (w0 & ws & -> & H0 & Hws).
        apply in_app_or in Ht as [Ht|[<-|[]]].
        + exists w0, ws. split; [reflexivity|]. split; [|exact Hws].
          eapply runs_eps; eauto.
        + simpl in *. subst x. exists [], (w0 :: ws). split; [reflexivity|].
          split; [constructor|]. constructor; assumption.
      - destruct (IH eq_refl) as (w0 & ws & -> & H0 & Hws).
        apply in_app_or in Ht as [Ht|[<-|[]]]; [|now contradiction Hs].
        exists (symbol t :: w0), ws. split; [reflexivity|]. split; [|exact Hws].
        eapply runs_sym; eauto. }
    intro H. exact (G ns w na H eq_refl).
  - intros (w0 & ws & -> & H0 & Hws).
    assert (Hi : incl ts (ts ++ [back])) by (intros t Ht; apply in_or_app; now left).
    apply run_app with (y := na); [eapply run_mono; eauto|].
    induction Hws as [|v ws Hv _ IH]; [constructor|]. simpl.
    apply (runs_eps _ na back); [apply in_or_app; right; now left|reflexivity|reflexivity|].
    simpl. apply run_app with (y := na); [eapply run_mono; eauto|exact IH].
Qed.

(** *** The fragments of Thompson's construction *)

Lemma idOf_inj (base r r' : nat) :
  base <= r -> base <= r' -> idOf base r = idOf base r' -> r = r'.
Proof.
  intros H H' E. apply q_inj in E. lia.
Qed.

Lemma inside_idOf (base : nat) (states : list ref) (r : ref) :
  (forall x, In x states -> base <= x) -> base <= r ->
  inside base states (idOf base r) -> In r states.
Proof.
  intros Hlow Hr (x & Hx & E). apply idOf_inj in E; auto. now subst.
Qed.

Lemma inside_app (base : nat) (l1 l2 : list ref) (x : jstring) :
  inside base (l1 ++ l2) x <-> inside base l1 x \/ inside base l2 x.
Proof.
  unfold inside. split.
  - intros (r & Hr & E). apply in_app_or in Hr as [Hr|Hr]; eauto.
  - intros [(r & Hr & E)|(r & Hr & E)]; exists r; (split; [apply in_or_app|]); auto.
Qed.

Lemma inside_In (base : nat) (states : list ref) (r : ref) :
  In r states -> inside base states (idOf base r).
Proof. intro H. now exists r. Qed.

Lemma inside_disjoint (base : nat) (l1 l2 : list ref) (x : jstring) :
  (forall r, In r l1 -> base <= r) -> (forall r, In r l2 -> base <= r) ->
  NoDup (l1 ++ l2) ->
  inside base l1 x -> inside base l2 x -> False.
Proof.
  intros H1 H2 Hnd (r1 & Hr1 & E1) (r2 & Hr2 & E2). subst x.
  apply idOf_inj in E2; auto. subst r2.
  eapply NoDup_app_disjoint; eauto.
Qed.

(** [createBasicNFA]: one edge. *)
Lemma recognises_basic (base : nat) (s a : ref) (c : jstring) :
  base <= s -> base <= a -> s <> a ->
  recognises base
    {| NFAFragment.start := s; NFAFragment.accept := a;
       NFAFragment.states := [s; a];
       NFAFragment.transitions :=
         [{| from := idOf base s; to := idOf base a; symbol := c |}] |}
    (fun w => if str_eqb c LAMBDA then w = [] else w = [c]).
Proof.
  intros Hs Ha Hne. constructor; cbn [NFAFragment.start NFAFragment.accept
                                      NFAFragment.states NFAFragment.transitions].
  - constructor; [intros [E|[]]; now apply Hne|]. constructor; [intros []|constructor].
  - intros r [<-|[<-|[]]]; assumption.
  - now left.
  - right. now left.
  - intros t [<-|[]]. simpl. split; apply inside_In; simpl; auto.
  - assert (Hstuck : forall w y,
               runs [{| from := idOf base s; to := idOf base a; symbol := c |}]
                   (idOf base a) w y -> w = [] /\ y = idOf base a).
    { intros w y. apply run_stuck. intros t [<-|[]]. simpl. intro E.
      apply idOf_inj in E; auto. }
    intro w. split.
    + intro H. apply run_inv in H
        as [[_ E]|(t & [<-|[]] & _ & [[Hsym H']|(Hsym & w' & -> & H')])]; simpl in *.
      * apply idOf_inj in E; auto. now contradiction Hne.
      * apply Hstuck in H' as [-> _]. rewrite Hsym. now rewrite str_eqb_refl.
      * apply Hstuck in H' as [-> _].
        destruct (str_eqb c LAMBDA) eqn:E; [apply str_eqb_eq in E; contradiction|reflexivity].
    + destruct (str_eqb c LAMBDA) eqn:E; intros ->.
      * apply str_eqb_eq in E. subst c. apply run_one_eps. now left.
      * apply str_eqb_false in E.
        apply (runs_sym _ _ {| from := idOf base s; to := idOf base a; symbol := c |});
          [now left|reflexivity|exact E|constructor].
Qed.

Section Two.

Variable base : nat.
Variables f1 f2 : NFAFragment.
Variables L1 L2 : list jstring -> Prop.
Hypothesis R1 : recognises base f1 L1.
Hypothesis R2 : recognises base f2 L2.
Hypothesis disjoint : NoDup (NFAFragment.states f1 ++ NFAFragment.states f2).

Let Q1 := inside base (NFAFragment.states f1).
Let Q2 := inside base (NFAFragment.states f2).

Lemma pieces_apart (x : jstring) : Q1 x -> Q2 x -> False.
Proof.
  apply inside_disjoint; [apply (rc_low _ _ _ R1)|apply (rc_low _ _ _ R2)|exact disjoint].
Qed.

(** [concatenate]: an epsilon edge from the accept of the first fragment to
    the start of the second. *)
Lemma recognises_concatenate :
  recognises base
    {| NFAFragment.start := NFAFragment.start f1;
       NFAFragment.accept := NFAFragment.accept f2;
       NFAFragment.states := NFAFragment.states f1 ++ NFAFragment.states f2;
       NFAFragment.transitions :=
         NFAFragment.transitions f1 ++ NFAFragment.transitions f2 ++
         [{| from := idOf base (NFAFragment.accept f1);
             to := idOf base (NFAFragment.start f2); symbol := LAMBDA |}] |}
    (fun w => exists w1 w2, w = w1 ++ w2 /\ L1 w1 /\ L2 w2).
Proof.
  pose proof R1 as [Hn1 Hlow1 Hs1 Ha1 He1 Hl1]. pose proof R2 as [Hn2 Hlow2 Hs2 Ha2 He2 Hl2].
  constructor; cbn [NFAFragment.start NFAFragment.accept
                    NFAFragment.states NFAFragment.transitions].
  - exact disjoint.
  - intros r Hr. apply in_app_or in Hr as [Hr|Hr]; auto.
  - apply in_or_app. now left.
  - apply in_or_app. now right.
  - intros t Ht. rewrite !inside_app.
    apply in_app_or in Ht as [Ht|Ht]; [destruct (He1 t Ht); auto|].
    apply in_app_or in Ht as [Ht|[<-|[]]]; [destruct (He2 t Ht); auto|].
    simpl. split; [left|right]; now apply inside_In.
  - set (bridge := {| from := idOf base (NFAFragment.accept f1);
                      to := idOf base (NFAFragment.start f2); symbol := LAMBDA |}).
    set (ts := NFAFragment.transitions f1 ++ NFAFragment.transitions f2 ++ [bridge]).
    assert (Hi1 : incl (NFAFragment.transitions f1) ts).
    { intros t Ht. apply in_or_app. now left. }
    assert (Hi2 : incl (NFAFragment.transitions f2) ts).
    { intros t Ht. apply in_or_app. right. apply in_or_app. now left. }
    intro w. split.
    + intro H.
      eapply (run_exit ts (NFAFragment.transitions f1) Q1
                (fun t Ht => proj2 (He1 t Ht))
                (idOf base (NFAFragment.accept f1)) (idOf base (NFAFragment.start f2)))
        in H as (w1 & w2 & -> & H1 & H2).
      2:{ intros t Ht Hq. apply in_app_or in Ht as [Ht|Ht]; [now left|].
          apply in_app_or in Ht as [Ht|[<-|[]]]; [|right; auto].
          exfalso. apply (pieces_apart (from t)); [exact Hq|apply (He2 t Ht)]. }
      2:{ now apply inside_In. }
      2:{ intro Hq. apply (pieces_apart _ Hq). now apply inside_In. }
      * exists w1, w2. split; [reflexivity|]. split; [now apply Hl1|]. apply Hl2.
        apply (run_stays ts (NFAFragment.transitions f2) Q2
                 (fun t Ht => proj2 (He2 t Ht))); [|now apply inside_In|exact H2].
        intros t Ht Hq. apply in_app_or in Ht as [Ht|Ht].
        -- exfalso. apply (pieces_apart (from t)); [apply (He1 t Ht)|exact Hq].
        -- apply in_app_or in Ht as [Ht|[<-|[]]]; [exact Ht|]. exfalso.
           apply (pieces_apart (from bridge)); [now apply inside_In|exact Hq].
    + intros (w1 & w2 & -> & H1 & H2). apply Hl1 in H1. apply Hl2 in H2.
      apply run_app with (y := idOf base (NFAFragment.accept f1));
        [exact (run_mono _ _ _ _ _ Hi1 H1)|].
      apply (runs_eps ts _ bridge);
        [apply in_or_app; right; apply in_or_app; right; now left
        |reflexivity|reflexivity|].
      exact (run_mono _ _ _ _ _ Hi2 H2).
Qed.

(** [union]: a new start with epsilon edges to both starts, a new accept
    with epsilon edges from both accepts. *)
Lemma recognises_union (s a : ref) :
  base <= s -> base <= a -> s <> a ->
  ~ In s (NFAFragment.states f1 ++ NFAFragment.states f2) ->
  ~ In a (NFAFragment.states f1 ++ NFAFragment.states f2) ->
  recognises base
    {| NFAFragment.start := s;
       NFAFragment.accept := a;
       NFAFragment.states :=
         [s] ++ NFAFragment.states f1 ++ NFAFragment.states f2 ++ [a];
       NFAFragment.transitions :=
         NFAFragment.transitions f1 ++ NFAFragment.transitions f2 ++
         [{| from := idOf base s; to := idOf base (NFAFragment.start f1); symbol := LAMBDA |};
          {| from := idOf base s; to := idOf base (NFAFragment.start f2); symbol := LAMBDA |};
          {| from := idOf base (NFAFragment.accept f1); to := idOf base a; symbol := LAMBDA |};
          {| from := idOf base (NFAFragment.accept f2); to := idOf base a; symbol := LAMBDA |}]
    |}
    (fun w => L1 w \/ L2 w).
Proof.
  intros Hs Ha Hsa Hsn Han.
  pose proof R1 as [Hn1 Hlow1 Hs1 Ha1 He1 Hl1]. pose proof R2 as [Hn2 Hlow2 Hs2 Ha2 He2 Hl2].
  assert (Hs_1 : ~ Q1 (idOf base s)).
  { intro H. apply inside_idOf in H; auto. apply Hsn, in_or_app. now left. }
  assert (Hs_2 : ~ Q2 (idOf base s)).
  { intro H. apply inside_idOf in H; auto. apply Hsn, in_or_app. now right. }
  assert (Ha_1 : ~ Q1 (idOf base a)).
  { intro H. apply inside_idOf in H; auto. apply Han, in_or_app. now left. }
  assert (Ha_2 : ~ Q2 (idOf base a)).
  { intro H. apply inside_idOf in H; auto. apply Han, in_or_app. now right. }
  constructor; cbn [NFAFragment.start NFAFragment.accept
                    NFAFragment.states NFAFragment.transitions].
  - simpl. constructor.
    + intro H. rewrite app_assoc in H. apply in_app_or in H as [H|[H|[]]]; auto.
    + rewrite app_assoc. apply NoDup_snoc; assumption.
  - intros r Hr. simpl in Hr. destruct Hr as [<-|Hr]; [exact Hs|].
    apply in_app_or in Hr as [Hr|Hr]; [now apply Hlow1|].
    apply in_app_or in Hr as [Hr|[<-|[]]]; [now apply Hlow2|exact Ha].
  - now left.
  - simpl. right. apply in_or_app. right. apply in_or_app. right. now left.
  - assert (I1 : forall x, Q1 x ->
                   inside base ([s] ++ NFAFragment.states f1 ++
                                NFAFragment.states f2 ++ [a]) x).
    { intros x H. rewrite !inside_app. right. now left. }
    assert (I2 : forall x, Q2 x ->
                   inside base ([s] ++ NFAFragment.states f1 ++
                                NFAFragment.states f2 ++ [a]) x).
    { intros x H. rewrite !inside_app. right. right. now left. }
    assert (Is : inside base ([s] ++ NFAFragment.states f1 ++
                              NFAFragment.states f2 ++ [a]) (idOf base s)).
    { apply inside_In. now left. }
    assert (Ia : inside base ([s] ++ NFAFragment.states f1 ++
                              NFAFragment.states f2 ++ [a]) (idOf base a)).
    { apply inside_In. simpl. right. apply in_or_app. right. apply in_or_app. right.
      now left. }
    intros t Ht.
    apply in_app_or in Ht as [Ht|Ht]; [destruct (He1 t Ht); auto|].
    apply in_app_or in Ht as [Ht|Ht]; [destruct (He2 t Ht); auto|].
    destruct Ht as [<-|[<-|[<-|[<-|[]]]]]; simpl; split; auto;
      first [apply I1; now apply inside_In|apply I2; now apply inside_In].
  - set (e1 := {| from := idOf base s; to := idOf base (NFAFragment.start f1);
                  symbol := LAMBDA |}).
    set (e2 := {| from := idOf base s; to := idOf base (NFAFragment.start f2);
                  symbol := LAMBDA |}).
    set (x1 := {| from := idOf base (NFAFragment.accept f1); to := idOf base a;
                  symbol := LAMBDA |}).
    set (x2 := {| from := idOf base (NFAFragment.accept f2); to := idOf base a;
                  symbol := LAMBDA |}).
    set (ts := NFAFragment.transitions f1 ++ NFAFragment.transitions f2 ++ [e1; e2; x1; x2]).
    assert (Hi1 : incl (NFAFragment.transitions f1) ts).
    { intros t Ht. apply in_or_app. now left. }
    assert (Hi2 : incl (NFAFragment.transitions f2) ts).
    { intros t Ht. apply in_or_app. right. apply in_or_app. now left. }
    assert (Hextra : forall t, In t [e1; e2; x1; x2] -> In t ts).
    { intros t Ht. apply in_or_app. right. apply in_or_app. now right. }
    assert (Hcases : forall t, In t ts ->
                 In t (NFAFragment.transitions f1) \/ In t (NFAFragment.transitions f2) \/
                 t = e1 \/ t = e2 \/ t = x1 \/ t = x2).
    { intros t Ht. apply in_app_or in Ht as [Ht|Ht]; [auto|].
      apply in_app_or in Ht as [Ht|Ht]; [auto|].
      destruct Ht as [<-|[<-|[<-|[<-|[]]]]]; auto 10. }
    assert (Hend : forall w y, runs ts (idOf base a) w y -> w = [] /\ y = idOf base a).
    { intros w y. apply run_stuck. intros t Ht E.
      destruct (Hcases t Ht) as [H|[H|[->|[->|[->| ->]]]]]; simpl in E.
      - apply Ha_1. rewrite <- E. apply (He1 t H).
      - apply Ha_2. rewrite <- E. apply (He2 t H).
      - apply idOf_inj in E; auto.
      - apply idOf_inj in E; auto.
      - apply Ha_1. rewrite <- E. now apply inside_In.
      - apply Ha_2. rewrite <- E. now apply inside_In. }
    assert (Hleft : forall w, runs ts (idOf base (NFAFragment.start f1)) w (idOf base a) ->
                              L1 w).
    { intros w H.
      eapply (run_exit ts (NFAFragment.transitions f1) Q1
                (fun t Ht => proj2 (He1 t Ht))
                (idOf base (NFAFragment.accept f1)) (idOf base a))
        in H as (w1 & w2 & -> & H1 & H2); cycle 1.
      - intros t Ht Hq.
        destruct (Hcases t Ht) as [Hin|[Hin|[->|[->|[->| ->]]]]]; simpl in Hq.
        + now left.
        + exfalso. apply (pieces_apart (from t)); [exact Hq|apply (He2 t Hin)].
        + contradiction.
        + contradiction.
        + right. auto.
        + exfalso. apply (pieces_apart _ Hq). now apply inside_In.
      - now apply inside_In.
      - exact Ha_1.
      - apply Hend in H2 as [-> _]. rewrite app_nil_r. now apply Hl1. }
    assert (Hright : forall w, runs ts (idOf base (NFAFragment.start f2)) w (idOf base a) ->
                               L2 w).
    { intros w H.
      eapply (run_exit ts (NFAFragment.transitions f2) Q2
                (fun t Ht => proj2 (He2 t Ht))
                (idOf base (NFAFragment.accept f2)) (idOf base a))
        in H as (w1 & w2 & -> & H1 & H2); cycle 1.
      - intros t Ht Hq.
        destruct (Hcases t Ht) as [Hin|[Hin|[->|[->|[->| ->]]]]]; simpl in Hq.
        + exfalso. apply (pieces_apart (from t)); [apply (He1 t Hin)|exact Hq].
        + now left.
        + contradiction.
        + contradiction.
        + exfalso. apply (pieces_apart (idOf base (NFAFragment.accept f1)));
            [now apply inside_In|exact Hq].
        + right. auto.
      - now apply inside_In.
      - exact Ha_2.
      - apply Hend in H2 as [-> _]. rewrite app_nil_r. now apply Hl2. }
    intro w. split.
    + intro H. apply run_inv in H
        as [[_ E]|(t & Ht & Hf & [[Hsym H']|(Hsym & w' & -> & H')])].
      * apply idOf_inj in E; auto. now contradiction Hsa.
      * destruct (Hcases t Ht) as [Hin|[Hin|[->|[->|[->| ->]]]]]; simpl in Hf, H'.
        -- exfalso. apply Hs_1. rewrite <- Hf. apply (He1 t Hin).
        -- exfalso. apply Hs_2. rewrite <- Hf. apply (He2 t Hin).
        -- left. now apply Hleft.
        -- right. now apply Hright.
        -- exfalso. apply Hs_1. rewrite <- Hf. now apply inside_In.
        -- exfalso. apply Hs_2. rewrite <- Hf. now apply inside_In.
      * exfalso.
        destruct (Hcases t Ht) as [Hin|[Hin|[->|[->|[->| ->]]]]]; simpl in Hf;
          try (now apply Hsym).
        -- apply Hs_1. rewrite <- Hf. apply (He1 t Hin).
        -- apply Hs_2. rewrite <- Hf. apply (He2 t Hin).
    + intros [H|H].
      * apply Hl1 in H. apply (runs_eps ts _ e1); [apply Hextra; now left|reflexivity|reflexivity|].
        rewrite <- (app_nil_r w).
        apply run_app with (y := idOf base (NFAFragment.accept f1));
          [exact (run_mono _ _ _ _ _ Hi1 H)|].
        apply run_one_eps. apply Hextra. right. right. now left.
      * apply Hl2 in H.
        apply (runs_eps ts _ e2); [apply Hextra; right; now left|reflexivity|reflexivity|].
        rewrite <- (app_nil_r w).
        apply run_app with (y := idOf base (NFAFragment.accept f2));
          [exact (run_mono _ _ _ _ _ Hi2 H)|].
        apply run_one_eps. apply Hextra. right. right. right. now left.
Qed.

End Two.

(** [kleeneStar], [kleenePlus] and [optional]: a new start and a new
    accept around the fragment, with an epsilon edge that skips it
    ([skip]), one that goes back from its accept to its start ([back]), or
    both. *)
Lemma recognises_wrap (base : nat) (f : NFAFragment) (L : list jstring -> Prop)
    (s a : ref) (skip back : bool) :
  recognises base f L ->
  base <= s -> base <= a -> s <> a ->
  ~ In s (NFAFragment.states f) -> ~ In a (NFAFragment.states f) ->
  recognises base
    {| NFAFragment.start := s;
       NFAFragment.accept := a;
       NFAFragment.states := [s] ++ NFAFragment.states f ++ [a];
       NFAFragment.transitions :=
         NFAFragment.transitions f ++
         [{| from := idOf base s; to := idOf base (NFAFragment.start f); symbol := LAMBDA |}]
         ++ (if skip
             then [{| from := idOf base s; to := idOf base a; symbol := LAMBDA |}]
             else [])
         ++ (if back
             then [{| from := idOf base (NFAFragment.accept f);
                      to := idOf base (NFAFragment.start f); symbol := LAMBDA |}]
             else [])
         ++ [{| from := idOf base (NFAFragment.accept f); to := idOf base a;
                symbol := LAMBDA |}] |}
    (fun w => (skip = true /\ w = []) \/
              exists w0 ws, w = w0 ++ concat ws /\ L w0 /\ Forall L ws /\
                            (back = true \/ ws = [])).
Proof.
  intros [Hnd Hlow Hst Hac He Hl] Hs Ha Hsa Hsn Han.
  set (Q := inside base (NFAFragment.states f)).
  assert (HsQ : ~ Q (idOf base s)) by (intro H; apply inside_idOf in H; auto).
  assert (HaQ : ~ Q (idOf base a)) by (intro H; apply inside_idOf in H; auto).
  set (e_in := {| from := idOf base s; to := idOf base (NFAFragment.start f);
                  symbol := LAMBDA |}).
  set (e_skip := {| from := idOf base s; to := idOf base a; symbol := LAMBDA |}).
  set (e_back := {| from := idOf base (NFAFragment.accept f);
                    to := idOf base (NFAFragment.start f); symbol := LAMBDA |}).
  set (e_out := {| from := idOf base (NFAFragment.accept f); to := idOf base a;
                   symbol := LAMBDA |}).
  set (ts := NFAFragment.transitions f ++ [e_in] ++ (if skip then [e_skip] else [])
             ++ (if back then [e_back] else []) ++ [e_out]).
  set (inner := NFAFragment.transitions f ++ (if back then [e_back] else [])).
  assert (Hcases : forall t, In t ts <->
               In t (NFAFragment.transitions f) \/ t = e_in \/
               (skip = true /\ t = e_skip) \/ (back = true /\ t = e_back) \/ t = e_out).
  { intro t. unfold ts. rewrite !in_app_iff. simpl.
    destruct skip, back; simpl; intuition (try discriminate; auto). }
  assert (Hinner : forall t, In t inner <->
               In t (NFAFragment.transitions f) \/ (back = true /\ t = e_back)).
  { intro t. unfold inner. rewrite in_app_iff.
    destruct back; simpl; intuition (try discriminate; auto). }
  assert (Hclosed : forall t, In t inner -> Q (to t)).
  { intros t Ht. apply Hinner in Ht as [Ht|[_ ->]]; [apply (He t Ht)|].
    now apply inside_In. }
  assert (Hincl : incl inner ts).
  { intros t Ht. apply Hcases. apply Hinner in Ht as [Ht|Ht]; auto. }
  assert (Hin : forall w,
             runs inner (idOf base (NFAFragment.start f)) w
                 (idOf base (NFAFragment.accept f)) <->
             exists w0 ws, w = w0 ++ concat ws /\ L w0 /\ Forall L ws /\
                           (back = true \/ ws = [])).
  { intro w. unfold inner, e_back. destruct back.
    - rewrite run_loop. split.
      + intros (w0 & ws & -> & H0 & Hws). exists w0, ws. split; [reflexivity|].
        split; [now apply Hl|]. split; [|now left].
        eapply Forall_impl; [|exact Hws]. intros v. apply Hl.
      + intros (w0 & ws & -> & H0 & Hws & _). exists w0, ws. split; [reflexivity|].
        split; [now apply Hl|]. eapply Forall_impl; [|exact Hws]. intros v. apply Hl.
    - rewrite app_nil_r, Hl. split.
      + intro H. exists w, []. simpl. rewrite app_nil_r. auto.
      + intros (w0 & ws & -> & H0 & _ & [E| ->]); [discriminate|].
        simpl. now rewrite app_nil_r. }
  assert (Hend : forall w y, runs ts (idOf base a) w y -> w = [] /\ y = idOf base a).
  { intros w y. apply run_stuck. intros t Ht E.
    apply Hcases in Ht as [H|[->|[[_ ->]|[[_ ->]| ->]]]]; simpl in E.
    - apply HaQ. rewrite <- E. apply (He t H).
    - apply idOf_inj in E; auto.
    - apply idOf_inj in E; auto.
    - apply HaQ. rewrite <- E. now apply inside_In.
    - apply HaQ. rewrite <- E. now apply inside_In. }
  constructor; cbn [NFAFragment.start NFAFragment.accept
                    NFAFragment.states NFAFragment.transitions].
  - simpl. constructor.
    + intro H. apply in_app_or in H as [H|[H|[]]]; auto.
    + apply NoDup_snoc; assumption.
  - intros r Hr. simpl in Hr. destruct Hr as [<-|Hr]; [exact Hs|].
    apply in_app_or in Hr as [Hr|[<-|[]]]; [now apply Hlow|exact Ha].
  - now left.
  - simpl. right. apply in_or_app. right. now left.
  - assert (I1 : forall x, Q x -> inside base ([s] ++ NFAFragment.states f ++ [a]) x).
    { intros x H. rewrite !inside_app. right. now left. }
    assert (Is : inside base ([s] ++ NFAFragment.states f ++ [a]) (idOf base s)).
    { apply inside_In. now left. }
    assert (Ia : inside base ([s] ++ NFAFragment.states f ++ [a]) (idOf base a)).
    { apply inside_In. simpl. right. apply in_or_app. right. now left. }
    fold e_in e_skip e_back e_out. fold ts. intros t Ht.
    apply Hcases in Ht as [H|[->|[[_ ->]|[[_ ->]| ->]]]]; simpl;
      [destruct (He t H); auto|..]; split; auto; apply I1; now apply inside_In.
  - fold e_in e_skip e_back e_out. fold ts. intro w. split.
    + intro H. apply run_inv in H
        as [[_ E]|(t & Ht & Hf & [[Hsym H']|(Hsym & w' & -> & H')])].
      * apply idOf_inj in E; auto. now contradiction Hsa.
      * apply Hcases in Ht as [Hin'|[->|[[Hk ->]|[[_ ->]| ->]]]]; simpl in Hf, H'.
        -- exfalso. apply HsQ. rewrite <- Hf. apply (He t Hin').
        -- right. apply Hin.
           eapply (run_exit ts inner Q Hclosed (idOf base (NFAFragment.accept f))
                     (idOf base a)) in H' as (w1 & w2 & -> & H1 & H2); cycle 1.
           ++ intros t Ht Hq.
              apply Hcases in Ht as [Hin'|[->|[[_ ->]|[[Hb ->]| ->]]]]; simpl in Hq.
              ** left. apply Hinner. now left.
              ** contradiction.
              ** contradiction.
              ** left. apply Hinner. right. auto.
              ** right. auto.
           ++ now apply inside_In.
           ++ exact HaQ.
           ++ apply Hend in H2 as [-> _]. now rewrite app_nil_r.
        -- left. apply Hend in H' as [-> _]. auto.
        -- exfalso. apply HsQ. rewrite <- Hf. now apply inside_In.
        -- exfalso. apply HsQ. rewrite <- Hf. now apply inside_In.
      * exfalso.
        apply Hcases in Ht as [Hin'|[->|[[_ ->]|[[_ ->]| ->]]]]; simpl in Hf;
          try (now apply Hsym).
        apply HsQ. rewrite <- Hf. apply (He t Hin').
    + intros [[Hk ->]|H].
      * apply run_one_eps. apply Hcases. right. right. left. auto.
      * apply Hin in H.
        apply (runs_eps ts _ e_in); [apply Hcases; auto|reflexivity|reflexivity|].
        rewrite <- (app_nil_r w).
        apply run_app with (y := idOf base (NFAFragment.accept f));
          [exact (run_mono _ _ _ _ _ Hincl H)|].
        apply run_one_eps. apply Hcases. auto 10.
Qed.

(** *** What the builder steps return *)

Lemma named_id (base : nat) (s : Builder) (r : ref) (st : State) :
  named base s -> get s r = Some st -> base <= r -> id st = idOf base r.
Proof. intros [_ H]. apply H. Qed.

Lemma createBasicNFA_shape (base : nat) (c : jstring) (s : Builder) :
  named base s ->
  exists s',
    createBasicNFA c s =
    Some ({| NFAFragment.start := length (heap s);
             NFAFragment.accept := S (length (heap s));
             NFAFragment.states := [length (heap s); S (length (heap s))];
             NFAFragment.transitions :=
               [{| from := idOf base (length (heap s));
                   to := idOf base (S (length (heap s))); symbol := c |}] |}, s') /\
    named base s' /\ length (heap s') = 2 + length (heap s).
Proof.
  intro Hn. pose proof Hn as [Hlen _]. unfold createBasicNFA. run2 base.
  rewrite (named_id base _ _ _ N0 D), (named_id base _ _ _ N0 D0) by lia.
  rewrite L. eexists. split; [reflexivity|]. split; [exact N0|lia].
Qed.

Lemma concatenate_shape (base : nat) (f1 f2 : NFAFragment) (s : Builder) :
  named base s ->
  base <= NFAFragment.accept f1 < length (heap s) ->
  base <= NFAFragment.start f2 < length (heap s) ->
  exists s',
    concatenate f1 f2 s =
    Some ({| NFAFragment.start := NFAFragment.start f1;
             NFAFragment.accept := NFAFragment.accept f2;
             NFAFragment.states := NFAFragment.states f1 ++ NFAFragment.states f2;
             NFAFragment.transitions :=
               NFAFragment.transitions f1 ++ NFAFragment.transitions f2 ++
               [{| from := idOf base (NFAFragment.accept f1);
                   to := idOf base (NFAFragment.start f2); symbol := LAMBDA |}] |}, s') /\
    named base s' /\ length (heap s') = length (heap s).
Proof.
  intros Hn H1 H2. unfold concatenate. run2 base.
  rewrite (named_id base _ _ _ N0 D), (named_id base _ _ _ N0 D0) by lia.
  eexists. split; [reflexivity|]. split; [exact N0|lia].
Qed.

Lemma union_shape (base : nat) (f1 f2 : NFAFragment) (s : Builder) :
  named base s ->
  base <= NFAFragment.start f1 < length (heap s) ->
  base <= NFAFragment.accept f1 < length (heap s) ->
  base <= NFAFragment.start f2 < length (heap s) ->
  base <= NFAFragment.accept f2 < length (heap s) ->
  exists s',
    union f1 f2 s =
    Some ({| NFAFragment.start := length (heap s);
             NFAFragment.accept := S (length (heap s));
             NFAFragment.states :=
               [length (heap s)] ++ NFAFragment.states f1 ++ NFAFragment.states f2
               ++ [S (length (heap s))];
             NFAFragment.transitions :=
               NFAFragment.transitions f1 ++ NFAFragment.transitions f2 ++
               [{| from := idOf base (length (heap s));
                   to := idOf base (NFAFragment.start f1); symbol := LAMBDA |};
                {| from := idOf base (length (heap s));
                   to := idOf base (NFAFragment.start f2); symbol := LAMBDA |};
                {| from := idOf base (NFAFragment.accept f1);
                   to := idOf base (S (length (heap s))); symbol := LAMBDA |};
                {| from := idOf base (NFAFragment.accept f2);
                   to := idOf base (S (length (heap s))); symbol := LAMBDA |}] |}, s') /\
    named base s' /\ length (heap s') = 2 + length (heap s).
Proof.
  intros Hn H1 H2 H3 H4. pose proof Hn as [Hlen _]. unfold union. run2 base.
  rewrite (named_id base _ _ _ N4 D), (named_id base _ _ _ N4 D0),
    (named_id base _ _ _ N4 D1), (named_id base _ _ _ N4 D2),
    (named_id base _ _ _ N4 D3), (named_id base _ _ _ N4 D4) by lia.
  rewrite L. eexists. split; [reflexivity|]. split; [exact N4|lia].
Qed.

Lemma wrap_shape (base : nat) (f : NFAFragment)
    (edges : State -> State -> State -> State -> list Transition) (s : Builder) :
  named base s ->
  base <= NFAFragment.start f < length (heap s) ->
  base <= NFAFragment.accept f < length (heap s) ->
  exists s' xs xa ns na,
    wrap f edges s =
    Some ({| NFAFragment.start := length (heap s);
             NFAFragment.accept := S (length (heap s));
             NFAFragment.states :=
               [length (heap s)] ++ NFAFragment.states f ++ [S (length (heap s))];
             NFAFragment.transitions :=
               NFAFragment.transitions f ++ edges xs xa ns na |}, s') /\
    id xs = idOf base (length (heap s)) /\
    id xa = idOf base (S (length (heap s))) /\
    id ns = idOf base (NFAFragment.start f) /\
    id na = idOf base (NFAFragment.accept f) /\
    named base s' /\ length (heap s') = 2 + length (heap s).
Proof.
  intros Hn H1 H2. pose proof Hn as [Hlen _]. unfold wrap. run2 base.
  rewrite L in D0 |- *. eexists _, x, x0, x1, x2. split; [reflexivity|].
  split; [apply (named_id base _ _ _ N2 D); lia|].
  split; [apply (named_id base _ _ _ N2 D0); lia|].
  split; [apply (named_id base _ _ _ N2 D1); lia|].
  split; [apply (named_id base _ _ _ N2 D2); lia|].
  split; [exact N2|lia].
Qed.

(** *** The builder steps and the expressions *)

Lemma recognises_ext (base : nat) (f : NFAFragment) (L L' : list jstring -> Prop) :
  (forall w, L w <-> L' w) -> recognises base f L -> recognises base f L'.
Proof.
  intros He [H1 H2 H3 H4 H5 H6]. constructor; auto.
  intro w. rewrite H6. apply He.
Qed.

Lemma createBasicNFA_built (base : nat) (c : jstring) (s : Builder) :
  named base s -> built base [] s (createBasicNFA c) (symbolOf c).
Proof.
  intro Hn. pose proof Hn as [Hlen _].
  destruct (createBasicNFA_shape base c s Hn) as (s' & E & Hn' & L).
  eexists _, s'. split; [exact E|]. split; [exact Hn'|]. split; [lia|].
  cbn [NFAFragment.states]. split; [|split].
  - eapply recognises_ext; [|apply recognises_basic; lia].
    intro w. unfold symbolOf. destruct (str_eqb c LAMBDA); reflexivity.
  - intros x [<-|[<-|[]]]; lia.
  - intros x [<-|[<-|[]]]; right; lia.
Qed.

Lemma fragmentOf_built (base : nat) (t : token) (r : regex) (s : Builder) :
  named base s -> tokenDenotes base t r ->
  (forall x, In x (statesOf t) -> x < length (heap s)) ->
  built base (statesOf t) s (fragmentOf t) r.
Proof.
  intros Hn Ht Ha. destruct t as [c|f]; simpl in *.
  - subst r. now apply createBasicNFA_built.
  - exists f, s. unfold ret. split; [reflexivity|]. split; [exact Hn|]. split; [lia|].
    split; [exact Ht|]. split; [exact Ha|auto].
Qed.

Lemma concatenate_built (base : nat) (f1 f2 : NFAFragment) (r1 r2 : regex) (s : Builder) :
  named base s ->
  recognises base f1 (matches r1) -> recognises base f2 (matches r2) ->
  NoDup (NFAFragment.states f1 ++ NFAFragment.states f2) ->
  (forall x, In x (NFAFragment.states f1 ++ NFAFragment.states f2) ->
             x < length (heap s)) ->
  built base (NFAFragment.states f1 ++ NFAFragment.states f2) s
        (concatenate f1 f2) (Cat r1 r2).
Proof.
  intros Hn R1 R2 Hnd Ha.
  destruct (concatenate_shape base f1 f2 s Hn) as (s' & E & Hn' & L).
  { split; [apply (rc_low _ _ _ R1), (rc_accept _ _ _ R1)|].
    apply Ha, in_or_app. left. apply (rc_accept _ _ _ R1). }
  { split; [apply (rc_low _ _ _ R2), (rc_start _ _ _ R2)|].
    apply Ha, in_or_app. right. apply (rc_start _ _ _ R2). }
  eexists _, s'. split; [exact E|]. split; [exact Hn'|]. split; [lia|].
  cbn [NFAFragment.states]. split; [|split].
  - apply recognises_concatenate; assumption.
  - intros x Hx. rewrite L. now apply Ha.
  - auto.
Qed.

Lemma union_built (base : nat) (f1 f2 : NFAFragment) (r1 r2 : regex) (s : Builder) :
  named base s ->
  recognises base f1 (matches r1) -> recognises base f2 (matches r2) ->
  NoDup (NFAFragment.states f1 ++ NFAFragment.states f2) ->
  (forall x, In x (NFAFragment.states f1 ++ NFAFragment.states f2) ->
             x < length (heap s)) ->
  built base (NFAFragment.states f1 ++ NFAFragment.states f2) s
        (union f1 f2) (Alt r1 r2).
Proof.
  intros Hn R1 R2 Hnd Ha. pose proof Hn as [Hlen _].
  assert (A1 : forall x, In x (NFAFragment.states f1) -> x < length (heap s))
    by (intros x Hx; apply Ha, in_or_app; now left).
  assert (A2 : forall x, In x (NFAFragment.states f2) -> x < length (heap s))
    by (intros x Hx; apply Ha, in_or_app; now right).
  destruct (union_shape base f1 f2 s Hn) as (s' & E & Hn' & L).
  { split; [apply (rc_low _ _ _ R1), (rc_start _ _ _ R1)|apply A1, (rc_start _ _ _ R1)]. }
  { split; [apply (rc_low _ _ _ R1), (rc_accept _ _ _ R1)|apply A1, (rc_accept _ _ _ R1)]. }
  { split; [apply (rc_low _ _ _ R2), (rc_start _ _ _ R2)|apply A2, (rc_start _ _ _ R2)]. }
  { split; [apply (rc_low _ _ _ R2), (rc_accept _ _ _ R2)|apply A2, (rc_accept _ _ _ R2)]. }
  eexists _, s'. split; [exact E|]. split; [exact Hn'|]. split; [lia|].
  cbn [NFAFragment.states]. split; [|split].
  - apply recognises_union; try assumption; try lia.
    + intro H. apply Ha in H. lia.
    + intro H. apply Ha in H. lia.
  - intros x Hx. simpl in Hx. destruct Hx as [<-|Hx]; [lia|].
    rewrite app_assoc in Hx. apply in_app_or in Hx as [Hx|[<-|[]]]; [|lia].
    apply Ha in Hx. lia.
  - intros x Hx. simpl in Hx. destruct Hx as [<-|Hx]; [right; lia|].
    rewrite app_assoc in Hx. apply in_app_or in Hx as [Hx|[<-|[]]]; [now left|right; lia].
Qed.

Lemma wrap_built (base : nat) (f : NFAFragment) (r : regex) (s : Builder)
    (skip back : bool) (edges : State -> State -> State -> State -> list Transition)
    (r' : regex) :
  (forall xs xa ns na,
      edges xs xa ns na =
      [{| from := id xs; to := id ns; symbol := LAMBDA |}]
      ++ (if skip then [{| from := id xs; to := id xa; symbol := LAMBDA |}] else [])
      ++ (if back then [{| from := id na; to := id ns; symbol := LAMBDA |}] else [])
      ++ [{| from := id na; to := id xa; symbol := LAMBDA |}]) ->
  (forall w, matches r' w <->
             (skip = true /\ w = []) \/
             exists w0 ws, w = w0 ++ concat ws /\ matches r w0 /\
                           Forall (matches r) ws /\ (back = true \/ ws = [])) ->
  named base s ->
  recognises base f (matches r) ->
  (forall x, In x (NFAFragment.states f) -> x < length (heap s)) ->
  built base (NFAFragment.states f) s (wrap f edges) r'.
Proof.
  intros Hedges Hlang Hn R Ha. pose proof Hn as [Hlen _].
  destruct (wrap_shape base f edges s Hn)
    as (s' & xs & xa & ns & na & E & Exs & Exa & Ens & Ena & Hn' & L).
  { split; [apply (rc_low _ _ _ R), (rc_start _ _ _ R)|apply Ha, (rc_start _ _ _ R)]. }
  { split; [apply (rc_low _ _ _ R), (rc_accept _ _ _ R)|apply Ha, (rc_accept _ _ _ R)]. }
  rewrite Hedges, Exs, Exa, Ens, Ena in E.
  eexists _, s'. split; [exact E|]. split; [exact Hn'|]. split; [lia|].
  cbn [NFAFragment.states]. split; [|split].
  - eapply recognises_ext; [intro w; symmetry; apply Hlang|].
    apply recognises_wrap; try assumption; try lia.
    + intro H. apply Ha in H. lia.
    + intro H. apply Ha in H. lia.
  - intros x Hx. simpl in Hx. destruct Hx as [<-|Hx]; [lia|].
    apply in_app_or in Hx as [Hx|[<-|[]]]; [|lia]. apply Ha in Hx. lia.
  - intros x Hx. simpl in Hx. destruct Hx as [<-|Hx]; [right; lia|].
    apply in_app_or in Hx as [Hx|[<-|[]]]; [now left|right; lia].
Qed.

Lemma matches_Star (r : regex) (w : list jstring) :
  matches (Star r) w <->
  (true = true /\ w = []) \/
  exists w0 ws, w = w0 ++ concat ws /\ matches r w0 /\
                Forall (matches r) ws /\ (true = true \/ ws = []).
Proof.
  simpl. split.
  - intros ([|w0 ws] & -> & H); [now left|]. right.
    inversion H; subst. exists w0, ws. auto.
  - intros [[_ ->]|(w0 & ws & -> & H0 & Hws & _)].
    + exists []. split; [reflexivity|constructor].
    + exists (w0 :: ws). split; [reflexivity|]. now constructor.
Qed.

Lemma matches_Plus (r : regex) (w : list jstring) :
  matches (Plus r) w <->
  (false = true /\ w = []) \/
  exists w0 ws, w = w0 ++ concat ws /\ matches r w0 /\
                Forall (matches r) ws /\ (true = true \/ ws = []).
Proof.
  simpl. split.
  - intros (w0 & ws & -> & H0 & Hws). right. exists w0, ws. auto.
  - intros [[E _]|(w0 & ws & -> & H0 & Hws & _)]; [discriminate|].
    exists w0, ws. auto.
Qed.

Lemma matches_Opt (r : regex) (w : list jstring) :
  matches (Opt r) w <->
  (true = true /\ w = []) \/
  exists w0 ws, w = w0 ++ concat ws /\ matches r w0 /\
                Forall (matches r) ws /\ (false = true \/ ws = []).
Proof.
  simpl. split.
  - intros [ ->|H]; [now left|]. right. exists w, []. simpl. rewrite app_nil_r. auto.
  - intros [[_ ->]|(w0 & ws & -> & H0 & _ & [E| ->])]; [now left|discriminate|].
    right. simpl. now rewrite app_nil_r.
Qed.

Lemma postfix_ops_built (base : nat) (f : NFAFragment) (r : regex) (s : Builder) :
  named base s ->
  recognises base f (matches r) ->
  (forall x, In x (NFAFragment.states f) -> x < length (heap s)) ->
  built base (NFAFragment.states f) s (kleeneStar f) (Star r) /\
  built base (NFAFragment.states f) s (kleenePlus f) (Plus r) /\
  built base (NFAFragment.states f) s (optional f) (Opt r).
Proof.
  intros Hn R Ha. split; [|split].
  - apply (wrap_built base f r s true true); auto. apply matches_Star.
  - apply (wrap_built base f r s false true); auto. apply matches_Plus.
  - apply (wrap_built base f r s true false); auto. apply matches_Opt.
Qed.

(** *** The token list *)

Lemma concatAll_step (base : nat) (acc : option NFAFragment) (racc : option regex)
    (t : token) (rt : regex) (s : Builder) :
  named base s -> tokenDenotes base t rt ->
  (forall x, In x (statesOf t) -> x < length (heap s)) ->
  accDenotes base s acc racc ->
  NoDup (accStates acc ++ statesOf t) ->
  exists f s',
    (frag <- fragmentOf t ;;
     match acc with
     | Some a => r <- concatenate a frag ;; ret (Some r)
     | None => ret (Some frag)
     end) s = Some (Some f, s') /\
    named base s' /\ length (heap s) <= length (heap s') /\
    accDenotes base s' (Some f)
               (Some (match racc with Some a => Cat a rt | None => rt end)) /\
    forall x, In x (NFAFragment.states f) ->
              In x (accStates acc ++ statesOf t) \/ length (heap s) <= x.
Proof.
  intros Hn Ht Ha Hacc Hnd.
  destruct (fragmentOf_built base t rt s Hn Ht Ha)
    as (frag & s1 & E1 & Hn1 & L1 & R1 & A1 & O1).
  unfold bind at 1. rewrite E1.
  destruct acc as [a|], racc as [ra|]; simpl in Hacc; try contradiction.
  - destruct Hacc as [Ra Aa]. simpl accStates in *.
    destruct (concatenate_built base a frag ra rt s1 Hn1 Ra R1)
      as (f & s2 & E2 & Hn2 & L2 & R2 & A2 & O2).
    { apply NoDup_app_intro; [apply (rc_nodup _ _ _ Ra)|apply (rc_nodup _ _ _ R1)|].
      intros x Hxa Hxf. destruct (O1 x Hxf) as [Hx|Hx].
      - eapply NoDup_app_disjoint; eauto.
      - apply Aa in Hxa. lia. }
    { intros x Hx. apply in_app_or in Hx as [Hx|Hx]; [apply Aa in Hx; lia|now apply A1]. }
    unfold bind. rewrite E2. unfold ret.
    exists f, s2. split; [reflexivity|]. split; [exact Hn2|]. split; [lia|].
    split; [split; assumption|].
    intros x Hx. destruct (O2 x Hx) as [Hx'|Hx']; [|right; lia].
    apply in_app_or in Hx' as [Hx'|Hx']; [left; apply in_or_app; now left|].
    destruct (O1 x Hx') as [H|H]; [left; apply in_or_app; now right|now right].
  - unfold ret. exists frag, s1. split; [reflexivity|]. split; [exact Hn1|].
    split; [exact L1|]. split; [split; assumption|]. exact O1.
Qed.

Lemma concatAll_from_built (base : nat) :
  forall tokens rs acc racc s,
    named base s -> denotes base s tokens rs ->
    accDenotes base s acc racc ->
    NoDup (accStates acc ++ owned tokens) ->
    exists r s',
      foldM (fun acc t =>
               frag <- fragmentOf t ;;
               match acc with
               | Some a => r <- concatenate a frag ;; ret (Some r)
               | None => ret (Some frag)
               end) tokens acc s = Some (r, s') /\
      named base s' /\ length (heap s) <= length (heap s') /\
      accDenotes base s' r
                 (fold_left (fun acc t => match acc with
                                          | Some a => Some (Cat a t)
                                          | None => Some t
                                          end) rs racc) /\
      forall f, r = Some f ->
                forall x, In x (NFAFragment.states f) ->
                          In x (accStates acc ++ owned tokens) \/ length (heap s) <= x.
Proof.
  induction tokens as [|t tokens IH]; intros rs acc racc s Hn (HF & Hnd & Ha) Hacc Hdis.
  - inversion HF; subst. exists acc, s. split; [reflexivity|]. split; [exact Hn|].
    split; [lia|]. split; [exact Hacc|]. intros f -> x Hx. left. simpl.
    now rewrite app_nil_r.
  - inversion HF as [|? rt ? rs' Ht HF']; subst.
    change (owned (t :: tokens)) with (statesOf t ++ owned tokens) in *.
    destruct (concatAll_step base acc racc t rt s Hn Ht)
      as (f & s1 & E1 & Hn1 & L1 & Hacc1 & O1); [| exact Hacc | |].
    { intros x Hx. apply Ha, in_or_app. now left. }
    { rewrite app_assoc in Hdis. eapply NoDup_app_remove_r; eauto. }
    pose proof Hacc1 as [R1 A1].
    destruct (IH rs' (Some f) (Some (match racc with Some a => Cat a rt | None => rt end))
                 s1 Hn1) as (r & s' & E & Hn' & L' & Hacc' & O'); [|exact Hacc1| |].
    { split; [exact HF'|]. split; [eapply NoDup_app_remove_l; eauto|].
      intros x Hx. assert (x < length (heap s)) by (apply Ha, in_or_app; now right). lia. }
    { simpl accStates. apply NoDup_app_intro.
      - apply (rc_nodup _ _ _ R1).
      - eapply NoDup_app_remove_l. eapply NoDup_app_remove_l. exact Hdis.
      - intros x Hxf Hxo. destruct (O1 x Hxf) as [Hx|Hx].
        + rewrite app_assoc in Hdis. eapply NoDup_app_disjoint; eauto.
        + assert (x < length (heap s)) by (apply Ha, in_or_app; now right). lia. }
    exists r, s'.
    split; [|split; [exact Hn'|split; [lia|split; [destruct racc; exact Hacc'|]]]].
    + cbn [foldM]. unfold bind at 1.
      match goal with
      | |- match ?m with _ => _ end = _ =>
        replace m with (Some (Some f, s1)) by (symmetry; exact E1)
      end.
      exact E.
    + intros f' -> x Hx. destruct (O' f' eq_refl x Hx) as [Hx'|Hx']; [|right; lia].
      simpl accStates in Hx'. apply in_app_or in Hx' as [Hx'|Hx'].
      * destruct (O1 x Hx') as [H|H]; [|now right]. left.
        rewrite app_assoc. apply in_or_app. now left.
      * left. apply in_or_app. right. apply in_or_app. now right.
Qed.

Lemma concatAll_built (base : nat) (tokens : list token) (rs : list regex) (s : Builder) :
  named base s -> denotes base s tokens rs ->
  exists r s',
    concatAll tokens s = Some (r, s') /\
    named base s' /\ length (heap s) <= length (heap s') /\
    accDenotes base s' r (concatAllR rs) /\
    forall f, r = Some f ->
              forall x, In x (NFAFragment.states f) ->
                        In x (owned tokens) \/ length (heap s) <= x.
Proof.
  intros Hn Hd. pose proof Hd as (_ & Hnd & _).
  exact (concatAll_from_built base tokens rs None None s Hn Hd I Hnd).
Qed.

Lemma denotes_mono (base : nat) (s s1 : Builder) (tokens : list token) (rs : list regex) :
  denotes base s tokens rs -> length (heap s) <= length (heap s1) ->
  denotes base s1 tokens rs.
Proof.
  intros (HF & Hnd & Ha) L. split; [exact HF|]. split; [exact Hnd|].
  intros x Hx. apply Ha in Hx. lia.
Qed.

Lemma denotes_snoc (base : nat) (s s1 : Builder) (tokens : list token) (rs : list regex)
    (f : NFAFragment) (r : regex) :
  denotes base s tokens rs -> length (heap s) <= length (heap s1) ->
  recognises base f (matches r) ->
  (forall x, In x (NFAFragment.states f) -> x < length (heap s1)) ->
  (forall x, In x (NFAFragment.states f) -> In x (owned tokens) -> False) ->
  denotes base s1 (tokens ++ [TFragment f]) (rs ++ [r]).
Proof.
  intros (HF & Hnd & Ha) L R A Hdis. split; [|split].
  - apply Forall2_app; [exact HF|]. constructor; [exact R|constructor].
  - rewrite owned_app, owned_single. apply NoDup_app_intro;
      [exact Hnd|apply (rc_nodup _ _ _ R)|].
    intros x H1 H2. exact (Hdis x H2 H1).
  - intros x Hx. rewrite owned_app, owned_single in Hx.
    apply in_app_or in Hx as [Hx|Hx]; [apply Ha in Hx; lia|now apply A].
Qed.

Lemma denotes_snoc_string (base : nat) (s : Builder) (tokens : list token)
    (rs : list regex) (c : jstring) :
  denotes base s tokens rs ->
  denotes base s (tokens ++ [TString c]) (rs ++ [symbolOf c]).
Proof.
  intros (HF & Hnd & Ha). split; [|split].
  - apply Forall2_app; [exact HF|]. constructor; [reflexivity|constructor].
  - rewrite owned_app. simpl. now rewrite app_nil_r.
  - intros x Hx. rewrite owned_app in Hx. simpl in Hx. rewrite app_nil_r in Hx. auto.
Qed.

Lemma postfix_built (base : nat) (op : NFAFragment -> B NFAFragment)
    (opR : regex -> regex) (tokens : list token) (rs : list regex) (s : Builder) :
  (forall f r s, named base s -> recognises base f (matches r) ->
                 (forall x, In x (NFAFragment.states f) -> x < length (heap s)) ->
                 built base (NFAFragment.states f) s (op f) (opR r)) ->
  0 < length tokens ->
  named base s -> denotes base s tokens rs ->
  exists tokens' rs' s',
    postfix op tokens s = Some (tokens', s') /\
    postfixR opR rs = Some rs' /\
    named base s' /\ length (heap s) <= length (heap s') /\
    denotes base s' tokens' rs' /\
    forall x, In x (owned tokens') -> In x (owned tokens) \/ length (heap s) <= x.
Proof.
  intros Hop Hlen Hn (HF & Hnd & Ha).
  destruct (pop_Some tokens Hlen) as (last & tokens0 & Ep & ->).
  apply Forall2_app_inv_l in HF as (rs0 & rl & HF0 & HFl & ->).
  inversion HFl as [|? rlast ? ? Hlast Hnil]; subst. inversion Hnil; subst.
  rewrite owned_app, owned_single in Hnd, Ha.
  destruct (fragmentOf_built base last rlast s Hn Hlast)
    as (f & s1 & E1 & Hn1 & L1 & R1 & A1 & O1).
  { intros x Hx. apply Ha, in_or_app. now right. }
  destruct (Hop f rlast s1 Hn1 R1 A1) as (f2 & s2 & E2 & Hn2 & L2 & R2 & A2 & O2).
  assert (Horigin : forall x, In x (NFAFragment.states f2) ->
                              In x (statesOf last) \/ length (heap s) <= x).
  { intros x Hx. destruct (O2 x Hx) as [H|H]; [|right; lia].
    destruct (O1 x H); auto. }
  exists (tokens0 ++ [TFragment f2]), (rs0 ++ [opR rlast]), s2.
  split; [|split; [|split; [exact Hn2|split; [lia|split]]]].
  - unfold postfix. rewrite Ep. unfold bind. rewrite E1, E2. reflexivity.
  - unfold postfixR. now rewrite pop_app.
  - apply (denotes_snoc base s); [|lia|exact R2|exact A2|].
    + split; [exact HF0|]. split; [eapply NoDup_app_remove_r; eauto|].
      intros x Hx. apply Ha, in_or_app. now left.
    + intros x Hx Hxo. destruct (Horigin x Hx) as [H|H].
      * eapply NoDup_app_disjoint; eauto.
      * assert (x < length (heap s)) by (apply Ha, in_or_app; now left). lia.
  - rewrite !owned_app, !owned_single. intros x Hx.
    apply in_app_or in Hx as [Hx|Hx]; [left; apply in_or_app; now left|].
    destruct (Horigin x Hx) as [H|H]; [left; apply in_or_app; now right|now right].
Qed.

(** *** The parser *)

(** A step, then a builder step on its result. *)
Lemma built_after {A} (base : nat) (xs xs1 : list ref) (s s1 : Builder)
    (m : B A) (a : A) (k : A -> B NFAFragment) (r : regex) :
  m s = Some (a, s1) ->
  length (heap s) <= length (heap s1) ->
  (forall x, In x xs1 -> In x xs \/ length (heap s) <= x) ->
  built base xs1 s1 (k a) r ->
  built base xs s (bind m k) r.
Proof.
  intros E L Hxs (f & s2 & E2 & Hn2 & L2 & R2 & A2 & O2).
  exists f, s2. unfold bind. rewrite E. split; [exact E2|]. split; [exact Hn2|].
  split; [lia|]. split; [exact R2|]. split; [exact A2|].
  intros x Hx. destruct (O2 x Hx) as [H|H]; [auto|right; lia].
Qed.

Lemma parseLoop_built (base : nat) (parse : jstring -> B NFAFragment)
    (parseR : jstring -> option regex) (expr : jstring) :
  (forall sub s, length sub < length expr -> named base s ->
                 exists r, parseR sub = Some r /\ built base [] s (parse sub) r) ->
  forall fuel tokens rs i s,
    length expr - i <= fuel ->
    named base s -> denotes base s tokens rs ->
    exists r,
      parseLoopR parseR expr fuel rs i = Some r /\
      built base (owned tokens) s (parseLoop parse expr fuel tokens i) r.
Proof.
  intro Hparse.
  assert (Hend : forall tokens rs s,
             named base s -> denotes base s tokens rs ->
             exists r,
               match concatAllR rs with Some r => Some r | None => Some Eps end = Some r /\
               built base (owned tokens) s
                     (r <- concatAll tokens ;;
                      match r with
                      | Some f => ret f
                      | None => createBasicNFA LAMBDA
                      end) r).
  { intros tokens rs s Hn Hd.
    destruct (concatAll_built base tokens rs s Hn Hd) as (l & s1 & E1 & Hn1 & L1 & Hacc & O1).
    destruct l as [f|], (concatAllR rs) as [r|]; simpl in Hacc; try contradiction.
    - exists r. split; [reflexivity|]. destruct Hacc as [R A].
      exists f, s1. unfold bind. rewrite E1. unfold ret.
      split; [reflexivity|]. split; [exact Hn1|]. split; [exact L1|].
      split; [exact R|]. split; [exact A|]. now apply O1.
    - exists Eps. split; [reflexivity|].
      apply (built_after base _ [] s s1 _ None); [exact E1|exact L1|intros x []|].
      apply (createBasicNFA_built base LAMBDA s1 Hn1). }
  induction fuel as [|fuel IH]; intros tokens rs i s Hfuel Hn Hd.
  - assert (E : (i <? length expr) = false) by (apply Nat.ltb_ge; lia).
    cbn [parseLoop parseLoopR]. rewrite E. now apply Hend.
  - cbn [parseLoop parseLoopR]. destruct (i <? length expr) eqn:Hi; [|now apply Hend].
    apply Nat.ltb_lt in Hi.
    assert (Hlen : length tokens = length rs).
    { destruct Hd as (HF & _). eapply Forall2_length; eauto. }
    assert (Hpost : forall op opR,
               (forall f r s, named base s -> recognises base f (matches r) ->
                              (forall x, In x (NFAFragment.states f) -> x < length (heap s)) ->
                              built base (NFAFragment.states f) s (op f) (opR r)) ->
               0 < length tokens ->
               exists r,
                 (tokens' <-- postfixR opR rs ;; parseLoopR parseR expr fuel tokens' (i + 1))
                 = Some r /\
                 built base (owned tokens) s
                       (tokens' <- postfix op tokens ;;
                        parseLoop parse expr fuel tokens' (i + 1)) r).
    { intros op opR Hop Hpos.
      destruct (postfix_built base op opR tokens rs s Hop Hpos Hn Hd)
        as (tokens' & rs' & s1 & E1 & ER & Hn1 & L1 & Hd1 & O1).
      destruct (IH tokens' rs' (i + 1) s1) as (r & Er & Hb); [lia|exact Hn1|exact Hd1|].
      exists r. unfold obind. rewrite ER. split; [exact Er|].
      eapply built_after; eauto. }
    destruct (str_eqb (charAt expr i) (lit "(")).
    { set (j := matchParen (skipn (i + 1) expr) 1 (i + 1)).
      assert (Hj : i + 1 <= j) by apply matchParen_ge.
      destruct (Hparse (slice expr (i + 1) (j - 1)) s) as (r1 & Er1 & Hb1).
      { pose proof (slice_length expr (i + 1) (j - 1)). lia. }
      { exact Hn. }
      destruct Hb1 as (f & s1 & E1 & Hn1 & L1 & R1 & A1 & O1).
      destruct (IH (tokens ++ [TFragment f]) (rs ++ [r1]) j s1) as (r & Er & Hb);
        [lia|exact Hn1| |].
      { apply (denotes_snoc base s); auto.
        intros x Hx Hxo. destruct (O1 x Hx) as [[]|H].
        destruct Hd as (_ & _ & Ha). apply Ha in Hxo. lia. }
      exists r. unfold obind. rewrite Er1. split; [exact Er|].
      eapply built_after; [exact E1|exact L1| |exact Hb].
      intros x Hx. rewrite owned_app, owned_single in Hx.
      apply in_app_or in Hx as [Hx|Hx]; [now left|].
      destruct (O1 x Hx) as [[]|H]. now right. }
    rewrite <- Hlen.
    destruct (str_eqb (charAt expr i) (lit "*") && (0 <? length tokens)) eqn:Estar.
    { apply andb_true_iff in Estar as [_ Hpos]. apply Nat.ltb_lt in Hpos.
      apply Hpost; [|exact Hpos]. intros. now apply postfix_ops_built. }
    destruct (str_eqb (charAt expr i) (lit "+") && (0 <? length tokens)) eqn:Eplus.
    { apply andb_true_iff in Eplus as [_ Hpos]. apply Nat.ltb_lt in Hpos.
      apply Hpost; [|exact Hpos]. intros. now apply postfix_ops_built. }
    destruct (str_eqb (charAt expr i) (lit "?") && (0 <? length tokens)) eqn:Eopt.
    { apply andb_true_iff in Eopt as [_ Hpos]. apply Nat.ltb_lt in Hpos.
      apply Hpost; [|exact Hpos]. intros. now apply postfix_ops_built. }
    destruct (str_eqb (charAt expr i) (lit "|")).
    { destruct (concatAll_built base tokens rs s Hn Hd)
        as (l & s1 & E1 & Hn1 & L1 & Hacc & O1).
      destruct (Hparse (slice expr (i + 1) (length expr)) s1) as (r2 & Er2 & Hb2).
      { pose proof (slice_length expr (i + 1) (length expr)). lia. }
      { exact Hn1. }
      destruct Hb2 as (fr & s2 & E2 & Hn2 & L2 & R2 & A2 & O2).
      unfold obind. rewrite Er2.
      destruct l as [lf|], (concatAllR rs) as [lr|]; simpl in Hacc; try contradiction.
      - destruct Hacc as [Rl Al]. exists (Alt lr r2). split; [reflexivity|].
        destruct (union_built base lf fr lr r2 s2 Hn2 Rl R2)
          as (f3 & s3 & E3 & Hn3 & L3 & R3 & A3 & O3).
        { apply NoDup_app_intro; [apply (rc_nodup _ _ _ Rl)|apply (rc_nodup _ _ _ R2)|].
          intros x Hxl Hxr. destruct (O2 x Hxr) as [[]|H]. apply Al in Hxl. lia. }
        { intros x Hx. apply in_app_or in Hx as [Hx|Hx]; [apply Al in Hx; lia|now apply A2]. }
        exists f3, s3. unfold bind. rewrite E1, E2.
        split; [exact E3|]. split; [exact Hn3|]. split; [lia|]. split; [exact R3|].
        split; [exact A3|]. intros x Hx. destruct (O3 x Hx) as [H|H]; [|right; lia].
        apply in_app_or in H as [H|H].
        + now apply (O1 lf eq_refl).
        + destruct (O2 x H) as [[]|H']. right. lia.
      - exists r2. split; [reflexivity|].
        exists fr, s2. unfold bind. rewrite E1, E2. unfold ret.
        split; [reflexivity|]. split; [exact Hn2|]. split; [lia|]. split; [exact R2|].
        split; [exact A2|]. intros x Hx. destruct (O2 x Hx) as [[]|H']. right. lia. }
    destruct (negb (str_eqb (charAt expr i) (lit " "))).
    + destruct (IH (tokens ++ [TString (charAt expr i)])
                   (rs ++ [symbolOf (charAt expr i)]) (i + 1) s)
        as (r & Er & Hb); [lia|exact Hn|now apply denotes_snoc_string|].
      exists r. split; [exact Er|].
      rewrite owned_app in Hb. simpl in Hb. now rewrite app_nil_r in Hb.
    + apply IH; [lia|exact Hn|exact Hd].
Qed.

Lemma parse_built (base : nat) (fuel : nat) :
  forall expr s,
    length expr < fuel -> named base s ->
    exists r, parseR fuel expr = Some r /\ built base [] s (parse fuel expr) r.
Proof.
  induction fuel as [|fuel IH]; intros expr s H Hn; [lia|].
  cbn [parse parseR]. destruct (length expr =? 0).
  - exists Eps. split; [reflexivity|]. apply (createBasicNFA_built base LAMBDA s Hn).
  - apply (parseLoop_built base (parse fuel) (parseR fuel) expr); [|lia|exact Hn|].
    + intros sub s1 Hsub Hn1. apply IH; [lia|exact Hn1].
    + split; [constructor|]. split; [constructor|intros x []].
Qed.

(** *** The automaton of a regex *)

Lemma epsReach_run (ts : list Transition) (x y : jstring) :
  epsReach ts x y -> forall w z, runs ts y w z -> runs ts x w z.
Proof.
  induction 1 as [|t Hr IH Ht Hs]; intros w z H; [exact H|].
  apply IH. now apply (runs_eps ts (from t) t).
Qed.

(** Over the alphabet of the labels other than the epsilon marker, the
    paths with epsilon moves are the runs. *)
Lemma lambdaPath_run (ts : list Transition) (al : list jstring) :
  (forall a, In a al <-> a <> LAMBDA /\ exists t, In t ts /\ symbol t = a) ->
  forall x w y, lambdaPath ts al x w y <-> runs ts x w y.
Proof.
  intros Hal x w y. split.
  - induction 1 as [s r Hr|s a syms e r Ha He Hsym Hr Hp IH].
    + apply (epsReach_run ts s r Hr). constructor.
    + apply (epsReach_run ts s (from e) Hr). subst a.
      apply runs_sym; auto. now apply Hal in Ha.
  - induction 1 as [x|x t w y Ht Hf Hs H IH|x t w y Ht Hf Hs H IH].
    + constructor. constructor.
    + subst x. apply (lambdaPath_eps ts al (from t) (to t)); [|exact IH].
      apply (epsReach_edge ts (from t) t); [constructor|exact Ht|exact Hs].
    + subst x. apply (lambdaPath_cons ts al (from t) (symbol t) w t y); auto.
      * apply Hal. eauto.
      * constructor.
Qed.

Lemma find_flagged (h : Heap) (p : State -> bool) (x : ref) (rs : list ref)
    (objs : list State) :
  Forall2 (fun r s => nth_error h r = Some s) rs objs ->
  (forall r s, In r rs -> nth_error h r = Some s -> p s = (r =? x)) ->
  In x rs ->
  exists st, nth_error h x = Some st /\ In st objs /\ p st = true /\
             find p objs = Some st.
Proof.
  induction 1 as [|r s rs objs Hr HF IH]; intros Hp Hx; [contradiction|].
  simpl. pose proof (Hp r s (or_introl eq_refl) Hr) as Eq.
  destruct (Nat.eqb_spec r x) as [->|Hne].
  - exists s. rewrite Eq. auto.
  - destruct Hx as [Hx|Hx]; [contradiction|].
    destruct IH as (st & Hg & Hin & Hpst & Hf); [|exact Hx|].
    + intros r' s' Hr' Hg'. apply Hp; [now right|exact Hg'].
    + exists st. rewrite Eq. auto.
Qed.

(** The automaton that [regexToNFALambda] returns accepts, from its start
    state and with epsilon moves, the words of the expression it read. *)
Lemma regexToNFALambda_denotes (input : jstring) (h : Heap) :
  exists r nfaL h1 objs s0,
    regexOf input = Some r /\
    regexToNFALambda input h = Some (nfaL, h1) /\
    view h1 nfaL = Some objs /\
    find isStart objs = Some s0 /\
    NoDup (map id objs) /\
    (forall x, In x (map id objs) -> clean x) /\
    (forall e, In e (transitions nfaL) -> In (to e) (map id objs)) /\
    forall w,
      lambdaAccepts objs (transitions nfaL) (alphabet nfaL) (id s0) w <-> matches r w.
Proof.
  destruct (regexToNFALambda_run input h)
    as (nfaL0 & h0 & objs0 & E0 & _ & _ & _ & Hv0 & Hq0 & Hnd0 & _ & _ & _ & Hends0 & _).
  set (s0 := {| stateCounter := 0; heap := h |}).
  assert (N0 : named (length h) s0).
  { split; [simpl; lia|]. intros r st Hg Hb. apply get_lt in Hg. simpl in Hg. lia. }
  destruct (parse_built (length h) (S (length input)) input s0 ltac:(lia) N0)
    as (r & Er & f & s' & E & Hn & _ & R & A & _).
  destruct (parse_assembles (length h) (S (length input)) input s0 ltac:(lia) N0)
    as (f' & s'' & E' & _ & _ & W & _).
  rewrite E in E'. injection E' as <- <-.
  destruct (objects_of_refs (heap s') (NFAFragment.states f)) as (objs & Hobjs).
  { apply Forall_forall. exact A. }
  destruct (find_flagged (heap s') isStart (NFAFragment.start f) _ _ Hobjs)
    as (st & Hgs & Hins & _ & Hfind).
  { intros x o Hx Hg. apply (wf_flags _ _ W x o Hx Hg). }
  { apply (rc_start _ _ _ R). }
  destruct (find_flagged (heap s') isAccept (NFAFragment.accept f) _ _ Hobjs)
    as (sa & Hga & Hina & Hacc & _).
  { intros x o Hx Hg. apply (wf_flags _ _ W x o Hx Hg). }
  { apply (rc_accept _ _ _ R). }
  assert (Hview : view (heap s')
                       {| states := NFAFragment.states f;
                          transitions := NFAFragment.transitions f;
                          alphabet :=
                            new_Set (filter (fun a => negb (str_eqb a LAMBDA))
                                            (map symbol (NFAFragment.transitions f))) |}
                  = Some objs).
  { apply view_mapM. now apply mapM_deref_Forall2. }
  unfold regexToNFALambda in E0. fold s0 in E0. rewrite E in E0.
  injection E0 as <- <-. rewrite Hview in Hv0. injection Hv0 as <-.
  exists r. unfold regexToNFALambda. fold s0. rewrite E.
  eexists _, _, objs, st. split; [exact Er|]. split; [reflexivity|].
  split; [exact Hview|]. split; [exact Hfind|]. split; [exact Hnd0|].
  split.
  { intros x Hx. apply in_map_iff in Hx as (o & <- & Ho).
    destruct (Hq0 o Ho) as (n & ->). apply clean_q. }
  split; [intros e He; apply (Hends0 e He)|].
  cbn [states transitions alphabet].
  assert (Eid : id st = idOf (length h) (NFAFragment.start f)).
  { apply (named_id _ s' _ _ Hn Hgs). apply (rc_low _ _ _ R), (rc_start _ _ _ R). }
  assert (Eia : id sa = idOf (length h) (NFAFragment.accept f)).
  { apply (named_id _ s' _ _ Hn Hga). apply (rc_low _ _ _ R), (rc_accept _ _ _ R). }
  intro w. rewrite <- (rc_lang _ _ _ R w), <- Eid, <- Eia.
  rewrite <- (lambdaPath_run (NFAFragment.transitions f)
                (new_Set (filter (fun a => negb (str_eqb a LAMBDA))
                                 (map symbol (NFAFragment.transitions f))))).
  - split.
    + intros (x & o & Hp & Ho & <- & Ha).
      destruct (Forall2_In_r _ _ _ _ Hobjs Ho) as (ro & Hro & Hgo).
      destruct (wf_flags _ _ W ro o Hro Hgo) as [_ Eacc]. rewrite Ha in Eacc.
      symmetry in Eacc. apply Nat.eqb_eq in Eacc. subst ro.
      unfold get in *. assert (o = sa) as -> by congruence. exact Hp.
    + intro Hp. exists (id sa), sa. auto.
  - intro a. rewrite new_Set_In, filter_In, in_map_iff, negb_true_iff, str_eqb_false.
    split.
    + intros [(t & Hs & Ht) Hne]. eauto.
    + intros (Hne & t & Ht & Hs). eauto.
Qed.

(** X20: Thompson's construction is right.  For every input,
    [regexToNFALambda] returns an automaton that accepts, from its start
    state and with epsilon moves, exactly the words of the expression that
    [parse] reads in the input: a literal reads itself, the epsilon marker
    and the empty group read the empty word, juxtaposition is concatenation,
    [|] is union, and [*], [+], [?] are repetition, repetition at least once
    and option. *)
Theorem regexToNFALambda_language (input : jstring) (h : Heap) :
  exists r nfaL h1 objs s0,
    regexOf input = Some r /\
    regexToNFALambda input h = Some (nfaL, h1) /\
    view h1 nfaL = Some objs /\
    find isStart objs = Some s0 /\
    forall w,
      lambdaAccepts objs (transitions nfaL) (alphabet nfaL) (id s0) w <-> matches r w.
Proof.
  destruct (regexToNFALambda_denotes input h)
    as (r & nfaL & h1 & objs & s0 & Er & E & Hv & Hf & _ & _ & _ & Hl).
  exists r, nfaL, h1, objs, s0. auto.
Qed.

(** *** Reading back a written expression *)

Lemma balanced_nil : balanced [].
Proof. intros d rest j _. simpl. now rewrite Nat.add_0_r. Qed.

Lemma balanced_app (p q : jstring) : balanced p -> balanced q -> balanced (p ++ q).
Proof.
  intros Hp Hq d rest j Hd. rewrite <- app_assoc, (Hp d _ j Hd), (Hq d _ _ Hd).
  rewrite length_app. f_equal. lia.
Qed.

Lemma balanced_unit (u : N) : u <> 40%N -> u <> 41%N -> balanced [u].
Proof.
  intros H1 H2 d rest j Hd. simpl.
  destruct (0 <? d) eqn:E; [|apply Nat.ltb_ge in E; lia].
  apply N.eqb_neq in H1, H2. rewrite H1, H2. reflexivity.
Qed.

Lemma balanced_group (p : jstring) : balanced p -> balanced (group p).
Proof.
  intros Hp d rest j Hd. unfold group. simpl.
  destruct (0 <? d) eqn:E; [|apply Nat.ltb_ge in E; lia].
  rewrite <- app_assoc, (Hp (d + 1)) by lia. simpl.
  destruct (0 <? d + 1) eqn:E1; [|apply Nat.ltb_ge in E1; lia].
  rewrite length_app. simpl. replace (d + 1 - 1) with d by lia. f_equal. lia.
Qed.

Lemma special_false (u : N) :
  special u = false ->
  u <> 40%N /\ u <> 41%N /\ u <> 42%N /\ u <> 43%N /\ u <> 63%N /\ u <> 124%N /\
  u <> 32%N /\ u <> 955%N.
Proof.
  unfold special. rewrite !orb_false_iff, !N.eqb_neq. tauto.
Qed.

Lemma balanced_print (e : regex) : printable e -> balanced (print e).
Proof.
  induction e as [|c|a IHa b IHb|a IHa b IHb|a IHa|a IHa|a IHa]; cbn [print printable].
  - intros _. apply balanced_group, balanced_nil.
  - intros (u & -> & Hu). apply special_false in Hu. apply balanced_unit; tauto.
  - intros [Ha Hb]. apply balanced_app; apply balanced_group; auto.
  - intros [Ha Hb]. apply balanced_app; [apply balanced_group; auto|].
    apply (balanced_app (lit "|")); [apply balanced_unit; discriminate|].
    apply balanced_group; auto.
  - intro Ha. apply balanced_app; [apply balanced_group; auto|].
    apply balanced_unit; discriminate.
  - intro Ha. apply balanced_app; [apply balanced_group; auto|].
    apply balanced_unit; discriminate.
  - intro Ha. apply balanced_app; [apply balanced_group; auto|].
    apply balanced_unit; discriminate.
Qed.

Lemma skipn_length_app {A} (pre l : list A) : skipn (length pre) (pre ++ l) = l.
Proof. induction pre; simpl; auto. Qed.

Lemma skipn_app_S {A} (pre : list A) (c : A) (l : list A) :
  skipn (length pre + 1) (pre ++ c :: l) = l.
Proof. induction pre; simpl; auto. Qed.

Lemma charAt_app (pre : jstring) (c : N) (post : jstring) :
  charAt (pre ++ c :: post) (length pre) = [c].
Proof. unfold charAt. now rewrite skipn_length_app. Qed.

Lemma group_length (p : jstring) : length (group p) = length p + 2.
Proof. unfold group. rewrite !length_app. simpl. lia. Qed.

Section Steps.

Variable parseR0 : jstring -> option regex.

(** At the end of the text. *)
Lemma loop_end (expr : jstring) (fuel : nat) (tokens : list regex) :
  parseLoopR parseR0 expr fuel tokens (length expr)
  = match concatAllR tokens with Some r => Some r | None => Some Eps end.
Proof.
  destruct fuel; simpl; now rewrite Nat.ltb_irrefl.
Qed.

(** At a group. *)
Lemma loop_group_at (pre p post : jstring) (e : regex) (fuel : nat)
    (tokens : list regex) :
  balanced p -> parseR0 p = Some e ->
  parseLoopR parseR0 (pre ++ 40%N :: p ++ 41%N :: post) (S fuel) tokens (length pre)
  = parseLoopR parseR0 (pre ++ 40%N :: p ++ 41%N :: post) fuel (tokens ++ [e])
               (length pre + 1 + length p + 1).
Proof.
  intros Hb He. set (expr := pre ++ 40%N :: p ++ 41%N :: post).
  assert (Hlt : (length pre <? length expr) = true).
  { apply Nat.ltb_lt. unfold expr. rewrite length_app. simpl. lia. }
  assert (Ec : charAt expr (length pre) = [40%N]) by apply charAt_app.
  assert (Es : skipn (length pre + 1) expr = p ++ 41%N :: post) by apply skipn_app_S.
  assert (Ej : matchParen (skipn (length pre + 1) expr) 1 (length pre + 1)
               = length pre + 1 + length p + 1).
  { rewrite Es, (Hb 1 (41%N :: post) (length pre + 1)) by lia.
    simpl. now destruct post. }
  assert (El : slice expr (length pre + 1) (length pre + 1 + length p + 1 - 1) = p).
  { unfold slice. rewrite Es.
    replace (length pre + 1 + length p + 1 - 1 - (length pre + 1)) with (length p) by lia.
    rewrite firstn_app, Nat.sub_diag, firstn_all. simpl. apply app_nil_r. }
  cbn [parseLoopR]. rewrite Hlt, Ec. simpl str_eqb. cbv iota.
  rewrite Ej, El. unfold obind. rewrite He. reflexivity.
Qed.

Lemma loop_group (pre p post : jstring) (e : regex) (fuel : nat) (tokens : list regex) :
  balanced p -> parseR0 p = Some e ->
  parseLoopR parseR0 (pre ++ group p ++ post) (S fuel) tokens (length pre)
  = parseLoopR parseR0 (pre ++ group p ++ post) fuel (tokens ++ [e])
               (length (pre ++ group p)).
Proof.
  intros Hb He.
  replace (length (pre ++ group p)) with (length pre + 1 + length p + 1)
    by (rewrite length_app, group_length; lia).
  replace (group p ++ post) with (40%N :: p ++ 41%N :: post)
    by (unfold group; simpl; now rewrite <- app_assoc).
  now apply loop_group_at.
Qed.

Lemma after_unit (pre : jstring) (c : N) (post : jstring) :
  (length pre <? length (pre ++ c :: post)) = true /\
  slice (pre ++ c :: post) (length pre + 1) (length (pre ++ c :: post)) = post.
Proof.
  split.
  - apply Nat.ltb_lt. rewrite length_app. simpl. lia.
  - unfold slice. rewrite skipn_app_S. apply firstn_all2.
    rewrite length_app. simpl. lia.
Qed.

(** At a postfix operator, after a token. *)
Lemma loop_star (pre post : jstring) (fuel : nat) (tokens : list regex) (last : regex) :
  parseLoopR parseR0 (pre ++ 42%N :: post) (S fuel) (tokens ++ [last]) (length pre)
  = parseLoopR parseR0 (pre ++ 42%N :: post) fuel (tokens ++ [Star last]) (length pre + 1).
Proof.
  cbn [parseLoopR]. rewrite (proj1 (after_unit pre _ post)), charAt_app.
  replace (0 <? length (tokens ++ [last])) with true
    by (symmetry; apply Nat.ltb_lt; rewrite length_app; simpl; lia).
  simpl. unfold postfixR. now rewrite pop_app.
Qed.

Lemma loop_plus (pre post : jstring) (fuel : nat) (tokens : list regex) (last : regex) :
  parseLoopR parseR0 (pre ++ 43%N :: post) (S fuel) (tokens ++ [last]) (length pre)
  = parseLoopR parseR0 (pre ++ 43%N :: post) fuel (tokens ++ [Plus last]) (length pre + 1).
Proof.
  cbn [parseLoopR]. rewrite (proj1 (after_unit pre _ post)), charAt_app.
  replace (0 <? length (tokens ++ [last])) with true
    by (symmetry; apply Nat.ltb_lt; rewrite length_app; simpl; lia).
  simpl. unfold postfixR. now rewrite pop_app.
Qed.

Lemma loop_opt (pre post : jstring) (fuel : nat) (tokens : list regex) (last : regex) :
  parseLoopR parseR0 (pre ++ 63%N :: post) (S fuel) (tokens ++ [last]) (length pre)
  = parseLoopR parseR0 (pre ++ 63%N :: post) fuel (tokens ++ [Opt last]) (length pre + 1).
Proof.
  cbn [parseLoopR]. rewrite (proj1 (after_unit pre _ post)), charAt_app.
  replace (0 <? length (tokens ++ [last])) with true
    by (symmetry; apply Nat.ltb_lt; rewrite length_app; simpl; lia).
  simpl. unfold postfixR. now rewrite pop_app.
Qed.

(** At a bar. *)
Lemma loop_bar (pre post : jstring) (fuel : nat) (tokens : list regex) :
  parseLoopR parseR0 (pre ++ 124%N :: post) (S fuel) tokens (length pre)
  = (right <-- parseR0 post ;;
     match concatAllR tokens with
     | Some l => Some (Alt l right)
     | None => Some right
     end).
Proof.
  cbn [parseLoopR]. destruct (after_unit pre 124%N post) as [-> ->].
  rewrite charAt_app. reflexivity.
Qed.

(** At a literal. *)
Lemma loop_sym (pre post : jstring) (u : N) (fuel : nat) (tokens : list regex) :
  special u = false ->
  parseLoopR parseR0 (pre ++ u :: post) (S fuel) tokens (length pre)
  = parseLoopR parseR0 (pre ++ u :: post) fuel (tokens ++ [Sym [u]]) (length pre + 1).
Proof.
  intro Hu. apply special_false in Hu as (H1 & H2 & H3 & H4 & H5 & H6 & H7 & H8).
  apply N.eqb_neq in H1, H2, H3, H4, H5, H6, H7, H8.
  cbn [parseLoopR]. rewrite (proj1 (after_unit pre _ post)), charAt_app.
  unfold symbolOf, LAMBDA. simpl str_eqb.
  now rewrite H1, H3, H4, H5, H6, H7, H8.
Qed.

End Steps.

Lemma parseR_nil (fuel : nat) : 0 < fuel -> parseR fuel [] = Some Eps.
Proof. destruct fuel; [lia|reflexivity]. Qed.

Lemma parseR_unfold (fuel : nat) (expr : jstring) :
  0 < length expr ->
  parseR (S fuel) expr = parseLoopR (parseR fuel) expr (length expr) [] 0.
Proof.
  intro H. cbn [parseR]. destruct (length expr =? 0) eqn:E; [|reflexivity].
  apply Nat.eqb_eq in E. lia.
Qed.

Lemma reads_group (p : jstring) (e : regex) : reads p e -> reads (group p) e.
Proof.
  intros [Hb Hp]. split; [now apply balanced_group|].
  intros fuel Hfuel. rewrite group_length in Hfuel.
  destruct fuel as [|fuel]; [lia|].
  rewrite parseR_unfold by (rewrite group_length; lia).
  rewrite group_length. replace (length p + 2) with (S (S (length p))) by lia.
  rewrite <- (app_nil_r (group p)).
  change (parseLoopR (parseR fuel) ([] ++ group p ++ []) (S (S (length p))) []
                     (length (@nil N)) = Some e).
  rewrite (loop_group (parseR fuel) [] p [] e); [|exact Hb|apply Hp; lia].
  rewrite app_nil_r. cbn [app]. rewrite loop_end. reflexivity.
Qed.

Lemma reads_print (e : regex) : printable e -> reads (print e) e.
Proof.
  induction e as [|c|a IHa b IHb|a IHa b IHb|a IHa|a IHa|a IHa]; cbn [print printable].
  - intros _. apply reads_group. split; [apply balanced_nil|].
    intros fuel H. now apply parseR_nil.
  - intros (u & -> & Hu). split.
    + pose proof (special_false u Hu). apply balanced_unit; tauto.
    + intros fuel Hfuel. simpl in Hfuel. destruct fuel as [|fuel]; [lia|].
      rewrite parseR_unfold by (simpl; lia).
      change (parseLoopR (parseR fuel) ([] ++ u :: []) 1 [] (length (@nil N))
              = Some (Sym [u])).
      rewrite (loop_sym (parseR fuel) [] [] u 0 [] Hu).
      change (parseLoopR (parseR fuel) [u] 0 [Sym [u]] (length [u]) = Some (Sym [u])).
      now rewrite loop_end.
  - intros [Ha Hb]. destruct (IHa Ha) as [Ba Pa]. destruct (IHb Hb) as [Bb Pb].
    split; [apply balanced_app; now apply balanced_group|].
    intros fuel Hfuel. rewrite length_app, !group_length in Hfuel.
    destruct fuel as [|fuel]; [lia|].
    rewrite parseR_unfold by (rewrite length_app, !group_length; lia).
    rewrite length_app, !group_length.
    replace (length (print a) + 2 + (length (print b) + 2))
      with (S (S (length (print a) + length (print b) + 2))) by lia.
    change (parseLoopR (parseR fuel) ([] ++ group (print a) ++ group (print b))
                       (S (S (length (print a) + length (print b) + 2))) []
                       (length (@nil N)) = Some (Cat a b)).
    rewrite (loop_group (parseR fuel) [] (print a) (group (print b)) a);
      [|exact Ba|apply Pa; lia].
    cbn [app].
    rewrite <- (app_nil_r (group (print b))).
    rewrite (loop_group (parseR fuel) (group (print a)) (print b) [] b);
      [|exact Bb|apply Pb; lia].
    rewrite app_nil_r, loop_end. reflexivity.
  - intros [Ha Hb]. destruct (IHa Ha) as [Ba Pa].
    pose proof (reads_group _ _ (IHb Hb)) as [Bb Pb].
    split.
    { apply balanced_app; [now apply balanced_group|].
      apply (balanced_app (lit "|")); [apply balanced_unit; discriminate|exact Bb]. }
    intros fuel Hfuel. rewrite !length_app, !group_length in Hfuel. simpl in Hfuel.
    destruct fuel as [|fuel]; [lia|].
    rewrite parseR_unfold by (rewrite !length_app, !group_length; simpl; lia).
    rewrite !length_app, !group_length. simpl length.
    replace (length (print a) + 2 + (1 + (length (print b) + 2)))
      with (S (S (length (print a) + length (print b) + 3))) by lia.
    change (parseLoopR (parseR fuel)
                       ([] ++ group (print a) ++ lit "|" ++ group (print b))
                       (S (S (length (print a) + length (print b) + 3))) []
                       (length (@nil N)) = Some (Alt a b)).
    rewrite (loop_group (parseR fuel) [] (print a) (lit "|" ++ group (print b)) a);
      [|exact Ba|apply Pa; lia].
    cbn [app].
    change (group (print a) ++ lit "|" ++ group (print b))
      with (group (print a) ++ 124%N :: group (print b)).
    rewrite (loop_bar (parseR fuel) (group (print a)) (group (print b))).
    unfold obind. rewrite Pb by (rewrite group_length; lia). reflexivity.
  - intro Ha. destruct (IHa Ha) as [Ba Pa].
    split; [apply balanced_app; [now apply balanced_group|apply balanced_unit; discriminate]|].
    intros fuel Hfuel. rewrite length_app, group_length in Hfuel. simpl in Hfuel.
    destruct fuel as [|fuel]; [lia|].
    rewrite parseR_unfold by (rewrite length_app, group_length; simpl; lia).
    rewrite length_app, group_length. simpl length.
    replace (length (print a) + 2 + 1) with (S (S (length (print a) + 1))) by lia.
    change (parseLoopR (parseR fuel) ([] ++ group (print a) ++ lit "*")
                       (S (S (length (print a) + 1))) [] (length (@nil N))
            = Some (Star a)).
    rewrite (loop_group (parseR fuel) [] (print a) (lit "*") a);
      [|exact Ba|apply Pa; lia].
    cbn [app].
    change (group (print a) ++ lit "*") with (group (print a) ++ 42%N :: []).
    rewrite (loop_star (parseR fuel) (group (print a)) [] _ [] a).
    replace (length (group (print a)) + 1) with (length (group (print a) ++ [42%N]))
      by (rewrite length_app; reflexivity).
    now rewrite loop_end.
  - intro Ha. destruct (IHa Ha) as [Ba Pa].
    split; [apply balanced_app; [now apply balanced_group|apply balanced_unit; discriminate]|].
    intros fuel Hfuel. rewrite length_app, group_length in Hfuel. simpl in Hfuel.
    destruct fuel as [|fuel]; [lia|].
    rewrite parseR_unfold by (rewrite length_app, group_length; simpl; lia).
    rewrite length_app, group_length. simpl length.
    replace (length (print a) + 2 + 1) with (S (S (length (print a) + 1))) by lia.
    change (parseLoopR (parseR fuel) ([] ++ group (print a) ++ lit "+")
                       (S (S (length (print a) + 1))) [] (length (@nil N))
            = Some (Plus a)).
    rewrite (loop_group (parseR fuel) [] (print a) (lit "+") a);
      [|exact Ba|apply Pa; lia].
    cbn [app].
    change (group (print a) ++ lit "+") with (group (print a) ++ 43%N :: []).
    rewrite (loop_plus (parseR fuel) (group (print a)) [] _ [] a).
    replace (length (group (print a)) + 1) with (length (group (print a) ++ [43%N]))
      by (rewrite length_app; reflexivity).
    now rewrite loop_end.
  - intro Ha. destruct (IHa Ha) as [Ba Pa].
    split; [apply balanced_app; [now apply balanced_group|apply balanced_unit; discriminate]|].
    intros fuel Hfuel. rewrite length_app, group_length in Hfuel. simpl in Hfuel.
    destruct fuel as [|fuel]; [lia|].
    rewrite parseR_unfold by (rewrite length_app, group_length; simpl; lia).
    rewrite length_app, group_length. simpl length.
    replace (length (print a) + 2 + 1) with (S (S (length (print a) + 1))) by lia.
    change (parseLoopR (parseR fuel) ([] ++ group (print a) ++ lit "?")
                       (S (S (length (print a) + 1))) [] (length (@nil N))
            = Some (Opt a)).
    rewrite (loop_group (parseR fuel) [] (print a) (lit "?") a);
      [|exact Ba|apply Pa; lia].
    cbn [app].
    change (group (print a) ++ lit "?") with (group (print a) ++ 63%N :: []).
    rewrite (loop_opt (parseR fuel) (group (print a)) [] _ [] a).
    replace (length (group (print a)) + 1) with (length (group (print a) ++ [63%N]))
      by (rewrite length_app; reflexivity).
    now rewrite loop_end.
Qed.

(** *** The page on a regex *)

(** The pipeline of the page on a regex, in terms of the expression read. *)
Lemma pipeline_denotes (input : jstring) (h : Heap) :
  exists r,
    regexOf input = Some r /\
    (exists fuel dfa h', pipeline fuel input h = Some (dfa, h')) /\
    forall fuel dfa h' w,
      pipeline fuel input h = Some (dfa, h') ->
      exists b,
        validateString dfa w h' = Some (b, h') /\
        (b = true <-> matches r (codePoints w)).
Proof.
  destruct (regexToNFALambda_denotes input h)
    as (r & nfaL & h1 & objs & s0 & Er & E1 & Hv & Hf & Hnd & Hids & Hends & Hl).
  destruct (conversions_accept_same h1 nfaL objs s0 Hv Hnd Hends Hids Hf)
    as [(fuel & dfa & h' & E) Hall].
  exists r. split; [exact Er|]. split.
  - exists fuel, dfa, h'. unfold pipeline. unfold bind at 1. rewrite E1. exact E.
  - intros fuel' dfa' h'' w H. unfold pipeline in H. unfold bind at 1 in H.
    rewrite E1 in H. destruct (Hall fuel' dfa' h'' w H) as (b & Hb & Hiff).
    exists b. split; [exact Hb|]. rewrite Hiff. apply Hl.
Qed.

(** X21: the page decides the language of the regex.  For every regex and
    every string, the whole run ([regexToNFALambda], [nfaLambdaToNFA],
    [nfaToDFA], [validateString], from the empty heap) returns given enough
    fuel, and it answers true exactly when the code points of the string
    form a word of the expression that [parse] reads in the regex. *)
Theorem accepts_decides (input w : jstring) :
  exists r fuel b,
    regexOf input = Some r /\
    accepts fuel input w = Some b /\
    (b = true <-> matches r (codePoints w)).
Proof.
  destruct (pipeline_denotes input []) as (r & Er & (fuel & dfa & h' & E) & Hall).
  destruct (Hall fuel dfa h' w E) as (b & Hb & Hiff).
  exists r, fuel, b. split; [exact Er|]. split; [|exact Hiff].
  unfold accepts, bind. now rewrite E, Hb.
Qed.

(** X22: [parse] reads back what is written with every operand in
    parentheses: the expression itself. *)
Theorem print_parse (e : regex) : printable e -> regexOf (print e) = Some e.
Proof.
  intro H. destruct (reads_print e H) as [_ Hp]. apply Hp. lia.
Qed.

Lemma print_parse_witness :
  regexOf (lit "(((a)|(b))*)((a)(b))")
  = Some (Cat (Star (Alt (Sym (lit "a")) (Sym (lit "b"))))
              (Cat (Sym (lit "a")) (Sym (lit "b")))).
Proof.
  apply (print_parse (Cat (Star (Alt (Sym (lit "a")) (Sym (lit "b"))))
                          (Cat (Sym (lit "a")) (Sym (lit "b"))))).
  simpl. repeat split; eexists; split; reflexivity.
Defined.

(** X23: every regular expression can be put to the page.  For an
    expression whose symbols are single code units other than the
    characters [parse] gives a meaning to, the pipeline on the expression
    written with every operand in parentheses returns a DFA given enough
    fuel, and [validateString] on that DFA answers true exactly for the
    strings whose code points form a word of the expression. *)
Theorem printed_regex_decided (e : regex) (h : Heap) :
  printable e ->
  (exists fuel dfa h', pipeline fuel (print e) h = Some (dfa, h')) /\
  forall fuel dfa h' w,
    pipeline fuel (print e) h = Some (dfa, h') ->
    exists b,
      validateString dfa w h' = Some (b, h') /\
      (b = true <-> matches e (codePoints w)).
Proof.
  intro He. destruct (pipeline_denotes (print e) h) as (r & Er & Hrun & Hall).
  destruct (reads_print e He) as [_ Hp].
  unfold regexOf in Er. rewrite Hp in Er by lia. injection Er as <-.
  split; [exact Hrun|exact Hall].
Qed.

Lemma printed_regex_decided_witness :
  (exists fuel dfa h', pipeline fuel (lit "((a))*") [] = Some (dfa, h')) /\
  forall fuel dfa h' w,
    pipeline fuel (lit "((a))*") [] = Some (dfa, h') ->
    exists b,
      validateString dfa w h' = Some (b, h') /\
      (b = true <-> matches (Star (Sym (lit "a"))) (codePoints w)).
Proof.
  apply (printed_regex_decided (Star (Sym (lit "a"))) []).
  simpl. eexists. split; reflexivity.
Defined.

(** *** Symbols are single code units *)

Lemma matches_units (e : regex) :
  units e -> forall w, matches e w -> Forall (fun c => length c = 1) w.
Proof.
  assert (Hconcat : forall (P : list jstring -> Prop) ws,
             (forall w, P w -> Forall (fun c => length c = 1) w) ->
             Forall P ws -> Forall (fun c => length c = 1) (concat ws)).
  { intros P ws HP H. induction H as [|v ws Hv _ IH]; simpl; [constructor|].
    apply Forall_app. auto. }
  induction e as [|c|a IHa b IHb|a IHa b IHb|a IHa|a IHa|a IHa]; simpl; intros Hu w Hw.
  - subst. constructor.
  - subst. constructor; [exact Hu|constructor].
  - destruct Hw as (w1 & w2 & -> & H1 & H2). destruct Hu. apply Forall_app. auto.
  - destruct Hu. destruct Hw; auto.
  - destruct Hw as (ws & -> & Hws). apply (Hconcat (matches a)); auto.
  - destruct Hw as (w0 & ws & -> & H0 & Hws). apply Forall_app.
    split; [auto|]. apply (Hconcat (matches a)); auto.
  - destruct Hw as [->|Hw]; [constructor|auto].
Qed.

Lemma concatAllR_units (tokens : list regex) (r : regex) :
  Forall units tokens -> concatAllR tokens = Some r -> units r.
Proof.
  unfold concatAllR.
  assert (G : forall tokens acc r,
             Forall units tokens ->
             (forall a, acc = Some a -> units a) ->
             fold_left (fun acc t => match acc with
                                     | Some a => Some (Cat a t)
                                     | None => Some t
                                     end) tokens acc = Some r -> units r).
  { clear. induction tokens as [|t tokens IH]; simpl; intros acc r Ht Hacc H; [auto|].
    inversion Ht; subst. eapply IH; [eassumption| |exact H].
    intros a Ea. destruct acc as [a0|]; injection Ea as <-; simpl; auto. }
  intros Ht H. eapply G; eauto. discriminate.
Qed.

Lemma postfixR_units (op : regex -> regex) (tokens tokens' : list regex) :
  (forall e, units e -> units (op e)) ->
  Forall units tokens -> postfixR op tokens = Some tokens' -> Forall units tokens'.
Proof.
  intros Hop Ht H. unfold postfixR in H.
  destruct (pop tokens) as [[last rest]|] eqn:Ep; [|discriminate].
  injection H as <-.
  assert (Hlen : 0 < length tokens).
  { destruct tokens; [discriminate|simpl; lia]. }
  destruct (pop_Some tokens Hlen) as (x & l' & Ep' & ->).
  rewrite Ep in Ep'. injection Ep' as <- <-.
  apply Forall_app in Ht as [Hrest Hlast]. apply Forall_app. split; [exact Hrest|].
  inversion Hlast; subst. constructor; [auto|constructor].
Qed.

Lemma charAt_length (expr : jstring) (i : nat) :
  i < length expr -> length (charAt expr i) = 1.
Proof.
  intro H. unfold charAt. rewrite length_firstn, length_skipn. lia.
Qed.

Lemma parseLoopR_units (parseR0 : jstring -> option regex) (expr : jstring) :
  (forall sub r, parseR0 sub = Some r -> units r) ->
  forall fuel tokens i r,
    Forall units tokens ->
    parseLoopR parseR0 expr fuel tokens i = Some r -> units r.
Proof.
  intro Hsub.
  assert (Hend : forall tokens r,
             Forall units tokens ->
             match concatAllR tokens with Some r => Some r | None => Some Eps end = Some r ->
             units r).
  { intros tokens r Ht H. destruct (concatAllR tokens) as [r0|] eqn:E.
    - injection H as <-. eapply concatAllR_units; eauto.
    - injection H as <-. exact I. }
  induction fuel as [|fuel IH]; intros tokens i r Ht H; cbn [parseLoopR] in H.
  - destruct (i <? length expr); [discriminate|eauto].
  - destruct (i <? length expr) eqn:Hi; [|eauto]. apply Nat.ltb_lt in Hi.
    assert (Hpost : forall op,
               (forall e, units e -> units (op e)) ->
               (tokens' <-- postfixR op tokens ;; parseLoopR parseR0 expr fuel tokens' (i + 1))
               = Some r -> units r).
    { intros op Hop Hr. unfold obind in Hr.
      destruct (postfixR op tokens) as [tokens'|] eqn:Ep; [|discriminate].
      eapply IH; [|exact Hr]. eapply postfixR_units; eauto. }
    destruct (str_eqb (charAt expr i) (lit "(")).
    { unfold obind in H.
      destruct (parseR0 _) as [r1|] eqn:E1; [|discriminate].
      eapply IH; [|exact H]. apply Forall_app. split; [exact Ht|].
      constructor; [eapply Hsub; eauto|constructor]. }
    destruct (str_eqb (charAt expr i) (lit "*") && (0 <? length tokens));
      [apply (Hpost Star); auto|].
    destruct (str_eqb (charAt expr i) (lit "+") && (0 <? length tokens));
      [apply (Hpost Plus); auto|].
    destruct (str_eqb (charAt expr i) (lit "?") && (0 <? length tokens));
      [apply (Hpost Opt); auto|].
    destruct (str_eqb (charAt expr i) (lit "|")).
    { unfold obind in H.
      destruct (parseR0 _) as [r2|] eqn:E2; [|discriminate].
      apply Hsub in E2.
      destruct (concatAllR tokens) as [l|] eqn:El; injection H as <-; [|exact E2].
      split; [eapply concatAllR_units; eauto|exact E2]. }
    destruct (negb (str_eqb (charAt expr i) (lit " "))); [|eauto].
    eapply IH; [|exact H]. apply Forall_app. split; [exact Ht|].
    constructor; [|constructor]. unfold symbolOf.
    destruct (str_eqb (charAt expr i) LAMBDA); [exact I|].
    now apply charAt_length.
Qed.

Lemma parseR_units (fuel : nat) :
  forall expr r, parseR fuel expr = Some r -> units r.
Proof.
  induction fuel as [|fuel IH]; intros expr r H; [discriminate|].
  cbn [parseR] in H. destruct (length expr =? 0).
  - injection H as <-. exact I.
  - eapply parseLoopR_units; [exact IH|constructor|exact H].
Qed.

Lemma codePoints_pair (c d : N) (post : jstring) :
  isHigh c = true -> isLow d = true ->
  forall n pre, length pre <= n -> In [c; d] (codePoints (pre ++ c :: d :: post)).
Proof.
  intros Hc Hd.
  assert (Hnl : isLow c = false).
  { unfold isHigh, isLow in *. apply andb_true_iff in Hc as [H1 H2].
    apply N.leb_le in H1, H2. apply andb_false_iff. left. apply N.leb_gt. lia. }
  induction n as [|n IH]; intros pre Hlen.
  - destruct pre; [|simpl in Hlen; lia]. simpl. rewrite Hc, Hd. now left.
  - destruct pre as [|x [|y pre]].
    + simpl. rewrite Hc, Hd. now left.
    + change (([x] ++ c :: d :: post)) with (x :: c :: d :: post).
      cbn [codePoints]. rewrite Hnl, andb_false_r. right.
      apply (IH []). simpl. lia.
    + change ((x :: y :: pre) ++ c :: d :: post)
        with (x :: y :: (pre ++ c :: d :: post)).
      cbn [codePoints]. destruct (isHigh x && isLow y).
      * right. apply IH. simpl in Hlen. lia.
      * right. apply (IH (y :: pre)). simpl in *. lia.
Qed.

(** X24: no regex reaches beyond the basic plane.  [parse] takes its input
    one code unit at a time and [validateString] takes its input one code
    point at a time, so whatever the regex, a string that holds a surrogate
    pair is rejected. *)
Theorem pipeline_rejects_astral (input : jstring) (h : Heap) (fuel : nat)
    (dfa : Automaton) (h' : Heap) (pre post : jstring) (c d : N) :
  pipeline fuel input h = Some (dfa, h') ->
  isHigh c = true -> isLow d = true ->
  validateString dfa (pre ++ c :: d :: post) h' = Some (false, h').
Proof.
  intros H Hc Hd.
  destruct (pipeline_denotes input h) as (r & Er & _ & Hall).
  destruct (Hall fuel dfa h' (pre ++ c :: d :: post) H) as (b & Hb & Hiff).
  destruct b; [|exact Hb]. exfalso.
  pose proof (proj1 Hiff eq_refl) as Hm.
  apply (matches_units r (parseR_units _ _ _ Er)) in Hm.
  rewrite Forall_forall in Hm.
  specialize (Hm [c; d] (codePoints_pair c d post Hc Hd (length pre) pre (le_n _))).
  discriminate.
Qed.

Lemma pipeline_rejects_astral_witness :
  exists dfa h',
    pipeline 3 [55357%N; 56832%N] [] = Some (dfa, h') /\
    validateString dfa [55357%N; 56832%N] h' = Some (false, h').
Proof.
  assert (E : exists dfa h', pipeline 3 [55357%N; 56832%N] [] = Some (dfa, h'))
    by (eexists _, _; vm_compute; reflexivity).
  destruct E as (dfa & h' & E). exists dfa, h'. split; [exact E|].
  exact (pipeline_rejects_astral _ _ _ _ _ [] [] 55357%N 56832%N E eq_refl eq_refl).
Defined.

(** ** The call stack, and a quantifier with no operand *)

(** [parseLoop] asks [parse] about strictly shorter expressions only. *)
Lemma parseLoop_ext (p1 p2 : jstring -> B NFAFragment) (expr : jstring) :
  (forall sub s, length sub < length expr -> p1 sub s = p2 sub s) ->
  forall fuel tokens i s,
    parseLoop p1 expr fuel tokens i s = parseLoop p2 expr fuel tokens i s.
Proof.
  intros Hp. induction fuel as [|fuel IH]; intros tokens i s; cbn [parseLoop].
  - reflexivity.
  - destruct (i <? length expr) eqn:Hi; [|reflexivity].
    apply Nat.ltb_lt in Hi.
    destruct (str_eqb (charAt expr i) (lit "(")).
    { set (j := matchParen (skipn (i + 1) expr) 1 (i + 1)).
      unfold bind. rewrite Hp.
      - destruct (p2 (slice expr (i + 1) (j - 1)) s) as [[f s1]|]; [apply IH|reflexivity].
      - pose proof (slice_length expr (i + 1) (j - 1)). lia. }
    destruct (str_eqb (charAt expr i) (lit "*") && (0 <? length tokens)).
    { unfold bind. destruct (postfix kleeneStar tokens s) as [[t s1]|];
        [apply IH|reflexivity]. }
    destruct (str_eqb (charAt expr i) (lit "+") && (0 <? length tokens)).
    { unfold bind. destruct (postfix kleenePlus tokens s) as [[t s1]|];
        [apply IH|reflexivity]. }
    destruct (str_eqb (charAt expr i) (lit "?") && (0 <? length tokens)).
    { unfold bind. destruct (postfix optional tokens s) as [[t s1]|];
        [apply IH|reflexivity]. }
    destruct (str_eqb (charAt expr i) (lit "|")).
    { unfold bind. destruct (concatAll tokens s) as [[l s1]|]; [|reflexivity].
      rewrite Hp; [reflexivity|].
      pose proof (slice_length expr (i + 1) (length expr)). lia. }
    destruct (negb (str_eqb (charAt expr i) (lit " "))); apply IH.
Qed.

(** A stack with room for one activation per character is as good as any
    deeper one. *)
Lemma parse_stack (fuel1 : nat) :
  forall fuel2 expr s,
    length expr < fuel1 -> length expr < fuel2 ->
    parse fuel1 expr s = parse fuel2 expr s.
Proof.
  induction fuel1 as [|fuel1 IH]; intros fuel2 expr s H1 H2; [lia|].
  destruct fuel2 as [|fuel2]; [lia|]. cbn [parse].
  destruct (length expr =? 0); [reflexivity|].
  apply parseLoop_ext. intros sub s1 Hsub. apply IH; lia.
Qed.

Lemma regexToNFALambdaWithin_enough (stack : nat) (regex : jstring) (h : Heap) :
  length regex < stack ->
  regexToNFALambdaWithin stack regex h = regexToNFALambda regex h.
Proof.
  intro H. unfold regexToNFALambdaWithin, regexToNFALambda.
  rewrite (parse_stack stack (S (length regex))) by lia. reflexivity.
Qed.

(** The bound is reached: [n] bars take [n + 1] nested activations, so a
    stack with room for [n] is exhausted. *)
Lemma parse_bars (n : nat) (s : Builder) :
  parse n (repeat 124%N n) s = None.
Proof.
  revert s; induction n as [|n IH]; intro s; [reflexivity|].
  cbn [parse]. cbn [repeat length Nat.eqb].
  cbn [parseLoop]. cbn [Nat.ltb Nat.leb length].
  change (charAt (124%N :: repeat 124%N n) 0) with [124%N].
  cbn -[parse slice length]. unfold bind, concatAll. cbn [foldM]. unfold ret.
  replace (slice (124%N :: repeat 124%N n) 1 (S (length (repeat 124%N n))))
    with (repeat 124%N n).
  - now rewrite IH.
  - unfold slice. cbn [skipn Nat.sub]. rewrite Nat.sub_0_r.
    now rewrite firstn_all.
Qed.

Lemma regexToNFALambdaWithin_overflow (n : nat) (h : Heap) :
  regexToNFALambdaWithin n (repeat 124%N n) h = None.
Proof. unfold regexToNFALambdaWithin. now rewrite parse_bars. Qed.

(** Takes a builder run that returned apart, bind by bind. *)
Ltac unbind H :=
  repeat match type of H with
         | bind ?m _ ?s = Some _ =>
           let E := fresh "E" in
           unfold bind at 1 in H; destruct (m s) as [[? ?]|] eqn:E; [|discriminate H]
         end.

Lemma createBasicNFA_labels (c : jstring) (s s' : Builder) (f : NFAFragment) :
  createBasicNFA c s = Some (f, s') -> labels c f.
Proof.
  unfold createBasicNFA. intro H. unbind H. injection H as <- _.
  eexists. split; [left; reflexivity|reflexivity].
Qed.

Lemma concatenate_labels (c : jstring) (f1 f2 r : NFAFragment) (s s' : Builder) :
  concatenate f1 f2 s = Some (r, s') -> labels c f1 \/ labels c f2 -> labels c r.
Proof.
  unfold concatenate. intros H Hl. unbind H. injection H as <- _.
  destruct Hl as [(t & Ht & Hc)|(t & Ht & Hc)]; exists t; (split; [|exact Hc]);
    cbn [NFAFragment.transitions]; rewrite !in_app_iff; auto.
Qed.

Lemma union_labels (c : jstring) (f1 f2 r : NFAFragment) (s s' : Builder) :
  union f1 f2 s = Some (r, s') -> labels c f1 \/ labels c f2 -> labels c r.
Proof.
  unfold union. intros H Hl. unbind H. injection H as <- _.
  destruct Hl as [(t & Ht & Hc)|(t & Ht & Hc)]; exists t; (split; [|exact Hc]);
    cbn [NFAFragment.transitions]; rewrite !in_app_iff; auto.
Qed.

Lemma wrap_labels (c : jstring) (f r : NFAFragment) edges (s s' : Builder) :
  wrap f edges s = Some (r, s') -> labels c f -> labels c r.
Proof.
  unfold wrap. intros H (t & Ht & Hc). unbind H. injection H as <- _.
  exists t. split; [|exact Hc]. cbn [NFAFragment.transitions]. rewrite in_app_iff. auto.
Qed.

Lemma fragmentOf_labels (c : jstring) (t : token) (f : NFAFragment) (s s' : Builder) :
  fragmentOf t s = Some (f, s') -> mentions c t -> labels c f.
Proof.
  destruct t as [c'|f']; simpl; intros H Hm.
  - subst c'. eapply createBasicNFA_labels; eauto.
  - unfold ret in H. injection H as <- _. exact Hm.
Qed.

Lemma concatAll_from_labels (c : jstring) (tokens : list token) :
  forall acc s r s',
    foldM (fun acc t =>
             frag <- fragmentOf t ;;
             match acc with
             | Some a => r <- concatenate a frag ;; ret (Some r)
             | None => ret (Some frag)
             end) tokens acc s = Some (r, s') ->
    Exists (mentions c) tokens \/ (exists a, acc = Some a /\ labels c a) ->
    exists f, r = Some f /\ labels c f.
Proof.
  induction tokens as [|t tokens IH]; intros acc s r s' H Hm.
  - cbn [foldM] in H. unfold ret in H. injection H as <- _.
    destruct Hm as [Hm|Hm]; [inversion Hm|exact Hm].
  - cbn [foldM] in H. unfold bind at 1 in H.
    destruct (bind (fragmentOf t) _ s) as [[acc1 s1]|] eqn:E1; [|discriminate].
    apply (IH _ _ _ _ H).
    assert (Hstep : mentions c t \/ (exists a, acc = Some a /\ labels c a) ->
                    exists a1, acc1 = Some a1 /\ labels c a1).
    { intro Hh. unfold bind at 1 in E1.
      destruct (fragmentOf t s) as [[frag s0]|] eqn:E0; [|discriminate].
      assert (Hfrag : mentions c t -> labels c frag)
        by (eapply fragmentOf_labels; eauto).
      destruct acc as [a|].
      - unfold bind at 1 in E1.
        destruct (concatenate a frag s0) as [[r1 s2]|] eqn:E2; [|discriminate].
        unfold ret in E1. injection E1 as <- _.
        exists r1. split; [reflexivity|].
        eapply concatenate_labels; [exact E2|].
        destruct Hh as [Hh|(a' & [= <-] & Ha)]; auto.
      - unfold ret in E1. injection E1 as <- _.
        exists frag. split; [reflexivity|].
        destruct Hh as [Hh|(a' & [=] & _)]. auto. }
    destruct Hm as [Hm|Hm]; [|auto].
    inversion Hm; subst; auto.
Qed.

Lemma concatAll_labels (c : jstring) (tokens : list token) (s s' : Builder)
    (r : option NFAFragment) :
  concatAll tokens s = Some (r, s') -> Exists (mentions c) tokens ->
  exists f, r = Some f /\ labels c f.
Proof.
  intros H Hm. eapply concatAll_from_labels; [exact H|auto].
Qed.

Lemma postfix_mentions (c : jstring) (op : NFAFragment -> B NFAFragment)
    (tokens tokens' : list token) (s s' : Builder) :
  (forall f r s s', op f s = Some (r, s') -> labels c f -> labels c r) ->
  postfix op tokens s = Some (tokens', s') ->
  Exists (mentions c) tokens -> Exists (mentions c) tokens'.
Proof.
  intros Hop H Hm. unfold postfix in H.
  destruct (pop tokens) as [[last rest]|] eqn:Ep; [|discriminate].
  assert (Et : tokens = rest ++ [last]).
  { destruct (pop_Some tokens) as (x & l' & E & ->).
    - destruct tokens; [discriminate|simpl; lia].
    - rewrite pop_app in Ep. now injection Ep as <- <-. }
  subst tokens. unbind H. unfold ret in H. injection H as <- _.
  apply Exists_app in Hm as [Hm|Hm]; apply Exists_app; [now left|right].
  constructor. cbn [mentions]. inversion Hm as [? ? Hl|? ? Hl]; subst; [|inversion Hl].
  eapply Hop; [eassumption|]. eapply fragmentOf_labels; eauto.
Qed.

(** A symbol that a token holds is a label of what [parseLoop] returns. *)
Lemma parseLoop_labels (c : jstring) (parse : jstring -> B NFAFragment) (expr : jstring) :
  forall fuel tokens i s r s',
    Exists (mentions c) tokens ->
    parseLoop parse expr fuel tokens i s = Some (r, s') ->
    labels c r.
Proof.
  assert (Hend : forall tokens s r s',
             Exists (mentions c) tokens ->
             (x <- concatAll tokens ;;
              match x with
              | Some f => ret f
              | None => createBasicNFA LAMBDA
              end) s = Some (r, s') -> labels c r).
  { intros tokens s r s' Hm H. unbind H.
    destruct (concatAll_labels c _ _ _ _ E Hm) as (f & -> & Hf).
    unfold ret in H. now injection H as <- _. }
  induction fuel as [|fuel IH]; intros tokens i s r s' Hm H; cbn [parseLoop] in H.
  - destruct (i <? length expr); [discriminate|]. eapply Hend; eauto.
  - destruct (i <? length expr); [|eapply Hend; eauto].
    assert (Hpost : forall op,
               (forall f r s s', op f s = Some (r, s') -> labels c f -> labels c r) ->
               (tokens' <- postfix op tokens ;;
                parseLoop parse expr fuel tokens' (i + 1)) s = Some (r, s') ->
               labels c r).
    { intros op Hop H'. unbind H'.
      eapply IH; [|exact H']. eapply postfix_mentions; eauto. }
    destruct (str_eqb (charAt expr i) (lit "(")).
    { unbind H. eapply IH; [|exact H]. apply Exists_app. now left. }
    destruct (str_eqb (charAt expr i) (lit "*") && (0 <? length tokens)).
    { eapply Hpost; [|exact H]. intros; eapply wrap_labels; eauto. }
    destruct (str_eqb (charAt expr i) (lit "+") && (0 <? length tokens)).
    { eapply Hpost; [|exact H]. intros; eapply wrap_labels; eauto. }
    destruct (str_eqb (charAt expr i) (lit "?") && (0 <? length tokens)).
    { eapply Hpost; [|exact H]. intros; eapply wrap_labels; eauto. }
    destruct (str_eqb (charAt expr i) (lit "|")).
    { unbind H.
      destruct (concatAll_labels c _ _ _ _ E Hm) as (f & -> & Hf).
      eapply union_labels; [exact H|now left]. }
    destruct (negb (str_eqb (charAt expr i) (lit " "))).
    + eapply IH; [|exact H]. apply Exists_app. now left.
    + eapply IH; eauto.
Qed.

(** C1, as the code has it, for the quantifier.  On a regex with paired
    parentheses that starts with a quantifier, [regexToNFALambda] signals
    no failure as long as the call stack has room for one activation of
    [parse] per character and one more: it returns an automaton, and the
    quantifier is a symbol of its alphabet, read as a literal character.
    What an unclosed group yields is no part of this statement. *)
Theorem regexToNFALambda_leading_quantifier (stack : nat) (c : N) (rest : jstring)
    (h : Heap) :
  leadingQuantifier (c :: rest) = true ->
  balancedFrom 0 (c :: rest) = true ->
  length (c :: rest) < stack ->
  exists nfaL h',
    regexToNFALambdaWithin stack (c :: rest) h = Some (nfaL, h') /\
    In [c] (alphabet nfaL).
Proof.
  intros Hq _ Hstack.
  destruct (regexToNFALambda_total (c :: rest) h) as (nfaL & h' & E).
  rewrite <- (regexToNFALambdaWithin_enough stack) in E by exact Hstack.
  exists nfaL, h'. split; [exact E|].
  unfold regexToNFALambdaWithin in E.
  destruct (parse stack (c :: rest) _) as [[result s]|] eqn:Ep; [|discriminate].
  injection E as <- _. cbn [alphabet].
  apply new_Set_In, filter_In.
  destruct stack as [|stack]; [simpl in Hstack; lia|].
  cbn [parse length Nat.eqb parseLoop Nat.ltb Nat.leb] in Ep.
  change (charAt (c :: rest) 0) with [c] in Ep.
  assert (Hlab : labels [c] result).
  { unfold leadingQuantifier in Hq.
    apply orb_true_iff in Hq as [Hq|Hq]; [apply orb_true_iff in Hq as [Hq|Hq]|];
      apply N.eqb_eq in Hq; subst c;
      cbn -[parseLoop parse] in Ep;
      (eapply parseLoop_labels; [|exact Ep]); constructor; reflexivity. }
  destruct Hlab as (t & Ht & Hc). split.
  - rewrite <- Hc. now apply in_map.
  - unfold leadingQuantifier in Hq.
    apply orb_true_iff in Hq as [Hq|Hq]; [apply orb_true_iff in Hq as [Hq|Hq]|];
      apply N.eqb_eq in Hq; subst c; reflexivity.
Qed.

Lemma regexToNFALambda_leading_quantifier_witness :
  leadingQuantifier (lit "*a") = true /\
  balancedFrom 0 (lit "*a") = true /\
  exists nfaL h',
    regexToNFALambdaWithin 3 (lit "*a") [] = Some (nfaL, h') /\
    In (lit "*") (alphabet nfaL).
Proof.
  split; [reflexivity|]. split; [reflexivity|].
  apply (regexToNFALambda_leading_quantifier 3 42%N (lit "a") []);
    [reflexivity|reflexivity|simpl; lia].
Defined.
